(* ===== verification/_CoqProject ===== *)
-Q . S2P
Prelude.v
StateDB.v
AlienTypes.v
AlienVotes.v
AlienProposal.v
AlienQueue.v
GoText.v
Hexutil.v
AlienSideChain.v
AlienApply.v
AlienReward.v
AlienTx.v
AlienEngine.v
AlienAPI.v
AlienSeal.v
Examples.v
Witnesses.v
