(* ===== verification/Prelude.v ===== *)
(** * A verification of bjut_eth: the alien engine and the account state

    [bjut_eth] is an Ethereum node with a consensus engine of its own, [alien]
    ([src/consensus/alien]): delegated proof of stake. Accounts vote with their
    balance, the candidates with most stake form a queue of signers, each signer
    seals in its slot of a loop, missing a slot costs credit, proposals change
    the parameters of the chain, and side chains run under the same signers and
    report to the main chain. Votes, confirmations, proposals and side-chain
    events are text in the data of transactions; the block producer collects
    them into the extra data of the header; every node folds headers into a
    snapshot, from which it draws the queue, checks seals and pays rewards into
    the account state ([src/core/state]).

    ** Files, what they model, and how the parts meet

    - [Prelude]: outcomes of Go code ([res]: [Ok], [Err], [Panic], [Hang]) with
      their monad, wrapping 64-bit integers, slices with their panics, record
      update, the class [GoRuntime] (the order in which [range] visits a map and
      the permutation [sort.Sort] picks), sums over lists and maps.
    - [StateDB]: [core/state/statedb.go], [state_object.go], [journal.go]: live
      objects over the account trie, journal, revisions. It implements the
      interface [Balances] of [AlienReward] (instance in [Examples]).
    - [AlienTypes]: the structures and constants of the engine, [params] and
      [core/types/block.go]. [Snapshot] is the struct of [snapshot.go]; its
      proposals are cells of the heap [pheap], because the source shares them.
    - [AlienVotes], [AlienProposal], [AlienQueue], [AlienSideChain]: the updates
      of a snapshot ([snapshot.go], [signer_queue.go]), one definition per
      method, with the bodies of its loops named.
    - [GoText], [Hexutil]: text of the standard library that the code uses, and
      [common/hexutil], [common/bytes.go], [common/types.go].
    - [AlienApply]: [newSnapshot], [copy], [apply], the recovery of signers; the
      class [Env] holds hashing, public-key recovery and RLP. Snapshots form a
      state machine ([reachable]).
    - [AlienReward]: the rewards of a block. [AlienTx]: [custom_tx.go], from the
      bytes of a transaction to the recorded events; the class [ChainReader] is
      the chain as the engine reads it.
    - [AlienEngine]: [alien.go]: caches and store of snapshots, verification of
      headers and seals, [Finalize], [ApplyGenesis]. [AlienAPI]: [api.go] and
      [cross_chain.go]. [AlienSeal]: the node that seals.
    - [Examples]: executable instances of all interfaces, a chain of three
      signers. [Witnesses]: each theorem with hypotheses applied to them.

    ** What the theorems show

    - The snapshot machine: every reachable snapshot satisfies the invariant
      (the tally is the sum of the voted stakes, proposals are allocated, notices
      keep to their quorum, the history has its length); the run-time check of
      the tally never fires; headers are applied only in sequence; whatever the
      caches hold, the engine answers with the snapshot of the block asked for.
    - Agreement: the draw of the queue and the rewards do not depend on map
      order or sort algorithm (the draw outside the draw by levels); the
      validator accepts exactly the queue the producer draws; an honest block of
      the main chain is accepted by a node with another run time, clock and
      caches; an accepted header was sealed in turn with the right queue and
      missing signers; which signers are missing, for every queue.
    - Money: rewards are shared in proportion among the voters whose vote is old
      enough and never exceed their source, the issue is bounded, deposits are
      charged and refunded, punishments are charged slot by slot, the balances
      after a block are given account by account.
    - Side chains: where the confirmed number of a side chain may move and the
      quorum it needs, notices confirmed by more than two thirds, the scores of a
      period, the search of a block by time, the signer a side chain accepts, the
      round trip of the confirmation text.
    - Account state: going back to a revision restores everything an accessor
      can see, for any sequence of operations (a step relation), up to the
      setoid [sequiv].
    - Defects proved from the code as written: aliasing of proposals, settlement
      depending on map order, panics on malformed headers and transactions, two
      loops that never end, the contribution a reverted suicide loses, a queue of
      at most two signers that the search for missing signers overwrites.

    ** Modelling choices and bounds

    A [uint64] is a [Z] with wrap-around written out ([+u], [-u], [*u]); a
    [big.Int] is a [Z]; addresses and hashes are the values of their bytes. Memory
    that the source shares is modelled where it can be seen: the proposals of a
    block ([pheap]), the gas prices that become the amounts of the refunds
    ([refundAddGas]), and the array of a decoded queue, whose capacity is that of
    the decoder in [rlp/decode.go] ([decodedCap], [trantorQueue]). The loop of [gather] gets one more round than the block number and the search of
    [GetSnapshotByHeaderTime] three more than the current number; both are
    proved enough ([snapshot_search_ends], [GetSnapshotByHeaderTime_finds]), and
    running out is [Hang], never a value. A loop [for i := a; i <= b; i++] over
    unsigned numbers is [forIncl], which is [Hang] when [b] is the largest
    number.

    Hypotheses about code outside the model: RLP decoding never yields a
    negative stake ([rlp_unsigned]) and reads back what was written
    ([rlp_inverse]), a signing function signs for its account ([signs]), the
    cache only forgets ([cache_forgets]), the chain returns the header asked for
    (laws of [ChainReader]).

    ** Not modelled

    [VerifyHeaders] (a goroutine mapping [verifyHeader]), waits on clocks and
    channels, log output, JSON storage of snapshots (the store is a map), the
    sharing of the configuration pointer after the genesis block; of the account
    state [Commit], [ForEachStorage], [GetCodeSize], [StorageTrie] and database
    errors, with tries as finite maps. RLP, the trie, the virtual machine, the
    transaction pool, the block chain, the other engines, the network and the
    tools are not modelled (of RLP only the capacity of a decoded slice is). Planned next, in this order: [Finalise], [Copy] and
    [Commit] of the state, the state transition and the gas pool, the virtual
    machine's stack, memory and gas, the lists of the transaction pool, the
    snapshots of clique, RLP. *)
From stdpp Require Export base gmap list strings sorting.
From Stdlib Require Export ZArith Lia.
#[export] Set Warnings "-postfix-notation-not-level-1".
#[global] Open Scope Z_scope.

(** ** Outcomes of Go code

    A Go function that may return an [error] or panic is a function into
    [res]: [Ok] is the normal return, [Err] carries the error value the code
    returns, [Panic] stands for a run-time panic (nil dereference, index out of
    range, division by zero) and [Hang] for a loop that never ends. *)
Inductive res (E A : Type) : Type :=
| Ok (a : A)
| Err (e : E)
| Panic
| Hang.
Arguments Ok {E A} a.
Arguments Err {E A} e.
Arguments Panic {E A}.
Arguments Hang {E A}.

#[export] Instance res_ret {E} : MRet (res E) := fun A a => Ok a.
#[export] Instance res_bind {E} : MBind (res E) := fun A B k m =>
  match m with Ok a => k a | Err e => Err e | Panic => Panic | Hang => Hang end.
#[export] Instance res_fmap {E} : FMap (res E) := fun A B f m =>
  match m with Ok a => Ok (f a) | Err e => Err e | Panic => Panic | Hang => Hang end.

#[export] Instance res_eq_dec {E A} `{EqDecision E, EqDecision A} : EqDecision (res E A).
Proof. solve_decision. Defined.

Section Res.
Context {E : Type}.

(** Left fold of a loop body that may fail: [for _, x := range xs { body }]. *)
Fixpoint foldM {S A} (body : S -> A -> res E S) (xs : list A) (s : S) : res E S :=
  match xs with
  | [] => Ok s
  | x :: xs => s' ← body s x; foldM body xs s'
  end.

(** A nil pointer dereference, a missing index: [None] panics. *)
Definition get_or_panic {A} (o : option A) : res E A :=
  match o with Some a => Ok a | None => Panic end.

Definition error_if (b : bool) (e : E) : res E unit :=
  if b then Err e else Ok tt.

Lemma bind_Ok_inv {A B} (m : res E A) (k : A -> res E B) b :
  (m ≫= k) = Ok b -> exists a, m = Ok a /\ k a = Ok b.
Proof. destruct m; simpl; [eauto | discriminate..]. Qed.

Lemma foldM_app {S A} (body : S -> A -> res E S) xs ys s :
  foldM body (xs ++ ys) s = (foldM body xs s ≫= foldM body ys).
Proof.
  revert s; induction xs as [|x xs IH]; intros s; simpl; [done|].
  destruct (body s x); simpl; auto.
Qed.

(** Rule for loop invariants: a body that keeps [P] on every element keeps it
    through the loop. *)
Lemma foldM_inv {S A} (P : S -> Prop) (body : S -> A -> res E S) xs s s' :
  P s ->
  (forall x s1 s2, x ∈ xs -> P s1 -> body s1 x = Ok s2 -> P s2) ->
  foldM body xs s = Ok s' -> P s'.
Proof.
  revert s; induction xs as [|x xs IH]; simpl; intros s Hs Hbody Hrun.
  - by simplify_eq.
  - apply bind_Ok_inv in Hrun as (s1 & H1 & H2).
    eapply IH; [eapply Hbody; [left|..]; eassumption| |eassumption].
    intros; eapply Hbody; [right|..]; eassumption.
Qed.

(** Progress: if the body succeeds and keeps [P], the loop succeeds. *)
Lemma foldM_total {S A} (P : S -> Prop) (body : S -> A -> res E S) xs s :
  P s ->
  (forall x s1, x ∈ xs -> P s1 -> exists s2, body s1 x = Ok s2 /\ P s2) ->
  exists s', foldM body xs s = Ok s' /\ P s'.
Proof.
  revert s; induction xs as [|x xs IH]; simpl; intros s Hs Hbody; [by eauto|].
  destruct (Hbody x s ltac:(left) Hs) as (s1 & -> & Hs1); simpl.
  apply IH; [done|]. intros; apply Hbody; [right|]; done.
Qed.

Lemma foldM_Ok {S A} (f : S -> A -> S) xs s :
  foldM (fun s x => Ok (f s x)) xs s = Ok (fold_left f xs s).
Proof. revert s; induction xs; simpl; auto. Qed.
End Res.

(** ** Machine integers

    [uint64] values are integers of [Z]; every operation that can wrap is
    written with its wrap-around. [big.Int] values are unbounded [Z]. *)
Definition maxUint64 : Z := 2 ^ 64 - 1.
Definition u64 (z : Z) : Z := z mod 2 ^ 64.
(** Conversion to the 64-bit signed [int] / [int64] of Go. *)
Definition i64 (z : Z) : Z := (z + 2 ^ 63) mod 2 ^ 64 - 2 ^ 63.
(** The method [Uint64] of [big.Int]: the low 64 bits of the absolute value. *)
Definition bigUint64 (z : Z) : Z := u64 (Z.abs z).
Definition is_u64 (z : Z) : Prop := 0 <= z < 2 ^ 64.

Declare Scope u64_scope.
Delimit Scope u64_scope with u64.
Notation "x +u y" := (u64 (x + y)) (at level 50, left associativity) : u64_scope.
Notation "x -u y" := (u64 (x - y)) (at level 50, left associativity) : u64_scope.
Notation "x *u y" := (u64 (x * y)) (at level 40, left associativity) : u64_scope.
#[global] Open Scope u64_scope.

(** Integer division and remainder of [uint64], which panic on zero. *)
Definition udiv {E} (x y : Z) : res E Z := if decide (y = 0) then Panic else Ok (x / y).
Definition umod {E} (x y : Z) : res E Z := if decide (y = 0) then Panic else Ok (x mod y).
(** The method [Div] of [big.Int] is Euclidean division and panics on a zero divisor; the
    divisors of the code are never negative, where it is [Z.div]. *)
Definition bigDiv {E} (x y : Z) : res E Z := if decide (y = 0) then Panic else Ok (x / y).

Lemma u64_range z : is_u64 (u64 z).
Proof. apply Z.mod_pos_bound. lia. Qed.

Lemma u64_small z : is_u64 z -> u64 z = z.
Proof. apply Z.mod_small. Qed.

Lemma u64_idemp z : u64 (u64 z) = u64 z.
Proof. apply u64_small, u64_range. Qed.

Lemma u64_sub_le x y : 0 <= y <= x -> x < 2 ^ 64 -> u64 (x - y) = x - y.
Proof. intros; apply u64_small; split; lia. Qed.

Lemma u64_sub_wrap x y : 0 <= x < y -> y < 2 ^ 64 -> u64 (x - y) = x - y + 2 ^ 64.
Proof.
  intros. unfold u64. rewrite <- (Z_mod_plus_full _ 1), Z.mod_small; lia.
Qed.

Lemma i64_small z : - 2 ^ 63 <= z < 2 ^ 63 -> i64 z = z.
Proof. intros. unfold i64. rewrite Z.mod_small; lia. Qed.

Lemma umod_Ok {E} x y : y <> 0 -> @umod E x y = Ok (x mod y).
Proof. intros. unfold umod. by rewrite decide_False. Qed.

Lemma udiv_Ok {E} x y : y <> 0 -> @udiv E x y = Ok (x / y).
Proof. intros. unfold udiv. by rewrite decide_False. Qed.

Create HintDb word discriminated.
#[export] Hint Resolve u64_range : word.


(** ** Record update

    [r <| f := v |>] is [r] with field [f] set to [v]; [r <| f ::= g |>] applies
    [g] to the field. A record type declares its eta expansion as an instance of
    [Settable]; the setter of a field is derived from it by abstracting the
    projection. *)
Class Settable (R : Type) := eta : R -> R.
Class Setter {R T : Type} (proj : R -> T) := set : (T -> T) -> R -> R.
Arguments set {R T} proj {_} f r.

Ltac derive_setter :=
  lazymatch goal with
  | |- @Setter ?R ?T ?proj =>
    let f := fresh "f" in let r := fresh "r" in
    intros f r;
    let e := constr:(ltac:(typeclasses eauto) : Settable R) in
    let b := eval cbv beta delta [eta] in (@eta R e r) in
    let b := eval hnf in b in
    let p := eval pattern (proj r) in b in
    lazymatch p with
    | ?h _ => let t := eval cbv beta in (h (f (proj r))) in exact t
    end
  end.
#[export] Hint Extern 1 (Setter _) => derive_setter : typeclass_instances.

Declare Scope record_set.
Notation "r <| f ::= g |>" := (set f g r)
  (at level 12, f at next level, g at level 99, left associativity) : record_set.
Notation "r <| f := v |>" := (set f (fun _ => v) r)
  (at level 12, f at next level, v at level 99, left associativity) : record_set.
#[global] Open Scope record_set.

(** ** Strings and byte slices

    A Go [string] and a [[]byte] are lists of bytes, integers of [0..255];
    [str] turns a literal into one. *)
Abbreviation bytes := (list Z) (only parsing).
Definition str (s : string) : bytes :=
  map (fun c => Z.of_N (Ascii.N_of_ascii c)) (String.list_ascii_of_string s).
Definition is_byte (b : Z) : Prop := 0 <= b < 256.

(** ** Slices

    Indexing and re-slicing of a Go slice panic outside the bounds. *)
Definition gindex {E A} (l : list A) (i : Z) : res E A :=
  if decide (0 <= i) then get_or_panic (l !! Z.to_nat i) else Panic.

(** [l[i:j]] for a slice whose capacity is its length. *)
Definition gslice {E A} (l : list A) (i j : Z) : res E (list A) :=
  if decide (0 <= i <= j /\ j <= Z.of_nat (length l))
  then Ok (take (Z.to_nat (j - i)) (drop (Z.to_nat i) l)) else Panic.

Definition glen {A} (l : list A) : Z := Z.of_nat (length l).

Lemma gslice_Ok {E A} (l : list A) i j r : @gslice E A l i j = Ok r ->
  0 <= i <= j /\ j <= glen l /\ r = take (Z.to_nat (j - i)) (drop (Z.to_nat i) l).
Proof. unfold gslice, glen. case_decide; [|done]. intros [= <-]. repeat split; lia || done. Qed.

Lemma gslice_in {E A} (l : list A) i j : 0 <= i <= j -> j <= glen l ->
  @gslice E A l i j = Ok (take (Z.to_nat (j - i)) (drop (Z.to_nat i) l)).
Proof. intros Hi Hj. unfold gslice, glen in *. by rewrite decide_True. Qed.

Lemma gindex_Ok {E A} (l : list A) i r : @gindex E A l i = Ok r -> 0 <= i /\ l !! Z.to_nat i = Some r.
Proof. unfold gindex. case_decide; [|done]. destruct (_ !! _); simpl; intros; by simplify_eq. Qed.

Lemma gindex_in {E A} (l : list A) i x : 0 <= i -> l !! Z.to_nat i = Some x -> @gindex E A l i = Ok x.
Proof. intros Hi Hx. unfold gindex. rewrite decide_True by done. by rewrite Hx. Qed.

Lemma gindex_out {E A} (l : list A) i : l !! Z.to_nat i = None -> @gindex E A l i = Panic.
Proof. intros Hx. unfold gindex. destruct (decide _); [by rewrite Hx|done]. Qed.

(** ** The Go run time

    Two things the language leaves open decide what the code computes: the
    order in which [range] visits a map, and the permutation [sort.Sort] picks
    among the sorted ones. [GoRuntime] states exactly what the language
    documents, so a theorem proved for every instance holds whatever the run
    time of a node does; [reference_runtime] is an executable instance. *)
Definition strict_weak {A} (less : A -> A -> bool) : Prop :=
  (forall x, less x x = false) /\
  (forall x y z, less x y = true -> less y z = true -> less x z = true) /\
  (forall x y z, less x y = false -> less y z = false -> less x z = false).

Class GoRuntime := {
  range {K : Type} `{EqDecision K} `{!Countable K} {V : Type} : gmap K V -> list (K * V);
  range_perm {K} `{EqDecision K} `{!Countable K} {V} (m : gmap K V) : range m ≡ₚ map_to_list m;
  sort {A : Type} : (A -> A -> bool) -> list A -> list A;
  sort_perm {A} (less : A -> A -> bool) l : sort less l ≡ₚ l;
  sort_sorted {A} (less : A -> A -> bool) l :
    strict_weak less -> StronglySorted (fun x y => less y x = false) (sort less l)
}.

Section RefSort.
Context {A : Type} (less : A -> A -> bool).

Fixpoint insert_sorted (x : A) (l : list A) : list A :=
  match l with
  | [] => [x]
  | y :: l' => if less y x then y :: insert_sorted x l' else x :: l
  end.
Fixpoint insertion_sort (l : list A) : list A :=
  match l with [] => [] | x :: l' => insert_sorted x (insertion_sort l') end.

Lemma insert_sorted_perm x l : insert_sorted x l ≡ₚ x :: l.
Proof.
  induction l as [|y l IH]; simpl; [done|].
  destruct (less y x); [|done]. rewrite IH. apply Permutation_swap.
Qed.

Lemma insertion_sort_perm l : insertion_sort l ≡ₚ l.
Proof. induction l as [|x l IH]; simpl; [done|]. by rewrite insert_sorted_perm, IH. Qed.

Lemma insertion_sort_sorted l :
  strict_weak less -> StronglySorted (fun x y => less y x = false) (insertion_sort l).
Proof.
  intros (Hirr & Htr & Hneg). induction l as [|x l IH]; simpl; [constructor|].
  induction IH as [|y l' Hs IH' Hall]; simpl.
  - repeat constructor.
  - destruct (less y x) eqn:Hyx.
    + constructor; [apply IH'|]. rewrite insert_sorted_perm.
      constructor; [|done]. destruct (less x y) eqn:Hxy; [|done].
      rewrite <- (Hirr y). symmetry. eauto.
    + constructor; [by constructor|]. constructor; [done|].
      eapply Forall_impl; [exact Hall|]; simpl. eauto.
Qed.
End RefSort.

#[export] Instance reference_runtime : GoRuntime | 100 := {
  range K _ _ V m := map_to_list m;
  range_perm K _ _ V m := Permutation_refl _;
  sort A := insertion_sort;
  sort_perm A := insertion_sort_perm;
  sort_sorted A := insertion_sort_sorted
}.

Section Runtime.
Context {RT : GoRuntime}.
Context {K : Type} `{EqDecision K} `{!Countable K}.

Lemma elem_of_range {V} (m : gmap K V) k v : (k, v) ∈ range m <-> m !! k = Some v.
Proof. rewrite range_perm. apply elem_of_map_to_list. Qed.

Lemma range_NoDup {V} (m : gmap K V) : NoDup (range m).*1.
Proof. rewrite range_perm. apply NoDup_fst_map_to_list. Qed.

Lemma range_length {V} (m : gmap K V) : length (range m) = size m.
Proof. by rewrite range_perm, length_map_to_list. Qed.
End Runtime.

(** Two sorted permutations of one list are equal when incomparable elements
    are equal: the order of the input and the algorithm do not matter. *)
Lemma sorted_perm_unique {A} (less : A -> A -> bool) (l1 l2 : list A) :
  l1 ≡ₚ l2 ->
  (forall x y, x ∈ l1 -> y ∈ l1 -> less x y = false -> less y x = false -> x = y) ->
  StronglySorted (fun x y => less y x = false) l1 ->
  StronglySorted (fun x y => less y x = false) l2 ->
  l1 = l2.
Proof.
  intros Hp Hanti Hs1. revert l2 Hp.
  induction Hs1 as [|x l1 Hs1 IH Hall1]; intros l2 Hp Hs2.
  - by apply Permutation_nil_l in Hp.
  - destruct Hs2 as [|y l2 Hs2 Hall2]; [by apply Permutation_nil_r in Hp|].
    assert (x = y) as ->.
    { assert (x ∈ y :: l2) as Hx by (rewrite <- Hp; left).
      assert (y ∈ x :: l1) as Hy by (rewrite Hp; left).
      apply elem_of_cons in Hx as [?|Hx]; [done|].
      apply elem_of_cons in Hy as [?|Hy]; [done|].
      rewrite Forall_forall in Hall1, Hall2.
      apply Hanti; [left|by right|by apply Hall2|by apply Hall1]. }
    f_equal. apply IH; [|by apply (Permutation_cons_inv) in Hp|done].
    intros; apply Hanti; [by right|by right|done|done].
Qed.

(** ** Sums over lists and maps *)
Definition sumZ {A} (f : A -> Z) (l : list A) : Z := foldr (fun x n => f x + n) 0 l.
Definition msum {V} (f : V -> Z) (m : gmap Z V) : Z := map_fold (fun _ v n => f v + n) 0 m.

#[export] Instance sumZ_perm {A} (f : A -> Z) : Proper ((≡ₚ) ==> eq) (sumZ f).
Proof. intros l1 l2 H. unfold sumZ. induction H; simpl; lia. Qed.

Lemma sumZ_cons {A} (f : A -> Z) x l : sumZ f (x :: l) = f x + sumZ f l.
Proof. done. Qed.

Lemma sumZ_zero {A} (l : list A) : sumZ (fun _ => 0) l = 0.
Proof. induction l; simpl; lia. Qed.

Lemma sumZ_app {A} (f : A -> Z) l1 l2 : sumZ f (l1 ++ l2) = sumZ f l1 + sumZ f l2.
Proof. induction l1; simpl; [done|]. unfold sumZ in *; simpl. lia. Qed.

Lemma sumZ_nonneg {A} (f : A -> Z) l : (forall x, x ∈ l -> 0 <= f x) -> 0 <= sumZ f l.
Proof.
  induction l as [|x l IH]; simpl; intros H; [done|].
  specialize (H x ltac:(left)) as Hx. specialize (IH ltac:(intros; apply H; by right)). lia.
Qed.

Lemma sumZ_ext {A} (f g : A -> Z) l : (forall x, x ∈ l -> f x = g x) -> sumZ f l = sumZ g l.
Proof.
  induction l as [|x l IH]; simpl; intros H; [done|].
  rewrite (H x) by left. rewrite IH; [done|]. intros; apply H; by right.
Qed.

Lemma fold_left_sumZ {A} (f : A -> Z) l n : fold_left (fun n x => n + f x) l n = n + sumZ f l.
Proof. revert n; induction l as [|x l IH]; intros n; simpl; [lia|]. rewrite IH. lia. Qed.

Lemma msum_empty {V} (f : V -> Z) : msum f ∅ = 0.
Proof. apply map_fold_empty. Qed.

Lemma msum_insert {V} (f : V -> Z) (m : gmap Z V) k v :
  m !! k = None -> msum f (<[k:=v]> m) = f v + msum f m.
Proof. intros. unfold msum. rewrite map_fold_insert_L; [done|intros; lia|done]. Qed.

Lemma msum_delete {V} (f : V -> Z) (m : gmap Z V) k v :
  m !! k = Some v -> msum f m = f v + msum f (delete k m).
Proof. intros. unfold msum. rewrite (map_fold_delete_L _ _ k v); [done|intros; lia|done]. Qed.

Lemma msum_update {V} (f : V -> Z) (m : gmap Z V) k v :
  msum f (<[k:=v]> m) = msum f m + f v - from_option f 0 (m !! k).
Proof.
  destruct (m !! k) as [v0|] eqn:E; simpl.
  - rewrite <- insert_delete_eq, msum_insert by apply lookup_delete_eq.
    rewrite (msum_delete f m k v0 E). lia.
  - rewrite msum_insert by done. lia.
Qed.

Lemma msum_remove {V} (f : V -> Z) (m : gmap Z V) k :
  msum f (delete k m) = msum f m - from_option f 0 (m !! k).
Proof.
  destruct (m !! k) as [v0|] eqn:E; simpl.
  - rewrite (msum_delete f m k v0 E). lia.
  - rewrite delete_id by done. lia.
Qed.

Lemma msum_list {V} (f : V -> Z) (m : gmap Z V) : msum f m = sumZ (f ∘ snd) (map_to_list m).
Proof.
  induction m as [|k v m Hk IH] using map_ind.
  - rewrite msum_empty, map_to_list_empty. done.
  - rewrite msum_insert, map_to_list_insert, IH by done. done.
Qed.

Lemma msum_range {RT : GoRuntime} {V} (f : V -> Z) (m : gmap Z V) :
  msum f m = sumZ (f ∘ snd) (range m).
Proof. by rewrite msum_list, range_perm. Qed.

Lemma msum_nonneg {V} (f : V -> Z) (m : gmap Z V) :
  (forall k v, m !! k = Some v -> 0 <= f v) -> 0 <= msum f m.
Proof.
  intros H. rewrite msum_list. apply sumZ_nonneg. intros [k v] Hin.
  apply elem_of_map_to_list in Hin. simpl. eauto.
Qed.

(** ** Loops that edit a map while ranging over it *)

(** A projection of the loop state that the body updates on its own. *)
Lemma fold_left_proj {S T A} (f : S -> A -> S) (pi : S -> T) (g : T -> A -> T) l s :
  (forall s x, pi (f s x) = g (pi s) x) -> pi (fold_left f l s) = fold_left g l (pi s).
Proof. intros H. revert s; induction l as [|x l IH]; intros s; simpl; [done|]. by rewrite IH, H. Qed.

Lemma fold_left_inv {S A} (P : S -> Prop) (f : S -> A -> S) l s :
  P s -> (forall s x, x ∈ l -> P s -> P (f s x)) -> P (fold_left f l s).
Proof.
  revert s; induction l as [|x l IH]; intros s Hs Hf; simpl; [done|].
  apply IH; [apply Hf; [left|done]|]. intros; apply Hf; [by right|done].
Qed.

(** A field no iteration touches. *)
Lemma fold_left_frame {S T A} (f : S -> A -> S) (pi : S -> T) l s :
  (forall s x, pi (f s x) = pi s) -> pi (fold_left f l s) = pi s.
Proof. intros H. apply (fold_left_inv (fun s' => pi s' = pi s)); [done|]. intros; by rewrite H. Qed.

Lemma foldM_frame {E S T A} (f : S -> A -> res E S) (pi : S -> T) l s s' :
  (forall s x s', f s x = Ok s' -> pi s' = pi s) -> foldM f l s = Ok s' -> pi s' = pi s.
Proof.
  intros H. apply (foldM_inv (fun s' => pi s' = pi s)); [done|].
  intros x s1 s2 _ <- Hs. eauto.
Qed.

Definition delete_where {V W} (p : Z -> V -> bool) (m : gmap Z W) (kv : Z * V) : gmap Z W :=
  if p kv.1 kv.2 then delete kv.1 m else m.

Lemma lookup_delete_where_list {V W} (p : Z -> V -> bool) (l : list (Z * V)) (m : gmap Z W) i :
  fold_left (delete_where p) l m !! i =
  if existsb (fun kv => (kv.1 =? i) && p kv.1 kv.2) l then None else m !! i.
Proof.
  revert m; induction l as [|[k v] l IH]; intros m; simpl; [done|].
  rewrite IH. unfold delete_where at 1; simpl.
  destruct (existsb _ l); [by rewrite orb_true_r|]. rewrite orb_false_r.
  destruct (p k v); [|by rewrite andb_false_r]. rewrite andb_true_r.
  destruct (Z.eqb_spec k i) as [->|]; [by rewrite lookup_delete_eq|by rewrite lookup_delete_ne].
Qed.

(** Deleting from [m'] the keys of [m] that satisfy [p], in any order. *)
Lemma lookup_delete_where {RT : GoRuntime} {V W} (p : Z -> V -> bool) (m : gmap Z V) (m' : gmap Z W) i :
  fold_left (delete_where p) (range m) m' !! i =
  match m !! i with
  | Some v => if p i v then None else m' !! i
  | None => m' !! i
  end.
Proof.
  rewrite lookup_delete_where_list.
  destruct (existsb _ _) eqn:E.
  - apply existsb_exists in E as ([k v] & Hin & [Hki Hp]%andb_true_iff); simpl in *.
    apply Z.eqb_eq in Hki as ->.
    apply list_elem_of_In, elem_of_range in Hin. by rewrite Hin, Hp.
  - destruct (m !! i) as [v|] eqn:Em; [|done]. destruct (p i v) eqn:Hp; [|done].
    rewrite <- not_true_iff_false, existsb_exists in E. destruct E.
    exists (i, v). rewrite <- list_elem_of_In, elem_of_range; simpl.
    by rewrite Z.eqb_refl, Hp.
Qed.

(** In particular for [range m] over [m] itself: the loop is a filter. *)
Lemma delete_where_filter {RT : GoRuntime} {V} (p : Z -> V -> bool) (m : gmap Z V) :
  fold_left (delete_where p) (range m) m = filter (fun kv => p kv.1 kv.2 = false) m.
Proof.
  apply map_eq. intros i. rewrite lookup_delete_where.
  destruct (m !! i) as [v|] eqn:E.
  - destruct (p i v) eqn:Hp; rewrite ?E; symmetry.
    + apply map_lookup_filter_None. right. intros w Hw; simplify_eq; simpl. congruence.
    + by apply map_lookup_filter_Some.
  - symmetry. apply map_lookup_filter_None. by left.
Qed.

(** A loop that applies [f] to the entry of each key of [l]. *)
Lemma lookup_fold_partial_alter {V} (f : option V -> option V) (l : list Z) (m : gmap Z V) i :
  NoDup l ->
  fold_left (fun m k => partial_alter f k m) l m !! i = if decide (i ∈ l) then f (m !! i) else m !! i.
Proof.
  intros Hl. revert m. induction Hl as [|k l Hk Hl IH]; intros m; cbn [fold_left].
  - by rewrite decide_False by apply not_elem_of_nil.
  - rewrite IH. destruct (decide (i = k)) as [->|Hne].
    + rewrite decide_False, decide_True by (done || left). apply lookup_partial_alter_eq.
    + rewrite lookup_partial_alter_ne by done.
      destruct (decide (i ∈ l)); [rewrite decide_True by by right|rewrite decide_False]; [done..|].
      by intros [?|?]%elem_of_cons.
Qed.

(** A loop that rewrites every entry of a map is a map over it. *)
Lemma range_insert_fmap {RT : GoRuntime} {V} (f : V -> V) (m : gmap Z V) :
  fold_left (fun m' '(k, v) => <[k := f v]> m') (range m) m = f <$> m.
Proof.
  apply map_eq. intros i. rewrite lookup_fmap.
  assert (forall l (m' : gmap Z V), NoDup l.*1 -> (forall k v, (k, v) ∈ l -> m !! k = Some v) ->
    fold_left (fun m' '(k, v) => <[k := f v]> m') l m' !! i =
    if decide (i ∈ l.*1) then f <$> m !! i else m' !! i) as H.
  { induction l as [|[k v] l IH]; intros m' Hnd Hl; cbn [fold_left].
    - destruct (decide _) as [?%not_elem_of_nil|]; done.
    - change (((k, v) :: l).*1) with (k :: l.*1) in *. apply NoDup_cons in Hnd as [Hk Hnd]. rewrite IH by (try done; intros; apply Hl; by right).
      destruct (decide (i = k)) as [->|Hne].
      + destruct (decide (k ∈ l.*1)); [done|]. destruct (decide (k ∈ k :: l.*1)) as [|[]]; [|left].
        by rewrite lookup_insert_eq, (Hl k v) by left.
      + rewrite lookup_insert_ne by done.
        destruct (decide (i ∈ l.*1)), (decide (i ∈ k :: l.*1)) as [Hin|Hout]; try done.
        * destruct Hout. by right.
        * by apply elem_of_cons in Hin as [?|?]. }
  rewrite H; [|apply range_NoDup|intros; by apply elem_of_range].
  destruct (decide (i ∈ (range m).*1)) as [|Hi]; [done|].
  destruct (m !! i) as [v|] eqn:E; [|done]. destruct Hi.
  apply list_elem_of_fmap. exists (i, v). split; [done|]. by apply elem_of_range.
Qed.

Lemma fold_left_ext {S A} (f g : S -> A -> S) l s :
  (forall s x, f s x = g s x) -> fold_left f l s = fold_left g l s.
Proof. intros H. revert s; induction l as [|x l IH]; intros s; simpl; [done|]. by rewrite H, IH. Qed.

(** A second instance, which visits maps backwards: with [reference_runtime] it
    separates what depends on the order from what does not. *)
Definition reversed_runtime : GoRuntime := {|
  range K _ _ V m := reverse (map_to_list m);
  range_perm K _ _ V m := reverse_Permutation _;
  sort A := insertion_sort;
  sort_perm A := insertion_sort_perm;
  sort_sorted A := insertion_sort_sorted
|}.

(** [for i := a; i <= b; i++ { body }] over [uint64]. When [b] is the largest
    value the test always holds: the loop goes through every value of the type,
    wraps around and, if nothing panicked on the way, never ends. *)
Definition forIncl {E S} (a b : Z) (body : S -> Z -> res E S) (s : S) : res E S :=
  if b =? maxUint64
  then (foldM body (seqZ a (2 ^ 64 - a) ++ seqZ 0 a) s ≫= fun _ => Hang)
  else foldM body (seqZ a (b - a + 1)) s.
(** The values of [i] in [for i := a; i < b; i++]. *)
Definition upto (a b : Z) : list Z := seqZ a (b - a).
(** The values of [i] in [for i := a; i > b; i--]. *)
Definition downto (a b : Z) : list Z := reverse (seqZ (b + 1) (a - b)).

Lemma forIncl_Ok {E S} a b (body : S -> Z -> res E S) s s' :
  forIncl a b body s = Ok s' -> foldM body (seqZ a (b - a + 1)) s = Ok s'.
Proof. unfold forIncl. destruct (b =? maxUint64); [|done]. by destruct (foldM _ _ _). Qed.

(** A loop to the largest value never returns, unless its body panics. *)
Lemma forIncl_Hang {E S} (P : S -> Prop) a (body : S -> Z -> res E S) s :
  P s -> (forall x s1, P s1 -> exists s2, body s1 x = Ok s2 /\ P s2) ->
  forIncl a maxUint64 body s = Hang.
Proof.
  intros Hs Hb. unfold forIncl. rewrite Z.eqb_refl.
  destruct (foldM_total P body (seqZ a (2 ^ 64 - a) ++ seqZ 0 a) s) as (s' & -> & _); auto.
Qed.
