(* ===== verification/StateDB.v ===== *)
(** * The account state and its journal

    Models [core/state/state_object.go], [core/state/statedb.go] and
    [core/state/journal.go]: accounts with a nonce, a balance, a contribution,
    code and storage, the cache of live objects over the account trie, the
    journal of changes, and the revisions one can go back to.

    The tries are finite maps: [trie] the accounts of the account trie,
    [openStorage] the storage of a root, [storageRoot] its inverse; a lookup in
    the database does not fail, so [dbErr] stays nil. The equivalence [sequiv]
    relates states that no accessor can tell apart, and the main theorem is
    that going back to a revision restores the state up to it. *)
From S2P Require Import Prelude.

(** ** Data *)
Record Account := mkAccount { Nonce : Z; Balance : Z; Contribution : Z; Root : Z; CodeHash : Z }.
#[export] Instance Account_eta : Settable Account := fun a =>
  mkAccount (Nonce a) (Balance a) (Contribution a) (Root a) (CodeHash a).

(** [code] and [otrie] are nil until they are loaded. *)
Record stateObject := mkStateObject {
  data : Account; otrie : option (gmap Z Z); code : option (list Z);
  cachedStorage : gmap Z Z; dirtyStorage : gmap Z Z;
  dirtyCode : bool; suicided : bool; deleted : bool
}.
#[export] Instance stateObject_eta : Settable stateObject := fun o =>
  mkStateObject (data o) (otrie o) (code o) (cachedStorage o) (dirtyStorage o) (dirtyCode o)
    (suicided o) (deleted o).

(** A log: its contents, and where [AddLog] says it was emitted. *)
Record Log := mkLog { lContents : list Z; lTxHash : Z; lBlockHash : Z; lTxIndex : Z; lIndex : Z }.

Inductive journalEntry :=
| createObjectChange (account : Z)
| resetObjectChange (account : Z) (prev : stateObject)
| suicideChange (account : Z) (prev : bool) (prevbalance : Z)
| balanceChange (account : Z) (prev : Z)
| contributionChange (account : Z) (prev : Z)
| nonceChange (account : Z) (prev : Z)
| storageChange (account key prevalue : Z)
| codeChange (account : Z) (prevcode : option (list Z)) (prevhash : Z)
| refundChange (prev : Z)
| addLogChange (txhash : Z)
| addPreimageChange (hash : Z)
| touchChange (account : Z).
Record revision := mkRevision { revId : Z; journalIndex : Z }.

Record StateDB := mkStateDB {
  trie : gmap Z Account;
  stateObjects : gmap Z stateObject; stateObjectsDirty : gset Z;
  refund : Z; thash : Z; bhash : Z; txIndex : Z;
  logs : gmap Z (list Log); logSize : Z; preimages : gmap Z (list Z);
  entries : list journalEntry; dirties : gmap Z Z;
  validRevisions : list revision; nextRevisionId : Z
}.
#[export] Instance StateDB_eta : Settable StateDB := fun s =>
  mkStateDB (trie s) (stateObjects s) (stateObjectsDirty s) (refund s) (thash s) (bhash s) (txIndex s)
    (logs s) (logSize s) (preimages s) (entries s) (dirties s) (validRevisions s) (nextRevisionId s).

(** The only failure is a panic. *)
Abbreviation sres := (res Empty_set).

(** What the state takes from the packages below it: the hash of empty code,
    Keccak, the code of a hash, the storage of a root and the root of a storage. *)
Class Database := {
  emptyCodeHash : Z;
  Keccak256Hash : list Z -> Z;
  ContractCode : Z -> list Z;
  openStorage : Z -> gmap Z Z;
  storageRoot : gmap Z Z -> Z
}.

Section State.
Context {RT : GoRuntime} {DB : Database}.
Implicit Types (s : StateDB) (o : stateObject) (a : Z).

(** ** journal.go *)
Definition dirtied (e : journalEntry) : option Z :=
  match e with
  | createObjectChange a | suicideChange a _ _ | balanceChange a _ | contributionChange a _
  | nonceChange a _ | storageChange a _ _ | codeChange a _ _ | touchChange a => Some a
  | resetObjectChange _ _ | refundChange _ | addLogChange _ | addPreimageChange _ => None
  end.
(** [append]. *)
Definition journal_append (e : journalEntry) (s : StateDB) : StateDB :=
  let s := s <| entries ::= fun l => l ++ [e] |> in
  match dirtied e with
  | Some a => s <| dirties ::= fun d => <[a := default 0 (d !! a) + 1]> d |>
  | None => s
  end.
(** [dirty]. *)
Definition journal_dirty (a : Z) (s : StateDB) : StateDB :=
  s <| dirties ::= fun d => <[a := default 0 (d !! a) + 1]> d |>.

(** ** state_object.go *)
Definition empty (o : stateObject) : bool :=
  (Nonce (data o) =? 0) && (Balance (data o) =? 0) && (Contribution (data o) =? 0)
  && (CodeHash (data o) =? emptyCodeHash).
Definition newObject (data : Account) : stateObject := mkStateObject data None None ∅ ∅ false false false.
(** The zero account: its nil code hash becomes that of empty code. *)
Definition zeroAccount : Account := mkAccount 0 0 0 0 emptyCodeHash.
Definition getTrie (o : stateObject) : gmap Z Z := default (openStorage (Root (data o))) (otrie o).
(** [GetState] answers from the cache, else from the trie, and fills the cache. *)
Definition storageOf (o : stateObject) (key : Z) : Z :=
  default (default 0 (getTrie o !! key)) (cachedStorage o !! key).
Definition loadState (o : stateObject) (key : Z) : stateObject :=
  match cachedStorage o !! key with
  | Some _ => o
  | None => o <| otrie := Some (getTrie o) |> <| cachedStorage ::= <[key := storageOf o key]> |>
  end.
Definition setState (key value : Z) (o : stateObject) : stateObject :=
  o <| cachedStorage ::= <[key := value]> |> <| dirtyStorage ::= <[key := value]> |>.
Definition setBalance (v : Z) (o : stateObject) : stateObject := o <| data ::= set Balance (fun _ => v) |>.
Definition setContribution (v : Z) (o : stateObject) : stateObject :=
  o <| data ::= set Contribution (fun _ => v) |>.
Definition setNonce (v : Z) (o : stateObject) : stateObject := o <| data ::= set Nonce (fun _ => v) |>.
(** [Code]: nil for the hash of empty code. *)
Definition codeOf (o : stateObject) : option (list Z) :=
  match code o with
  | Some c => Some c
  | None => if CodeHash (data o) =? emptyCodeHash then None else Some (ContractCode (CodeHash (data o)))
  end.
Definition loadCode (o : stateObject) : stateObject := o <| code := codeOf o |>.
Definition setCode (codeHash : Z) (c : option (list Z)) (o : stateObject) : stateObject :=
  o <| code := c |> <| data ::= set CodeHash (fun _ => codeHash) |> <| dirtyCode := true |>.

(** ** statedb.go: objects *)

(** The object [getStateObject] returns: a live one that is not deleted, else
    the account of the trie. *)
Definition lookupObject (s : StateDB) (a : Z) : option stateObject :=
  match stateObjects s !! a with
  | Some o => if deleted o then None else Some o
  | None => newObject <$> trie s !! a
  end.
Definition setStateObject (a : Z) (o : stateObject) (s : StateDB) : StateDB := s <| stateObjects ::= <[a := o]> |>.
Definition getStateObject (s : StateDB) (a : Z) : StateDB * option stateObject :=
  (match stateObjects s !! a, trie s !! a with
   | None, Some d => setStateObject a (newObject d) s
   | _, _ => s
   end, lookupObject s a).
(** [createObject]: the new object and the one it replaces. *)
Definition createObject (s : StateDB) (a : Z) : StateDB * stateObject * option stateObject :=
  let '(s, prev) := getStateObject s a in
  let newobj := setNonce 0 (newObject zeroAccount) in
  let s := journal_append (match prev with
                           | None => createObjectChange a
                           | Some p => resetObjectChange a p
                           end) s in
  (setStateObject a newobj s, newobj, prev).
Definition GetOrNewStateObject (s : StateDB) (a : Z) : StateDB * stateObject :=
  let '(s, o) := getStateObject s a in
  match o with
  | Some o => (s, o)
  | None => let '(s, o, _) := createObject s a in (s, o)
  end.
Definition CreateAccount (s : StateDB) (a : Z) : StateDB :=
  let '(s, new, prev) := createObject s a in
  match prev with
  | Some p => setStateObject a (setContribution (Contribution (data p)) (setBalance (Balance (data p)) new)) s
  | None => s
  end.

(** ** The journalled setters of an object, which is the live object of [a] *)
Definition ripemd : Z := 3.
Definition touch (a : Z) (s : StateDB) : StateDB :=
  let s := journal_append (touchChange a) s in
  if a =? ripemd then journal_dirty a s else s.
Definition stateObject_SetBalance (a : Z) (o : stateObject) (amount : Z) (s : StateDB) : StateDB :=
  setStateObject a (setBalance amount o) (journal_append (balanceChange a (Balance (data o))) s).
Definition stateObject_AddBalance (a : Z) (o : stateObject) (amount : Z) (s : StateDB) : StateDB :=
  if amount =? 0 then (if empty o then touch a s else s)
  else stateObject_SetBalance a o (Balance (data o) + amount) s.
Definition stateObject_SubBalance (a : Z) (o : stateObject) (amount : Z) (s : StateDB) : StateDB :=
  if amount =? 0 then s else stateObject_SetBalance a o (Balance (data o) - amount) s.
Definition stateObject_SetContribution (a : Z) (o : stateObject) (amount : Z) (s : StateDB) : StateDB :=
  setStateObject a (setContribution amount o) (journal_append (contributionChange a (Contribution (data o))) s).
Definition stateObject_AddContribution (a : Z) (o : stateObject) (amount : Z) (s : StateDB) : StateDB :=
  if amount =? 0 then (if empty o then touch a s else s)
  else stateObject_SetContribution a o (Contribution (data o) + amount) s.
Definition stateObject_SubContribution (a : Z) (o : stateObject) (amount : Z) (s : StateDB) : StateDB :=
  if amount =? 0 then s else stateObject_SetContribution a o (Contribution (data o) - amount) s.
Definition stateObject_SetNonce (a : Z) (o : stateObject) (nonce : Z) (s : StateDB) : StateDB :=
  setStateObject a (setNonce nonce o) (journal_append (nonceChange a (Nonce (data o))) s).
Definition stateObject_SetState (a : Z) (o : stateObject) (key value : Z) (s : StateDB) : StateDB :=
  setStateObject a (setState key value (loadState o key))
    (journal_append (storageChange a key (storageOf o key)) s).
Definition stateObject_SetCode (a : Z) (o : stateObject) (codeHash : Z) (c : option (list Z)) (s : StateDB) : StateDB :=
  setStateObject a (setCode codeHash c (loadCode o))
    (journal_append (codeChange a (codeOf o) (CodeHash (data o))) s).

(** ** statedb.go: accessors *)
Definition Exist (s : StateDB) (a : Z) : bool := bool_decide (is_Some (lookupObject s a)).
Definition Empty (s : StateDB) (a : Z) : bool := match lookupObject s a with Some o => empty o | None => true end.
Definition StateDB_GetBalance (s : StateDB) (a : Z) : Z :=
  match lookupObject s a with Some o => Balance (data o) | None => 0 end.
Definition GetContribution (s : StateDB) (a : Z) : Z :=
  match lookupObject s a with Some o => Contribution (data o) | None => 0 end.
Definition GetNonce (s : StateDB) (a : Z) : Z :=
  match lookupObject s a with Some o => Nonce (data o) | None => 0 end.
Definition GetCode (s : StateDB) (a : Z) : list Z :=
  match lookupObject s a with Some o => default [] (codeOf o) | None => [] end.
Definition GetCodeHash (s : StateDB) (a : Z) : Z :=
  match lookupObject s a with Some o => CodeHash (data o) | None => 0 end.
Definition GetState (s : StateDB) (a key : Z) : Z :=
  match lookupObject s a with Some o => storageOf o key | None => 0 end.
Definition HasSuicided (s : StateDB) (a : Z) : bool :=
  match lookupObject s a with Some o => suicided o | None => false end.
Definition GetLogs (s : StateDB) (hash : Z) : list Log := default [] (logs s !! hash).
Definition GetRefund (s : StateDB) : Z := refund s.

(** ** statedb.go: setters *)
Definition onObject (f : Z -> stateObject -> StateDB -> StateDB) (s : StateDB) (a : Z) : StateDB :=
  let '(s, o) := GetOrNewStateObject s a in f a o s.
Definition StateDB_AddBalance (s : StateDB) (a amount : Z) : StateDB :=
  onObject (fun a o => stateObject_AddBalance a o amount) s a.
Definition StateDB_SubBalance (s : StateDB) (a amount : Z) : StateDB :=
  onObject (fun a o => stateObject_SubBalance a o amount) s a.
Definition StateDB_SetBalance (s : StateDB) (a amount : Z) : StateDB :=
  onObject (fun a o => stateObject_SetBalance a o amount) s a.
Definition StateDB_SetNonce (s : StateDB) (a nonce : Z) : StateDB :=
  onObject (fun a o => stateObject_SetNonce a o nonce) s a.
Definition StateDB_SetCode (s : StateDB) (a : Z) (c : list Z) : StateDB :=
  onObject (fun a o => stateObject_SetCode a o (Keccak256Hash c) (Some c)) s a.
Definition StateDB_SetState (s : StateDB) (a key value : Z) : StateDB :=
  onObject (fun a o => stateObject_SetState a o key value) s a.
(** [Suicide] clears the balance and the contribution, and records the balance. *)
Definition Suicide (s : StateDB) (a : Z) : StateDB * bool :=
  let '(s, o) := getStateObject s a in
  match o with
  | None => (s, false)
  | Some o =>
      (setStateObject a (setContribution 0 (setBalance 0 (o <| suicided := true |>)))
         (journal_append (suicideChange a (suicided o) (Balance (data o))) s), true)
  end.
Definition AddLog (s : StateDB) (contents : list Z) : StateDB :=
  let log := mkLog contents (thash s) (bhash s) (txIndex s) (logSize s) in
  journal_append (addLogChange (thash s)) s
    <| logs ::= <[thash s := GetLogs s (thash s) ++ [log]]> |> <| logSize ::= fun n => n +u 1 |>.
Definition AddPreimage (s : StateDB) (hash : Z) (preimage : list Z) : StateDB :=
  match preimages s !! hash with
  | Some _ => s
  | None => journal_append (addPreimageChange hash) s <| preimages ::= <[hash := preimage]> |>
  end.
Definition AddRefund (s : StateDB) (gas : Z) : StateDB :=
  journal_append (refundChange (refund s)) s <| refund ::= fun r => r +u gas |>.

(** ** Revisions *)

(** The object of [a], which must exist, changed by [f]. *)
Definition updateObject (a : Z) (f : stateObject -> stateObject) (s : StateDB) : sres StateDB :=
  match lookupObject s a with
  | Some o => Ok (setStateObject a (f o) s)
  | None => Panic
  end.
(** The methods [revert] of the entries. *)
Definition revertEntry (e : journalEntry) (s : StateDB) : sres StateDB :=
  match e with
  | createObjectChange a => Ok (s <| stateObjects ::= delete a |> <| stateObjectsDirty ::= fun d => d ∖ {[a]} |>)
  | resetObjectChange a prev => Ok (setStateObject a prev s)
  | suicideChange a prev prevbalance =>
      match lookupObject s a with
      | Some o => Ok (setStateObject a (setBalance prevbalance (o <| suicided := prev |>)) s)
      | None => Ok s
      end
  | balanceChange a prev => updateObject a (setBalance prev) s
  | contributionChange a prev => updateObject a (setContribution prev) s
  | nonceChange a prev => updateObject a (setNonce prev) s
  | codeChange a prevcode prevhash => updateObject a (setCode prevhash prevcode) s
  | storageChange a key prevalue => updateObject a (setState key prevalue) s
  | refundChange prev => Ok (s <| refund := prev |>)
  | addLogChange txhash =>
      let l := GetLogs s txhash in
      s ← (if glen l =? 1 then Ok (s <| logs ::= delete txhash |>)
           else l' ← gslice l 0 (glen l - 1); Ok (s <| logs ::= <[txhash := l']> |>));
      Ok (s <| logSize ::= fun n => n -u 1 |>)
  | addPreimageChange hash => Ok (s <| preimages ::= delete hash |>)
  | touchChange _ => Ok s
  end.
(** The dirty count of the account of an entry that is undone. *)
Definition undirty (e : journalEntry) (s : StateDB) : StateDB :=
  match dirtied e with
  | Some a => s <| dirties ::= fun d => let n := default 0 (d !! a) - 1 in
                                        if n =? 0 then delete a d else <[a := n]> d |>
  | None => s
  end.
(** The entries undone, the last one first. *)
Fixpoint undo (es : list journalEntry) (s : StateDB) : sres StateDB :=
  match es with
  | [] => Ok s
  | e :: es => s ← undo es s; s ← revertEntry e s; Ok (undirty e s)
  end.
Definition journal_revert (snapshot : Z) (s : StateDB) : sres StateDB :=
  let n := Z.to_nat snapshot in
  s' ← undo (drop n (entries s)) s; Ok (s' <| entries ::= take n |>).

Definition StateDB_Snapshot (s : StateDB) : Z * StateDB :=
  let id := nextRevisionId s in
  (id, s <| nextRevisionId := id + 1 |> <| validRevisions ::= fun l => l ++ [mkRevision id (glen (entries s))] |>).
(** [sort.Search]: the first index whose revision has at least the number. *)
Fixpoint searchRevision (revid : Z) (l : list revision) : nat :=
  match l with
  | [] => 0
  | r :: l => if revid <=? revId r then 0 else S (searchRevision revid l)
  end.
Definition RevertToSnapshot (revid : Z) (s : StateDB) : sres StateDB :=
  let idx := searchRevision revid (validRevisions s) in
  match validRevisions s !! idx with
  | Some r => if revId r =? revid
              then s ← journal_revert (journalIndex r) s; Ok (s <| validRevisions ::= take idx |>)
              else Panic
  | None => Panic
  end.

(** ** End of a transaction *)
Definition clearJournalAndRefund (s : StateDB) : StateDB :=
  s <| entries := [] |> <| dirties := ∅ |> <| validRevisions := [] |> <| refund := 0 |>.
Definition StateDB_Prepare (th bh ti : Z) (s : StateDB) : StateDB := s <| thash := th |> <| bhash := bh |> <| txIndex := ti |>.
Definition Reset (tr : gmap Z Account) (s : StateDB) : StateDB :=
  clearJournalAndRefund (s <| trie := tr |> <| stateObjects := ∅ |> <| stateObjectsDirty := ∅ |> <| thash := 0 |>
    <| bhash := 0 |> <| txIndex := 0 |> <| logs := ∅ |> <| logSize := 0 |> <| preimages := ∅ |>).
Definition StateDB_New (tr : gmap Z Account) : StateDB := mkStateDB tr ∅ ∅ 0 0 0 0 ∅ 0 ∅ [] ∅ [] 0.
(** [updateTrie]: a zero value deletes its key. *)
Definition updateTrie (o : stateObject) : stateObject :=
  let tr := fold_left (fun m '(k, v) => if v =? 0 then delete k m else <[k := v]> m) (range (dirtyStorage o)) (getTrie o) in
  o <| otrie := Some tr |> <| dirtyStorage := ∅ |>.
Definition updateRoot (o : stateObject) : stateObject :=
  let o := updateTrie o in o <| data ::= set Root (fun _ => storageRoot (getTrie o)) |>.
Definition finaliseStep (deleteEmptyObjects : bool) (s : StateDB) (kv : Z * Z) : StateDB :=
  let a := fst kv in
  match stateObjects s !! a with
  | None => s
  | Some o =>
      let s := if suicided o || (deleteEmptyObjects && empty o)
               then setStateObject a (o <| deleted := true |>) s <| trie ::= delete a |>
               else let o := updateRoot o in setStateObject a o s <| trie ::= <[a := data o]> |> in
      s <| stateObjectsDirty ::= union {[a]} |>
  end.
Definition Finalise (deleteEmptyObjects : bool) (s : StateDB) : StateDB :=
  clearJournalAndRefund (fold_left (finaliseStep deleteEmptyObjects) (range (dirties s)) s).
(** [IntermediateRoot]; [trieHash] is the root hash of an account trie. *)
Definition StateDB_IntermediateRoot (trieHash : gmap Z Account -> Z) (deleteEmptyObjects : bool) (s : StateDB) : StateDB * Z :=
  let s := Finalise deleteEmptyObjects s in (s, trieHash (trie s)).
(** [deepCopy]: the cache of the copy holds the dirty entries only. *)
Definition deepCopy (o : stateObject) : stateObject := o <| cachedStorage := dirtyStorage o |>.
(** [Copy]: a dirty account without a live object is a nil pointer. *)
Definition Copy (s : StateDB) : sres StateDB :=
  let dirty : gset Z := dom (dirties s) ∪ stateObjectsDirty s in
  let objects := deepCopy <$> filter (fun kv => kv.1 ∈ dirty) (stateObjects s) in
  if decide (stateObjectsDirty s ⊆ dom (stateObjects s))
  then Ok (mkStateDB (trie s) objects (dom objects) (refund s) 0 0 0 (logs s) (logSize s) (preimages s) [] ∅ [] 0)
  else Panic.
End State.

Create HintDb state.

(** ** States no accessor can tell apart *)
Section Equiv.
Context {RT : GoRuntime} {DB : Database}.
Implicit Types (s : StateDB) (o : stateObject) (a : Z).

(** The same account data, code and storage, whatever is cached of it. *)
Record oequiv (o1 o2 : stateObject) : Prop := {
  oe_nonce : Nonce (data o1) = Nonce (data o2);
  oe_balance : Balance (data o1) = Balance (data o2);
  oe_contribution : Contribution (data o1) = Contribution (data o2);
  oe_hash : CodeHash (data o1) = CodeHash (data o2);
  oe_code : codeOf o1 = codeOf o2;
  oe_storage : forall key, storageOf o1 key = storageOf o2 key;
  oe_suicided : suicided o1 = suicided o2;
  oe_deleted : deleted o1 = deleted o2
}.
#[export] Instance oequiv_equiv : Equivalence oequiv.
Proof.
  split.
  - intros o. by split.
  - intros o1 o2 []. by split.
  - intros o1 o2 o3 [] []. split; try congruence; intros; by etransitivity.
Qed.

Record sequiv (s1 s2 : StateDB) : Prop := {
  se_objects : forall a, option_Forall2 oequiv (lookupObject s1 a) (lookupObject s2 a);
  se_trie : trie s1 = trie s2;
  se_refund : refund s1 = refund s2;
  se_logs : forall h, GetLogs s1 h = GetLogs s2 h;
  se_logSize : logSize s1 = logSize s2;
  se_preimages : preimages s1 = preimages s2
}.
#[export] Instance sequiv_equiv : Equivalence sequiv.
Proof.
  split.
  - intros s. by split.
  - intros s1 s2 []. split; try done.
  - intros s1 s2 s3 [H1 ? ? H2 ? ?] [H3 ? ? H4 ? ?]. split; try congruence.
    intros a. etransitivity; [apply H1|apply H3].
Qed.

Lemma lookup_deleted s a o : lookupObject s a = Some o -> deleted o = false.
Proof.
  unfold lookupObject. destruct (stateObjects s !! a) as [o'|].
  - destruct (deleted o') eqn:E; [done|]. intros [= <-]. done.
  - destruct (trie s !! a); simpl; [|done]. by intros [= <-].
Qed.
Lemma lookup_set s a o b : deleted o = false ->
  lookupObject (setStateObject a o s) b = if decide (a = b) then Some o else lookupObject s b.
Proof.
  intros Hd. unfold lookupObject, setStateObject. simpl. case_decide as Hab.
  - subst. by rewrite lookup_insert_eq, Hd.
  - by rewrite lookup_insert_ne.
Qed.

(** Replacing the object of an account, in equivalent states. *)
Lemma set_sequiv s1 s2 a o1 o2 :
  sequiv s1 s2 -> oequiv o1 o2 -> deleted o1 = false -> sequiv (setStateObject a o1 s1) (setStateObject a o2 s2).
Proof.
  intros [Ho Ht Hr Hl Hls Hp] He Hd. split; simpl; try done. intros b.
  rewrite !lookup_set by (done || by rewrite <- (oe_deleted _ _ He)). case_decide; [by constructor|done].
Qed.
(** Putting an equivalent object back changes nothing. *)
Lemma set_same s a o o' : lookupObject s a = Some o' -> oequiv o o' -> sequiv (setStateObject a o s) s.
Proof.
  intros Ho He. assert (deleted o = false) as Hd by (rewrite (oe_deleted _ _ He); by eapply lookup_deleted).
  split; simpl; try done. intros b. rewrite lookup_set by done.
  case_decide; [subst; rewrite Ho; by constructor|reflexivity].
Qed.
Lemma set_set_same s a o o1 o2 : lookupObject s a = Some o -> oequiv o2 o ->
  sequiv (setStateObject a o2 (setStateObject a o1 s)) s.
Proof.
  intros Ho He. assert (deleted o2 = false) as Hd by (rewrite (oe_deleted _ _ He); by eapply lookup_deleted).
  split; simpl; try done. intros b. rewrite lookup_set by done. case_decide as Hab; [subst; rewrite Ho; by constructor|].
  unfold lookupObject, setStateObject. simpl. by rewrite lookup_insert_ne.
Qed.

(** Loading an object into the live set changes nothing. *)
Lemma getStateObject_spec s a s' r : getStateObject s a = (s', r) ->
  r = lookupObject s a /\ sequiv s' s /\ lookupObject s' a = lookupObject s a /\ entries s' = entries s /\
  (forall b, b <> a -> stateObjects s' !! b = stateObjects s !! b) /\
  validRevisions s' = validRevisions s /\ nextRevisionId s' = nextRevisionId s.
Proof.
  unfold getStateObject. intros [= <- <-].
  assert (lookupObject s a = newObject <$> trie s !! a \/ is_Some (stateObjects s !! a)) as Hl.
  { unfold lookupObject. destruct (stateObjects s !! a); eauto. }
  destruct (stateObjects s !! a) as [o|] eqn:Eo; [done|]. destruct (trie s !! a) as [d|] eqn:Ed; [|done].
  destruct Hl as [Hl|[? ?]]; [|done]. simpl in Hl.
  split_and!; try done.
  - by eapply set_same.
  - rewrite lookup_set by done. by rewrite decide_True.
  - intros b Hb. unfold setStateObject. simpl. by rewrite lookup_insert_ne.
Qed.

(** The entry-preserving part of a state: [journal_append] and [undirty] touch
    the journal only. *)
Lemma append_lookup e s a : lookupObject (journal_append e s) a = lookupObject s a.
Proof. unfold journal_append, lookupObject. by destruct (dirtied e). Qed.
Lemma append_sequiv e s : sequiv (journal_append e s) s.
Proof.
  split; unfold journal_append; by destruct (dirtied e).
Qed.
Lemma append_entries e s : entries (journal_append e s) = entries s ++ [e].
Proof. unfold journal_append. by destruct (dirtied e). Qed.
Lemma undirty_sequiv e s : sequiv (undirty e s) s.
Proof.
  unfold undirty. destruct (dirtied e); [by split|reflexivity].
Qed.

(** *** Undoing an entry does not look at caches *)
Definition rel_res (r1 r2 : sres StateDB) : Prop :=
  match r1, r2 with
  | Ok s1, Ok s2 => sequiv s1 s2
  | Panic, Panic | Hang, Hang => True
  | _, _ => False
  end.

Lemma storageOf_set k v o key : storageOf (setState k v o) key = if decide (k = key) then v else storageOf o key.
Proof.
  unfold storageOf, setState. simpl. case_decide; subst; [by rewrite lookup_insert_eq|by rewrite lookup_insert_ne].
Qed.
Lemma setState_oequiv k v o1 o2 : oequiv o1 o2 -> oequiv (setState k v o1) (setState k v o2).
Proof.
  intros []. split; try done. intros key. rewrite !storageOf_set. by case_decide.
Qed.
Lemma setCode_oequiv h c o1 o2 : oequiv o1 o2 -> oequiv (setCode h c o1) (setCode h c o2).
Proof. intros []. by split. Qed.
Lemma setBalance_oequiv v o1 o2 : oequiv o1 o2 -> oequiv (setBalance v o1) (setBalance v o2).
Proof. intros []. by split. Qed.
Lemma setContribution_oequiv v o1 o2 : oequiv o1 o2 -> oequiv (setContribution v o1) (setContribution v o2).
Proof. intros []. by split. Qed.
Lemma setNonce_oequiv v o1 o2 : oequiv o1 o2 -> oequiv (setNonce v o1) (setNonce v o2).
Proof. intros []. by split. Qed.
Lemma suicided_oequiv v o1 o2 : oequiv o1 o2 -> oequiv (o1 <| suicided := v |>) (o2 <| suicided := v |>).
Proof. intros []. by split. Qed.
Hint Resolve setState_oequiv setCode_oequiv setBalance_oequiv setContribution_oequiv setNonce_oequiv suicided_oequiv
  : state.

Lemma sequiv_lookup s1 s2 a : sequiv s1 s2 ->
  (lookupObject s1 a = None /\ lookupObject s2 a = None) \/
  exists o1 o2, lookupObject s1 a = Some o1 /\ lookupObject s2 a = Some o2 /\ oequiv o1 o2 /\ deleted o1 = false.
Proof.
  intros Hs. pose proof (se_objects _ _ Hs a) as Ho. destruct (lookupObject s1 a) as [o1|] eqn:E1; inversion Ho; subst.
  - right. eexists _, _. split_and!; try done. by eapply lookup_deleted.
  - by left.
Qed.

Lemma updateObject_rel a f s1 s2 :
  (forall o1 o2, oequiv o1 o2 -> oequiv (f o1) (f o2)) -> (forall o, deleted (f o) = deleted o) ->
  sequiv s1 s2 -> rel_res (updateObject a f s1) (updateObject a f s2).
Proof.
  intros Hf Hd Hs. unfold updateObject. destruct (sequiv_lookup s1 s2 a Hs) as [[-> ->]|(o1 & o2 & -> & -> & He & Hdel)].
  - done.
  - simpl. apply set_sequiv; [done|by apply Hf|by rewrite Hd].
Qed.

Lemma delete_lookup s a b (f : gset Z -> gset Z) :
  lookupObject (s <| stateObjects ::= delete a |> <| stateObjectsDirty ::= f |>) b =
  if decide (a = b) then newObject <$> trie s !! b else lookupObject s b.
Proof.
  unfold lookupObject. simpl. case_decide; subst; [by rewrite lookup_delete_eq|by rewrite lookup_delete_ne].
Qed.
Lemma revertEntry_rel e s1 s2 :
  (forall a p, e = resetObjectChange a p -> deleted p = false) ->
  sequiv s1 s2 -> rel_res (revertEntry e s1) (revertEntry e s2).
Proof.
  intros Hp Hs. destruct e as [a|a p|a v b|a v|a v|a v|a k v|a c h|v|h|h|a]; simpl;
    try (apply updateObject_rel; eauto with state; done).
  - destruct Hs as [Ho Ht ? ? ? ?]. split; simpl; try done. intros b. rewrite !delete_lookup, Ht.
    case_decide; [reflexivity|done].
  - apply set_sequiv; [done|reflexivity|by eapply Hp].
  - destruct (sequiv_lookup s1 s2 a Hs) as [[-> ->]|(o1 & o2 & -> & -> & He & Hdel)]; [done|].
    apply set_sequiv; eauto with state.
  - destruct Hs as [? ? ? ? ? ?]. by split.
  - pose proof (se_logs _ _ Hs h) as Hl. rewrite Hl. destruct Hs as [Ho Ht Hr Hlg Hls Hpr].
    destruct (glen (GetLogs s2 h) =? 1); simpl.
    + split; simpl; try done; [|by rewrite Hls]. intros h'. unfold GetLogs in *. simpl.
      destruct (decide (h = h')); [subst; by rewrite !lookup_delete_eq|by rewrite !lookup_delete_ne].
    + destruct (gslice _ _ _) as [l'|[]| |]; simpl; [|done..].
      split; simpl; try done; [|by rewrite Hls]. intros h'. unfold GetLogs in *. simpl.
      destruct (decide (h = h')); [subst; by rewrite !lookup_insert_eq|by rewrite !lookup_insert_ne].
  - destruct Hs as [? ? ? ? ? Hpr]. split; simpl; try done. by rewrite Hpr.
  - done.
Qed.

(** *** What an operation must leave in the journal *)

(** The objects the journal keeps were live. *)
Definition entry_ok (e : journalEntry) : Prop := forall a p, e = resetObjectChange a p -> deleted p = false.

Lemma undo_rel es s1 s2 : Forall entry_ok es -> sequiv s1 s2 -> rel_res (undo es s1) (undo es s2).
Proof.
  intros Hok Hs. induction Hok as [|e es He _ IH]; simpl; [done|].
  destruct (undo es s1) as [u1|[]| |], (undo es s2) as [u2|[]| |]; simpl in *; try done.
  pose proof (revertEntry_rel e u1 u2 He IH) as Hr.
  destruct (revertEntry e u1) as [v1|[]| |], (revertEntry e u2) as [v2|[]| |]; simpl in *; try done.
  by rewrite !undirty_sequiv.
Qed.
Lemma undo_app es1 es2 s : undo (es1 ++ es2) s = (undo es2 s ≫= undo es1).
Proof.
  induction es1 as [|e es1 IH]; simpl; [by destruct (undo es2 s)|]. rewrite IH. by destruct (undo es2 s).
Qed.

(** [s'] comes from [s] by changes recorded as [new]: undone, they give back
    [s]; the revisions are not touched. *)
Record recorded (s s' : StateDB) (new : list journalEntry) : Prop := {
  rec_entries : entries s' = entries s ++ new;
  rec_ok : Forall entry_ok new;
  rec_undo : exists u, undo new s' = Ok u /\ sequiv u s;
  rec_revisions : validRevisions s' = validRevisions s /\ nextRevisionId s' = nextRevisionId s
}.
Lemma recorded_trans s s1 s2 n1 n2 : recorded s s1 n1 -> recorded s1 s2 n2 -> recorded s s2 (n1 ++ n2).
Proof.
  intros [He1 Ho1 (u1 & Hu1 & Hs1) [Hr1 Hn1]] [He2 Ho2 (u2 & Hu2 & Hs2) [Hr2 Hn2]]. split.
  - by rewrite He2, He1, app_assoc.
  - by apply Forall_app.
  - rewrite undo_app, Hu2. simpl. pose proof (undo_rel n1 u2 s1 Ho1 Hs2) as Hr. rewrite Hu1 in Hr.
    destruct (undo n1 u2) as [u| | |]; simpl in Hr; try done. exists u. split; [done|]. by etransitivity.
  - split; congruence.
Qed.
Lemma recorded_load s a s' r : getStateObject s a = (s', r) -> recorded s s' [].
Proof.
  intros (_ & Hs & _ & He & _ & Hr & Hn)%getStateObject_spec. split; [by rewrite He, app_nil_r|done|by exists s'|done].
Qed.

(** A change of the object of [a] recorded as [e], which [e] undoes. *)
Lemma recorded_set s a o o' e (f : stateObject -> stateObject) :
  lookupObject s a = Some o -> deleted o' = false ->
  (forall s, revertEntry e s = updateObject a f s) -> oequiv (f o') o -> entry_ok e ->
  recorded s (setStateObject a o' (journal_append e s)) [e].
Proof.
  intros Ho Hd Hrev He Hok. split.
  - unfold setStateObject. simpl. apply append_entries.
  - by constructor.
  - simpl. rewrite Hrev. unfold updateObject. rewrite lookup_set by done. rewrite decide_True by done. simpl.
    eexists. split; [done|]. rewrite undirty_sequiv. rewrite (set_set_same _ a o) by (done || by rewrite append_lookup).
    apply append_sequiv.
  - unfold setStateObject, journal_append. by destruct (dirtied e).
Qed.
End Equiv.

(** ** Operations and revisions *)
Section Revisions.
Context {RT : GoRuntime} {DB : Database}.
Implicit Types (s : StateDB) (o : stateObject) (a : Z).

Lemma set_set s a o o' : setStateObject a o (setStateObject a o' s) = setStateObject a o s.
Proof. destruct s. cbv [setStateObject set]. simpl. by rewrite insert_insert_eq. Qed.

(** The state is well formed: an object marked deleted is not in the trie. *)
Record wf (s : StateDB) : Prop := {
  wf_deleted : forall a o, stateObjects s !! a = Some o -> deleted o = true -> trie s !! a = None;
  wf_logSize : is_u64 (logSize s)
}.
Lemma wf_lookup_None s a : wf s -> lookupObject s a = None -> trie s !! a = None.
Proof.
  intros [Hd _]. unfold lookupObject. destruct (stateObjects s !! a) as [o|] eqn:E.
  - destruct (deleted o) eqn:Ed; [|done]. intros _. by eapply Hd.
  - by destruct (trie s !! a).
Qed.
Lemma wf_set s a o : wf s -> deleted o = false -> wf (setStateObject a o s).
Proof.
  intros [Hd Hl] Ho. split; [|done]. unfold setStateObject. simpl. intros b o'.
  destruct (decide (a = b)) as [->|Hne]; [rewrite lookup_insert_eq; congruence|rewrite lookup_insert_ne by done; eauto].
Qed.
Lemma wf_append e s : wf s -> wf (journal_append e s).
Proof. intros [? ?]. split; unfold journal_append; by destruct (dirtied e). Qed.
Lemma wf_undirty e s : wf s -> wf (undirty e s).
Proof. intros [? ?]. split; unfold undirty; by destruct (dirtied e). Qed.
Lemma wf_get s a s' r : getStateObject s a = (s', r) -> wf s -> wf s'.
Proof.
  unfold getStateObject. intros [= <- _] Hw. destruct (stateObjects s !! a); [done|].
  destruct (trie s !! a); [|done]. by apply wf_set.
Qed.
Hint Resolve wf_set wf_append wf_undirty : state.

Lemma wf_update a f s s' : (forall o, deleted (f o) = deleted o) -> wf s -> updateObject a f s = Ok s' -> wf s'.
Proof.
  intros Hf Hw. unfold updateObject. destruct (lookupObject s a) as [o|] eqn:E; [|done]. intros [= <-].
  apply wf_set; [done|]. rewrite Hf. by eapply lookup_deleted.
Qed.
Lemma u64_is z : is_u64 (u64 z).
Proof. apply u64_range. Qed.
Lemma wf_revertEntry e s s' : entry_ok e -> wf s -> revertEntry e s = Ok s' -> wf s'.
Proof.
  intros Hok Hw. destruct e as [a|a p|a v b|a v|a v|a v|a k v|a c h|v|h|h|a]; simpl;
    try (by apply wf_update); try (by intros [= <-]; destruct Hw).
  - intros [= <-]. destruct Hw as [Hd Hl]. split; [|done]. simpl. intros b o. rewrite lookup_delete_Some. intros [_ ?]. eauto.
  - intros [= <-]. apply wf_set; [done|by eapply Hok].
  - destruct (lookupObject s a) as [o|] eqn:E; [|by intros [= <-]]. intros [= <-]. apply wf_set; [done|].
    simpl. by apply lookup_deleted in E.
  - intros (s1 & Hs1 & H)%bind_Ok_inv. injection H as <-. destruct Hw as [Hd Hl].
    assert (stateObjects s1 = stateObjects s /\ trie s1 = trie s) as [E1 E2].
    { destruct (_ =? 1); [by injection Hs1 as <-|]. apply bind_Ok_inv in Hs1 as (l' & _ & H). by injection H as <-. }
    split; simpl; [by rewrite E1, E2|apply u64_is].
Qed.
Lemma wf_undo es s s' : Forall entry_ok es -> wf s -> undo es s = Ok s' -> wf s'.
Proof.
  intros Hok. revert s'. induction Hok as [|e es He _ IH]; simpl; intros s' Hw; [by intros [= <-]|].
  intros (u & Hu & H)%bind_Ok_inv. apply bind_Ok_inv in H as (v & Hv & H). injection H as <-.
  apply wf_undirty, (wf_revertEntry e u v); [done|by apply (IH u)|done].
Qed.

(** *** Creation *)
Definition creation (a : Z) (prev : option stateObject) : journalEntry :=
  match prev with None => createObjectChange a | Some p => resetObjectChange a p end.
Lemma recorded_create s a o :
  wf s -> deleted o = false ->
  recorded s (setStateObject a o (journal_append (creation a (lookupObject s a)) s)) [creation a (lookupObject s a)].
Proof.
  intros Hw Hd. set (e := creation a (lookupObject s a)).
  assert (entry_ok e) as Hok.
  { intros b p. unfold e, creation. destruct (lookupObject s a) eqn:E; [|done]. intros [= <- <-]. by eapply lookup_deleted. }
  split; [unfold setStateObject; simpl; apply append_entries|by constructor| |
    unfold setStateObject, journal_append; by destruct (dirtied e)].
  cbn [undo]. cbn [mbind res_bind]. unfold e, creation. destruct (lookupObject s a) as [p|] eqn:E; simpl.
  - eexists. split; [done|]. rewrite undirty_sequiv, (set_set_same _ a p); [apply append_sequiv|by rewrite append_lookup|reflexivity].
  - eexists. split; [done|]. rewrite undirty_sequiv. split; try done. intros b. rewrite delete_lookup. simpl.
    case_decide as Hab.
    + subst b. change (trie (setStateObject a o _)) with (trie s). rewrite (wf_lookup_None s a Hw E), E. constructor.
    + rewrite lookup_set, decide_False by done. reflexivity.
Qed.

(** An operation that keeps the state well formed and records its changes. *)
Definition journalled (s s' : StateDB) : Prop := wf s' /\ exists new, recorded s s' new.
Lemma journalled_trans s s1 s2 : journalled s s1 -> journalled s1 s2 -> journalled s s2.
Proof. intros [_ [n1 H1]] [Hw [n2 H2]]. split; [done|]. exists (n1 ++ n2). by eapply recorded_trans. Qed.
Lemma journalled_refl s : wf s -> journalled s s.
Proof. intros Hw. split; [done|]. exists []. split; [by rewrite app_nil_r|done|by exists s|done]. Qed.

Lemma createObject_spec s a s' new prev :
  wf s -> createObject s a = (s', new, prev) ->
  prev = lookupObject s a /\ lookupObject s' a = Some new /\ new = setNonce 0 (newObject zeroAccount) /\
  forall o, deleted o = false -> journalled s (setStateObject a o s').
Proof.
  intros Hw. unfold createObject. destruct (getStateObject s a) as [s1 r] eqn:Eg.
  pose proof (recorded_load _ _ _ _ Eg) as Hrec. pose proof (wf_get _ _ _ _ Eg Hw) as Hw1.
  apply getStateObject_spec in Eg as (-> & _ & Hl & _). intros [= <- <- <-]. rewrite <- Hl.
  split_and!; [done|by rewrite lookup_set, decide_True|done|].
  intros o Ho. rewrite set_set. split; [apply wf_set; [by apply wf_append|done]|].
  exists ([] ++ [creation a (lookupObject s1 a)]). eapply recorded_trans; [exact Hrec|].
  by apply recorded_create.
Qed.

(** What [GetOrNewStateObject] does to lookups. *)
Lemma get_lookup s a s' r : getStateObject s a = (s', r) -> forall b, lookupObject s' b = lookupObject s b.
Proof.
  intros Hg b. pose proof (getStateObject_spec _ _ _ _ Hg) as (_ & _ & Ha & _ & Hb & _).
  destruct (decide (b = a)) as [->|Hne]; [done|]. unfold lookupObject. rewrite (Hb b Hne).
  unfold getStateObject in Hg. injection Hg as <- _. by repeat case_match.
Qed.
Lemma GetOrNew_lookup s a s' o : GetOrNewStateObject s a = (s', o) ->
  lookupObject s' a = Some o /\ (forall b, b <> a -> lookupObject s' b = lookupObject s b) /\
  o = default (setNonce 0 (newObject zeroAccount)) (lookupObject s a).
Proof.
  unfold GetOrNewStateObject. destruct (getStateObject s a) as [s1 r] eqn:Eg. pose proof (get_lookup _ _ _ _ Eg) as Hl.
  apply getStateObject_spec in Eg as (-> & _). destruct (lookupObject s a) as [o0|] eqn:E.
  - intros [= <- <-]. split_and!; [by rewrite Hl|intros b _; apply Hl|done].
  - unfold createObject. destruct (getStateObject s1 a) as [s2 r] eqn:Eg2. pose proof (get_lookup _ _ _ _ Eg2) as Hl2.
    intros [= <- <-]. split_and!; [by rewrite lookup_set, decide_True| |done].
    intros b Hb. rewrite lookup_set, decide_False by done. by rewrite append_lookup, Hl2, Hl.
Qed.
Lemma GetOrNew_journalled s a s' o : wf s -> GetOrNewStateObject s a = (s', o) -> journalled s s'.
Proof.
  intros Hw. unfold GetOrNewStateObject. destruct (getStateObject s a) as [s1 r] eqn:Eg.
  pose proof (recorded_load _ _ _ _ Eg) as Hrec. pose proof (wf_get _ _ _ _ Eg Hw) as Hw1.
  assert (journalled s s1) as Hj by (split; [done|by eexists]).
  destruct r as [o0|]; [by intros [= <- <-]|]. destruct (createObject s1 a) as [[s2 o2] prev] eqn:Ec.
  intros [= <- <-]. pose proof (createObject_spec _ _ _ _ _ Hw1 Ec) as (_ & _ & Hn & Hset).
  eapply journalled_trans; [done|]. assert (s2 = setStateObject a o2 s2) as ->; [|apply Hset; by rewrite Hn].
  unfold createObject in Ec. destruct (getStateObject s1 a). injection Ec as <- <- _. by rewrite set_set.
Qed.
Lemma onObject_journalled f s a :
  (forall s o, wf s -> lookupObject s a = Some o -> journalled s (f a o s)) -> wf s -> journalled s (onObject f s a).
Proof.
  intros Hf Hw. unfold onObject. destruct (GetOrNewStateObject s a) as [s1 o] eqn:Eg.
  pose proof (GetOrNew_journalled _ _ _ _ Hw Eg) as Hj. apply GetOrNew_lookup in Eg as (Hl & _).
  eapply journalled_trans; [done|]. apply Hf; [apply Hj|done].
Qed.

(** *** The journalled setters *)
Lemma set_journalled s a o o' e f :
  wf s -> lookupObject s a = Some o -> deleted o' = deleted o ->
  (forall s, revertEntry e s = updateObject a f s) -> oequiv (f o') o ->
  (forall a p, e <> resetObjectChange a p) -> journalled s (setStateObject a o' (journal_append e s)).
Proof.
  intros Hw Ho Hd Hrev He Hne. rewrite (lookup_deleted _ _ _ Ho) in Hd. split; [apply wf_set; [by apply wf_append|done]|].
  exists [e]. eapply recorded_set; try done. intros b p Hb. by destruct (Hne b p).
Qed.
Lemma touch_journalled s a : wf s -> journalled s (touch a s).
Proof.
  intros Hw. unfold touch. split.
  - destruct (a =? ripemd); [|by apply wf_append]. apply (wf_append (touchChange a)) in Hw. by destruct Hw.
  - exists [touchChange a]. split; [by destruct (a =? ripemd)|by constructor|
      eexists; split; [done|]; rewrite undirty_sequiv; by destruct (a =? ripemd)|by destruct (a =? ripemd)].
Qed.
Lemma SetBalance_journalled s a o v :
  wf s -> lookupObject s a = Some o -> journalled s (stateObject_SetBalance a o v s).
Proof. intros Hw Ho. by eapply (set_journalled _ _ o). Qed.
Lemma AddBalance_journalled s a o v :
  wf s -> lookupObject s a = Some o -> journalled s (stateObject_AddBalance a o v s).
Proof.
  intros Hw Ho. unfold stateObject_AddBalance. destruct (v =? 0); [|by apply SetBalance_journalled].
  destruct (empty o); [by apply touch_journalled|by apply journalled_refl].
Qed.
Lemma SubBalance_journalled s a o v :
  wf s -> lookupObject s a = Some o -> journalled s (stateObject_SubBalance a o v s).
Proof.
  intros Hw Ho. unfold stateObject_SubBalance. destruct (v =? 0); [by apply journalled_refl|by apply SetBalance_journalled].
Qed.
Lemma SetContribution_journalled s a o v :
  wf s -> lookupObject s a = Some o -> journalled s (stateObject_SetContribution a o v s).
Proof. intros Hw Ho. by eapply (set_journalled _ _ o). Qed.
Lemma AddContribution_journalled s a o v :
  wf s -> lookupObject s a = Some o -> journalled s (stateObject_AddContribution a o v s).
Proof.
  intros Hw Ho. unfold stateObject_AddContribution. destruct (v =? 0); [|by apply SetContribution_journalled].
  destruct (empty o); [by apply touch_journalled|by apply journalled_refl].
Qed.
Lemma SubContribution_journalled s a o v :
  wf s -> lookupObject s a = Some o -> journalled s (stateObject_SubContribution a o v s).
Proof.
  intros Hw Ho. unfold stateObject_SubContribution.
  destruct (v =? 0); [by apply journalled_refl|by apply SetContribution_journalled].
Qed.
Lemma SetNonce_journalled s a o v :
  wf s -> lookupObject s a = Some o -> journalled s (stateObject_SetNonce a o v s).
Proof. intros Hw Ho. by eapply (set_journalled _ _ o). Qed.

Lemma loadState_storage o key k : storageOf (loadState o key) k = storageOf o k.
Proof.
  unfold loadState, storageOf, getTrie. destruct (cachedStorage o !! key) eqn:E; [done|]. simpl.
  destruct (decide (key = k)) as [->|]; [by rewrite lookup_insert_eq, E|by rewrite lookup_insert_ne].
Qed.
Lemma SetState_journalled s a o key v :
  wf s -> lookupObject s a = Some o -> journalled s (stateObject_SetState a o key v s).
Proof.
  intros Hw Ho. eapply (set_journalled _ _ o); try done.
  - unfold loadState. by destruct (cachedStorage o !! key).
  - split; try (unfold loadState; by destruct (cachedStorage o !! key)).
    intros k. rewrite !storageOf_set, loadState_storage. by case_decide; subst.
Qed.
Lemma SetCode_journalled s a o h c :
  wf s -> lookupObject s a = Some o -> journalled s (stateObject_SetCode a o h c s).
Proof.
  intros Hw Ho. eapply (set_journalled _ _ o); try done. split; try done.
  unfold codeOf at 1. simpl. unfold codeOf. by destruct (code o), (CodeHash (data o) =? emptyCodeHash).
Qed.
Lemma CreateAccount_journalled s a : wf s -> journalled s (CreateAccount s a).
Proof.
  intros Hw. unfold CreateAccount. destruct (createObject s a) as [[s1 new] prev] eqn:Ec.
  pose proof (createObject_spec _ _ _ _ _ Hw Ec) as (_ & Hl & -> & Hset). destruct prev as [p|]; [by apply Hset|].
  assert (s1 = setStateObject a (setNonce 0 (newObject zeroAccount)) s1) as ->; [|by apply Hset].
  unfold createObject in Ec. destruct (getStateObject s a). injection Ec as <- _. by rewrite set_set.
Qed.
(** A suicide is undone in full only when there is no contribution to lose. *)
Lemma Suicide_journalled s a : wf s -> GetContribution s a = 0 -> journalled s (fst (Suicide s a)).
Proof.
  intros Hw Hc. unfold Suicide. destruct (getStateObject s a) as [s1 r] eqn:Eg.
  pose proof (recorded_load _ _ _ _ Eg) as Hrec. pose proof (wf_get _ _ _ _ Eg Hw) as Hw1.
  assert (journalled s s1) as Hj by (split; [done|by eexists]). pose proof (get_lookup _ _ _ _ Eg a) as Hl.
  apply getStateObject_spec in Eg as (-> & _). unfold GetContribution in Hc.
  destruct (lookupObject s a) as [o|] eqn:Eo; simpl; [|done]. eapply journalled_trans; [done|].
  pose proof (lookup_deleted _ _ _ Hl) as Hd. split; [apply wf_set; [by apply wf_append|done]|].
  exists [suicideChange a (suicided o) (Balance (data o))]. split.
  - unfold setStateObject. simpl. done.
  - by constructor.
  - simpl. rewrite lookup_set, decide_True by done. simpl. eexists. split; [done|]. rewrite undirty_sequiv.
    rewrite (set_set_same _ a o); [apply append_sequiv|by rewrite append_lookup|]. by split.
  - done.
Qed.
Lemma AddRefund_journalled s g : wf s -> journalled s (AddRefund s g).
Proof.
  intros Hw. split; [by destruct Hw|]. exists [refundChange (refund s)].
  split; [done|by constructor|eexists; split; [done|by split]|done].
Qed.
Lemma AddPreimage_journalled s h p : wf s -> journalled s (AddPreimage s h p).
Proof.
  intros Hw. unfold AddPreimage. destruct (preimages s !! h) eqn:E; [by apply journalled_refl|].
  split; [by destruct Hw|]. exists [addPreimageChange h].
  split; [done|by constructor| |done]. eexists. split; [done|]. split; try done. simpl. by apply delete_insert_id.
Qed.
Lemma AddLog_journalled s c : wf s -> journalled s (AddLog s c).
Proof.
  intros Hw. pose proof (wf_logSize s Hw) as Hls. unfold AddLog. set (log := mkLog _ _ _ _ _).
  split; [destruct Hw; split; [done|apply u64_is]|]. exists [addLogChange (thash s)].
  split; [done|by constructor| |done]. cbn [undo mbind res_bind revertEntry undirty dirtied].
  set (s1 := set logSize _ _).
  assert (GetLogs s1 (thash s) = GetLogs s (thash s) ++ [log]) as Hg.
  { unfold GetLogs at 1. subst s1. simpl. by rewrite lookup_insert_eq. }
  assert (forall h, h <> thash s -> GetLogs s1 h = GetLogs s h) as Hne.
  { intros h Hh. unfold GetLogs. subst s1. simpl. by rewrite lookup_insert_ne. }
  assert (logSize s1 -u 1 = logSize s) as Hsz.
  { subst s1. simpl. unfold is_u64 in Hls. rewrite <- (u64_small (logSize s)) at 2 by done.
    unfold u64. rewrite Zminus_mod_idemp_l. f_equal. lia. }
  rewrite Hg. unfold glen. rewrite length_app. simpl length.
  destruct (Z.eqb_spec (Z.of_nat (length (GetLogs s (thash s)) + 1)) 1) as [Hl|Hl].
  - cbn [mbind res_bind]. eexists. split; [done|]. split; try done. intros h.
    unfold GetLogs at 1. simpl. destruct (decide (h = thash s)) as [->|Hh].
    + rewrite lookup_delete_eq. simpl. assert (length (GetLogs s (thash s)) = 0)%nat as H0 by lia.
      apply nil_length_inv in H0. by rewrite <- H0.
    + rewrite lookup_delete_ne by done. by apply Hne.
  - rewrite gslice_in by (unfold glen; rewrite ?length_app; simpl; lia). cbn [mbind res_bind].
    eexists. split; [done|]. split; try done. intros h.
    unfold GetLogs at 1. simpl. destruct (decide (h = thash s)) as [->|Hh].
    + rewrite lookup_insert_eq. cbn [default]. rewrite drop_0, take_app_length' by lia. done.
    + rewrite lookup_insert_ne by done. by apply Hne.
Qed.
End Revisions.

(** ** Sequences of operations *)
Inductive op :=
| opCreateAccount (a : Z) | opAddBalance (a v : Z) | opSubBalance (a v : Z) | opSetBalance (a v : Z)
| opAddContribution (a v : Z) | opSubContribution (a v : Z) | opSetNonce (a v : Z)
| opSetCode (a : Z) (c : list Z) | opSetState (a key value : Z) | opSuicide (a : Z)
| opAddLog (c : list Z) | opAddPreimage (h : Z) (p : list Z) | opAddRefund (gas : Z)
| opSnapshot | opRevert (id : Z).
#[export] Instance op_revert_dec o : Decision (exists id, o = opRevert id).
Proof. destruct o; try (right; by intros [? ?]). left. by eexists. Defined.
#[export] Instance op_eq_dec : EqDecision op.
Proof. solve_decision. Defined.

Section Sequences.
Context {RT : GoRuntime} {DB : Database}.
Implicit Types (s : StateDB).

Definition exec (o : op) (s : StateDB) : sres StateDB :=
  match o with
  | opCreateAccount a => Ok (CreateAccount s a)
  | opAddBalance a v => Ok (StateDB_AddBalance s a v)
  | opSubBalance a v => Ok (StateDB_SubBalance s a v)
  | opSetBalance a v => Ok (StateDB_SetBalance s a v)
  | opAddContribution a v => Ok (onObject (fun a o => stateObject_AddContribution a o v) s a)
  | opSubContribution a v => Ok (onObject (fun a o => stateObject_SubContribution a o v) s a)
  | opSetNonce a v => Ok (StateDB_SetNonce s a v)
  | opSetCode a c => Ok (StateDB_SetCode s a c)
  | opSetState a k v => Ok (StateDB_SetState s a k v)
  | opSuicide a => Ok (fst (Suicide s a))
  | opAddLog c => Ok (AddLog s c)
  | opAddPreimage h p => Ok (AddPreimage s h p)
  | opAddRefund g => Ok (AddRefund s g)
  | opSnapshot => Ok (snd (StateDB_Snapshot s))
  | opRevert id => RevertToSnapshot id s
  end.

(** The steps of a transaction after revision [base] was taken: it goes back to
    later revisions only, and a suicide destroys no contribution. *)
Inductive step (base : Z) : StateDB -> StateDB -> Prop :=
| step_op o s s' :
    exec o s = Ok s' -> (forall id, o = opRevert id -> base < id) ->
    (forall a, o = opSuicide a -> GetContribution s a = 0) -> step base s s'.

Lemma exec_journalled o s s' :
  wf s -> exec o s = Ok s' -> o <> opSnapshot -> (forall id, o <> opRevert id) ->
  (forall a, o = opSuicide a -> GetContribution s a = 0) -> journalled s s'.
Proof.
  intros Hw He H1 H2 H3. destruct o; simpl in He; try (injection He as <-);
    try (apply onObject_journalled; [intros; simpl|done]);
    eauto using CreateAccount_journalled, AddBalance_journalled, SubBalance_journalled, SetBalance_journalled,
      AddContribution_journalled, SubContribution_journalled, SetNonce_journalled, SetCode_journalled,
      SetState_journalled, Suicide_journalled, AddLog_journalled, AddPreimage_journalled, AddRefund_journalled.
  - done.
  - by destruct (H2 id).
Qed.

(** Undoing touches neither the journal nor the revisions. *)
Definition frame s := (entries s, validRevisions s, nextRevisionId s).
Lemma revertEntry_frame e s s' : revertEntry e s = Ok s' -> frame s' = frame s.
Proof.
  destruct e; simpl; unfold updateObject; try (destruct (lookupObject s account)); intros H;
    try done; try (injection H as <-; done).
  apply bind_Ok_inv in H as (s1 & Hs1 & H). injection H as <-. transitivity (frame s1); [done|].
  destruct (_ =? 1); [by injection Hs1 as <-|]. apply bind_Ok_inv in Hs1 as (l' & _ & H). by injection H as <-.
Qed.
Lemma undo_frame es s s' : undo es s = Ok s' -> frame s' = frame s.
Proof.
  revert s'. induction es as [|e es IH]; simpl; intros s'; [by intros [= <-]|].
  intros (u & Hu & H)%bind_Ok_inv. apply bind_Ok_inv in H as (v & Hv & H). injection H as <-.
  rewrite <- (IH u Hu), <- (revertEntry_frame e u v Hv). unfold undirty. by destruct (dirtied e).
Qed.

Lemma search_app id l r rest :
  Forall (fun r => revId r < id) l -> revId r = id -> searchRevision id (l ++ r :: rest) = length l.
Proof.
  intros Hl <-. induction Hl as [|x l Hx _ IH]; simpl; [by rewrite Z.leb_refl|].
  rewrite (proj2 (Z.leb_gt (revId r) (revId x))) by lia. by rewrite IH.
Qed.

(** What holds of every state between a revision and the return to it. *)
Record since (s0 : StateDB) (s : StateDB) : Prop := {
  since_wf : wf s;
  since_prefix : take (length (entries s0)) (entries s) = entries s0;
  since_ok : Forall entry_ok (drop (length (entries s0)) (entries s));
  since_undo : exists u, undo (drop (length (entries s0)) (entries s)) s = Ok u /\ sequiv u s0;
  since_revisions : exists rest,
    validRevisions s = validRevisions s0 ++ mkRevision (nextRevisionId s0) (glen (entries s0)) :: rest /\
    Forall (fun r => glen (entries s0) <= journalIndex r) rest
}.

Lemma since_start s : wf s -> since s (snd (StateDB_Snapshot s)).
Proof.
  intros Hw. split; simpl.
  - by destruct Hw.
  - by rewrite take_ge.
  - by rewrite drop_ge.
  - rewrite drop_ge by done. eexists. split; [done|]. by split.
  - by exists [].
Qed.
Lemma since_journalled s0 s s' : since s0 s -> journalled s s' -> since s0 s'.
Proof.
  intros [Hw Hp Hok (u & Hu & Hs) (rest & Hr & Hrest)] [Hw' (new & [He Hn (u' & Hu' & Hs') [Hv _]])].
  assert (length (entries s0) <= length (entries s))%nat as Hlen.
  { rewrite <- Hp at 1. rewrite length_take. lia. }
  split; [done|rewrite He, take_app_le by done; done| | |].
  - rewrite He, drop_app_le by done. by apply Forall_app.
  - rewrite He, drop_app_le, undo_app, Hu' by done. simpl.
    pose proof (undo_rel _ u' s Hok Hs') as Hrel. rewrite Hu in Hrel.
    destruct (undo _ u') as [v| | |]; simpl in Hrel; try done. exists v. split; [done|]. by etransitivity.
  - exists rest. by rewrite Hv.
Qed.
Lemma since_snapshot s0 s : since s0 s -> since s0 (snd (StateDB_Snapshot s)).
Proof.
  intros [Hw Hp Hok (u & Hu & Hs) (rest & Hr & Hrest)].
  assert (length (entries s0) <= length (entries s))%nat as Hlen.
  { rewrite <- Hp at 1. rewrite length_take. lia. }
  set (s' := snd (StateDB_Snapshot s)).
  assert (sequiv s' s) as Heq by by split. split; [by destruct Hw|done|done| |].
  - change (entries s') with (entries s). pose proof (undo_rel _ s' s Hok Heq) as Hrel. rewrite Hu in Hrel.
    destruct (undo _ s') as [v| | |]; simpl in Hrel; try done. exists v. split; [done|]. by etransitivity.
  - exists (rest ++ [mkRevision (nextRevisionId s) (glen (entries s))]). split.
    + subst s'. simpl. rewrite Hr, <- app_assoc. done.
    + apply Forall_app. split; [done|]. constructor; [|done]. simpl. unfold glen. lia.
Qed.

(** Going back from [s] to journal index [n], not below that of [s0]. *)
Lemma since_undone s0 s n s1 idx :
  since s0 s -> (length (entries s0) <= n)%nat -> (length (validRevisions s0) < idx)%nat ->
  undo (drop n (entries s)) s = Ok s1 ->
  since s0 (s1 <| entries ::= take n |> <| validRevisions ::= take idx |>).
Proof.
  intros [Hw Hp Hok (u & Hu & Hs) (rest & Hr & Hrest)] Hn Hidx H1.
  pose proof (undo_frame _ _ _ H1) as [= He1 Hv1 _].
  assert (exists mid, drop (length (entries s0)) (entries s) = mid ++ drop n (entries s) /\
    drop (length (entries s0)) (take n (entries s)) = mid) as (mid & Hmid & Hmid').
  { exists (drop (length (entries s0)) (take n (entries s))). split; [|done].
    rewrite <- (take_drop n (entries s)) at 1. destruct (decide (n <= length (entries s))%nat).
    - rewrite drop_app_le by (rewrite length_take; lia). done.
    - rewrite (take_ge _ n), (drop_ge _ n), !app_nil_r by lia. done. }
  rewrite Hmid in Hok, Hu. rewrite undo_app, H1 in Hu. simpl in Hu. apply Forall_app in Hok as [Hokm Hokn].
  split; simpl.
  - pose proof (wf_undo _ _ _ Hokn Hw H1) as Hw1. by destruct Hw1.
  - rewrite He1, take_take, Nat.min_l by lia. done.
  - by rewrite He1, Hmid'.
  - rewrite He1, Hmid'. set (s2 := s1 <| entries ::= _ |> <| validRevisions ::= _ |>).
    assert (sequiv s2 s1) as Heq by by split. pose proof (undo_rel mid s2 s1 Hokm Heq) as Hrel. rewrite Hu in Hrel.
    destruct (undo mid s2) as [v| | |]; simpl in Hrel; try done. exists v. split; [done|]. by etransitivity.
  - exists (take (idx - length (validRevisions s0) - 1) rest). rewrite Hv1, Hr. split.
    + rewrite take_app_ge by lia. f_equal.
      destruct (idx - length (validRevisions s0))%nat as [|m] eqn:E; [lia|]. simpl. by rewrite Nat.sub_0_r.
    + by apply Forall_take.
Qed.

Definition revisions_ok s : Prop := Forall (fun r => revId r < nextRevisionId s) (validRevisions s).

Lemma since_revert s0 s id s' :
  revisions_ok s0 -> since s0 s -> nextRevisionId s0 < id -> RevertToSnapshot id s = Ok s' -> since s0 s'.
Proof.
  intros Hro Hsi Hid. unfold RevertToSnapshot. set (idx := searchRevision id (validRevisions s)).
  destruct (validRevisions s !! idx) as [r|] eqn:Er; [|done]. destruct (Z.eqb_spec (revId r) id) as [Hrid|]; [|done].
  intros (s1 & H1 & H)%bind_Ok_inv. injection H as <-. unfold journal_revert in H1.
  apply bind_Ok_inv in H1 as (s2 & H2 & H1). injection H1 as <-.
  destruct (since_revisions _ _ Hsi) as (rest & Hr & Hrest). rewrite Hr in Er.
  apply lookup_app_Some in Er as [Er|[Hge Er]].
  { apply (Forall_lookup_1 _ _ _ _ Hro) in Er. lia. }
  destruct (idx - length (validRevisions s0))%nat as [|m] eqn:E; simpl in Er.
  { injection Er as <-. simpl in Hrid. lia. }
  apply (Forall_lookup_1 _ _ _ _ Hrest) in Er.
  apply (since_undone s0 s _ s2 idx); [done|unfold glen in Er; lia|lia|done].
Qed.

Lemma since_step s0 s s' : revisions_ok s0 -> since s0 s -> step (nextRevisionId s0) s s' -> since s0 s'.
Proof.
  intros Hro Hsi Hst. destruct Hst as [o s s' He Hid Hsu]. destruct (decide (o = opSnapshot)) as [->|Hne].
  { injection He as <-. by apply since_snapshot. }
  destruct (decide (exists id, o = opRevert id)) as [[id ->]|Hnr].
  { apply (since_revert s0 s id s'); [done|done|by apply Hid|done]. }
  apply (since_journalled s0 s s' Hsi), (exec_journalled o s s'); [apply Hsi|done|done| |done].
  intros id ->. apply Hnr. by exists id.
Qed.

(** C8. Going back to a revision restores the state: whatever sequence of balance
    transfers, nonce, code and storage writes, contract creations, logs,
    refunds, nested revisions and returns to them lies in between, no accessor
    can tell the state from what it was, and the journal and the valid
    revisions are those of before. Suicides count only of accounts without a
    contribution. *)
Theorem RevertToSnapshot_restores s0 s :
  wf s0 -> revisions_ok s0 ->
  let '(id, s1) := StateDB_Snapshot s0 in
  rtc (step id) s1 s ->
  exists s', RevertToSnapshot id s = Ok s' /\ sequiv s' s0 /\ entries s' = entries s0 /\
    validRevisions s' = validRevisions s0.
Proof.
  intros Hw Hro. simpl. intros Hrun.
  assert (since s0 s) as Hsi.
  { remember (set validRevisions _ _) as s1 eqn:E1. assert (since s0 s1) as H1 by (subst; by apply since_start).
    clear E1. induction Hrun as [|s1 s2 s3 Hstep _ IH]; [done|]. apply IH. by eapply since_step. }
  destruct Hsi as [_ Hp _ (u & Hu & Hs) (rest & Hr & _)]. unfold RevertToSnapshot. rewrite Hr.
  rewrite (search_app (nextRevisionId s0) (validRevisions s0) _ rest), lookup_app_r, Nat.sub_diag by done. simpl.
  rewrite Z.eqb_refl. unfold journal_revert, glen. rewrite Nat2Z.id, Hu. simpl.
  pose proof (undo_frame _ _ _ Hu) as [= He Hv _].
  eexists. split; [done|]. split_and!; simpl.
  - transitivity u; [by split|done].
  - by rewrite He.
  - by rewrite Hv, Hr, take_app_length.
Qed.

(** C34. A suicide that is rolled back destroys the contribution of the account:
    for an account that exists, in a well-formed state, the suicide marks it and
    clears its balance and contribution; going back restores the mark and the
    balance of before, but the journal does not keep the contribution, which is
    zero whatever it was. *)
Theorem suicide_revert_loses_contribution s a o :
  wf s -> revisions_ok s -> lookupObject s a = Some o ->
  let '(id, s1) := StateDB_Snapshot s in
  exists s', HasSuicided (fst (Suicide s1 a)) a = true /\ RevertToSnapshot id (fst (Suicide s1 a)) = Ok s' /\
    GetContribution s a = Contribution (data o) /\ GetContribution s' a = 0 /\
    StateDB_GetBalance s' a = StateDB_GetBalance s a /\ HasSuicided s' a = HasSuicided s a.
Proof.
  intros Hw Hro Ho. simpl. set (s1 := set validRevisions _ _).
  assert (lookupObject s1 a = Some o) as Ho1 by done. pose proof (lookup_deleted _ _ _ Ho) as Hd.
  unfold Suicide. destruct (getStateObject s1 a) as [s2 r] eqn:Eg.
  pose proof (get_lookup _ _ _ _ Eg a) as Hl. rewrite Ho1 in Hl.
  apply getStateObject_spec in Eg as (-> & _ & _ & He & _ & Hv & _). rewrite Ho1. simpl.
  set (s3 := setStateObject a _ _). unfold RevertToSnapshot.
  assert (lookupObject s3 a = Some (setContribution 0 (setBalance 0 (o <| suicided := true |>)))) as Hl3.
  { unfold s3. by rewrite lookup_set, decide_True. }
  assert (validRevisions s3 = validRevisions s ++ [mkRevision (nextRevisionId s) (glen (entries s))]) as Hv3.
  { unfold s3, setStateObject. simpl. by rewrite Hv. }
  assert (entries s3 = entries s ++ [suicideChange a (suicided o) (Balance (data o))]) as He3.
  { unfold s3, setStateObject. simpl. by rewrite He. }
  rewrite Hv3, (search_app (nextRevisionId s) (validRevisions s) _ []), lookup_app_r, Nat.sub_diag by done. simpl.
  rewrite Z.eqb_refl. unfold journal_revert, glen. rewrite Nat2Z.id, He3, drop_app_length. simpl.
  unfold HasSuicided, GetContribution, StateDB_GetBalance. rewrite Hl3, Ho. simpl. eexists. split; [done|]. split; [done|].
  unfold undirty. simpl. set (o' := setBalance _ _).
  match goal with |- context [lookupObject ?st a] =>
    assert (lookupObject st a = Some o') as -> end; [|done].
  unfold lookupObject, setStateObject. simpl. by rewrite lookup_insert_eq; simpl; rewrite Hd.
Qed.
End Sequences.

(** ** Balances *)
Section Ledger.
Context {RT : GoRuntime} {DB : Database}.

Lemma balance_onObject f s a b v :
  (forall s o, lookupObject s a = Some o ->
     StateDB_GetBalance (f a o s) a = v (Balance (data o)) /\
     forall c, c <> a -> lookupObject (f a o s) c = lookupObject s c) ->
  StateDB_GetBalance (onObject f s a) b = if a =? b then v (StateDB_GetBalance s b) else StateDB_GetBalance s b.
Proof.
  intros Hf. unfold onObject. destruct (GetOrNewStateObject s a) as [s1 o] eqn:Eg.
  apply GetOrNew_lookup in Eg as (Hl & Hne & Ho). destruct (Hf s1 o Hl) as [H1 H2].
  destruct (Z.eqb_spec a b) as [<-|Hab].
  - rewrite H1, Ho. unfold StateDB_GetBalance. by destruct (lookupObject s a).
  - unfold StateDB_GetBalance. by rewrite H2, Hne by congruence.
Qed.
Lemma SetBalance_spec s a o v : lookupObject s a = Some o ->
  StateDB_GetBalance (stateObject_SetBalance a o v s) a = v /\
  forall c, c <> a -> lookupObject (stateObject_SetBalance a o v s) c = lookupObject s c.
Proof.
  intros Ho. pose proof (lookup_deleted _ _ _ Ho). unfold stateObject_SetBalance, StateDB_GetBalance. split.
  - by rewrite lookup_set, decide_True.
  - intros c Hc. by rewrite lookup_set, decide_False.
Qed.
Lemma touch_lookup s a c : lookupObject (touch a s) c = lookupObject s c.
Proof. unfold touch. destruct (a =? ripemd); apply append_lookup. Qed.

Lemma StateDB_GetBalance_Set s a v b :
  StateDB_GetBalance (StateDB_SetBalance s a v) b = if a =? b then v else StateDB_GetBalance s b.
Proof. apply (balance_onObject _ s a b (fun _ => v)). intros s1 o. apply SetBalance_spec. Qed.
Lemma StateDB_GetBalance_Add s a v b :
  StateDB_GetBalance (StateDB_AddBalance s a v) b = StateDB_GetBalance s b + if a =? b then v else 0.
Proof.
  unfold StateDB_AddBalance. rewrite (balance_onObject _ s a b (fun x => x + v)); [destruct (a =? b); lia|].
  intros s1 o Ho. unfold stateObject_AddBalance. destruct (Z.eqb_spec v 0) as [->|]; [|by apply SetBalance_spec].
  destruct (empty o); unfold StateDB_GetBalance; rewrite ?touch_lookup, Ho, Z.add_0_r; (split; [done|]); intros; by rewrite ?touch_lookup.
Qed.
Lemma StateDB_GetBalance_Sub s a v b :
  StateDB_GetBalance (StateDB_SubBalance s a v) b = StateDB_GetBalance s b - if a =? b then v else 0.
Proof.
  unfold StateDB_SubBalance. rewrite (balance_onObject _ s a b (fun x => x - v)); [destruct (a =? b); lia|].
  intros s1 o Ho. unfold stateObject_SubBalance. destruct (Z.eqb_spec v 0) as [->|]; [|by apply SetBalance_spec].
  unfold StateDB_GetBalance. by rewrite Ho, Z.sub_0_r.
Qed.
End Ledger.
