(* ===== verification/AlienTypes.v ===== *)
(** * Data of the alien (delegated proof of stake) engine

    The structures of [consensus/alien/custom_tx.go] and
    [consensus/alien/snapshot.go], the header of [core/types/block.go] and the
    configuration of [params/config.go], with the constants of the engine.

    An [Address] ([20]byte) and a [Hash] ([32]byte) are the big-endian values
    of their bytes, so equality of arrays and of their [Str()] is equality of
    [Z] and [bytes.Compare] is [Z.compare]. A [big.Int] is a [Z]; a nil-able
    [big.Int] is an [option Z]; a [uint64] is a [Z] in range. *)
From S2P Require Import Prelude.

Abbreviation Address := Z (only parsing).
Abbreviation Hash := Z (only parsing).

(** ** Constants (alien.go, snapshot.go, custom_tx.go) *)
Definition ether : Z := 10 ^ 18.
Definition defaultFullCredit : Z := 28800.
Definition missingPublishCredit : Z := 100.
Definition signRewardCredit : Z := 10.
Definition autoRewardCredit : Z := 1.
Definition minCalSignerQueueCredit : Z := 10000.
Definition defaultOfficialMaxSignerCount : Z := 21.
Definition defaultOfficialFirstLevelCount : Z := 10.
Definition defaultOfficialSecondLevelCount : Z := 20.
Definition defaultOfficialThirdLevelCount : Z := 30.
Definition defaultOfficialMaxValidCount : Z := 50.
Definition maxUncheckBalanceVoteCount : Z := 10000.
Definition candidateStateNormal : Z := 1.
Definition candidateMaxLen : Z := 500.
Definition scRewardDelayLoopCount : Z := 0.
Definition scRewardExpiredLoopCount : Z := scRewardDelayLoopCount + 4.
Definition scMaxCountPerPeriod : Z := 6.
Definition scMaxConfirmedRecordLength : Z := defaultOfficialMaxSignerCount * 50.
Definition proposalRefundDelayLoopCount : Z := 0.
Definition proposalRefundExpiredLoopCount : Z := proposalRefundDelayLoopCount + 2.
Definition mcNoticeClearDelayLoopCount : Z := 4.
Definition scNoticeClearDelayLoopCount : Z := mcNoticeClearDelayLoopCount * scMaxCountPerPeriod * 2.
Definition scGasChargingDelayLoopCount : Z := 1.
Definition bugFixBlockNumber : Z := 14456164.
Definition extraVanity : Z := 32.
Definition extraSeal : Z := 65.
Definition defaultLoopCntRecalculateSigners : Z := 10.
Definition minerRewardPerThousand : Z := 618.
Definition candidateNeedPD : bool := false.
Definition proposalDeposit : Z := ether * 10 ^ 4.
Definition minVoterBalance : Z := 100 * ether.
Definition noticeTypeGasCharging : Z := 1.

(** The proposal types are bare [uint64] tags of the transaction. *)
Definition proposalTypeCandidateAdd : Z := 1.
Definition proposalTypeCandidateRemove : Z := 2.
Definition proposalTypeMinerRewardDistributionModify : Z := 3.
Definition proposalTypeSideChainAdd : Z := 4.
Definition proposalTypeSideChainRemove : Z := 5.
Definition proposalTypeMinVoterBalanceModify : Z := 6.
Definition proposalTypeProposalDepositModify : Z := 7.
Definition proposalTypeRentSideChain : Z := 8.

(** ** Errors *)
Inductive AlienError :=
| errUnknownBlock | errMissingVanity | errMissingSignature | errInvalidMixDigest
| errInvalidUncleHash | ErrInvalidTimestamp | errInvalidVotingChain | errUnauthorized
| errPunishedMissing | errWaitTransactions | errUnclesNotAllowed
| errCreateSignerQueueNotAllowed | errInvalidSignerQueue | errSignerQueueEmpty
| errGetLastLoopInfoFail | errInvalidNeighborSigner | errLastLoopHeaderFail
| errIncorrectTallyCount | errAllStakeMissing | ErrUnknownAncestor | ErrFutureBlock
| errMCGasChargingInvalid | errMCPeriodMissing | errNotSideChain | errMCRPCClientEmpty
| errMissingGenesisLightConfig | errDecode | errEncode | errSignature.
#[export] Instance AlienError_eq_dec : EqDecision AlienError.
Proof. solve_decision. Defined.
Abbreviation ares := (res AlienError).

(** ** Configuration *)
Record AlienConfig := mkAlienConfig {
  Period : Z; Epoch : Z; MaxSignerCount : Z; MinVoterBalance : option Z;
  GenesisTimestamp : Z; SelfVoteSigners : list Address; SideChain : bool;
  TrantorBlock : option Z
}.

(** [isForked] of [params/config.go]: a nil fork block never forks. *)
Definition isForked (s head : option Z) : bool :=
  match s, head with
  | Some s, Some head => s <=? head
  | _, _ => false
  end.
Definition IsTrantor (c : AlienConfig) (num : Z) : bool := isForked (TrantorBlock c) (Some num).

(** ** Block header (core/types/block.go) *)
Record Header := mkHeader {
  hParentHash : Hash; hUncleHash : Hash; hCoinbase : Address; hRoot : Hash;
  hTxHash : Hash; hReceiptHash : Hash; hBloom : Z; hDifficulty : Z; hNumber : option Z;
  hGasLimit : Z; hGasUsed : Z; hTime : Z; hExtra : list Z; hMixDigest : Hash; hNonce : Z
}.

(** ** Custom transactions (custom_tx.go) *)
Record Vote := mkVote { Voter : Address; Candidate : Address; Stake : Z }.
Record Confirmation := mkConfirmation { Signer : Address; BlockNumber : Z }.
(** The struct [Declare]; the word is a keyword here. *)
Record Declare_ := mkDeclare { ProposalHash : Hash; Declarer : Address; Decision : bool }.

Record Proposal := mkProposal {
  pHash : Hash; ReceivedNumber : Z; CurrentDeposit : Z; ValidationLoopCnt : Z;
  ProposalType : Z; Proposer : Address; TargetAddress : Address;
  MinerRewardPerThousand : Z; SCHash : Hash; SCBlockCountPerPeriod : Z;
  SCBlockRewardPerPeriod : Z; Declares : list Declare_; pMinVoterBalance : Z;
  ProposalDeposit : Z; SCRentFee : Z; SCRentRate : Z; SCRentLength : Z
}.
#[export] Instance Proposal_eta : Settable Proposal := fun p =>
  mkProposal (pHash p) (ReceivedNumber p) (CurrentDeposit p) (ValidationLoopCnt p)
    (ProposalType p) (Proposer p) (TargetAddress p) (MinerRewardPerThousand p) (SCHash p)
    (SCBlockCountPerPeriod p) (SCBlockRewardPerPeriod p) (Declares p) (pMinVoterBalance p)
    (ProposalDeposit p) (SCRentFee p) (SCRentRate p) (SCRentLength p).

Record SCConfirmation := mkSCConfirmation {
  scHash : Hash; scCoinbase : Address; scNumber : Z; LoopInfo : list bytes
}.
Record SCSetCoinbase := mkSCSetCoinbase {
  sscHash : Hash; sscSigner : Address; sscCoinbase : Address
}.
Record GasCharging := mkGasCharging { Target : Address; Volume : Z; gcHash : Hash }.

Record HeaderExtra := mkHeaderExtra {
  CurrentBlockConfirmations : list Confirmation;
  CurrentBlockVotes : list Vote;
  CurrentBlockProposals : list Proposal;
  CurrentBlockDeclares : list Declare_;
  ModifyPredecessorVotes : list Vote;
  eLoopStartTime : Z;
  SignerQueue : list Address;
  SignerMissing : list Address;
  ConfirmedBlockNumber : Z;
  SideChainConfirmations : list SCConfirmation;
  SideChainSetCoinbases : list SCSetCoinbase;
  SideChainNoticeConfirmed : list SCConfirmation;
  SideChainCharging : list GasCharging
}.
#[export] Instance HeaderExtra_eta : Settable HeaderExtra := fun e =>
  mkHeaderExtra (CurrentBlockConfirmations e) (CurrentBlockVotes e) (CurrentBlockProposals e)
    (CurrentBlockDeclares e) (ModifyPredecessorVotes e) (eLoopStartTime e) (SignerQueue e)
    (SignerMissing e) (ConfirmedBlockNumber e) (SideChainConfirmations e)
    (SideChainSetCoinbases e) (SideChainNoticeConfirmed e) (SideChainCharging e).
(** The zero value [HeaderExtra{}]. *)
Definition emptyHeaderExtra : HeaderExtra :=
  mkHeaderExtra [] [] [] [] [] 0 [] [] 0 [] [] [] [].

(** ** Side chain state (snapshot.go) *)
Record SCRentInfo := mkSCRentInfo { RentPerPeriod : Z; MaxRewardNumber : Z }.
Record SCRecord := mkSCRecord {
  Record_ : gmap Z (list SCConfirmation); LastConfirmedNumber : Z; MaxHeaderNumber : Z;
  CountPerPeriod : Z; RewardPerPeriod : Z; RentReward : gmap Z SCRentInfo
}.
#[export] Instance SCRecord_eta : Settable SCRecord := fun r =>
  mkSCRecord (Record_ r) (LastConfirmedNumber r) (MaxHeaderNumber r) (CountPerPeriod r)
    (RewardPerPeriod r) (RentReward r).
Record NoticeCR := mkNoticeCR {
  NRecord : gmap Z bool; nNumber : Z; nType : Z; Success : bool
}.
#[export] Instance NoticeCR_eta : Settable NoticeCR := fun n =>
  mkNoticeCR (NRecord n) (nNumber n) (nType n) (Success n).
Record CCNotice := mkCCNotice {
  CurrentCharging : gmap Z GasCharging; ConfirmReceived : gmap Z NoticeCR
}.
#[export] Instance CCNotice_eta : Settable CCNotice := fun n =>
  mkCCNotice (CurrentCharging n) (ConfirmReceived n).

(** ** The snapshot

    [Proposals] is [map[common.Hash]*Proposal]: two keys may hold the same
    pointer, so the map holds locations of [pheap], the proposals allocated
    while the snapshot is built (a location is the index of its cell). The
    other pointers of the structure ([*big.Int], [*Vote], [*SCRecord], ...) are
    never stored under two keys and mutated, and are kept as values. *)
Record Snapshot := mkSnapshot {
  config : AlienConfig; LCRS : Z; sPeriod : Z; Number : Z; ConfirmedNumber : Z;
  sHash : Hash; HistoryHash : list Hash; Signers : list Address;
  Votes : gmap Z Vote; Tally : gmap Z Z; Voters : gmap Z Z; Candidates : gmap Z Z;
  Punished : gmap Z Z; Confirmations : gmap Z (list Address);
  Proposals : gmap Z nat; pheap : list Proposal;
  HeaderTime : Z; LoopStartTime : Z; ProposalRefund : gmap Z (gmap Z Z);
  SCCoinbase : gmap Z (gmap Z Address); SCRecordMap : gmap Z SCRecord;
  SCRewardMap : gmap Z (gmap Z (gmap Z Z));
  SCNoticeMap : gmap Z CCNotice; LocalNotice : CCNotice;
  MinerReward : Z; MinVB : option Z
}.
#[export] Instance Snapshot_eta : Settable Snapshot := fun s =>
  mkSnapshot (config s) (LCRS s) (sPeriod s) (Number s) (ConfirmedNumber s) (sHash s)
    (HistoryHash s) (Signers s) (Votes s) (Tally s) (Voters s) (Candidates s) (Punished s)
    (Confirmations s) (Proposals s) (pheap s) (HeaderTime s) (LoopStartTime s)
    (ProposalRefund s) (SCCoinbase s) (SCRecordMap s) (SCRewardMap s) (SCNoticeMap s)
    (LocalNotice s) (MinerReward s) (MinVB s).

(** Maps of maps: [m[k1][k2]] of a Go map whose missing rows are nil. *)
Definition lookup2 {V} (m : gmap Z (gmap Z V)) (k1 k2 : Z) : option V :=
  m !! k1 ≫= fun row => row !! k2.

(** A snapshot with every map empty, for concrete evaluations. *)
Definition blankSnapshot (c : AlienConfig) : Snapshot :=
  mkSnapshot c defaultLoopCntRecalculateSigners (Period c) 0 0 0 [] [] ∅ ∅ ∅ ∅ ∅ ∅ ∅ [] 0 0 ∅ ∅ ∅ ∅ ∅
    (mkCCNotice ∅ ∅) minerRewardPerThousand (MinVoterBalance c).
(** The parameters of the main network: period 3, 21 signers. *)
Definition sampleConfig : AlienConfig := mkAlienConfig 3 201600 21 (Some minVoterBalance) 0 [] false None.
