(* ===== verification/AlienVotes.v ===== *)
(** * Votes, tally and expiry of the alien snapshot

    Models [updateSnapshotByVotes], [updateSnapshotByMPVotes],
    [updateSnapshotForExpired], [verifyTallyCnt], [updateSnapshotForPunish],
    [updateSnapshotByConfirmations], [getLastConfirmedBlockNumber] and
    [inturn] of [consensus/alien/snapshot.go], and proves that the tally is at
    every moment the sum of the recorded stakes. *)
From S2P Require Import Prelude AlienTypes.

Section Operations.
Context {RT : GoRuntime}.

(** ** Votes *)

(** [s.Tally[c].Add(s.Tally[c], d)] or [Sub]: the entry is a pointer, and a
    missing one is nil, whose method panics. *)
Definition tally_add (s : Snapshot) (c : Address) (d : Z) : ares Snapshot :=
  t ← get_or_panic (Tally s !! c);
  Ok (s <| Tally ::= <[c := t + d]> |>).

Definition voteStep (headerNumber : Z) (s : Snapshot) (vote : Vote) : ares Snapshot :=
  s1 ← match Votes s !! Voter vote with
       | Some lastVote => tally_add s (Candidate lastVote) (- Stake lastVote)
       | None => Ok s
       end;
  let s2 :=
    match Tally s1 !! Candidate vote with
    | Some t => s1 <| Tally ::= <[Candidate vote := t + Stake vote]> |>
    | None =>
        let s' := s1 <| Tally ::= <[Candidate vote := Stake vote]> |> in
        if negb candidateNeedPD
        then s' <| Candidates ::= <[Candidate vote := candidateStateNormal]> |>
        else s'
    end in
  Ok (s2 <| Votes ::= <[Voter vote := mkVote (Voter vote) (Candidate vote) (Stake vote)]> |>
         <| Voters ::= <[Voter vote := headerNumber]> |>).
Definition updateSnapshotByVotes (votes : list Vote) (headerNumber : Z) (s : Snapshot) :
  ares Snapshot := foldM (voteStep headerNumber) votes s.

Definition mpVoteStep (s : Snapshot) (txVote : Vote) : ares Snapshot :=
  match Votes s !! Voter txVote with
  | Some lastVote =>
      s1 ← tally_add s (Candidate lastVote) (- Stake lastVote);
      s2 ← tally_add s1 (Candidate lastVote) (Stake txVote);
      Ok (s2 <| Votes ::=
            <[Voter txVote := mkVote (Voter txVote) (Candidate lastVote) (Stake txVote)]> |>)
  | None => Ok s
  end.
Definition updateSnapshotByMPVotes (votes : list Vote) (s : Snapshot) : ares Snapshot :=
  foldM mpVoteStep votes s.

(** ** Expiry *)

(** Whether the vote of one voter is collected as expired. The comparison
    with [MinVB] is only reached when the epoch test fails. *)
Definition voteExpired (s : Snapshot) (headerNumber : Z) (checkBalance : bool)
    (voteNumber : Z) (vote : Vote) : ares bool :=
  if Epoch (config s) <? bigUint64 headerNumber -u bigUint64 voteNumber then Ok true
  else if checkBalance
  then (minVB ← get_or_panic (MinVB s); Ok (Stake vote <? minVB))
  else Ok false.

Definition collectExpired (s : Snapshot) (headerNumber : Z) : ares (list Vote) :=
  let checkBalance := maxUncheckBalanceVoteCount <? Z.of_nat (size (Voters s)) in
  foldM (fun acc '(voterAddress, voteNumber) =>
    match Votes s !! voterAddress with
    | Some expiredVote =>
        e ← voteExpired s headerNumber checkBalance voteNumber expiredVote;
        Ok (if e : bool then acc ++ [expiredVote] else acc)
    | None => Ok acc
    end) (range (Voters s)) [].

Definition removeExpiredVote (s : Snapshot) (v : Vote) : Snapshot :=
  let s1 :=
    match Tally s !! Candidate v with
    | Some t =>
        let t' := t - Stake v in
        if t' =? 0 then s <| Tally ::= delete (Candidate v) |>
        else s <| Tally ::= <[Candidate v := t']> |>
    | None => s
    end in
  s1 <| Votes ::= delete (Voter v) |> <| Voters ::= delete (Voter v) |>.

Definition removeExpiredConfirmations (headerNumber : Z) (s : Snapshot) : Snapshot :=
  fold_left (fun s '(blockNumber, _) =>
    if MaxSignerCount (config s) <? bigUint64 headerNumber -u blockNumber
    then s <| Confirmations ::= delete blockNumber |> else s)
    (range (Confirmations s)) s.

Definition removeZeroTally (s : Snapshot) : Snapshot :=
  fold_left (fun s '(address, tally) =>
    if tally <=? 0
    then s <| SCCoinbase ::= delete address |> <| Tally ::= delete address |> else s)
    (range (Tally s)) s.

Definition updateSnapshotForExpired (headerNumber : Z) (s : Snapshot) : ares Snapshot :=
  expiredVotes ← collectExpired s headerNumber;
  let s1 :=
    if MaxSignerCount (config s) <=? u64 (Z.of_nat (size (Voters s)) - glen expiredVotes)
    then fold_left removeExpiredVote expiredVotes s else s in
  Ok (removeZeroTally (removeExpiredConfirmations headerNumber s1)).

(** ** The check at the end of [apply] *)
Definition tallyTarget (s : Snapshot) : gmap Z Z :=
  fold_left (fun (m : gmap Z Z) '(_, v) =>
    match m !! Candidate v with
    | Some t => <[Candidate v := t + Stake v]> m
    | None => <[Candidate v := Stake v]> m
    end) (range (Votes s)) ∅.
Definition verifyTallyCnt (s : Snapshot) : ares unit :=
  let target := tallyTarget s in
  foldM (fun _ '(address, tally) =>
    match target !! address with
    | Some targetTally => if targetTally =? tally then Ok tt else Err errIncorrectTallyCount
    | None => Err errIncorrectTallyCount
    end) (range (Tally s)) tt.

(** ** Punishment *)
Definition punishMissing (s : Snapshot) (signerEach : Address) : Snapshot :=
  match Punished s !! signerEach with
  | Some p =>
      if p <=? 10 * defaultFullCredit
      then s <| Punished ::= <[signerEach := p +u missingPublishCredit]> |> else s
  | None => s <| Punished ::= <[signerEach := missingPublishCredit]> |>
  end.
(** Give back [credit] to one punished signer, and forget it when nothing is left. *)
Definition reducePunish (credit : Z) (s : Snapshot) (signer : Address) : Snapshot :=
  match Punished s !! signer with
  | Some p =>
      if credit <? p then s <| Punished ::= <[signer := p -u credit]> |>
      else s <| Punished ::= delete signer |>
  | None => s
  end.
Definition updateSnapshotForPunish (signerMissing : list Address) (headerNumber : Z)
    (coinbase : Address) (s : Snapshot) : Snapshot :=
  let s1 := fold_left punishMissing signerMissing s in
  let s2 := reducePunish signRewardCredit s1 coinbase in
  let s3 := fold_left (fun s '(signerEach, _) => reducePunish autoRewardCredit s signerEach)
              (range (Punished s2)) s2 in
  if IsTrantor (config s3) headerNumber && negb (IsTrantor (config s3) (headerNumber - 1))
  then s3 <| Punished := ∅ |> else s3.

(** ** Confirmations *)
Definition addConfirmation (m : gmap Z (list Address)) (c : Confirmation) : gmap Z (list Address) :=
  let n := bigUint64 (BlockNumber c) in
  let m1 := match m !! n with Some _ => m | None => <[n := []]> m end in
  let l := default [] (m1 !! n) in
  if existsb (Z.eqb (Signer c)) l then m1 else <[n := l ++ [Signer c]]> m1.
Definition updateSnapshotByConfirmations (confirmations : list Confirmation) (s : Snapshot) :
  Snapshot := s <| Confirmations := fold_left addConfirmation confirmations (Confirmations s) |>.

(** The loop [for ; i > s.Number-s.config.MaxSignerCount*2/3+1; i--]; [fuel]
    bounds its iterations, [i] decreasing by one at each. *)
Fixpoint lastConfirmedLoop (fuel : nat) (cpy : gmap Z (list Address)) (bound need i : Z) : Z :=
  match fuel with
  | O => i
  | S fuel =>
      if bound <? i then
        match cpy !! i with
        | Some confirmers =>
            if need <? glen confirmers then i
            else lastConfirmedLoop fuel cpy bound need (i -u 1)
        | None => lastConfirmedLoop fuel cpy bound need (i -u 1)
        end
      else i
  end.
Definition getLastConfirmedBlockNumber (confirmations : list Confirmation) (s : Snapshot) : Z :=
  let cpyConfirmations := fold_left addConfirmation confirmations (Confirmations s) in
  let m := MaxSignerCount (config s) in
  let bound := u64 (Number s - (m *u 2) / 3 + 1) in
  let need := i64 ((m *u 2) / 3) in
  i64 (lastConfirmedLoop (Z.to_nat (Number s - bound)) cpyConfirmations bound need (Number s)).

(** ** In-turn signer *)
Definition inturn (s : Snapshot) (signer : Address) (headerTime : Z) : ares bool :=
  let signersCount := glen (Signers s) in
  if 0 <? signersCount then
    slot ← udiv (headerTime -u LoopStartTime s) (Period (config s));
    a ← gindex (Signers s) (slot mod signersCount);
    Ok (a =? signer)
  else Ok false.

Definition isSideChainExist (s : Snapshot) (hash : Hash) : bool := bool_decide (is_Some (SCRecordMap s !! hash)).
Definition isVoter (s : Snapshot) (address : Address) : bool := bool_decide (is_Some (Voters s !! address)).
Definition isCandidate (s : Snapshot) (address : Address) : bool := bool_decide (is_Some (Candidates s !! address)).
End Operations.

(** ** The tally invariant *)

(** Stake recorded for candidate [c] by the votes of [s]. *)
Definition stakeOf (c : Address) (votes : gmap Z Vote) : Z :=
  msum (fun v => if Candidate v =? c then Stake v else 0) votes.

(** Votes are filed under their voter and carry non-negative stakes, and the
    tally of every candidate is the sum of the stakes of its votes. *)
Record tally_inv (s : Snapshot) : Prop := {
  votes_keyed : forall k v, Votes s !! k = Some v -> Voter v = k;
  stakes_nonneg : forall k v, Votes s !! k = Some v -> 0 <= Stake v;
  tally_sum : forall c, default 0 (Tally s !! c) = stakeOf c (Votes s)
}.

(** No vote names a candidate without a tally entry: what keeps the updates
    from dereferencing a nil pointer. *)
Definition no_dangling_vote (s : Snapshot) : Prop :=
  forall k v, Votes s !! k = Some v -> is_Some (Tally s !! Candidate v).

Definition valid_votes (votes : list Vote) : Prop := Forall (fun v => 0 <= Stake v) votes.

Lemma stakeOf_insert c votes k v :
  stakeOf c (<[k:=v]> votes) =
  stakeOf c votes + (if Candidate v =? c then Stake v else 0)
  - from_option (fun v => if Candidate v =? c then Stake v else 0) 0 (votes !! k).
Proof. apply msum_update. Qed.

Lemma stakeOf_delete c votes k :
  stakeOf c (delete k votes) =
  stakeOf c votes - from_option (fun v => if Candidate v =? c then Stake v else 0) 0 (votes !! k).
Proof. apply msum_remove. Qed.

Lemma default_insert (m : gmap Z Z) c t c' :
  default 0 (<[c:=t]> m !! c') = if c =? c' then t else default 0 (m !! c').
Proof.
  destruct (Z.eqb_spec c c') as [->|].
  - by rewrite lookup_insert_eq.
  - by rewrite lookup_insert_ne.
Qed.

Lemma default_delete (m : gmap Z Z) c c' :
  default 0 (delete c m !! c') = if c =? c' then 0 else default 0 (m !! c').
Proof.
  destruct (Z.eqb_spec c c') as [->|].
  - by rewrite lookup_delete_eq.
  - by rewrite lookup_delete_ne.
Qed.

(** Case analysis for goals about tallies after updates: every lookup is
    rewritten to a test on the candidate and the tests are split. *)
Ltac tally_cases :=
  simpl in *;
  repeat (rewrite ?stakeOf_insert, ?stakeOf_delete, ?default_insert, ?default_delete in *; simpl in *);
  repeat match goal with
  | H : ?m !! ?k = _ |- context [?m !! ?k] => rewrite H
  | H : ?m !! ?k = _, H' : context [?m !! ?k] |- _ =>
      lazymatch H' with H => fail | _ => rewrite H in H' end
  | |- context [?a =? ?b] => destruct (Z.eqb_spec a b); subst
  | _ => progress simpl in *
  end; simpl in *; try lia; try congruence.

Lemma tally_add_Ok s c d s' :
  tally_add s c d = Ok s' ->
  exists t, Tally s !! c = Some t /\ s' = s <| Tally ::= <[c := t + d]> |>.
Proof. unfold tally_add. destruct (Tally s !! c); simpl; intros; simplify_eq; eauto. Qed.

Lemma voteStep_Tally n s v s' c :
  voteStep n s v = Ok s' ->
  default 0 (Tally s' !! c) = default 0 (Tally s !! c)
    + (if Candidate v =? c then Stake v else 0)
    - from_option (fun v => if Candidate v =? c then Stake v else 0) 0 (Votes s !! Voter v).
Proof.
  unfold voteStep. intros (s1 & Hs1 & H)%bind_Ok_inv. injection H as <-.
  assert (default 0 (Tally s1 !! c) = default 0 (Tally s !! c) -
    from_option (fun v => if Candidate v =? c then Stake v else 0) 0 (Votes s !! Voter v)) as Heq.
  { destruct (Votes s !! Voter v) as [lv|]; simpl in *; [|simplify_eq; lia].
    apply tally_add_Ok in Hs1 as (t & Ht & ->). tally_cases. }
  destruct (Tally s1 !! Candidate v) eqn:E; simpl; rewrite default_insert;
    destruct (Z.eqb_spec (Candidate v) c) as [<-|]; rewrite ?E in Heq; simpl in *; lia.
Qed.

Lemma voteStep_Votes n s v s' :
  voteStep n s v = Ok s' -> Votes s' = <[Voter v := v]> (Votes s).
Proof.
  unfold voteStep. intros (s1 & Hs1 & H)%bind_Ok_inv. injection H as <-.
  assert (Votes s1 = Votes s) as <-.
  { destruct (Votes s !! Voter v); simplify_eq; [|done].
    by apply tally_add_Ok in Hs1 as (t & _ & ->). }
  destruct v. by destruct (Tally s1 !! _).
Qed.

(** Replacing one vote and moving its stake in the tally keeps the invariant. *)
Lemma tally_inv_replace s s' v :
  tally_inv s -> 0 <= Stake v -> Votes s' = <[Voter v := v]> (Votes s) ->
  (forall c, default 0 (Tally s' !! c) = default 0 (Tally s !! c)
     + (if Candidate v =? c then Stake v else 0)
     - from_option (fun v => if Candidate v =? c then Stake v else 0) 0 (Votes s !! Voter v)) ->
  tally_inv s'.
Proof.
  intros [Hk Hn Hsum] Hst HV HT. split; rewrite HV.
  - intros k w [[<- <-]|[? ?]]%lookup_insert_Some; eauto.
  - intros k w [[<- <-]|[? ?]]%lookup_insert_Some; eauto.
  - intros c. rewrite HT, Hsum, stakeOf_insert. lia.
Qed.

Lemma voteStep_inv n s v s' :
  tally_inv s -> 0 <= Stake v -> voteStep n s v = Ok s' -> tally_inv s'.
Proof. eauto using tally_inv_replace, voteStep_Votes, voteStep_Tally. Qed.

Lemma mpVoteStep_inv s v s' :
  tally_inv s -> 0 <= Stake v -> mpVoteStep s v = Ok s' -> tally_inv s'.
Proof.
  unfold mpVoteStep. intros Hinv Hst H.
  destruct (Votes s !! Voter v) as [lv|] eqn:E; [|by simplify_eq].
  apply bind_Ok_inv in H as (s1 & (t1 & Ht1 & ->)%tally_add_Ok & H).
  apply bind_Ok_inv in H as (s2 & (t2 & Ht2 & ->)%tally_add_Ok & H). injection H as <-.
  simpl in Ht2. rewrite lookup_insert_eq in Ht2. injection Ht2 as <-.
  eapply (tally_inv_replace s _ (mkVote (Voter v) (Candidate lv) (Stake v)));
    [done|done|done|]. intros c. tally_cases.
Qed.

(** Progress of the two loops. *)
Lemma voteStep_total n s v :
  no_dangling_vote s -> exists s', voteStep n s v = Ok s' /\ no_dangling_vote s'.
Proof.
  intros Hnd. unfold voteStep.
  assert (exists s1, match Votes s !! Voter v with
    | Some lastVote => tally_add s (Candidate lastVote) (- Stake lastVote)
    | None => Ok s end = Ok s1 /\ Votes s1 = Votes s /\
    (forall c, is_Some (Tally s !! c) -> is_Some (Tally s1 !! c))) as (s1 & -> & HV & HT).
  { destruct (Votes s !! Voter v) as [lv|] eqn:E; [|by eauto].
    destruct (Hnd _ _ E) as [t Ht]. unfold tally_add. rewrite Ht; simpl.
    eexists; split; [done|split; [done|]]. intros c Hc; simpl.
    destruct (decide (Candidate lv = c)) as [->|];
      [rewrite lookup_insert_eq|rewrite lookup_insert_ne]; eauto. }
  simpl. eexists; split; [done|].
  assert (forall c m t, is_Some (<[c := t]> (m : gmap Z Z) !! c)) as Hins
    by (intros; rewrite lookup_insert_eq; eauto).
  intros k w Hw. destruct (Tally s1 !! Candidate v) eqn:E; simpl in *;
    apply lookup_insert_Some in Hw as [[<- <-]|[Hne Hw]]; simpl; auto;
    rewrite HV in Hw; apply lookup_insert_is_Some;
    (destruct (decide (Candidate v = Candidate w)); [by left|right; eauto]).
Qed.

Lemma mpVoteStep_total s v :
  no_dangling_vote s -> exists s', mpVoteStep s v = Ok s' /\ no_dangling_vote s'.
Proof.
  intros Hnd. unfold mpVoteStep.
  destruct (Votes s !! Voter v) as [lv|] eqn:E; [|by eauto].
  destruct (Hnd _ _ E) as [t Ht]. unfold tally_add. rewrite Ht; simpl.
  rewrite lookup_insert_eq; simpl. eexists; split; [done|].
  intros k w Hw; simpl in *. rewrite insert_insert_eq. apply lookup_insert_is_Some.
  apply lookup_insert_Some in Hw as [[<- <-]|[Hne Hw]]; [by left|].
  destruct (decide (Candidate lv = Candidate w)); [by left|right; eauto].
Qed.

(** ** Expiry keeps the tally *)
Lemma removeExpiredVote_inv s v :
  tally_inv s -> Votes s !! Voter v = Some v -> tally_inv (removeExpiredVote s v).
Proof.
  intros Hinv Hv. unfold removeExpiredVote.
  set (s1 := match Tally s !! Candidate v with Some _ => _ | None => _ end).
  assert (Votes s1 = Votes s /\ (forall c, default 0 (Tally s1 !! c) =
    default 0 (Tally s !! c) - if Candidate v =? c then Stake v else 0)) as [HV HT].
  { subst s1. destruct (Tally s !! Candidate v) as [t|] eqn:Et; simpl.
    - destruct (Z.eqb_spec (t - Stake v) 0); simpl; (split; [done|]); intros c; tally_cases.
    - split; [done|]. intros c. destruct (Z.eqb_spec (Candidate v) c) as [<-|]; [|lia].
      pose proof (tally_sum s Hinv (Candidate v)) as Hs.
      rewrite Et in Hs |- *; simpl in *. unfold stakeOf in Hs.
      rewrite (msum_delete _ _ _ _ Hv), Z.eqb_refl in Hs.
      pose proof (stakes_nonneg s Hinv _ _ Hv).
      assert (0 <= msum (fun v0 => if Candidate v0 =? Candidate v then Stake v0 else 0)
        (delete (Voter v) (Votes s))); [|lia].
      apply msum_nonneg. intros k w [? Hw]%lookup_delete_Some.
      destruct (_ =? _); [|done]. by eapply stakes_nonneg. }
  destruct Hinv as [Hk Hn Hsum]. split; simpl; rewrite HV.
  - intros k w [? ?]%lookup_delete_Some; eauto.
  - intros k w [? ?]%lookup_delete_Some; eauto.
  - intros c. rewrite HT, Hsum, stakeOf_delete, Hv. simpl. lia.
Qed.

Lemma removeExpiredVote_Votes s v : Votes (removeExpiredVote s v) = delete (Voter v) (Votes s).
Proof. unfold removeExpiredVote. destruct (Tally s !! _); [destruct (_ =? 0)|]; done. Qed.

Lemma removeExpired_fold_inv l s :
  tally_inv s -> NoDup (map Voter l) -> (forall v, v ∈ l -> Votes s !! Voter v = Some v) ->
  tally_inv (fold_left removeExpiredVote l s).
Proof.
  revert s; induction l as [|v l IH]; intros s Hinv Hnd Hl; simpl; [done|].
  inversion_clear Hnd as [|? ? Hnin Hnd']. apply IH; [|done|].
  - apply removeExpiredVote_inv; [done|]. apply Hl. left.
  - intros w Hw. rewrite removeExpiredVote_Votes, lookup_delete_ne.
    + apply Hl. by right.
    + intros Heq. apply Hnin. rewrite Heq. rewrite list_elem_of_fmap. eauto.
Qed.

Section Expiry.
Context {RT : GoRuntime}.

(** The votes collected as expired are recorded votes, one per voter. *)
Lemma collectExpired_spec s n l :
  tally_inv s -> collectExpired s n = Ok l ->
  NoDup (map Voter l) /\ (forall v, v ∈ l -> Votes s !! Voter v = Some v).
Proof.
  intros Hinv. unfold collectExpired. generalize (range_NoDup (Voters s)).
  set (cb := _ <? _). generalize cb; clear cb; intros cb.
  cut (forall r acc l, NoDup (r.*1) -> NoDup (map Voter acc) ->
    (forall v, v ∈ acc -> Votes s !! Voter v = Some v /\ Voter v ∉ r.*1) ->
    foldM (fun acc '(voterAddress, voteNumber) =>
      match Votes s !! voterAddress with
      | Some expiredVote => e ← voteExpired s n cb voteNumber expiredVote;
          Ok (if e : bool then acc ++ [expiredVote] else acc)
      | None => Ok acc
      end) r acc = Ok l ->
    NoDup (map Voter l) /\ (forall v, v ∈ l -> Votes s !! Voter v = Some v)).
  { intros H Hr Hl. eapply (H _ [] l Hr); [constructor| |exact Hl]. by intros ? ?%not_elem_of_nil. }
  clear l. induction r as [|[k num] r IH]; intros acc l Hr Hacc Hv Hl; simpl in *.
  { simplify_eq. split; [done|]. intros v Hin. by apply Hv. }
  inversion_clear Hr as [|? ? Hk Hr'].
  apply bind_Ok_inv in Hl as (acc' & Hb & Hl). apply (IH acc' l Hr'); [..|done]; clear IH Hl.
  all: destruct (Votes s !! k) as [w|] eqn:Ew;
    [apply bind_Ok_inv in Hb as (e & _ & Hb); destruct e|]; simplify_eq; simpl; try done.
  - rewrite map_app. apply NoDup_app. split; [done|]. split; [|apply NoDup_singleton].
    intros x (v & -> & Hin)%list_elem_of_fmap Hx%list_elem_of_singleton.
    apply Hv in Hin as [_ Hin]. apply Hin. rewrite Hx, (votes_keyed s Hinv _ _ Ew). left.
  - intros v [Hin| ->%list_elem_of_singleton]%elem_of_app.
    + apply Hv in Hin as [? Hin]. split; [done|]. intros ?; apply Hin; by right.
    + by rewrite (votes_keyed s Hinv _ _ Ew).
  - intros v Hin. apply Hv in Hin as [? Hin]. split; [done|]. intros ?; apply Hin; by right.
  - intros v Hin. apply Hv in Hin as [? Hin]. split; [done|]. intros ?; apply Hin; by right.
Qed.

Lemma removeExpiredConfirmations_frame {T} (pi : Snapshot -> T) n s :
  (forall s f, pi (s <| Confirmations ::= f |>) = pi s) ->
  pi (removeExpiredConfirmations n s) = pi s.
Proof. intros H. apply fold_left_frame. intros s' [k l]. by destruct (_ <? _). Qed.

Lemma removeZeroTally_Tally s :
  Tally (removeZeroTally s) = filter (fun kv => (kv.2 <=? 0) = false) (Tally s).
Proof.
  unfold removeZeroTally.
  rewrite (fold_left_proj _ Tally (delete_where (fun _ t => t <=? 0))).
  - apply delete_where_filter.
  - intros s' [k t]. unfold delete_where; simpl. by destruct (t <=? 0).
Qed.

Lemma removeZeroTally_frame {T} (pi : Snapshot -> T) s :
  (forall s f, pi (s <| SCCoinbase ::= f |>) = pi s) ->
  (forall s f, pi (s <| Tally ::= f |>) = pi s) ->
  pi (removeZeroTally s) = pi s.
Proof.
  intros H1 H2. apply fold_left_frame. intros s' [k t].
  destruct (_ <=? _); [|done]. by rewrite H2, H1.
Qed.

Lemma stakeOf_nonneg s c : tally_inv s -> 0 <= stakeOf c (Votes s).
Proof.
  intros Hinv. apply msum_nonneg. intros k v Hv.
  destruct (_ =? _); [|done]. by eapply stakes_nonneg.
Qed.

Lemma removeZeroTally_inv s : tally_inv s -> tally_inv (removeZeroTally s).
Proof.
  intros Hinv. pose proof (stakeOf_nonneg s) as Hpos.
  pose proof Hinv as [Hk Hn Hsum]. split; rewrite ?(removeZeroTally_frame Votes) by done; [done..|].
  intros c. rewrite removeZeroTally_Tally, <- Hsum.
  destruct (Tally s !! c) as [t|] eqn:E.
  - destruct (t <=? 0) eqn:Ht.
    + rewrite (proj2 (map_lookup_filter_None _ _ _)).
      * specialize (Hpos c Hinv). rewrite <- Hsum, E in Hpos. simpl in *. lia.
      * right. intros t' Ht'; simplify_eq. simpl. congruence.
    + erewrite (proj2 (map_lookup_filter_Some _ _ _ _)); [done|]. by split.
  - rewrite (proj2 (map_lookup_filter_None _ _ _)); [done|]. by left.
Qed.

(** Every entry left in the tally is positive. *)
Lemma removeZeroTally_pos s c t : Tally (removeZeroTally s) !! c = Some t -> 0 < t.
Proof.
  rewrite removeZeroTally_Tally. intros [_ H]%map_lookup_filter_Some. simpl in H. lia.
Qed.

Lemma updateSnapshotForExpired_inv n s s' :
  tally_inv s -> updateSnapshotForExpired n s = Ok s' ->
  tally_inv s' /\ forall c t, Tally s' !! c = Some t -> 0 < t.
Proof.
  intros Hinv (l & Hl & H)%bind_Ok_inv. injection H as <-.
  apply collectExpired_spec in Hl as [Hnd Hin]; [|done].
  split; [|intros c t; apply removeZeroTally_pos]. apply removeZeroTally_inv.
  set (s1 := if _ <=? _ then _ else _).
  assert (tally_inv s1) as [Hk Hn Hsum].
  { subst s1. destruct (_ <=? _); [|done]. by apply removeExpired_fold_inv. }
  split; rewrite ?(removeExpiredConfirmations_frame Votes), ?(removeExpiredConfirmations_frame Tally); done.
Qed.
End Expiry.

Section Verify.
Context {RT : GoRuntime}.

Definition stakeFor (c : Address) (v : Vote) : Z := if Candidate v =? c then Stake v else 0.
Definition hasVote (c : Address) (s : Snapshot) : Prop :=
  exists k v, Votes s !! k = Some v /\ Candidate v = c.

Lemma tallyTarget_list l (m : gmap Z Z) c :
  fold_left (fun (m : gmap Z Z) '((_, v) : Z * Vote) =>
    match m !! Candidate v with
    | Some t => <[Candidate v := t + Stake v]> m
    | None => <[Candidate v := Stake v]> m
    end) l m !! c =
  if existsb (fun kv => Candidate kv.2 =? c) l
  then Some (default 0 (m !! c) + sumZ (stakeFor c ∘ snd) l) else m !! c.
Proof.
  revert m; induction l as [|[k v] l IH]; intros m; simpl; [done|]. rewrite IH; clear IH.
  set (m1 := match m !! Candidate v with Some _ => _ | None => _ end).
  assert (m1 = <[Candidate v := default 0 (m !! Candidate v) + Stake v]> m) as ->
    by (subst m1; by destruct (m !! Candidate v)).
  unfold stakeFor at 2, compose; simpl.
  destruct (Z.eqb_spec (Candidate v) c) as [->|]; simpl.
  - rewrite lookup_insert_eq; simpl. destruct (existsb _ l) eqn:E; [f_equal; lia|].
    assert (sumZ (stakeFor c ∘ snd) l = 0) as H0; [|unfold compose in H0; rewrite H0; f_equal; lia].
    clear m. induction l as [|[k' v'] l IH]; simpl in *; [done|].
    apply orb_false_iff in E as [E1 E2]. rewrite IH by done.
    unfold stakeFor, compose; simpl. by rewrite E1.
  - rewrite lookup_insert_ne by done. by rewrite Z.add_0_l.
Qed.

Lemma tallyTarget_lookup s c :
  (hasVote c s -> tallyTarget s !! c = Some (stakeOf c (Votes s))) /\
  (~ hasVote c s -> tallyTarget s !! c = None).
Proof.
  unfold tallyTarget, stakeOf. rewrite tallyTarget_list, lookup_empty, msum_range; simpl.
  fold (stakeFor c). destruct (existsb _ _) eqn:E.
  - split; [done|]. intros []. apply existsb_exists in E as ([k v] & Hin & Hc).
    apply list_elem_of_In, elem_of_range in Hin. exists k, v. split; [done|]. simpl in Hc. lia.
  - split; [|done]. intros (k & v & Hv & Hc). exfalso.
    rewrite <- not_true_iff_false, existsb_exists in E. apply E.
    exists (k, v). rewrite <- list_elem_of_In, elem_of_range. simpl. split; [done|lia].
Qed.

Lemma hasVote_dec s c : hasVote c s \/ ~ hasVote c s.
Proof.
  destruct (existsb (fun kv => Candidate kv.2 =? c) (range (Votes s))) eqn:E; [left|right].
  - apply existsb_exists in E as ([k v] & Hin%list_elem_of_In%elem_of_range & Hc).
    exists k, v. split; [done|]. simpl in Hc. lia.
  - intros (k & v & Hv & Hc). rewrite <- not_true_iff_false, existsb_exists in E. apply E.
    exists (k, v). rewrite <- list_elem_of_In, elem_of_range. simpl. split; [done|lia].
Qed.

Lemma verifyTallyCnt_iff s :
  (verifyTallyCnt s = Ok tt <->
     forall c t, Tally s !! c = Some t -> hasVote c s /\ t = stakeOf c (Votes s)) /\
  (verifyTallyCnt s = Ok tt \/ verifyTallyCnt s = Err errIncorrectTallyCount).
Proof.
  unfold verifyTallyCnt.
  assert (forall l, let r := foldM (fun (_ : unit) '((address, tally) : Z * Z) =>
    match tallyTarget s !! address with
    | Some targetTally => if targetTally =? tally then Ok tt else Err errIncorrectTallyCount
    | None => Err errIncorrectTallyCount
    end) l tt in
    (r = Ok tt <-> forall c t, (c, t) ∈ l -> hasVote c s /\ t = stakeOf c (Votes s)) /\
    (r = Ok tt \/ r = Err errIncorrectTallyCount)) as H.
  { induction l as [|[c t] l [IH1 IH2]]; simpl.
    { split; [|by left]. split; [|done]. by intros _ ? ? ?%not_elem_of_nil. }
    destruct (tallyTarget_lookup s c) as [Hsome Hnone].
    destruct (hasVote_dec s c) as [Hc|Hc]; [rewrite Hsome by done|rewrite Hnone by done].
    - destruct (Z.eqb_spec (stakeOf c (Votes s)) t) as [<-|Hne]; simpl.
      + split; [|done]. rewrite IH1. split; [|intros H ? ? ?; apply H; by right].
        intros H c' t' [[= -> ->]|Hin]%elem_of_cons; eauto.
      + split; [|by right]. split; [done|]. intros H.
        destruct (H c t ltac:(left)) as [_ ->]. done.
    - split; [|by right]. split; [done|]. intros H. by destruct (H c t ltac:(left)). }
  destruct (H (range (Tally s))) as [H1 H2]. split; [|done]. rewrite H1.
  split; intros Hr c t; [intros Hin; apply Hr, elem_of_range, Hin|].
  intros Hin%elem_of_range. by apply Hr.
Qed.

(** With the invariant, a positive tally passes the check. *)
Lemma verifyTallyCnt_inv s :
  tally_inv s -> (forall c t, Tally s !! c = Some t -> 0 < t) -> verifyTallyCnt s = Ok tt.
Proof.
  intros Hinv Hpos. apply verifyTallyCnt_iff. intros c t Ht.
  pose proof (tally_sum s Hinv c) as Hs. rewrite Ht in Hs; simpl in Hs. split; [|done].
  destruct (hasVote_dec s c) as [|Hno]; [done|exfalso].
  specialize (Hpos _ _ Ht). unfold stakeOf in Hs. rewrite msum_range in Hs.
  rewrite (sumZ_ext _ (fun _ => 0)) in Hs.
  - assert (forall l : list (Z * Vote), sumZ (fun _ => 0) l = 0) as H0
      by (induction l; simpl; [done|lia]). rewrite H0 in Hs. lia.
  - intros [k v] Hin%elem_of_range; simpl. destruct (Z.eqb_spec (Candidate v) c); [|done].
    destruct Hno. by exists k, v.
Qed.

(** C32. [verifyTallyCnt] accepts exactly the snapshots in which every tally
    entry has a vote and equals the sum of the stakes voted for it, and its
    only failure is [errIncorrectTallyCount]. *)
Theorem verifyTallyCnt_spec s :
  (verifyTallyCnt s = Ok tt <->
     forall c t, Tally s !! c = Some t -> hasVote c s /\ t = stakeOf c (Votes s)) /\
  (verifyTallyCnt s = Ok tt \/ verifyTallyCnt s = Err errIncorrectTallyCount).
Proof. apply verifyTallyCnt_iff. Qed.
End Verify.

(** ** Panics of the vote updates *)
Section Panics.
Context {RT : GoRuntime}.

Lemma positive_no_dangling s :
  tally_inv s ->
  (forall k v, Votes s !! k = Some v -> 0 < stakeOf (Candidate v) (Votes s)) ->
  no_dangling_vote s.
Proof.
  intros Hinv Hpos k v Hv. specialize (Hpos _ _ Hv). rewrite <- (tally_sum s Hinv) in Hpos.
  destruct (Tally s !! Candidate v); [eauto|]. simpl in Hpos. lia.
Qed.

(** Both vote loops run to completion, and keep the invariant. *)
Lemma updateSnapshotByVotes_total votes n s :
  tally_inv s -> no_dangling_vote s -> valid_votes votes ->
  exists s', updateSnapshotByVotes votes n s = Ok s' /\ tally_inv s' /\ no_dangling_vote s'.
Proof.
  intros Hinv Hnd Hval. apply (foldM_total (fun s => tally_inv s /\ no_dangling_vote s)); [done|].
  intros v s1 Hin [Hi Hd]. destruct (voteStep_total n s1 v Hd) as (s2 & Hs2 & Hd2).
  exists s2. split; [done|]. split; [|done]. eapply voteStep_inv; [done| |done].
  by eapply (proj1 (Forall_forall _ _) Hval).
Qed.

Lemma updateSnapshotByMPVotes_total votes s :
  tally_inv s -> no_dangling_vote s -> valid_votes votes ->
  exists s', updateSnapshotByMPVotes votes s = Ok s' /\ tally_inv s' /\ no_dangling_vote s'.
Proof.
  intros Hinv Hnd Hval. apply (foldM_total (fun s => tally_inv s /\ no_dangling_vote s)); [done|].
  intros v s1 Hin [Hi Hd]. destruct (mpVoteStep_total s1 v Hd) as (s2 & Hs2 & Hd2).
  exists s2. split; [done|]. split; [|done]. eapply mpVoteStep_inv; [done| |done].
  by eapply (proj1 (Forall_forall _ _) Hval).
Qed.

(** C30. While every candidate with a recorded vote has positive stake, the
    votes and the balance changes of a block are all applied: no nil tally is
    dereferenced, and the tally is again the sum of the stakes. *)
Theorem votes_progress votes mpVotes n s :
  tally_inv s ->
  (forall k v, Votes s !! k = Some v -> 0 < stakeOf (Candidate v) (Votes s)) ->
  valid_votes votes -> valid_votes mpVotes ->
  exists s', (updateSnapshotByVotes votes n s ≫= updateSnapshotByMPVotes mpVotes) = Ok s' /\
    tally_inv s'.
Proof.
  intros Hinv Hpos Hv Hm.
  destruct (updateSnapshotByVotes_total votes n s) as (s1 & -> & Hi1 & Hd1);
    [done|by apply positive_no_dangling|done|].
  destruct (updateSnapshotByMPVotes_total mpVotes s1) as (s2 & Hs2 & Hi2 & _); [done..|].
  exists s2. by rewrite <- Hs2.
Qed.

(** Once the stake of a candidate has dropped to zero, the expiry pass
    removes its tally while the votes for it stay recorded; the next vote, or
    the next balance change, of such a voter dereferences the missing entry
    and panics. *)
Lemma zero_stake_vote_panics s n s1 k v w :
  tally_inv s -> updateSnapshotForExpired n s = Ok s1 ->
  Votes s1 !! k = Some v -> stakeOf (Candidate v) (Votes s1) = 0 -> Voter w = k ->
  voteStep n s1 w = Panic /\ mpVoteStep s1 w = Panic.
Proof.
  intros Hinv Hexp Hv H0 Hw.
  destruct (updateSnapshotForExpired_inv n s s1 Hinv Hexp) as [Hinv1 Hpos].
  assert (Tally s1 !! Candidate v = None) as HT.
  { destruct (Tally s1 !! Candidate v) as [t|] eqn:E; [|done].
    pose proof (tally_sum s1 Hinv1 (Candidate v)) as Hs. rewrite E in Hs; simpl in Hs.
    specialize (Hpos _ _ E). lia. }
  unfold voteStep, mpVoteStep, tally_add. rewrite Hw, Hv. simpl. by rewrite HT.
Qed.
End Panics.

(** ** Punishment *)
Definition punishCredit (o : option Z) : option Z :=
  match o with
  | Some p => if p <=? 10 * defaultFullCredit then Some (p +u missingPublishCredit) else Some p
  | None => Some missingPublishCredit
  end.
Definition reduceCredit (credit : Z) (o : option Z) : option Z :=
  match o with
  | Some p => if credit <? p then Some (p -u credit) else None
  | None => None
  end.
(** Credits a signer can lose: above ten times the full credit nothing is added. *)
Definition punish_bounded (m : gmap Z Z) : Prop :=
  forall a p, m !! a = Some p -> 0 < p <= 10 * defaultFullCredit + missingPublishCredit.

Section Punish.
Context {RT : GoRuntime}.

Lemma punishMissing_Punished s a :
  Punished (punishMissing s a) = partial_alter punishCredit a (Punished s).
Proof.
  unfold punishMissing. apply map_eq; intros i. destruct (decide (a = i)) as [->|Hne].
  - rewrite lookup_partial_alter_eq. unfold punishCredit.
    destruct (Punished s !! i) eqn:E; simpl; [destruct (_ <=? _); simpl|];
      by rewrite ?lookup_insert_eq.
  - rewrite lookup_partial_alter_ne by done.
    destruct (Punished s !! a); simpl; [destruct (_ <=? _); simpl|]; by rewrite ?lookup_insert_ne.
Qed.

Lemma reducePunish_Punished c s a :
  Punished (reducePunish c s a) = partial_alter (reduceCredit c) a (Punished s).
Proof.
  unfold reducePunish. apply map_eq; intros i. destruct (decide (a = i)) as [->|Hne].
  - rewrite lookup_partial_alter_eq. unfold reduceCredit.
    destruct (Punished s !! i) eqn:E; simpl; [destruct (_ <? _); simpl|];
      by rewrite ?lookup_insert_eq, ?lookup_delete_eq.
  - rewrite lookup_partial_alter_ne by done.
    destruct (Punished s !! a); simpl; [destruct (_ <? _); simpl|];
      by rewrite ?lookup_insert_ne, ?lookup_delete_ne.
Qed.

Lemma config_punishMissing s a : config (punishMissing s a) = config s.
Proof. unfold punishMissing. by destruct (Punished s !! a); [destruct (_ <=? _)|]. Qed.
Lemma config_reducePunish c s a : config (reducePunish c s a) = config s.
Proof. unfold reducePunish. by destruct (Punished s !! a); [destruct (_ <? _)|]. Qed.

Lemma punishCredit_bounded o p :
  (forall q, o = Some q -> 0 < q <= 10 * defaultFullCredit + missingPublishCredit) ->
  punishCredit o = Some p -> 0 < p <= 10 * defaultFullCredit + missingPublishCredit.
Proof.
  unfold punishCredit, defaultFullCredit, missingPublishCredit. intros Ho.
  destruct o as [q|]; [|intros; simplify_eq; lia]. specialize (Ho q eq_refl).
  destruct (Z.leb_spec q (10 * 28800)); intros; simplify_eq; [|lia].
  rewrite u64_small; [lia|]. split; lia.
Qed.

Lemma reduceCredit_bounded c o p B :
  0 < c -> B < 2 ^ 64 -> (forall q, o = Some q -> 0 < q <= B) ->
  reduceCredit c o = Some p -> 0 < p <= B.
Proof.
  unfold reduceCredit. intros Hc HB Ho. destruct o as [q|]; [|done].
  specialize (Ho q eq_refl). destruct (Z.ltb_spec c q); intros; simplify_eq.
  rewrite u64_small; [lia|]. split; lia.
Qed.

(** The new credits as updates of the map. *)
Definition charged (missing : list Address) (m : gmap Z Z) : gmap Z Z :=
  fold_left (fun m k => partial_alter punishCredit k m) missing m.
Definition rewarded (coinbase : Address) (m : gmap Z Z) : gmap Z Z :=
  partial_alter (reduceCredit signRewardCredit) coinbase m.
Definition restored (m : gmap Z Z) : gmap Z Z :=
  fold_left (fun m k => partial_alter (reduceCredit autoRewardCredit) k m) (range m).*1 m.

Lemma fold_reducePunish (l : list (Z * Z)) s :
  Punished (fold_left (fun s '(signer, _) => reducePunish autoRewardCredit s signer) l s) =
  fold_left (fun m k => partial_alter (reduceCredit autoRewardCredit) k m) l.*1 (Punished s).
Proof.
  revert s. induction l as [|[k v] l IH]; intros s; [done|]. cbn [fold_left fmap list_fmap fst].
  by rewrite IH, reducePunish_Punished.
Qed.
Lemma updateSnapshotForPunish_map missing n coinbase s :
  Punished (updateSnapshotForPunish missing n coinbase s) =
  if IsTrantor (config s) n && negb (IsTrantor (config s) (n - 1)) then ∅
  else restored (rewarded coinbase (charged missing (Punished s))).
Proof.
  unfold updateSnapshotForPunish. set (s1 := fold_left punishMissing missing s).
  set (s2 := reducePunish signRewardCredit s1 coinbase).
  assert (Punished s2 = rewarded coinbase (charged missing (Punished s))) as E2.
  { subst s2 s1. rewrite reducePunish_Punished. f_equal. apply fold_left_proj. intros; apply punishMissing_Punished. }
  set (s3 := fold_left _ (range (Punished s2)) s2).
  assert (config s3 = config s) as ->.
  { subst s3. rewrite (fold_left_frame _ config) by (intros ? []; apply config_reducePunish).
    subst s2 s1. rewrite config_reducePunish. apply fold_left_frame, config_punishMissing. }
  destruct (_ && _); [done|]. subst s3. rewrite fold_reducePunish, E2. done.
Qed.
(** A signer is charged once for each of its missed slots. *)
Lemma charged_lookup missing m i :
  charged missing m !! i = Nat.iter (count_occ Z.eq_dec missing i) punishCredit (m !! i).
Proof.
  revert m. induction missing as [|x missing IH]; intros m; [done|].
  change (charged missing (partial_alter punishCredit x m) !! i = Nat.iter (count_occ Z.eq_dec (x :: missing) i) punishCredit (m !! i)).
  rewrite IH. cbn [count_occ]. destruct (Z.eq_dec x i) as [->|Hne].
  - by rewrite lookup_partial_alter_eq, Nat.iter_succ_r.
  - by rewrite lookup_partial_alter_ne.
Qed.
Lemma rewarded_lookup missing coinbase m i :
  rewarded coinbase (charged missing m) !! i =
  let c := Nat.iter (count_occ Z.eq_dec missing i) punishCredit (m !! i) in
  if decide (i = coinbase) then reduceCredit signRewardCredit c else c.
Proof.
  unfold rewarded. destruct (decide (i = coinbase)) as [->|Hne].
  - by rewrite lookup_partial_alter_eq, charged_lookup.
  - by rewrite lookup_partial_alter_ne, charged_lookup.
Qed.
Lemma restored_lookup m i : restored m !! i = reduceCredit autoRewardCredit (m !! i).
Proof.
  unfold restored. rewrite lookup_fold_partial_alter by apply range_NoDup.
  destruct (decide (i ∈ (range m).*1)) as [|Hni]; [done|].
  destruct (m !! i) eqn:E; [|done]. destruct Hni. apply list_elem_of_fmap.
  eexists (_, _). split; [done|]. by apply elem_of_range.
Qed.

(** The rules in plain integers: a missed slot costs [missingPublishCredit] until
    ten times the full credit is passed, and a credit given back stops at zero;
    an address without punishment counts as zero. *)
Definition chargeSlot (p : Z) : Z := if p <=? 10 * defaultFullCredit then p + missingPublishCredit else p.
Definition giveBack (credit p : Z) : Z := Z.max 0 (p - credit).
Definition bounded_credit (o : option Z) : Prop :=
  forall q, o = Some q -> 0 < q <= 10 * defaultFullCredit + missingPublishCredit.
Lemma punishCredit_slot o :
  bounded_credit o -> bounded_credit (punishCredit o) /\ default 0 (punishCredit o) = chargeSlot (default 0 o).
Proof.
  intros Ho. split; [intros q; by apply punishCredit_bounded|]. destruct o as [p|]; [|done].
  unfold punishCredit, chargeSlot; simpl. specialize (Ho p eq_refl).
  unfold defaultFullCredit, missingPublishCredit in *. destruct (_ <=? _); [|done].
  simpl. apply u64_small. split; lia.
Qed.
Lemma punishCredit_slots k o : bounded_credit o ->
  bounded_credit (Nat.iter k punishCredit o) /\
  default 0 (Nat.iter k punishCredit o) = Nat.iter k chargeSlot (default 0 o).
Proof.
  intros Ho. induction k as [|k [IH1 IH2]]; [done|]. cbn [Nat.iter nat_rect].
  destruct (punishCredit_slot _ IH1) as [H1 H2]. split; [exact H1|]. etransitivity; [exact H2|]. by f_equal.
Qed.
Lemma reduceCredit_giveBack c o : 0 < c -> bounded_credit o ->
  bounded_credit (reduceCredit c o) /\ default 0 (reduceCredit c o) = giveBack c (default 0 o).
Proof.
  intros Hc Ho. split; [intros q; by apply reduceCredit_bounded|]. unfold giveBack, reduceCredit.
  destruct o as [p|]; simpl; [|lia]. specialize (Ho p eq_refl). unfold defaultFullCredit, missingPublishCredit in Ho.
  destruct (Z.ltb_spec c p); simpl; [|lia]. rewrite u64_small by (split; lia). lia.
Qed.

(** C24. [updateSnapshotForPunish] acts signer by signer, whatever the order of
    the map and however often a signer is missing: from punishments that are
    positive and bounded, each missed slot charges [missingPublishCredit] as
    long as ten times the full credit is not passed, the sealer then gets
    [signRewardCredit] back, every punished signer [autoRewardCredit], never
    below zero, and the block that activates Trantor clears all punishments;
    the punishments stay positive and bounded, so no [uint64] wraps. *)
Theorem updateSnapshotForPunish_spec missing n coinbase s a :
  punish_bounded (Punished s) ->
  let s' := updateSnapshotForPunish missing n coinbase s in
  let charged := Nat.iter (count_occ Z.eq_dec missing a) chargeSlot (default 0 (Punished s !! a)) in
  let sealed := if decide (a = coinbase) then giveBack signRewardCredit charged else charged in
  default 0 (Punished s' !! a) =
    (if IsTrantor (config s) n && negb (IsTrantor (config s) (n - 1)) then 0
     else giveBack autoRewardCredit sealed) /\
  punish_bounded (Punished s').
Proof.
  intros Hb s'. subst s'. rewrite updateSnapshotForPunish_map.
  destruct (_ && _); [split; [by rewrite lookup_empty|intros i p; by rewrite lookup_empty]|].
  assert (forall i, let m := rewarded coinbase (charged missing (Punished s)) in
    let charged := Nat.iter (count_occ Z.eq_dec missing i) chargeSlot (default 0 (Punished s !! i)) in
    bounded_credit (m !! i) /\
    default 0 (m !! i) = if decide (i = coinbase) then giveBack signRewardCredit charged else charged) as Hm.
  { intros i m charged. subst m. rewrite rewarded_lookup.
    destruct (punishCredit_slots (count_occ Z.eq_dec missing i) (Punished s !! i) (Hb i)) as [H1 H2].
    simpl. destruct (decide _); [|by split]. destruct (reduceCredit_giveBack signRewardCredit _ eq_refl H1) as [H3 H4].
    split; [done|]. by rewrite H4, H2. }
  split.
  - rewrite restored_lookup. destruct (Hm a) as [H1 H2].
    destruct (reduceCredit_giveBack autoRewardCredit _ eq_refl H1) as [_ H4]. by rewrite H4, H2.
  - intros i. rewrite restored_lookup. apply reduceCredit_giveBack; [done|apply Hm].
Qed.
End Punish.

(** ** Confirmations *)
Definition distinct_confirmers (m : gmap Z (list Address)) : Prop :=
  forall n l, m !! n = Some l -> NoDup l.

Lemma addConfirmation_distinct m c : distinct_confirmers m -> distinct_confirmers (addConfirmation m c).
Proof.
  unfold addConfirmation. set (n := bigUint64 _). set (m1 := match m !! n with Some _ => _ | None => _ end).
  intros Hm. assert (distinct_confirmers m1) as Hm1.
  { subst m1. destruct (m !! n) eqn:E; [done|].
    intros n' l' [[<- <-]|[_ H]]%lookup_insert_Some; [constructor|eauto]. }
  destruct (existsb _ _) eqn:E; [done|].
  intros n' l' [[<- <-]|[_ H]]%lookup_insert_Some; [|eauto].
  apply NoDup_app. split; [|split; [|apply NoDup_singleton]].
  - destruct (m1 !! n) eqn:El; simpl; [eauto|constructor].
  - intros x Hx Hs%list_elem_of_singleton. subst x.
    rewrite <- not_true_iff_false, existsb_exists in E. apply E.
    exists (Signer c). rewrite <- list_elem_of_In, Z.eqb_refl. done.
Qed.

Lemma addConfirmations_distinct cs m :
  distinct_confirmers m -> distinct_confirmers (fold_left addConfirmation cs m).
Proof. intros H. apply fold_left_inv; [done|]. intros; by apply addConfirmation_distinct. Qed.

(** The search stops at the highest sufficiently confirmed number above [bound]. *)
Lemma lastConfirmedLoop_spec cpy bound need i :
  0 <= bound <= i -> i < 2 ^ 64 ->
  let r := lastConfirmedLoop (Z.to_nat (i - bound)) cpy bound need i in
  bound <= r <= i /\
  (bound < r -> exists l, cpy !! r = Some l /\ need < glen l) /\
  (forall j l, r < j <= i -> cpy !! j = Some l -> glen l <= need).
Proof.
  intros Hb Hi. remember (Z.to_nat (i - bound)) as fuel eqn:Hf. revert i Hb Hi Hf.
  induction fuel as [|fuel IH]; intros i Hb Hi Hf; simpl.
  { assert (i = bound) as -> by lia. split; [lia|]. split; [lia|]. intros; lia. }
  destruct (Z.ltb_spec bound i) as [Hlt|]; [|lia].
  assert (i -u 1 = i - 1) as Hi1 by (apply u64_small; split; lia). rewrite Hi1.
  destruct (IH (i - 1)) as (H1 & H2 & H3); [lia..|].
  assert (forall j l, i - 1 < j <= i -> cpy !! j = Some l -> j = i) as Hj by (intros; lia).
  destruct (cpy !! i) as [l|] eqn:El.
  - destruct (Z.ltb_spec need (glen l)) as [Hn|Hn].
    + split; [lia|]. split; [eauto|]. intros; lia.
    + split; [lia|]. split; [done|]. intros j l' Hjr Hjl.
      destruct (decide (j = i)) as [->|]; [simplify_eq; lia|]. apply (H3 j l'); [lia|done].
  - split; [lia|]. split; [done|]. intros j l' Hjr Hjl.
    destruct (decide (j = i)) as [->|]; [simplify_eq|]. apply (H3 j l'); [lia|done].
Qed.

(** C23. Past the first blocks, [getLastConfirmedBlockNumber] returns the highest
    number of the last two thirds of a loop that more than two thirds of the
    signers, counted once each, have confirmed, and the start of that window
    when there is none. *)
Theorem getLastConfirmedBlockNumber_spec cs s :
  let m := MaxSignerCount (config s) in
  let window := Number s - m * 2 / 3 + 1 in
  distinct_confirmers (Confirmations s) ->
  2 <= m < 2 ^ 32 -> m * 2 / 3 <= Number s + 1 -> 0 <= Number s < 2 ^ 63 ->
  let cpy := fold_left addConfirmation cs (Confirmations s) in
  let r := getLastConfirmedBlockNumber cs s in
  window <= r <= Number s /\
  (window < r -> exists l, cpy !! r = Some l /\ NoDup l /\ m * 2 / 3 < glen l) /\
  (forall j l, r < j <= Number s -> cpy !! j = Some l -> glen l <= m * 2 / 3).
Proof.
  intros m window Hd Hm Hn HN cpy r. subst r. unfold getLastConfirmedBlockNumber. fold m cpy.
  assert (1 <= m * 2 / 3 < 2 ^ 33) as Hq.
  { split; [apply (Z.div_le_mono 3 (m * 2) 3); lia|]. apply Z.div_lt_upper_bound; lia. }
  assert (m *u 2 = m * 2) as -> by (apply u64_small; split; lia).
  assert (u64 (Number s - m * 2 / 3 + 1) = window) as -> by (apply u64_small; split; lia).
  assert (i64 (m * 2 / 3) = m * 2 / 3) as -> by (unfold i64; rewrite Z.mod_small; lia).
  destruct (lastConfirmedLoop_spec cpy window (m * 2 / 3) (Number s)) as (H1 & H2 & H3); [lia..|].
  set (r := lastConfirmedLoop _ _ _ _ _) in *.
  assert (i64 r = r) as -> by (unfold i64; rewrite Z.mod_small; lia).
  split; [done|]. split; [|done]. intros Hr. destruct (H2 Hr) as (l & Hl & Hlen).
  exists l. split; [done|]. split; [|done]. by eapply addConfirmations_distinct.
Qed.

(** In the first two thirds of the first loop the bound of the search wraps
    around, so the search never runs: the current number is reported as
    confirmed whatever has been confirmed. *)
Lemma getLastConfirmedBlockNumber_first_blocks cs s :
  let m := MaxSignerCount (config s) in
  2 <= m < 2 ^ 32 -> 0 <= Number s -> Number s + 1 < m * 2 / 3 ->
  getLastConfirmedBlockNumber cs s = Number s.
Proof.
  intros m Hm H0 Hn. unfold getLastConfirmedBlockNumber. fold m.
  assert (1 <= m * 2 / 3 < 2 ^ 33) as Hq.
  { split; [apply (Z.div_le_mono 3 (m * 2) 3); lia|]. apply Z.div_lt_upper_bound; lia. }
  assert (m *u 2 = m * 2) as -> by (apply u64_small; split; lia).
  assert (u64 (Number s - m * 2 / 3 + 1) = Number s - m * 2 / 3 + 1 + 2 ^ 64) as ->.
  { unfold u64. rewrite <- (Z_mod_plus_full _ 1), Z.mod_small; lia. }
  replace (Z.to_nat (Number s - _)) with O by lia. simpl.
  unfold i64. rewrite Z.mod_small; lia.
Qed.

(** Time is cut in slots of one period, and slot [i] of every loop belongs
    to position [i] of the signer queue: [inturn] accepts exactly that signer. *)
Lemma inturn_rotation s a loop i r :
  let n := glen (Signers s) in
  let t := LoopStartTime s + Period (config s) * (loop * n + i) + r in
  0 <= LoopStartTime s -> 0 <= loop -> 0 <= i < n -> 0 <= r < Period (config s) -> t < 2 ^ 64 ->
  inturn s a t = Ok (bool_decide (Signers s !! Z.to_nat i = Some a)).
Proof.
  intros n t Hl Hloop Hi Hr Ht. unfold inturn. fold n.
  destruct (Z.ltb_spec 0 n) as [_|]; [|lia].
  assert (t -u LoopStartTime s = Period (config s) * (loop * n + i) + r) as ->.
  { assert (0 <= Period (config s) * (loop * n + i))
      by (apply Z.mul_nonneg_nonneg; [lia|]; apply Z.add_nonneg_nonneg; [apply Z.mul_nonneg_nonneg|]; lia).
    rewrite u64_small; subst t; [lia|]. split; lia. }
  rewrite udiv_Ok by lia. simpl.
  rewrite (Z.mul_comm (Period _)), Z.div_add_l, (Z.div_small r), Z.add_0_r by lia.
  rewrite (Z.add_comm (loop * n)), Z.mod_add, Z.mod_small by lia.
  unfold gindex. rewrite decide_True by lia.
  destruct (Signers s !! Z.to_nat i) as [b|] eqn:E; simpl.
  - f_equal. destruct (Z.eqb_spec b a) as [->|]; [by rewrite bool_decide_true|].
    rewrite bool_decide_false; [done|]. congruence.
  - apply lookup_ge_None in E. unfold n, glen in Hi. lia.
Qed.
