(* ===== verification/AlienProposal.v ===== *)
(** * Proposals and declares of the alien snapshot

    Models [updateSnapshotByProposals], [updateSnapshotByDeclares] and
    [calculateProposalResult] of [consensus/alien/snapshot.go]. The loop of
    [updateSnapshotByProposals] stores the address of its loop variable, so the
    proposals live in the heap [pheap] of the snapshot and [Proposals] maps a
    hash to a cell of it. *)
From S2P Require Import Prelude AlienTypes AlienVotes.

(** [s.Proposals[h]], dereferenced. *)
Definition getProposal (s : Snapshot) (h : Hash) : option Proposal :=
  Proposals s !! h ≫= fun loc => pheap s !! loc.

Definition zeroProposal : Proposal := mkProposal 0 0 0 0 0 0 0 0 0 0 0 [] 0 0 0 0 0.

(** ** Operations *)
Section Operations.
Context {RT : GoRuntime}.

(** One iteration writes the loop variable, cell [loc], and stores its
    address under the hash of the proposal. *)
Definition proposalStep (headerNumber : Z) (loc : nat) (s : Snapshot) (p : Proposal) : Snapshot :=
  s <| pheap ::= <[loc := p <| ReceivedNumber := headerNumber |>]> |>
    <| Proposals ::= <[pHash p := loc]> |>.
Definition updateSnapshotByProposals (proposals : list Proposal) (headerNumber : Z)
    (s : Snapshot) : Snapshot :=
  let loc := length (pheap s) in
  fold_left (proposalStep headerNumber loc) proposals (s <| pheap ::= fun h => h ++ [zeroProposal] |>).

(** Last block number at which a declare on [p] counts. *)
Definition declareDeadline (s : Snapshot) (p : Proposal) : Z :=
  bigUint64 (ReceivedNumber p) +u (ValidationLoopCnt p *u MaxSignerCount (config s)).

Definition declareStep (headerNumber : Z) (s : Snapshot) (d : Declare_) : Snapshot :=
  match Proposals s !! ProposalHash d with
  | Some loc =>
      match pheap s !! loc with
      | Some proposal =>
          if (declareDeadline s proposal <? bigUint64 headerNumber) || negb (isCandidate s (Declarer d))
          then s
          else if existsb (fun v => Declarer v =? Declarer d) (Declares proposal) then s
          else s <| pheap ::= <[loc := proposal <| Declares ::=
                     fun ds => ds ++ [mkDeclare (ProposalHash d) (Declarer d) (Decision d)] |>]> |>
      | None => s
      end
  | None => s
  end.
Definition updateSnapshotByDeclares (declares : list Declare_) (headerNumber : Z)
    (s : Snapshot) : Snapshot := fold_left (declareStep headerNumber) declares s.

(** *** Result of a proposal *)

(** [s.ProposalRefund[n][a]] is increased by [v], the row and the entry being
    created when missing. *)
Definition addRefund (n : Z) (a : Address) (v : Z) (s : Snapshot) : Snapshot :=
  let row := default ∅ (ProposalRefund s !! n) in
  s <| ProposalRefund ::= <[n := <[a := default 0 (row !! a) + v]> row]> |>.

Definition judegmentStake (s : Snapshot) : Z :=
  (fold_left (fun acc '(_, tally) => acc + tally) (range (Tally s)) 0) * 2 / 3.
Definition yesDeclareStake (s : Snapshot) (p : Proposal) : Z :=
  fold_left (fun acc d =>
    if Decision d then
      match Tally s !! Declarer d with Some t => acc + t | None => acc end
    else acc) (Declares p) 0.

Definition executeRent (n : Z) (p : Proposal) (s : Snapshot) : ares Snapshot :=
  match SCRecordMap s !! SCHash p with
  | None => Ok (addRefund (bigUint64 n) (Proposer p) (SCRentFee p * ether) s)
  | Some rec =>
      rentPerPeriod ← bigDiv (SCRentFee p * ether) (SCRentLength p);
      let rent := mkSCRentInfo rentPerPeriod (n + SCRentLength p) in
      let s1 := s <| SCRecordMap ::=
                  <[SCHash p := rec <| RentReward ::= <[pHash p := rent]> |>]> |> in
      let notice := default (mkCCNotice ∅ ∅) (SCNoticeMap s1 !! SCHash p) in
      let charge := mkGasCharging (TargetAddress p) (SCRentFee p *u SCRentRate p) (pHash p) in
      Ok (s1 <| SCNoticeMap ::=
            <[SCHash p := notice <| CurrentCharging ::= <[pHash p := charge]> |>]> |>)
  end.

(** The [switch] of an accepted proposal. *)
Definition executeProposal (n : Z) (p : Proposal) (s : Snapshot) : ares Snapshot :=
  let t := ProposalType p in
  if t =? proposalTypeCandidateAdd then
    Ok (if candidateNeedPD
        then s <| Candidates ::= <[TargetAddress p := candidateStateNormal]> |> else s)
  else if t =? proposalTypeCandidateRemove then
    Ok (if isCandidate s (TargetAddress p) && candidateNeedPD
        then s <| Candidates ::= delete (TargetAddress p) |> else s)
  else if t =? proposalTypeMinerRewardDistributionModify then
    Ok (s <| MinerReward := MinerRewardPerThousand p |>)
  else if t =? proposalTypeSideChainAdd then
    Ok match SCRecordMap s !! SCHash p with
       | None => s <| SCRecordMap ::= <[SCHash p :=
           mkSCRecord ∅ 0 0 (SCBlockCountPerPeriod p) (SCBlockRewardPerPeriod p) ∅]> |>
       | Some rec => s <| SCRecordMap ::= <[SCHash p :=
           rec <| CountPerPeriod := SCBlockCountPerPeriod p |>
               <| RewardPerPeriod := SCBlockRewardPerPeriod p |>]> |>
       end
  else if t =? proposalTypeSideChainRemove then
    Ok (s <| SCRecordMap ::= delete (SCHash p) |>)
  else if t =? proposalTypeMinVoterBalanceModify then
    Ok (s <| MinVB := Some (pMinVoterBalance p * ether) |>)
  else if t =? proposalTypeProposalDepositModify then Ok s
  else if t =? proposalTypeRentSideChain then executeRent n p s
  else Ok s.

Definition rejectProposal (n : Z) (p : Proposal) (s : Snapshot) : Snapshot :=
  if ProposalType p =? proposalTypeRentSideChain
  then addRefund (bigUint64 n) (Proposer p) (SCRentFee p * ether) s else s.

Definition proposalDue (s : Snapshot) (n : Z) (p : Proposal) : bool :=
  declareDeadline s p +u 1 =? bigUint64 n.

Definition proposalPasses (s : Snapshot) (p : Proposal) : bool :=
  judegmentStake s <? yesDeclareStake s p.

Definition resultStep (n : Z) (s : Snapshot) (kv : Hash * nat) : ares Snapshot :=
  let '(hashKey, loc) := kv in
  proposal ← get_or_panic (pheap s !! loc);
  if proposalDue s n proposal then
    let s1 := addRefund (bigUint64 n) (Proposer proposal) (CurrentDeposit proposal) s in
    s2 ← (if proposalPasses s1 proposal then executeProposal n proposal s1
          else Ok (rejectProposal n proposal s1));
    Ok (s2 <| Proposals ::= delete hashKey |>)
  else Ok s.
Definition calculateProposalResult (n : Z) (s : Snapshot) : ares Snapshot :=
  let expired := u64 (bigUint64 n - proposalRefundExpiredLoopCount * MaxSignerCount (config s)) in
  let s0 := s <| ProposalRefund ::= delete expired |> in
  foldM (resultStep n) (range (Proposals s0)) s0.
End Operations.

(** ** Aliasing of the proposals of one block *)

(** Every stored location is a cell of the heap. *)
Definition heap_wf (s : Snapshot) : Prop :=
  forall h loc, Proposals s !! h = Some loc -> (loc < length (pheap s))%nat.

Lemma proposalStep_fold n loc ps s :
  let s' := fold_left (proposalStep n loc) ps s in
  length (pheap s') = length (pheap s) /\
  (forall h, h ∉ map pHash ps -> Proposals s' !! h = Proposals s !! h) /\
  (forall h, h ∈ map pHash ps -> Proposals s' !! h = Some loc) /\
  (forall l, l <> loc -> pheap s' !! l = pheap s !! l) /\
  (forall p, last ps = Some p -> (loc < length (pheap s))%nat ->
     pheap s' !! loc = Some (p <| ReceivedNumber := n |>)).
Proof.
  induction ps as [|q ps IH] using rev_ind; simpl.
  { repeat split; [done..| |done]. by intros h ?%not_elem_of_nil. }
  rewrite fold_left_app; simpl. destruct IH as (IH1 & IH2 & IH3 & IH4 & _).
  set (s1 := fold_left _ ps s) in *. rewrite map_app; simpl. split; [by rewrite length_insert|].
  split; [|split; [|split]].
  - intros h Hh. rewrite elem_of_app, list_elem_of_singleton in Hh.
    rewrite lookup_insert_ne by (intros <-; tauto). apply IH2. tauto.
  - intros h [Hh|Hh%list_elem_of_singleton]%elem_of_app; [|by rewrite Hh, lookup_insert_eq].
    destruct (decide (pHash q = h)) as [->|]; [by rewrite lookup_insert_eq|].
    rewrite lookup_insert_ne by done. by apply IH3.
  - intros l Hl. rewrite list_lookup_insert_ne by done. by apply IH4.
  - intros p Hp Hlen. rewrite last_snoc in Hp. injection Hp as ->.
    by rewrite list_lookup_insert_eq by lia.
Qed.

Lemma updateSnapshotByProposals_wf ps n s : heap_wf s -> heap_wf (updateSnapshotByProposals ps n s).
Proof.
  intros Hwf h loc. unfold updateSnapshotByProposals. simpl.
  set (s0 := s <| pheap ::= _ |>). destruct (proposalStep_fold n (length (pheap s)) ps s0)
    as (H1 & H2 & H3 & _). rewrite H1. simpl. rewrite length_app; simpl.
  destruct (decide (h ∈ map pHash ps)) as [Hin|Hin].
  - rewrite H3 by done. intros [= <-]. lia.
  - rewrite H2 by done. intros Hl%Hwf. lia.
Qed.

(** C35. The proposals of one block all end up as the last one of the block:
    every hash of the block maps to the cell of the loop variable, whose final
    content is the last proposal. Proposals received earlier are untouched. *)
Theorem updateSnapshotByProposals_aliases ps n s plast :
  heap_wf s -> last ps = Some plast ->
  let s' := updateSnapshotByProposals ps n s in
  (forall p, p ∈ ps -> getProposal s' (pHash p) = Some (plast <| ReceivedNumber := n |>)) /\
  (forall h, h ∉ map pHash ps -> getProposal s' h = getProposal s h).
Proof.
  intros Hwf Hlast s'. subst s'. unfold updateSnapshotByProposals, getProposal.
  set (s0 := s <| pheap ::= _ |>).
  destruct (proposalStep_fold n (length (pheap s)) ps s0) as (H1 & H2 & H3 & H4 & H5). split.
  - intros p Hp. rewrite H3 by (apply list_elem_of_fmap; eauto). simpl. apply (H5 _ Hlast).
    subst s0; simpl. rewrite length_app; simpl. lia.
  - intros h Hh. rewrite H2 by done. change (Proposals s0) with (Proposals s).
    destruct (Proposals s !! h) as [loc|] eqn:E; [|done]. simpl. apply Hwf in E.
    rewrite H4 by lia. subst s0; simpl. by rewrite lookup_app_l.
Qed.

(** ** Results of proposals *)
Section Results.
Context {RT : GoRuntime}.

Definition refundOf (s : Snapshot) (n : Z) (a : Address) : Z :=
  default 0 (lookup2 (ProposalRefund s) n a).

Lemma refundOf_addRefund n a v s n' a' :
  refundOf (addRefund n a v s) n' a' =
  refundOf s n' a' + if decide (n = n' /\ a = a') then v else 0.
Proof.
  unfold refundOf, addRefund, lookup2; simpl.
  destruct (decide (n = n')) as [<-|Hn].
  - rewrite lookup_insert_eq; simpl. destruct (decide (a = a')) as [<-|Ha].
    + rewrite lookup_insert_eq, decide_True by done. simpl.
      destruct (ProposalRefund s !! n); simpl; [done|]. by rewrite lookup_empty.
    + rewrite lookup_insert_ne, decide_False by (done || tauto).
      destruct (ProposalRefund s !! n); simpl; [lia|]. rewrite lookup_empty; simpl. lia.
  - rewrite lookup_insert_ne, decide_False by (done || tauto). lia.
Qed.

Lemma judegmentStake_msum s : judegmentStake s = msum id (Tally s) * 2 / 3.
Proof.
  unfold judegmentStake. do 2 f_equal. rewrite msum_range.
  replace (fold_left _ _ _) with (fold_left (fun acc (kv : Z * Z) => acc + kv.2) (range (Tally s)) 0).
  - by rewrite fold_left_sumZ.
  - generalize 0. induction (range (Tally s)) as [|[k t] l IH]; intros acc; simpl; [done|apply IH].
Qed.

(** What an executed or rejected proposal leaves alone. *)
Lemma executeProposal_frame n p s s' :
  executeProposal n p s = Ok s' ->
  pheap s' = pheap s /\ config s' = config s /\ Proposals s' = Proposals s /\
  Tally s' = Tally s /\ Votes s' = Votes s.
Proof.
  unfold executeProposal, executeRent. intros H.
  repeat (case_match; simplify_eq; try done).
  apply bind_Ok_inv in H as (r & _ & H). by injection H as <-.
Qed.

Lemma resultStep_frame n s kv s' :
  resultStep n s kv = Ok s' ->
  pheap s' = pheap s /\ config s' = config s /\ Tally s' = Tally s /\ Votes s' = Votes s.
Proof.
  destruct kv as [h loc]. unfold resultStep. intros (p & _ & H)%bind_Ok_inv.
  destruct (proposalDue s n p); [|by simplify_eq].
  apply bind_Ok_inv in H as (s2 & H2 & H). injection H as <-.
  destruct (proposalPasses _ _).
  - apply executeProposal_frame in H2 as (? & ? & ? & ? & ?). done.
  - unfold rejectProposal in H2. by destruct (_ =? _); simplify_eq.
Qed.

Lemma calculateProposalResult_frame n s s' :
  calculateProposalResult n s = Ok s' ->
  pheap s' = pheap s /\ config s' = config s /\ Tally s' = Tally s /\ Votes s' = Votes s.
Proof.
  unfold calculateProposalResult. set (s0 := s <| ProposalRefund ::= _ |>). intros H.
  change (pheap s) with (pheap s0). change (config s) with (config s0).
  change (Tally s) with (Tally s0). change (Votes s) with (Votes s0).
  eapply (foldM_inv (fun s' => pheap s' = pheap s0 /\ config s' = config s0 /\
    Tally s' = Tally s0 /\ Votes s' = Votes s0)); [done| |exact H].
  intros kv s1 s2 _ (<- & <- & <- & <-). apply resultStep_frame.
Qed.

(** Fee paid on top of the deposit. *)
Definition rentPaid (p : Proposal) : Z :=
  if ProposalType p =? proposalTypeRentSideChain then SCRentFee p * ether else 0.

Lemma executeProposal_refund n p s s' :
  executeProposal n p s = Ok s' ->
  s' = addRefund (bigUint64 n) (Proposer p) (rentPaid p) s \/ ProposalRefund s' = ProposalRefund s.
Proof.
  unfold executeProposal, rentPaid. destruct (ProposalType p =? proposalTypeRentSideChain).
  - repeat (case_match; [intros; simplify_eq; right; by repeat case_match|]). unfold executeRent.
    destruct (SCRecordMap s !! SCHash p); [|intros; simplify_eq; by left].
    intros (r & _ & Hs)%bind_Ok_inv. right. by injection Hs as <-.
  - intros Hs. right. repeat (case_match; simplify_eq; try done).
Qed.

(** The refund row of the block grows, for the proposer only, by the deposit
    and by at most the fee. *)
Lemma resultStep_refund n s h loc p s' a :
  0 <= SCRentFee p -> pheap s !! loc = Some p -> resultStep n s (h, loc) = Ok s' ->
  let d := refundOf s' (bigUint64 n) a - refundOf s (bigUint64 n) a in
  if proposalDue s n p && (Proposer p =? a)
  then CurrentDeposit p <= d <= CurrentDeposit p + rentPaid p else d = 0.
Proof.
  intros Hfee Hp. unfold resultStep. rewrite Hp; simpl. intros H.
  destruct (proposalDue s n p); simpl; [|simplify_eq; simpl; lia].
  apply bind_Ok_inv in H as (s2 & H2 & H). injection H as <-.
  change (refundOf (s2 <| Proposals ::= delete h |>) (bigUint64 n) a) with (refundOf s2 (bigUint64 n) a).
  set (s1 := addRefund _ _ _ s) in *.
  assert (refundOf s1 (bigUint64 n) a = refundOf s (bigUint64 n) a +
    if Proposer p =? a then CurrentDeposit p else 0) as H1.
  { subst s1. rewrite refundOf_addRefund.
    destruct (Z.eqb_spec (Proposer p) a); [rewrite decide_True by done|rewrite decide_False by tauto]; done. }
  assert (exists v, (v = 0 \/ v = rentPaid p) /\ refundOf s2 (bigUint64 n) a =
    refundOf s1 (bigUint64 n) a + if Proposer p =? a then v else 0) as (v & Hv & H3).
  { assert (forall v, refundOf (addRefund (bigUint64 n) (Proposer p) v s1) (bigUint64 n) a =
      refundOf s1 (bigUint64 n) a + if Proposer p =? a then v else 0) as Hadd.
    { intros v. rewrite refundOf_addRefund.
      destruct (Z.eqb_spec (Proposer p) a); [rewrite decide_True by done|rewrite decide_False by tauto]; done. }
    assert (s2 = addRefund (bigUint64 n) (Proposer p) (rentPaid p) s1 \/
            ProposalRefund s2 = ProposalRefund s1) as [->|Heq].
    { destruct (proposalPasses s1 p); [by apply executeProposal_refund|].
      unfold rejectProposal, rentPaid in *. destruct (_ =? _); simplify_eq; auto. }
    - exists (rentPaid p). auto.
    - exists 0. split; [by left|]. unfold refundOf at 1. rewrite Heq. fold (refundOf s1 (bigUint64 n) a).
      destruct (_ =? _); lia. }
  assert (0 <= rentPaid p) by (unfold rentPaid; destruct (ProposalType p =? _); [by apply Z.mul_nonneg_nonneg|done]).
  destruct (Proposer p =? a); simpl in *; lia.
Qed.
End Results.

Section Settlement.
Context {RT : GoRuntime}.

(** Whether the key [kv] of [Proposals] is settled at block [n]. *)
Definition dueKey (s : Snapshot) (n : Z) (kv : Hash * nat) : bool :=
  from_option (proposalDue s n) false (pheap s !! kv.2).
(** [amount] of the proposal of [kv] when it is settled at [n] for [a]. *)
Definition dueFor (amount : Proposal -> Z) (s : Snapshot) (n : Z) (a : Address) (kv : Hash * nat) : Z :=
  from_option (fun p => if proposalDue s n p && (Proposer p =? a) then amount p else 0) 0 (pheap s !! kv.2).
(** Its sum over the proposals of the snapshot. *)
Definition dueTotal (amount : Proposal -> Z) (s : Snapshot) (n : Z) (a : Address) : Z :=
  sumZ (dueFor amount s n a) (map_to_list (Proposals s)).

Lemma dueFor_frame amount s s' n a kv :
  pheap s' = pheap s -> config s' = config s -> dueFor amount s' n a kv = dueFor amount s n a kv.
Proof. intros H1 H2. unfold dueFor, proposalDue, declareDeadline. by rewrite H1, H2. Qed.

Lemma dueKey_frame s s' n kv :
  pheap s' = pheap s -> config s' = config s -> dueKey s' n kv = dueKey s n kv.
Proof. intros H1 H2. unfold dueKey, proposalDue, declareDeadline. by rewrite H1, H2. Qed.

Lemma resultStep_not_due n s kv :
  is_Some (pheap s !! kv.2) -> dueKey s n kv = false -> resultStep n s kv = Ok s.
Proof.
  destruct kv as [h loc]. unfold dueKey, resultStep; simpl. intros [p ->]; simpl. by intros ->.
Qed.

Lemma resultStep_Proposals n s kv s' :
  resultStep n s kv = Ok s' ->
  Proposals s' = if dueKey s n kv then delete kv.1 (Proposals s) else Proposals s.
Proof.
  destruct kv as [h loc]. unfold resultStep, dueKey; simpl. intros (p & Hp & H)%bind_Ok_inv.
  destruct (pheap s !! loc); simplify_eq; simpl in *; simplify_eq.
  destruct (proposalDue s n p); [|by simplify_eq].
  apply bind_Ok_inv in H as (s2 & H2 & H). injection H as <-. simpl. f_equal.
  destruct (proposalPasses _ _).
  - apply executeProposal_frame in H2 as (? & ? & -> & _). done.
  - unfold rejectProposal in H2. by destruct (_ =? _); simplify_eq.
Qed.

Lemma settle_list n l s s' a :
  (forall kv, kv ∈ l -> is_Some (pheap s !! kv.2)) ->
  (forall p, p ∈ pheap s -> 0 <= SCRentFee p) ->
  foldM (resultStep n) l s = Ok s' ->
  let d := refundOf s' (bigUint64 n) a - refundOf s (bigUint64 n) a in
  sumZ (dueFor CurrentDeposit s n a) l <= d <=
    sumZ (dueFor (fun p => CurrentDeposit p + rentPaid p) s n a) l /\
  Proposals s' = fold_left (delete_where (fun h loc => dueKey s n (h, loc))) l (Proposals s).
Proof.
  revert s; induction l as [|[h loc] l IH]; intros s Hl Hfee H; cbn [foldM] in *.
  { simplify_eq. simpl. split; [lia|done]. }
  apply bind_Ok_inv in H as (s1 & H1 & H).
  pose proof (resultStep_frame _ _ _ _ H1) as (Hheap & Hcfg & _ & _).
  destruct (Hl (h, loc) ltac:(left)) as [p Hp]; simpl in Hp.
  pose proof (resultStep_refund n s h loc p s1 a (Hfee p (list_elem_of_lookup_2 _ _ _ Hp)) Hp H1) as Hd.
  pose proof (resultStep_Proposals _ _ _ _ H1) as HP.
  destruct (IH s1) as [IH1 IH2]; [..|done|].
  { intros kv Hkv. rewrite Hheap. apply Hl. by right. }
  { by rewrite Hheap. }
  rewrite !(sumZ_ext (dueFor _ s1 n a) (dueFor _ s n a)) in IH1
    by (intros; by apply dueFor_frame).
  split.
  - assert (forall f, dueFor f s n a (h, loc) =
      if proposalDue s n p && (Proposer p =? a) then f p else 0) as Hdue
      by (intros f; unfold dueFor; simpl; by rewrite Hp).
    cbn [sumZ foldr]. rewrite !Hdue. fold (sumZ (dueFor CurrentDeposit s n a) l).
    fold (sumZ (dueFor (fun p => CurrentDeposit p + rentPaid p) s n a) l).
    destruct (proposalDue s n p && (Proposer p =? a)); simpl in *; lia.
  - rewrite IH2, HP. unfold delete_where at 2; simpl. apply fold_left_ext.
    intros m kv. unfold delete_where. by rewrite (dueKey_frame s s1).
Qed.
End Settlement.

(** C17. Settling the proposals of block [n]: every due proposal is removed and
    the others stay; each proposer is refunded at least the deposits of its due
    proposals, and at most the deposits with the rent fees it paid. *)
Theorem calculateProposalResult_refunds {RT : GoRuntime} n s s' a h :
  heap_wf s -> (forall p, p ∈ pheap s -> 0 <= SCRentFee p) ->
  ProposalRefund s !! bigUint64 n = None ->
  calculateProposalResult n s = Ok s' ->
  dueTotal CurrentDeposit s n a <= refundOf s' (bigUint64 n) a <=
    dueTotal (fun p => CurrentDeposit p + rentPaid p) s n a /\
  Proposals s' !! h =
    match Proposals s !! h with
    | Some loc => if dueKey s n (h, loc) then None else Some loc
    | None => None
    end.
Proof.
  intros Hwf Hfee Hrow H. unfold calculateProposalResult in H.
  set (s0 := s <| ProposalRefund ::= _ |>) in H.
  destruct (settle_list n (range (Proposals s0)) s0 s' a) as [H1 H2]; [|done|done|].
  { intros [h' loc] Hin%elem_of_range. simpl. apply lookup_lt_is_Some. by apply (Hwf h'). }
  assert (refundOf s0 (bigUint64 n) a = 0) as Hz.
  { unfold refundOf, lookup2, s0; simpl. destruct (delete _ _ !! _) eqn:E; [|done].
    apply lookup_delete_Some in E as [_ E]. by rewrite Hrow in E. }
  rewrite Hz, Z.sub_0_r, !range_perm in H1. split; [exact H1|].
  rewrite H2, lookup_delete_where. change (Proposals s0) with (Proposals s).
  change (dueKey s0) with (dueKey s). by destruct (Proposals s !! h).
Qed.

(** ** Order of settlement *)
Lemma settle_at_most_one {RT : GoRuntime} n l s :
  (forall kv, kv ∈ l -> is_Some (pheap s !! kv.2)) -> NoDup l ->
  (forall x y, x ∈ l -> y ∈ l -> dueKey s n x = true -> dueKey s n y = true -> x = y) ->
  foldM (resultStep n) l s =
  match List.find (dueKey s n) l with Some kv => resultStep n s kv | None => Ok s end.
Proof.
  intros Hl Hnd. induction Hnd as [|x l Hx Hnd IH]; intros Huniq; [done|].
  cbn [foldM List.find]. destruct (dueKey s n x) eqn:Ex.
  - destruct (resultStep n s x) as [s1| | |] eqn:E1; [|done..].
    cbn [mbind res_bind]. destruct (resultStep_frame _ _ _ _ E1) as (Hheap & Hcfg & _).
    assert (forall k, k ∈ l -> dueKey s n k = false) as Hno.
    { intros k Hk. destruct (dueKey s n k) eqn:Ek; [|done]. destruct Hx.
      rewrite (Huniq x k); [done|left|by right|done|done]. }
    clear IH Huniq Hnd Hx Ex E1. induction l as [|k l IH]; [done|]. cbn [foldM].
    rewrite resultStep_not_due.
    + cbn [mbind res_bind]. apply IH.
      * intros kv Hkv. apply Hl. apply elem_of_cons in Hkv as [->|]; [left|by do 2 right].
      * intros; apply Hno; by right.
    + rewrite Hheap. apply Hl. right; left.
    + rewrite (dueKey_frame s s1) by done. apply Hno. left.
  - rewrite resultStep_not_due by (apply Hl; left) || done. cbn [mbind res_bind].
    apply IH; [intros; apply Hl; by right|]. intros; apply Huniq; (by right) || done.
Qed.

Lemma proposalPasses_runtime (R1 R2 : GoRuntime) s p :
  @proposalPasses R1 s p = @proposalPasses R2 s p.
Proof. unfold proposalPasses. by rewrite !judegmentStake_msum. Qed.

Lemma resultStep_runtime (R1 R2 : GoRuntime) n s kv :
  @resultStep R1 n s kv = @resultStep R2 n s kv.
Proof.
  destruct kv as [h loc]. unfold resultStep. destruct (pheap s !! loc); simpl; [|done].
  by rewrite (proposalPasses_runtime R1 R2).
Qed.

(** C19. When at most one proposal is due at block [n], the settlement does not
    depend on the order in which a node visits the map of proposals. *)
Theorem calculateProposalResult_deterministic (R1 R2 : GoRuntime) n s :
  heap_wf s ->
  (forall h1 l1 h2 l2, Proposals s !! h1 = Some l1 -> Proposals s !! h2 = Some l2 ->
     dueKey s n (h1, l1) = true -> dueKey s n (h2, l2) = true -> h1 = h2) ->
  @calculateProposalResult R1 n s = @calculateProposalResult R2 n s.
Proof.
  intros Hwf Huniq. unfold calculateProposalResult. set (s0 := s <| ProposalRefund ::= _ |>).
  assert (forall R : GoRuntime, foldM (@resultStep R n) (@range R Z _ _ _ (Proposals s0)) s0 =
    match List.find (dueKey s0 n) (@range R Z _ _ _ (Proposals s0)) with
    | Some kv => @resultStep R n s0 kv | None => Ok s0 end) as Hset.
  { intros R. apply settle_at_most_one.
    - intros [h loc] Hin%elem_of_range. apply lookup_lt_is_Some. by apply (Hwf h).
    - eapply NoDup_fmap_1, range_NoDup.
    - intros [h1 l1] [h2 l2] H1%elem_of_range H2%elem_of_range D1 D2.
      assert (h1 = h2) as -> by eauto. by simplify_eq. }
  rewrite !Hset.
  destruct (List.find (dueKey s0 n) (@range R1 Z _ _ _ (Proposals s0))) as [[h1 l1]|] eqn:E1.
  - apply find_some in E1 as [H1%list_elem_of_In%elem_of_range D1].
    destruct (List.find (dueKey s0 n) (@range R2 Z _ _ _ (Proposals s0))) as [[h2 l2]|] eqn:E2.
    + apply find_some in E2 as [H2%list_elem_of_In%elem_of_range D2].
      assert (h1 = h2) as -> by (eapply Huniq; [exact H1|exact H2|exact D1|exact D2]).
      simplify_eq. apply resultStep_runtime.
    + eapply find_none in E2; [rewrite D1 in E2; done|]. by apply list_elem_of_In, elem_of_range.
  - destruct (List.find (dueKey s0 n) (@range R2 Z _ _ _ (Proposals s0))) as [[h2 l2]|] eqn:E2; [|done].
    apply find_some in E2 as [H2%list_elem_of_In%elem_of_range D2].
    eapply find_none in E1; [rewrite D2 in E1; done|]. by apply list_elem_of_In, elem_of_range.
Qed.

(** A run time that visits the key of code [e] last, whatever the map. *)
Definition visitsLast (e : positive) : GoRuntime := {|
  range K _ _ V m := filter (fun kv => encode kv.1 <> e) (map_to_list m) ++ filter (fun kv => encode kv.1 = e) (map_to_list m);
  range_perm K _ _ V m := transitivity (Permutation_app_comm _ _) (filter_app_complement (fun kv : K * V => encode kv.1 = e) _);
  sort A := insertion_sort;
  sort_perm A := insertion_sort_perm;
  sort_sorted A := insertion_sort_sorted
|}.
Lemma visitsLast_range (m : gmap Z nat) h loc : m !! h = Some loc ->
  exists l, @range (visitsLast (encode h)) Z _ _ nat m = l ++ [(h, loc)].
Proof.
  intros Hh. simpl. eexists. f_equal.
  assert (filter (fun kv : Z * nat => encode kv.1 = encode h) (map_to_list m) =
    filter (fun kv : Z * nat => kv.1 = h) (map_to_list m)) as ->.
  { apply list_filter_iff. intros kv. split; [apply (inj encode)|by intros ->]. }
  assert (filter (fun kv : Z * nat => kv.1 = h) (map_to_list m) ≡ₚ [(h, loc)]) as Hp;
    [|by apply Permutation_singleton_r in Hp].
  apply NoDup_Permutation; [apply NoDup_filter, NoDup_map_to_list|apply NoDup_singleton|].
  intros [k x]. rewrite list_elem_of_filter, elem_of_map_to_list, list_elem_of_singleton. simpl.
  split; [intros [-> Hx]; congruence|]. by intros [= -> ->].
Qed.

(** A settlement divides by the length of a rent only. *)
Lemma resultStep_total {RT : GoRuntime} n s kv p :
  pheap s !! kv.2 = Some p -> (ProposalType p = proposalTypeRentSideChain -> SCRentLength p <> 0) ->
  exists s', resultStep n s kv = Ok s'.
Proof.
  destruct kv as [h loc]. simpl. intros Hp Hlen. unfold resultStep. rewrite Hp. simpl.
  destruct (proposalDue s n p); [|by eexists]. destruct (proposalPasses _ p); [|by eexists].
  unfold executeProposal. repeat (case_match; [by eexists|]).
  destruct (Z.eqb_spec (ProposalType p) proposalTypeRentSideChain) as [Ht|]; [|by eexists].
  unfold executeRent. destruct (SCRecordMap _ !! _); [|by eexists]. unfold bigDiv.
  rewrite decide_False by auto. by eexists.
Qed.

(** [p] is a proposal on the miner reward that is settled at block [n] and passes. *)
Definition rewardSettled (s : Snapshot) (n : Z) (h : Hash) (p : Proposal) : Prop :=
  getProposal s h = Some p /\ proposalDue s n p = true /\ msum id (Tally s) * 2 / 3 < yesDeclareStake s p /\
  ProposalType p = proposalTypeMinerRewardDistributionModify.

(** The proposal that is visited last decides. *)
Lemma settled_last n s h p :
  heap_wf s -> (forall q, q ∈ pheap s -> ProposalType q = proposalTypeRentSideChain -> SCRentLength q <> 0) ->
  rewardSettled s n h p ->
  exists s', @calculateProposalResult (visitsLast (encode h)) n s = Ok s' /\ MinerReward s' = MinerRewardPerThousand p.
Proof.
  intros Hwf Hrent (Hg & Hdue & Hpass & Ht). unfold getProposal in Hg.
  destruct (Proposals s !! h) as [loc|] eqn:Eh; [|done]. simpl in Hg.
  unfold calculateProposalResult. set (s0 := s <| ProposalRefund ::= _ |>).
  destruct (visitsLast_range (Proposals s) h loc Eh) as [l Hl]. change (Proposals s0) with (Proposals s).
  assert (forall kv, kv ∈ l -> is_Some (pheap s0 !! kv.2)) as Hcells.
  { intros [k x] Hin. apply lookup_lt_is_Some, (Hwf k). apply (elem_of_range (RT := visitsLast (encode h))).
    rewrite Hl. apply elem_of_app. by left. }
  rewrite Hl, foldM_app. set (R := visitsLast (encode h)).
  destruct (foldM_total (fun s1 => pheap s1 = pheap s0 /\ config s1 = config s0 /\ Tally s1 = Tally s0)
    (@resultStep R n) l s0) as (s1 & Hs1 & Hheap & Hcfg & Htally); [done| |].
  { intros kv s1 Hin (Hh1 & Hc1 & Ht1). destruct (Hcells kv Hin) as [q Hq].
    destruct (@resultStep_total R n s1 kv q) as [s2 Hs2];
      [by rewrite Hh1|apply Hrent; by eapply list_elem_of_lookup_2|].
    exists s2. split; [done|]. apply resultStep_frame in Hs2 as (-> & -> & -> & _). done. }
  rewrite Hs1. cbn [mbind res_bind foldM]. unfold resultStep. rewrite Hheap. change (pheap s0) with (pheap s).
  rewrite Hg. cbn [get_or_panic mbind res_bind].
  assert (proposalDue s1 n p = true) as -> by (unfold proposalDue, declareDeadline in *; by rewrite Hcfg).
  assert (@proposalPasses R (addRefund (bigUint64 n) (Proposer p) (CurrentDeposit p) s1) p = true) as ->.
  { unfold proposalPasses. rewrite judegmentStake_msum. apply Z.ltb_lt. unfold yesDeclareStake in *.
    simpl. rewrite Htally. exact Hpass. }
  unfold executeProposal. rewrite Ht. simpl. eexists. split; [done|]. done.
Qed.

(** C40. Whenever two proposals on the miner reward that name different rewards are
    settled at one block and pass, whatever else is stored and settled with them
    (rents have a length, and every stored proposal is allocated), there are an
    order of the map after which the first of them sets the reward and one after
    which the second does: two nodes leave the same block with different
    miner rewards. *)
Theorem calculateProposalResult_order_dependent n s h1 p1 h2 p2 :
  heap_wf s -> (forall p, p ∈ pheap s -> ProposalType p = proposalTypeRentSideChain -> SCRentLength p <> 0) ->
  rewardSettled s n h1 p1 -> rewardSettled s n h2 p2 -> MinerRewardPerThousand p1 <> MinerRewardPerThousand p2 ->
  exists (R1 R2 : GoRuntime) s1 s2,
    @calculateProposalResult R1 n s = Ok s1 /\ @calculateProposalResult R2 n s = Ok s2 /\
    MinerReward s1 = MinerRewardPerThousand p1 /\ MinerReward s2 = MinerRewardPerThousand p2 /\
    MinerReward s1 <> MinerReward s2.
Proof.
  intros Hwf Hrent H1 H2 Hne. destruct (settled_last n s h1 p1) as (s1 & Hs1 & Hm1); [done..|].
  destruct (settled_last n s h2 p2) as (s2 & Hs2 & Hm2); [done..|].
  exists (visitsLast (encode h1)), (visitsLast (encode h2)), s1, s2. split_and!; congruence.
Qed.

(** ** Declares *)
Definition one_declare_each (p : Proposal) : Prop := NoDup (map Declarer (Declares p)).

(** [p'] is [p] with the declares [extra] added, all of them admissible. *)
Definition declares_extend (s : Snapshot) (n : Z) (ds : list Declare_) (p p' : Proposal) : Prop :=
  exists extra,
    p' = (p <| Declares := Declares p ++ extra |>) /\
    Forall (fun d => d ∈ ds /\ isCandidate s (Declarer d) = true /\
                     bigUint64 n <= declareDeadline s p) extra /\
    (one_declare_each p -> one_declare_each p').

Lemma declareStep_cases n s d :
  declareStep n s d = s \/
  exists loc p, Proposals s !! ProposalHash d = Some loc /\ pheap s !! loc = Some p /\
    bigUint64 n <= declareDeadline s p /\ isCandidate s (Declarer d) = true /\
    (Declarer d ∉ map Declarer (Declares p)) /\
    declareStep n s d = (s <| pheap ::= <[loc := p <| Declares ::= fun ds => ds ++ [d] |>]> |>).
Proof.
  unfold declareStep. destruct (Proposals s !! _) as [loc|] eqn:E1; [|by left].
  destruct (pheap s !! loc) as [p|] eqn:E2; [|by left].
  destruct (Z.ltb_spec (declareDeadline s p) (bigUint64 n)); simpl; [by left|].
  destruct (isCandidate s (Declarer d)) eqn:E3; simpl; [|by left].
  destruct (existsb _ _) eqn:E4; [by left|]. right. exists loc, p. destruct d as [dh dd db].
  repeat split; [done..|]. intros (v & Hv & Hin)%list_elem_of_fmap.
  rewrite <- not_true_iff_false, existsb_exists in E4. apply E4. exists v.
  rewrite <- list_elem_of_In, Z.eqb_eq. simpl in *. done.
Qed.

(** A block's declares only append to the proposals, each appended declare
    comes from a candidate, within the validation period, and no address ever
    declares twice on a proposal. *)
Lemma updateSnapshotByDeclares_spec ds n s loc p' :
  pheap (updateSnapshotByDeclares ds n s) !! loc = Some p' ->
  exists p, pheap s !! loc = Some p /\ declares_extend s n ds p p'.
Proof.
  unfold updateSnapshotByDeclares. revert loc p'.
  cut (forall loc, let s' := fold_left (declareStep n) ds s in
    config s' = config s /\ Candidates s' = Candidates s /\
    forall p', pheap s' !! loc = Some p' -> exists p, pheap s !! loc = Some p /\ declares_extend s n ds p p').
  { intros H loc. by apply H. }
  intros loc. induction ds as [|d ds IH] using rev_ind; cbn [fold_left].
  { repeat split. intros p' Hp. exists p'. split; [done|]. exists [].
    rewrite app_nil_r. repeat split; [by destruct p'|constructor|done]. }
  rewrite fold_left_app; cbn [fold_left].
  set (s1 := fold_left (declareStep n) ds s) in *. destruct IH as (Hc & Hcand & IH).
  assert (forall p p', declares_extend s n ds p p' -> declares_extend s n (ds ++ [d]) p p') as Hmono.
  { intros p p' (ex & -> & Hall & Hone). exists ex. repeat split; [|done].
    eapply Forall_impl; [exact Hall|]. intros x (Hx & ? & ?). repeat split; [|done..].
    apply elem_of_app. by left. }
  destruct (declareStep_cases n s1 d) as [->|(l & q & Hl & Hq & Hdl & Hca & Hnew & ->)].
  { repeat split; [done..|]. intros p' Hp. destruct (IH _ Hp) as (p & ? & ?). eauto. }
  simpl. repeat split; [done..|]. intros p' Hp'.
  apply list_lookup_insert_Some in Hp' as [(<- & <- & _)|[Hne Hp']]; [|destruct (IH _ Hp') as (p & ? & ?); eauto].
  destruct (IH _ Hq) as (p & Hp & ex & -> & Hall & Hone). exists p. split; [done|].
  exists (ex ++ [d]). repeat split.
  - cbn. by rewrite app_assoc.
  - apply Forall_app. split; [|constructor; [|constructor]].
    + eapply Forall_impl; [exact Hall|]. intros x (Hx & ? & ?). repeat split; [|done..].
      apply elem_of_app. by left.
    + repeat split; [apply elem_of_app; right; left|..].
      * unfold isCandidate in *. by rewrite <- Hcand.
      * unfold declareDeadline in *. rewrite Hc in Hdl. exact Hdl.
  - intros Hp1. specialize (Hone Hp1). unfold one_declare_each in *. simpl in *.
    rewrite map_app. apply NoDup_app. split; [done|]. split; [|apply NoDup_singleton].
    intros x Hx ->%list_elem_of_singleton. done.
Qed.

(** Stake of the declarers of [p] that said [b]. *)
Definition declaredStake (b : bool) (s : Snapshot) (p : Proposal) : Z :=
  sumZ (fun d => if Bool.eqb (Decision d) b then default 0 (Tally s !! Declarer d) else 0) (Declares p).

Lemma yesDeclareStake_declared s p : yesDeclareStake s p = declaredStake true s p.
Proof.
  unfold yesDeclareStake, declaredStake.
  enough (forall ds acc, fold_left (fun acc d =>
      if Decision d then
        match Tally s !! Declarer d with Some t => acc + t | None => acc end
      else acc) ds acc =
    acc + sumZ (fun d => if Bool.eqb (Decision d) true then default 0 (Tally s !! Declarer d) else 0) ds)
    as H by (by rewrite H, Z.add_0_l).
  induction ds as [|d ds IH]; intros acc; simpl; [lia|]. rewrite IH.
  destruct (Decision d); simpl; [|lia]. destruct (Tally s !! Declarer d); simpl; lia.
Qed.

(** Distinct declarers hold together at most the whole stake. *)
Lemma declared_at_most_total (m : gmap Z Z) (ds : list Declare_) :
  (forall c t, m !! c = Some t -> 0 <= t) -> NoDup (map Declarer ds) ->
  sumZ (fun d => default 0 (m !! Declarer d)) ds <= msum id m.
Proof.
  intros Hm Hnd. revert m Hm. induction ds as [|d ds IH]; intros m Hm; cbn [sumZ foldr].
  { apply msum_nonneg. eauto. }
  fold (sumZ (fun d => default 0 (m !! Declarer d)) ds).
  inversion_clear Hnd as [|? ? Hd Hnd'].
  rewrite (sumZ_ext _ (fun d' => default 0 (delete (Declarer d) m !! Declarer d'))).
  - specialize (IH Hnd' (delete (Declarer d) m)).
    pose proof (msum_remove id m (Declarer d)) as Hr.
    ospecialize (IH _); [intros c t [_ ?]%lookup_delete_Some; eauto|]. lia.
  - intros x Hx. rewrite lookup_delete_ne; [done|]. intros Heq. apply Hd. rewrite Heq.
    apply list_elem_of_fmap. eauto.
Qed.

(** C18. An accepted proposal has the support of more than two thirds of the
    whole stake, and more than twice the stake declared against it. *)
Theorem proposalPasses_supermajority {RT : GoRuntime} s p :
  (forall c t, Tally s !! c = Some t -> 0 <= t) -> one_declare_each p ->
  proposalPasses s p = true ->
  2 * msum id (Tally s) < 3 * declaredStake true s p /\
  2 * declaredStake false s p < declaredStake true s p.
Proof.
  intros Hnn Hone Hp. unfold proposalPasses in Hp.
  rewrite judegmentStake_msum, yesDeclareStake_declared in Hp. apply Z.ltb_lt in Hp.
  assert (declaredStake true s p + declaredStake false s p <= msum id (Tally s)) as Hle.
  { etransitivity; [|apply (declared_at_most_total _ (Declares p)); done].
    apply Z.eq_le_incl. unfold declaredStake. clear. induction (Declares p) as [|d ds IH]; simpl; [done|].
    rewrite <- IH. destruct (Decision d); simpl; lia. }
  pose proof (Z.mul_succ_div_gt (msum id (Tally s) * 2) 3 ltac:(lia)). lia.
Qed.
