(* ===== verification/AlienQueue.v ===== *)
(** * The signer queue

    Models [consensus/alien/signer_queue.go]: the weighted tally, the two
    orders, the creation of the signer queue at the end of a loop and its
    verification, and [removeExtraCandidate] of [snapshot.go], which uses them. *)
From S2P Require Import Prelude AlienTypes AlienVotes.

Record TallyItem := mkTallyItem { tiAddr : Address; tiStake : Z }.
Record SignerItem := mkSignerItem { siAddr : Address; siHash : Hash }.

(** [TallySlice.Less]: larger stake first, then larger address. *)
Definition tallyLess (x y : TallyItem) : bool :=
  if tiStake y <? tiStake x then true
  else if tiStake x <? tiStake y then false
  else tiAddr y <? tiAddr x.
(** [SignerSlice.Less]: larger hash first. *)
Definition signerLess (x y : SignerItem) : bool := siHash y <? siHash x.

Section Operations.
Context {RT : GoRuntime}.

Definition creditWeight (s : Snapshot) (address : Address) : Z :=
  match Punished s !! address with
  | Some p =>
      if defaultFullCredit - minCalSignerQueueCredit <? p then minCalSignerQueueCredit
      else defaultFullCredit -u p
  | None => defaultFullCredit
  end.
Definition buildTallySlice (s : Snapshot) : list TallyItem :=
  omap (fun '(address, stake) =>
    if negb candidateNeedPD || isCandidate s address
    then Some (mkTallyItem address (stake * i64 (creditWeight s address))) else None)
    (range (Tally s)).

(** [SignerItem{addr, s.HistoryHash[len(s.HistoryHash)-1-i]}] for the [i]-th
    address, counting from [i]. *)
Fixpoint assignHash (s : Snapshot) (i : Z) (addrs : list Address) : ares (list SignerItem) :=
  match addrs with
  | [] => Ok []
  | a :: addrs =>
      h ← gindex (HistoryHash s) (glen (HistoryHash s) - 1 - i);
      l ← assignHash s (i + 1) addrs;
      Ok (mkSignerItem a h :: l)
  end.

(** The slice [tallySlice[i:j]] with its hashes. *)
Definition level (s : Snapshot) (tallySlice : list TallyItem) (i j : Z) : ares (list SignerItem) :=
  l ← gslice tallySlice i j; assignHash s 0 (map tiAddr l).

(** The official committee: the ten top candidates, six of the next ten, four
    of the next ten and one of the rest, picked by hash. *)
Definition officialSlice (s : Snapshot) (tallySlice : list TallyItem) : ares (list SignerItem) :=
  first ← level s tallySlice 0 defaultOfficialFirstLevelCount;
  second ← level s tallySlice defaultOfficialFirstLevelCount defaultOfficialSecondLevelCount;
  second6 ← gslice (sort signerLess second) 0 6;
  third ← level s tallySlice defaultOfficialSecondLevelCount defaultOfficialThirdLevelCount;
  third4 ← gslice (sort signerLess third) 0 4;
  let maxValidCount := Z.min defaultOfficialMaxValidCount (glen tallySlice) in
  rest ← level s tallySlice defaultOfficialThirdLevelCount maxValidCount;
  one ← gindex (sort signerLess rest) 0;
  Ok (first ++ second6 ++ third4 ++ [one]).

(** The signers of the next loop with their hashes, unsorted. *)
Definition signerSlice (s : Snapshot) : ares (list SignerItem) :=
  r ← umod (Number s +u 1) (MaxSignerCount (config s) *u LCRS s);
  if r =? 0 then
    let tallySlice := sort tallyLess (buildTallySlice s) in
    let queueLength := Z.min (i64 (MaxSignerCount (config s))) (glen tallySlice) in
    if (queueLength =? defaultOfficialMaxSignerCount) && (defaultOfficialThirdLevelCount <? glen tallySlice)
    then officialSlice s tallySlice
    else level s tallySlice 0 queueLength
  else assignHash s 0 (Signers s).

(** [signerSlice[i%len(signerSlice)].addr] for [i] from [i] to [i+n-1]. *)
Fixpoint fillQueue (l : list SignerItem) (i : Z) (n : nat) : list Address :=
  match n with
  | O => []
  | S n =>
      match l !! Z.to_nat (i mod glen l) with
      | Some x => siAddr x :: fillQueue l (i + 1) n
      | None => []
      end
  end.

Definition createSignerQueue (s : Snapshot) : ares (list Address) :=
  r ← umod (Number s +u 1) (MaxSignerCount (config s));
  if negb (r =? 0) then Err errCreateSignerQueueNotAllowed else
  lastHash ← gindex (HistoryHash s) (glen (HistoryHash s) - 1);
  if negb (sHash s =? lastHash) then Err errCreateSignerQueueNotAllowed else
  slice ← signerSlice s;
  let sorted := sort signerLess slice in
  if glen sorted =? 0 then Err errSignerQueueEmpty
  else Ok (fillQueue sorted 0 (Z.to_nat (i64 (MaxSignerCount (config s))))).

Definition verifySignerQueue (s : Snapshot) (signerQueue : list Address) : ares unit :=
  if i64 (MaxSignerCount (config s)) <? glen signerQueue then Err errInvalidSignerQueue else
  sq ← createSignerQueue s;
  if (glen sq =? 0) || negb (glen sq =? glen signerQueue) then Err errInvalidSignerQueue
  else if existsb (fun '(x, y) => negb (x =? y)) (zip signerQueue sq)
  then Err errInvalidSignerQueue else Ok tt.

(** [removeExtraCandidate]: the candidates beyond the 500 best tallies go. *)
Definition removeExtraCandidate (s : Snapshot) : Snapshot :=
  let tallySlice := sort tallyLess (buildTallySlice s) in
  if candidateMaxLen <? glen tallySlice then
    fold_left (fun s item =>
      s <| SCCoinbase ::= delete (tiAddr item) |> <| Candidates ::= delete (tiAddr item) |>)
      (drop (Z.to_nat candidateMaxLen) tallySlice) s
  else s.
End Operations.

(** ** The orders are strict weak orders *)
Lemma tallyLess_spec x y :
  tallyLess x y = true <-> tiStake y < tiStake x \/ (tiStake x = tiStake y /\ tiAddr y < tiAddr x).
Proof.
  unfold tallyLess. destruct (Z.ltb_spec (tiStake y) (tiStake x)); [split; [lia|done]|].
  destruct (Z.ltb_spec (tiStake x) (tiStake y)); [split; [done|lia]|].
  rewrite Z.ltb_lt. lia.
Qed.

Lemma tallyLess_strict_weak : strict_weak tallyLess.
Proof.
  repeat split; [intros x|intros x y z|intros x y z];
    rewrite <- ?not_true_iff_false, ?tallyLess_spec; lia.
Qed.

Lemma signerLess_strict_weak : strict_weak signerLess.
Proof.
  unfold signerLess. repeat split; [intros x|intros x y z|intros x y z];
    rewrite ?Z.ltb_lt, ?Z.ltb_ge; lia.
Qed.

Lemma tallyLess_total x y : tallyLess x y = false -> tallyLess y x = false -> x = y.
Proof.
  rewrite <- !not_true_iff_false, !tallyLess_spec. destruct x, y; simpl. intros. f_equal; lia.
Qed.

(** ** The queue does not depend on the run time *)
Lemma sort_tally_unique (R1 R2 : GoRuntime) l1 l2 :
  l1 ≡ₚ l2 -> @sort R1 _ tallyLess l1 = @sort R2 _ tallyLess l2.
Proof.
  intros Hp. apply (sorted_perm_unique tallyLess).
  - by rewrite (@sort_perm R1), (@sort_perm R2).
  - intros; by apply tallyLess_total.
  - apply sort_sorted, tallyLess_strict_weak.
  - apply sort_sorted, tallyLess_strict_weak.
Qed.

(** Items with pairwise different hashes have one sorted order. *)
Lemma sort_signer_unique (R1 R2 : GoRuntime) l :
  NoDup (map siHash l) -> @sort R1 _ signerLess l = @sort R2 _ signerLess l.
Proof.
  intros Hnd. apply (sorted_perm_unique signerLess).
  - by rewrite (@sort_perm R1), (@sort_perm R2).
  - intros x y Hx Hy. rewrite (@sort_perm R1) in Hx, Hy.
    unfold signerLess. rewrite !Z.ltb_ge. intros H1 H2.
    apply list_elem_of_lookup in Hx as [i Hi], Hy as [j Hj].
    assert (i = j) as ->; [|congruence].
    eapply (NoDup_lookup (map siHash l)); [done|..]; rewrite list_lookup_fmap.
    + by rewrite Hi.
    + rewrite Hj; simpl. f_equal. lia.
  - apply sort_sorted, signerLess_strict_weak.
  - apply sort_sorted, signerLess_strict_weak.
Qed.

Lemma buildTallySlice_perm (R1 R2 : GoRuntime) s :
  @buildTallySlice R1 s ≡ₚ @buildTallySlice R2 s.
Proof. unfold buildTallySlice. apply omap_Permutation. by rewrite (@range_perm R1), (@range_perm R2). Qed.

Lemma assignHash_lookup s i addrs l :
  assignHash s i addrs = Ok l ->
  map siAddr l = addrs /\
  forall k x, l !! k = Some x ->
    0 <= glen (HistoryHash s) - 1 - (i + Z.of_nat k) /\
    HistoryHash s !! Z.to_nat (glen (HistoryHash s) - 1 - (i + Z.of_nat k)) = Some (siHash x).
Proof.
  revert i l; induction addrs as [|a addrs IH]; intros i l; simpl.
  { intros [= <-]. done. }
  intros (h & Hh & (l' & Hl' & H)%bind_Ok_inv)%bind_Ok_inv. injection H as <-.
  destruct (IH _ _ Hl') as [<- Hk]. split; [done|]. intros [|k] x Hx; simpl in Hx.
  - injection Hx as <-. unfold gindex in Hh. case_decide; [|done].
    rewrite Z.add_0_r. split; [done|]. simpl. by destruct (_ !! _); simplify_eq/=.
  - apply Hk in Hx. replace (i + Z.of_nat (S k)) with (i + 1 + Z.of_nat k) by lia. done.
Qed.

Lemma assignHash_NoDup s i addrs l :
  NoDup (HistoryHash s) -> assignHash s i addrs = Ok l -> NoDup (map siHash l).
Proof.
  intros Hnd [_ Hl]%assignHash_lookup. apply NoDup_alt. intros k1 k2 h.
  rewrite !list_lookup_fmap.
  intros (x & [H1 L1]%Hl & ->)%fmap_Some (y & [H2 L2]%Hl & Hxy)%fmap_Some.
  rewrite Hxy in L1. pose proof (NoDup_lookup _ _ _ _ Hnd L1 L2). lia.
Qed.

(** Whether the next queue is drawn by levels from more than thirty candidates. *)
Definition officialDraw (s : Snapshot) : Prop :=
  (Number s +u 1) mod (MaxSignerCount (config s) *u LCRS s) = 0 /\
  MaxSignerCount (config s) = defaultOfficialMaxSignerCount /\
  defaultOfficialThirdLevelCount < Z.of_nat (size (Tally s)).

Lemma buildTallySlice_addrs {RT : GoRuntime} s :
  map tiAddr (buildTallySlice s) = (range (Tally s)).*1.
Proof.
  unfold buildTallySlice. induction (range (Tally s)) as [|[a t] l IH]; simpl; [done|]. f_equal. exact IH.
Qed.

Lemma buildTallySlice_length {RT : GoRuntime} s : length (buildTallySlice s) = size (Tally s).
Proof.
  rewrite <- (length_map tiAddr), buildTallySlice_addrs, length_fmap. apply range_length.
Qed.

Lemma sorted_tally_runtime (R1 R2 : GoRuntime) s :
  @sort R1 _ tallyLess (@buildTallySlice R1 s) = @sort R2 _ tallyLess (@buildTallySlice R2 s).
Proof. apply sort_tally_unique, buildTallySlice_perm. Qed.

Lemma sorted_tally_length {RT : GoRuntime} s :
  glen (sort tallyLess (buildTallySlice s)) = Z.of_nat (size (Tally s)).
Proof. unfold glen. by rewrite sort_perm, buildTallySlice_length. Qed.

(** Outside the draw by levels, the slice of the signers is the same on every
    run time and its hashes are distinct. *)
Lemma signerSlice_runtime (R1 R2 : GoRuntime) s :
  is_u64 (MaxSignerCount (config s)) -> NoDup (HistoryHash s) -> ~ officialDraw s ->
  @signerSlice R1 s = @signerSlice R2 s /\
  forall l, @signerSlice R1 s = Ok l -> NoDup (map siHash l).
Proof.
  intros Hu Hnd Hno. unfold signerSlice, umod.
  destruct (decide (_ = 0)) as [|Hz]; [done|]. cbn [mbind res_bind].
  destruct (Z.eqb_spec ((Number s +u 1) mod (MaxSignerCount (config s) *u LCRS s)) 0) as [H0|H0].
  - rewrite (sorted_tally_runtime R1 R2). set (ts := sort tallyLess _).
    assert (glen ts = Z.of_nat (size (Tally s))) as Hlen by apply sorted_tally_length.
    destruct (_ && _) eqn:Eoff.
    + exfalso. apply Hno. apply andb_true_iff in Eoff as [E1 E2].
      apply Z.eqb_eq in E1. apply Z.ltb_lt in E2. split; [done|]. split; [|lia].
      unfold defaultOfficialThirdLevelCount, defaultOfficialMaxSignerCount in *.
      assert (i64 (MaxSignerCount (config s)) = 21) as Hi by lia.
      unfold i64 in Hi. unfold is_u64 in Hu.
      pose proof (Z.div_mod (MaxSignerCount (config s) + 2 ^ 63) (2 ^ 64) ltac:(lia)). nia.
    + split; [done|]. unfold level. intros l (sl & _ & Hl)%bind_Ok_inv. by eapply assignHash_NoDup.
  - split; [done|]. intros l Hl. by eapply assignHash_NoDup.
Qed.

Lemma createSignerQueue_runtime (R1 R2 : GoRuntime) s :
  is_u64 (MaxSignerCount (config s)) -> NoDup (HistoryHash s) -> ~ officialDraw s ->
  @createSignerQueue R1 s = @createSignerQueue R2 s.
Proof.
  intros Hu Hnd Hno. destruct (signerSlice_runtime R1 R2 s) as [Heq Hl]; [done..|].
  unfold createSignerQueue. destruct (umod _ _); [|done..]. cbn [mbind res_bind].
  destruct (negb _); [done|]. destruct (gindex _ _); [|done..]. cbn [mbind res_bind].
  destruct (negb _); [done|]. rewrite <- Heq.
  destruct (@signerSlice R1 s) as [l| | |] eqn:E; [|done..]. cbn [mbind res_bind].
  by rewrite (sort_signer_unique R1 R2) by auto.
Qed.
(** C9. Outside the draw by levels, [createSignerQueue] is a function of the
    snapshot: neither the order of the maps nor the sorting algorithm of a
    node's run time changes the queue, provided the recent block hashes differ. *)
Theorem createSignerQueue_deterministic (R1 R2 : GoRuntime) s :
  is_u64 (MaxSignerCount (config s)) -> NoDup (HistoryHash s) -> ~ officialDraw s ->
  @createSignerQueue R1 s = @createSignerQueue R2 s.
Proof. apply createSignerQueue_runtime. Qed.

(** ** Contents of the queue *)
Lemma fillQueue_lookup l i n k :
  0 <= i -> l <> [] -> (k < n)%nat ->
  fillQueue l i n !! k = siAddr <$> l !! Z.to_nat ((i + Z.of_nat k) mod glen l).
Proof.
  intros Hi Hl. assert (0 < glen l) as Hpos by (destruct l; [done|]; unfold glen; simpl; lia).
  revert i k Hi. induction n as [|n IH]; intros i k Hi Hk; [lia|]. simpl.
  pose proof (Z.mod_pos_bound i (glen l) Hpos) as Hb.
  destruct (lookup_lt_is_Some_2 l (Z.to_nat (i mod glen l))) as [x Hx]; [unfold glen in *; lia|].
  rewrite Hx. destruct k as [|k]; simpl.
  - by rewrite Z.add_0_r, Hx.
  - rewrite IH by lia. by replace (i + 1 + Z.of_nat k) with (i + Z.of_nat (S k)) by lia.
Qed.

Lemma fillQueue_length l i n : 0 <= i -> l <> [] -> length (fillQueue l i n) = n.
Proof.
  intros Hi Hl. assert (0 < glen l) as Hpos by (destruct l; [done|]; unfold glen; simpl; lia).
  revert i Hi. induction n as [|n IH]; intros i Hi; simpl; [done|].
  pose proof (Z.mod_pos_bound i (glen l) Hpos) as Hb.
  destruct (lookup_lt_is_Some_2 l (Z.to_nat (i mod glen l))) as [x Hx]; [unfold glen in *; lia|].
  rewrite Hx. simpl. by rewrite IH by lia.
Qed.

(** The queue repeats the slice; a slice that fits appears entirely. *)
Lemma fillQueue_elem l n a : l <> [] -> a ∈ fillQueue l 0 n -> a ∈ map siAddr l.
Proof.
  intros Hl [k Hk]%list_elem_of_lookup.
  assert (k < n)%nat as Hlt by (apply lookup_lt_Some in Hk; by rewrite fillQueue_length in Hk).
  rewrite fillQueue_lookup in Hk by (done || lia). apply fmap_Some in Hk as (x & Hx & ->).
  apply list_elem_of_fmap. eexists; split; [done|]. by eapply list_elem_of_lookup_2.
Qed.

Lemma fillQueue_covers l n a : (length l <= n)%nat -> a ∈ map siAddr l -> a ∈ fillQueue l 0 n.
Proof.
  intros Hn (x & -> & Hx)%list_elem_of_fmap.
  apply list_elem_of_lookup in Hx as [k Hk].
  assert (k < length l)%nat as Hlt by by eapply lookup_lt_Some.
  apply list_elem_of_lookup. exists k.
  rewrite fillQueue_lookup by (lia || by destruct l). rewrite Z.add_0_l, Z.mod_small, Nat2Z.id, Hk
    by (unfold glen; lia). done.
Qed.

Lemma gslice_incl {E A} (l : list A) i j r x : @gslice E A l i j = Ok r -> x ∈ r -> x ∈ l.
Proof.
  intros (_ & _ & ->)%gslice_Ok Hx. eapply elem_of_take in Hx as (k & Hk & _).
  rewrite lookup_drop in Hk. by eapply list_elem_of_lookup_2.
Qed.

Section Contents.
Context {RT : GoRuntime}.

Lemma level_incl s ts i j l x : level s ts i j = Ok l -> x ∈ l -> siAddr x ∈ map tiAddr ts.
Proof.
  intros (sl & Hsl & [Ha _]%assignHash_lookup)%bind_Ok_inv Hx.
  assert (siAddr x ∈ map siAddr l) as Hin by (apply list_elem_of_fmap; eauto).
  rewrite Ha in Hin. apply list_elem_of_fmap in Hin as (t & -> & Ht).
  apply list_elem_of_fmap. eexists; split; [done|]. by eapply gslice_incl.
Qed.

Lemma officialSlice_incl s ts l x : officialSlice s ts = Ok l -> x ∈ l -> siAddr x ∈ map tiAddr ts.
Proof.
  unfold officialSlice.
  intros (l1 & H1 & (l2 & H2 & (l2' & H2' & (l3 & H3 & (l3' & H3' & (l4 & H4 &
    (y & H4' & H)%bind_Ok_inv)%bind_Ok_inv)%bind_Ok_inv)%bind_Ok_inv)%bind_Ok_inv)%bind_Ok_inv)%bind_Ok_inv.
  injection H as <-. rewrite !elem_of_app, list_elem_of_singleton.
  assert (forall l x, x ∈ sort signerLess l -> x ∈ l) as Hsort by (intros ? ?; by rewrite sort_perm).
  intros [Hx|[Hx|[Hx|Hx]]].
  - eapply level_incl; [exact H1|done].
  - eapply level_incl; [exact H2|]. apply Hsort. eapply gslice_incl; done.
  - eapply level_incl; [exact H3|]. apply Hsort. eapply gslice_incl; done.
  - subst x. eapply level_incl; [exact H4|]. apply Hsort. apply gindex_Ok in H4' as [_ H4'].
    by eapply list_elem_of_lookup_2.
Qed.

Lemma sorted_tally_elem s a :
  a ∈ map tiAddr (sort tallyLess (buildTallySlice s)) <-> is_Some (Tally s !! a).
Proof.
  rewrite sort_perm, buildTallySlice_addrs, list_elem_of_fmap. split.
  - intros ([k t] & -> & Hin%elem_of_range). eauto.
  - intros [t Ht]. exists (a, t). split; [done|]. by apply elem_of_range.
Qed.

(** Whether this loop end recomputes the signers from the tally. *)
Definition recalculates (s : Snapshot) : bool :=
  (Number s +u 1) mod (MaxSignerCount (config s) *u LCRS s) =? 0.

Lemma signerSlice_incl s l x :
  signerSlice s = Ok l -> x ∈ l ->
  if recalculates s then is_Some (Tally s !! siAddr x) else siAddr x ∈ Signers s.
Proof.
  unfold signerSlice, umod, recalculates. case_decide; [done|]. cbn [mbind res_bind].
  destruct (_ =? 0).
  - rewrite <- sorted_tally_elem. destruct (_ && _); eauto using officialSlice_incl, level_incl.
  - intros [<- _]%assignHash_lookup Hx. apply list_elem_of_fmap; eauto.
Qed.

Lemma createSignerQueue_inv s q :
  createSignerQueue s = Ok q ->
  exists l, signerSlice s = Ok l /\ l <> [] /\
    q = fillQueue (sort signerLess l) 0 (Z.to_nat (i64 (MaxSignerCount (config s)))) /\
    (Number s +u 1) mod MaxSignerCount (config s) = 0.
Proof.
  unfold createSignerQueue, umod. case_decide; [done|]. cbn [mbind res_bind].
  destruct (Z.eqb_spec ((Number s +u 1) mod MaxSignerCount (config s)) 0); [|done]. simpl.
  intros (h & _ & Hq)%bind_Ok_inv. destruct (negb _); [done|].
  apply bind_Ok_inv in Hq as (l & Hl & Hq). destruct (glen _ =? 0) eqn:E; [done|].
  injection Hq as <-. exists l. repeat split; [done| |done]. intros ->.
  unfold glen in E. rewrite (sort_perm signerLess []) in E. done.
Qed.

(** C12. A created queue has exactly [MaxSignerCount] seats; when the signers
    are recomputed every seat goes to a candidate with a tally, and otherwise
    to a signer of the previous queue. *)
Theorem createSignerQueue_members s q :
  0 < MaxSignerCount (config s) < 2 ^ 63 -> createSignerQueue s = Ok q ->
  glen q = MaxSignerCount (config s) /\
  forall a, a ∈ q -> if recalculates s then is_Some (Tally s !! a) else a ∈ Signers s.
Proof.
  intros Hm (l & Hl & Hne & -> & _)%createSignerQueue_inv.
  assert (sort signerLess l <> []) as Hs.
  { intros E. apply Hne. apply Permutation_nil_r. by rewrite <- E, sort_perm. }
  assert (i64 (MaxSignerCount (config s)) = MaxSignerCount (config s)) as ->
    by (unfold i64; rewrite Z.mod_small; lia).
  split; [unfold glen; rewrite fillQueue_length by done; lia|].
  intros a Ha%fillQueue_elem; [|done]. rewrite sort_perm in Ha.
  apply list_elem_of_fmap in Ha as (x & -> & Hx). by eapply signerSlice_incl.
Qed.
End Contents.

(** Stake of a candidate as the queue weighs it. *)
Definition weightedStake (s : Snapshot) (a : Address) : Z :=
  default 0 (Tally s !! a) * i64 (creditWeight s a).

Section TopStake.
Context {RT : GoRuntime}.

Lemma buildTallySlice_elem s t : t ∈ buildTallySlice s ->
  is_Some (Tally s !! tiAddr t) /\ tiStake t = weightedStake s (tiAddr t).
Proof.
  unfold buildTallySlice. rewrite list_elem_of_omap. intros ([a v] & Hin%elem_of_range & Heq).
  simpl in Heq. injection Heq as <-. simpl. unfold weightedStake. rewrite Hin. eauto.
Qed.

Lemma StronglySorted_take_drop {A} (R : A -> A -> Prop) l k x y :
  StronglySorted R l -> x ∈ take k l -> y ∈ drop k l -> R x y.
Proof.
  intros Hs. revert k; induction Hs as [|z l Hs IH Hall]; intros [|k]; simpl; intros Hx Hy;
    try (by apply not_elem_of_nil in Hx).
  apply elem_of_cons in Hx as [->|Hx]; [|by eapply IH].
  rewrite Forall_forall in Hall. apply Hall.
  apply list_elem_of_lookup in Hy as [j Hj]. rewrite lookup_drop in Hj.
  by eapply list_elem_of_lookup_2.
Qed.

(** C10. When the signers are recomputed outside the draw by levels (which
    takes place with 21 seats and more than 30 candidates), the queue holds the
    candidates of the largest weighted stake: no candidate left out outweighs
    one that is in. *)
Theorem createSignerQueue_top_stake s q a b :
  0 < MaxSignerCount (config s) < 2 ^ 63 -> recalculates s = true -> ~ officialDraw s ->
  createSignerQueue s = Ok q ->
  a ∈ q -> b ∉ q -> is_Some (Tally s !! b) -> weightedStake s b <= weightedStake s a.
Proof.
  intros Hm Hrec Hno (l & Hl & Hne & -> & _)%createSignerQueue_inv Ha Hb HTb.
  assert (i64 (MaxSignerCount (config s)) = MaxSignerCount (config s)) as Hi
    by (unfold i64; rewrite Z.mod_small; lia). rewrite Hi in *.
  unfold signerSlice, umod in Hl. case_decide; [done|]. cbn [mbind res_bind] in Hl.
  unfold recalculates in Hrec. rewrite Hrec in Hl. set (ts := sort tallyLess _) in Hl.
  assert (glen ts = Z.of_nat (size (Tally s))) as Hlen by apply sorted_tally_length.
  destruct (_ && _) eqn:Eoff.
  { apply andb_true_iff in Eoff as [E1%Z.eqb_eq E2%Z.ltb_lt]. destruct Hno. split; [lia|].
    unfold defaultOfficialThirdLevelCount, defaultOfficialMaxSignerCount in *. lia. }
  rewrite Hi in Hl. set (k := Z.min _ _) in Hl.
  apply bind_Ok_inv in Hl as (sl & (Hk0 & Hk1 & ->)%gslice_Ok & [Haddr _]%assignHash_lookup).
  rewrite Z.sub_0_r, drop_0 in Haddr.
  assert (length l = Z.to_nat k) as Hll.
  { rewrite <- (length_map siAddr), Haddr, length_map, length_take. unfold glen in *. lia. }
  (* members of the queue are the first [k] of the sorted tally *)
  assert (a ∈ map tiAddr (take (Z.to_nat k) ts)) as Ha'.
  { rewrite <- Haddr, <- (sort_perm signerLess l). eapply fillQueue_elem; [|exact Ha].
    intros E. apply Hne, Permutation_nil_r. by rewrite <- E, sort_perm. }
  assert (b ∈ map tiAddr (drop (Z.to_nat k) ts)) as Hb'.
  { apply sorted_tally_elem in HTb. fold ts in HTb.
    rewrite <- (take_drop (Z.to_nat k) ts), map_app in HTb.
    apply elem_of_app in HTb as [HTb|]; [|done]. exfalso. apply Hb. apply fillQueue_covers.
    - rewrite sort_perm, Hll. lia.
    - by rewrite sort_perm, Haddr. }
  apply list_elem_of_fmap in Ha' as (ta & -> & Ha'), Hb' as (tb & -> & Hb').
  assert (tallyLess tb ta = false) as Hless.
  { eapply (StronglySorted_take_drop (fun x y => tallyLess y x = false) ts); [apply sort_sorted, tallyLess_strict_weak|done|done]. }
  assert (forall t, t ∈ ts -> tiStake t = weightedStake s (tiAddr t)) as Hw.
  { intros t Ht. subst ts. rewrite sort_perm in Ht. by apply buildTallySlice_elem. }
  rewrite <- !Hw.
  - rewrite <- not_true_iff_false, tallyLess_spec in Hless. lia.
  - rewrite <- (take_drop (Z.to_nat k) ts). apply elem_of_app. by left.
  - rewrite <- (take_drop (Z.to_nat k) ts). apply elem_of_app. by right.
Qed.

Lemma zip_all_equal (l1 l2 : list Z) :
  length l1 = length l2 ->
  (existsb (fun '(x, y) => negb (x =? y)) (zip l1 l2) = false <-> l1 = l2).
Proof.
  revert l2; induction l1 as [|x l1 IH]; intros [|y l2] Hlen; simpl in *; try done.
  rewrite orb_false_iff, negb_false_iff, Z.eqb_eq, IH by lia. split; [intros [-> ->]; done|].
  by intros [= -> ->].
Qed.

Lemma verifySignerQueue_accepts s q :
  0 < MaxSignerCount (config s) < 2 ^ 63 ->
  (verifySignerQueue s q = Ok tt <-> createSignerQueue s = Ok q).
Proof.
  intros Hm. unfold verifySignerQueue.
  assert (i64 (MaxSignerCount (config s)) = MaxSignerCount (config s)) as Hi
    by (unfold i64; rewrite Z.mod_small; lia). rewrite Hi.
  assert (forall sq, createSignerQueue s = Ok sq -> glen sq = MaxSignerCount (config s)) as Hlen.
  { intros sq (l & _ & Hne & -> & _)%createSignerQueue_inv. rewrite Hi. unfold glen.
    rewrite fillQueue_length; [lia|done|].
    intros E. apply Hne, Permutation_nil_r. by rewrite <- E, sort_perm. }
  destruct (Z.ltb_spec (MaxSignerCount (config s)) (glen q)) as [Hgt|Hle].
  { split; [done|]. intros Hq%Hlen. lia. }
  destruct (createSignerQueue s) as [sq| | |] eqn:E; cbn [mbind res_bind]; [|done..].
  specialize (Hlen sq eq_refl). destruct (Z.eqb_spec (glen sq) 0); [lia|]. simpl.
  destruct (Z.eqb_spec (glen sq) (glen q)) as [Heq|Hneq]; simpl.
  - destruct (existsb _ _) eqn:Ez.
    + split; [done|]. intros [= ->].
      rewrite (proj2 (zip_all_equal q q eq_refl) eq_refl) in Ez. done.
    + apply zip_all_equal in Ez as ->; [done|]. unfold glen in Heq. lia.
  - split; [done|]. by intros [= ->].
Qed.

(** C11. The validator accepts exactly the queue the producer creates, and
    every other outcome is an error or a panic of the creation itself. *)
Theorem verifySignerQueue_iff s q :
  0 < MaxSignerCount (config s) < 2 ^ 63 ->
  (verifySignerQueue s q = Ok tt <-> createSignerQueue s = Ok q).
Proof. apply verifySignerQueue_accepts. Qed.
End TopStake.

(** ** The draw by levels has ties *)

(** Thirty-one candidates of decreasing stake at the end of the tenth loop, with
    twenty-one distinct recent hashes. *)
Definition officialSnapshot : Snapshot :=
  blankSnapshot sampleConfig <| Number := 209 |>
    <| Tally := list_to_map (map (fun k => (Z.of_nat k, 1000 - Z.of_nat k)) (seq 1 31)) |>
    <| HistoryHash := map Z.of_nat (seq 100 21) |> <| sHash := 120 |>.

(** Another correct [sort.Sort]: the order of equal elements is the reverse. *)
Lemma unstable_perm {A} (less : A -> A -> bool) l : insertion_sort less (reverse l) ≡ₚ l.
Proof. by rewrite insertion_sort_perm, reverse_Permutation. Qed.
Definition unstable_runtime : GoRuntime := {|
  range K _ _ V m := map_to_list m;
  range_perm K _ _ V m := Permutation_refl _;
  sort A less l := insertion_sort less (reverse l);
  sort_perm A := unstable_perm;
  sort_sorted A less l := insertion_sort_sorted less (reverse l)
|}.

(** In the draw by levels every level restarts from the newest block hash,
    so signers of different levels share their sort key and the queue depends
    on how [sort.Sort] orders equal elements, although all hashes differ. *)
Lemma officialDraw_sort_dependent :
  NoDup (HistoryHash officialSnapshot) /\
  exists q1 q2,
    @createSignerQueue reference_runtime officialSnapshot = Ok q1 /\
    @createSignerQueue unstable_runtime officialSnapshot = Ok q2 /\ q1 <> q2.
Proof.
  split; [apply (bool_decide_unpack _); vm_compute; exact I|].
  eexists _, _. split; [vm_compute; reflexivity|]. split; [vm_compute; reflexivity|].
  vm_compute. discriminate.
Qed.
