(* ===== verification/GoText.v ===== *)
(** * Text handling of the Go standard library used by the code

    [encoding/hex], [strconv], [strings] and the text form of [big.Int], on
    byte lists, as of the Go 1.11 releases. Nothing here is code of the
    repository; the components that parse and print text build on it. *)
From S2P Require Import Prelude.

(** ** Digits *)
Definition digitVal (c : Z) : option Z :=
  if (48 <=? c) && (c <=? 57) then Some (c - 48)
  else if (97 <=? c) && (c <=? 122) then Some (c - 97 + 10)
  else if (65 <=? c) && (c <=? 90) then Some (c - 65 + 10)
  else None.
Definition digitIn (base c : Z) : option Z :=
  d ← digitVal c; if d <? base then Some d else None.
(** Lower-case digit of a value below 16. *)
Definition digitChar (d : Z) : Z := if d <? 10 then d + 48 else d - 10 + 97.

Lemma digitIn_char d base : 0 <= d < 16 -> d < base -> digitIn base (digitChar d) = Some d.
Proof.
  intros Hd Hb. unfold digitIn, digitChar, digitVal, mbind, option_bind.
  destruct (Z.ltb_spec d 10).
  - destruct (Z.leb_spec 48 (d + 48)), (Z.leb_spec (d + 48) 57); simpl; try lia.
    replace (d + 48 - 48) with d by lia. destruct (Z.ltb_spec d base); [done|lia].
  - destruct (Z.leb_spec 48 (d - 10 + 97)), (Z.leb_spec (d - 10 + 97) 57); simpl; try lia.
    destruct (Z.leb_spec 97 (d - 10 + 97)), (Z.leb_spec (d - 10 + 97) 122); simpl; try lia.
    replace (d - 10 + 97 - 97 + 10) with d by lia. destruct (Z.ltb_spec d base); [done|lia].
Qed.

Lemma digitIn_range base c d : digitIn base c = Some d -> 0 <= d < base.
Proof.
  unfold digitIn, digitVal, mbind, option_bind.
  intros H. repeat case_match; simplify_eq; lia.
Qed.

(** ** encoding/hex *)
Inductive hexError := InvalidByteError | ErrLength.

(** The decoded bytes before the first error, and the error. *)
Fixpoint hexDecode (src : bytes) : bytes * option hexError :=
  match src with
  | [] => ([], None)
  | [c] => ([], Some (match digitIn 16 c with None => InvalidByteError | Some _ => ErrLength end))
  | c1 :: c2 :: src =>
      match digitIn 16 c1, digitIn 16 c2 with
      | Some a, Some b => let '(r, e) := hexDecode src in (a * 16 + b :: r, e)
      | _, _ => ([], Some InvalidByteError)
      end
  end.
Definition hexEncode (b : bytes) : bytes :=
  flat_map (fun x => [digitChar (x / 16); digitChar (x mod 16)]) b.

Lemma hexDecode_encode b : Forall is_byte b -> hexDecode (hexEncode b) = (b, None).
Proof.
  induction 1 as [|x b Hx Hb IH]; [done|]. cbn [hexEncode flat_map app hexDecode].
  unfold is_byte in Hx.
  assert (0 <= x / 16 < 16) by (split; [apply Z.div_pos; lia|apply Z.div_lt_upper_bound; lia]).
  pose proof (Z.mod_pos_bound x 16 ltac:(lia)).
  rewrite !digitIn_char by lia. fold (hexEncode b). rewrite IH.
  do 2 f_equal. rewrite (Z.div_mod x 16) at 3 by lia. lia.
Qed.

Lemma hexEncode_length b : length (hexEncode b) = (2 * length b)%nat.
Proof. induction b as [|x b IH]; [done|]. cbn [hexEncode flat_map app length]. fold (hexEncode b). lia. Qed.

(** ** Numbers in a base *)

(** Value of a digit string, most significant digit first, after [acc]. *)
Fixpoint valueFrom (base : Z) (acc : Z) (s : bytes) : option Z :=
  match s with
  | [] => Some acc
  | c :: s => d ← digitIn base c; valueFrom base (acc * base + d) s
  end.

(** The digits of [n] in [base], least significant last, at most [fuel] of them. *)
Fixpoint digitsFuel (fuel : nat) (base n : Z) (acc : bytes) : bytes :=
  match fuel with
  | O => acc
  | S fuel =>
      if n <? base then digitChar n :: acc
      else digitsFuel fuel base (n / base) (digitChar (n mod base) :: acc)
  end.
(** [strconv.AppendUint] and the digits of [fmt]'s [%d] and [%x]. *)
Definition formatNat (base n : Z) : bytes := digitsFuel (S (Z.to_nat (Z.log2 n))) base n [].

Inductive numError := ErrSyntax | ErrRange.

(** [strconv.ParseUint(s, base, 64)] for an explicit base. *)
Fixpoint parseUintLoop (base : Z) (n : Z) (s : bytes) : res numError Z :=
  match s with
  | [] => Ok n
  | c :: s =>
      match digitIn base c with
      | None => Err ErrSyntax
      | Some d => if maxUint64 <? n * base + d then Err ErrRange else parseUintLoop base (n * base + d) s
      end
  end.
Definition ParseUint (s : bytes) (base : Z) : res numError Z :=
  match s with [] => Err ErrSyntax | _ => parseUintLoop base 0 s end.

(** [strconv.Atoi] on a 64-bit platform. *)
Definition Atoi (s : bytes) : res numError Z :=
  let '(neg, digits) :=
    match s with
    | 43 :: r => (false, r)
    | 45 :: r => (true, r)
    | _ => (false, s)
    end in
  un ← ParseUint digits 10;
  if (neg : bool) then (if 2 ^ 63 <? un then Err ErrRange else Ok (- un))
  else (if 2 ^ 63 <=? un then Err ErrRange else Ok un).

(** The text form of [big.Int] ([UnmarshalText]): an optional sign and a number
    whose prefix [0x], [0b] or [0] selects the base. *)
Definition unmarshalNat (s : bytes) : option Z :=
  match s with
  | [] => None
  | [48] => Some 0
  | 48 :: c :: r =>
      if (c =? 120) || (c =? 88) then match r with [] => None | _ => valueFrom 16 0 r end
      else if (c =? 98) || (c =? 66) then match r with [] => None | _ => valueFrom 2 0 r end
      else valueFrom 8 0 (c :: r)
  | _ => valueFrom 10 0 s
  end.
Definition bigUnmarshalText (s : bytes) : option Z :=
  match s with
  | 43 :: r => unmarshalNat r
  | 45 :: r => Z.opp <$> unmarshalNat r
  | _ => unmarshalNat s
  end.

(** ** strings *)
Fixpoint splitFrom (sep : Z) (cur : bytes) (s : bytes) : list bytes :=
  match s with
  | [] => [cur]
  | c :: s => if c =? sep then cur :: splitFrom sep [] s else splitFrom sep (cur ++ [c]) s
  end.
(** [strings.Split(s, sep)] for a one-byte separator. *)
Definition Split (s : bytes) (sep : Z) : list bytes := splitFrom sep [] s.
(** [strings.Join(l, sep)]. *)
Fixpoint Join (l : list bytes) (sep : Z) : bytes :=
  match l with
  | [] => []
  | [x] => x
  | x :: l => x ++ sep :: Join l sep
  end.

Lemma splitFrom_field sep cur x rest :
  sep ∉ x -> splitFrom sep cur (x ++ sep :: rest) = (cur ++ x) :: splitFrom sep [] rest.
Proof.
  revert cur; induction x as [|c x IH]; intros cur Hx; simpl.
  - by rewrite Z.eqb_refl, app_nil_r.
  - destruct (Z.eqb_spec c sep) as [->|]; [destruct Hx; left|].
    rewrite IH by (intros ?; apply Hx; by right). by rewrite <- app_assoc.
Qed.

Lemma splitFrom_last sep cur x : sep ∉ x -> splitFrom sep cur x = [cur ++ x].
Proof.
  revert cur; induction x as [|c x IH]; intros cur Hx; simpl; [by rewrite app_nil_r|].
  destruct (Z.eqb_spec c sep) as [->|]; [destruct Hx; left|].
  rewrite IH by (intros ?; apply Hx; by right). by rewrite <- app_assoc.
Qed.

Lemma Split_Join l sep :
  l <> [] -> Forall (fun x => sep ∉ x) l -> Split (Join l sep) sep = l.
Proof.
  intros Hl Hall. unfold Split. induction Hall as [|x l Hx Hall IH]; [done|].
  destruct l as [|y l]; [by rewrite splitFrom_last|].
  change (Join (x :: y :: l) sep) with (x ++ sep :: Join (y :: l) sep).
  rewrite splitFrom_field by done. simpl app. f_equal. by apply IH.
Qed.

(** ** Printing and reading back *)
Lemma valueFrom_app base a x y :
  valueFrom base a (x ++ y) = (valueFrom base a x ≫= fun v => valueFrom base v y).
Proof.
  revert a; induction x as [|c x IH]; intros a; simpl; [done|].
  destruct (digitIn base c); simpl; auto.
Qed.

Lemma valueFrom_shift base a s v :
  valueFrom base 0 s = Some v -> valueFrom base a s = Some (a * base ^ glen s + v).
Proof.
  unfold glen. revert a v. induction s as [|c s IH] using rev_ind; intros a v; simpl.
  - intros [= <-]. f_equal. lia.
  - rewrite !valueFrom_app. destruct (valueFrom base 0 s) as [w|] eqn:Ew; simpl; [|done].
    rewrite (IH a w eq_refl). simpl. destruct (digitIn base c) as [d|]; simpl; [|done].
    intros [= <-]. f_equal. rewrite length_app, Nat2Z.inj_add, Z.pow_add_r by lia. simpl. lia.
Qed.

Lemma valueFrom_bound base s v :
  1 < base -> valueFrom base 0 s = Some v -> 0 <= v < base ^ glen s.
Proof.
  intros Hb. unfold glen. revert v. induction s as [|c s IH] using rev_ind; intros v; simpl.
  - intros [= <-]. lia.
  - rewrite valueFrom_app. destruct (valueFrom base 0 s) as [w|] eqn:Ew; simpl; [|done].
    destruct (digitIn base c) as [d|] eqn:Ed; simpl; [|done]. apply digitIn_range in Ed.
    intros [= <-]. specialize (IH w eq_refl).
    rewrite length_app, Nat2Z.inj_add, Z.pow_add_r by lia. simpl. nia.
Qed.

(** The digits printed for [n]: they read back as [n], and the first one is
    zero only for zero itself. *)
Lemma digitsFuel_spec fuel base n acc :
  1 < base <= 16 -> 0 <= n < base ^ Z.of_nat (S fuel) ->
  exists c ds, digitsFuel (S fuel) base n acc = (c :: ds) ++ acc /\
    valueFrom base 0 (c :: ds) = Some n /\ (c = 48 -> n = 0 /\ ds = []).
Proof.
  intros Hb. revert n acc. induction fuel as [|fuel IH]; intros n acc Hn.
  all: cbn [digitsFuel]; destruct (Z.ltb_spec n base) as [Hlt|Hge].
  1,3: exists (digitChar n), []; split; [done|]; split;
    [cbn [valueFrom]; rewrite digitIn_char by lia; simpl; f_equal; lia|];
    unfold digitChar; destruct (Z.ltb_spec n 10); intros; [split; [lia|done]|lia].
  - exfalso. change (Z.of_nat 1) with 1 in Hn. rewrite Z.pow_1_r in Hn. lia.
  - assert (0 <= n / base < base ^ Z.of_nat (S fuel)) as Hq.
    { split; [apply Z.div_pos; lia|]. apply Z.div_lt_upper_bound; [lia|].
      rewrite <- Z.pow_succ_r by lia. replace (Z.succ (Z.of_nat (S fuel))) with (Z.of_nat (S (S fuel))) by lia.
      apply Hn. }
    destruct (IH (n / base) (digitChar (n mod base) :: acc) Hq) as (c & ds & Heq & Hv & Hz).
    pose proof (Z.mod_pos_bound n base ltac:(lia)) as Hm.
    exists c, (ds ++ [digitChar (n mod base)]). split; [|split].
    + change (digitsFuel (S fuel) base (n / base) (digitChar (n mod base) :: acc) =
        (c :: ds ++ [digitChar (n mod base)]) ++ acc).
      rewrite Heq. simpl. by rewrite <- app_assoc.
    + rewrite app_comm_cons, valueFrom_app, Hv. cbn [mbind option_bind valueFrom].
      rewrite digitIn_char by lia. simpl. f_equal. rewrite (Z.div_mod n base) at 3 by lia. lia.
    + intros Hc. apply Hz in Hc as [Hc _].
      pose proof (Z.div_str_pos n base ltac:(lia)). lia.
Qed.

Lemma formatNat_spec base n :
  1 < base <= 16 -> 0 <= n ->
  exists c ds, formatNat base n = c :: ds /\ valueFrom base 0 (c :: ds) = Some n /\
    (c = 48 -> n = 0 /\ ds = []).
Proof.
  intros Hb Hn. destruct (digitsFuel_spec (Z.to_nat (Z.log2 n)) base n []) as (c & ds & H); [done| |].
  - split; [done|]. destruct (Z.eq_dec n 0) as [->|].
    + apply Z.pow_pos_nonneg; lia.
    + eapply Z.lt_le_trans; [apply (Z.log2_spec n); lia|].
      rewrite Nat2Z.inj_succ, Z2Nat.id by apply Z.log2_nonneg.
      apply Z.pow_le_mono_l. lia.
  - exists c, ds. by rewrite app_nil_r in H.
Qed.

(** On strings that fit, [ParseUint] is the value of the digits. *)
Lemma parseUintLoop_value base n s v :
  1 < base -> 0 <= n -> valueFrom base n s = Some v -> v <= maxUint64 -> parseUintLoop base n s = Ok v.
Proof.
  intros Hb. revert n; induction s as [|c s IH]; intros n Hn; simpl; [congruence|].
  destruct (digitIn base c) as [d|] eqn:Ed; simpl; [|done]. apply digitIn_range in Ed.
  intros Hv Hmax. assert (n * base + d <= v) as Hle.
  { clear IH. assert (0 <= n * base + d) as H0 by nia. revert H0 Hv. generalize (n * base + d).
    clear - Hb. induction s as [|c s IH]; intros a Ha; simpl; [intros [= <-]; lia|].
    destruct (digitIn base c) as [d|] eqn:Ed; simpl; [|done]. apply digitIn_range in Ed.
    intros Hv. apply IH in Hv; nia. }
  destruct (Z.ltb_spec maxUint64 (n * base + d)); [lia|]. apply IH; [nia|done|done].
Qed.

Lemma parseUintLoop_inv base n s v :
  1 < base -> 0 <= n <= maxUint64 -> parseUintLoop base n s = Ok v ->
  valueFrom base n s = Some v /\ 0 <= v <= maxUint64.
Proof.
  intros Hb. revert n; induction s as [|c s IH]; intros n Hn; simpl.
  { intros [= <-]. done. }
  destruct (digitIn base c) as [d|] eqn:Ed; simpl; [|done]. apply digitIn_range in Ed.
  destruct (Z.ltb_spec maxUint64 (n * base + d)); [done|]. apply IH. nia.
Qed.
