(* ===== verification/Hexutil.v ===== *)
(** * Hexadecimal text: common/hexutil, common/bytes.go and the fixed-size types

    Models the package [common/hexutil] (plain functions and the JSON
    (un)marshalling types), the byte helpers of [common/bytes.go] and the
    conversions of [Hash] and [Address] of [common/types.go]. *)
From S2P Require Import Prelude GoText.

Inductive decError :=
| ErrEmptyString | ErrSyntax | ErrMissingPrefix | ErrOddLength | ErrEmptyNumber
| ErrLeadingZero | ErrUint64Range | ErrUintRange | ErrBig256Range
| errNonString | errFixedLength.
Abbreviation hres := (res decError).

(** [mapError]: the errors of [strconv] and [encoding/hex] as [decError]. *)
Definition mapNumError (e : numError) : decError :=
  match e with GoText.ErrRange => ErrUint64Range | GoText.ErrSyntax => ErrSyntax end.
Definition mapHexError (e : hexError) : decError :=
  match e with InvalidByteError => ErrSyntax | ErrLength => ErrOddLength end.

(** ** hexutil.go *)
Definition has0xPrefix (input : bytes) : bool :=
  match input with
  | a :: b :: _ => (a =? 48) && ((b =? 120) || (b =? 88))
  | _ => false
  end.

Definition checkNumber (input : bytes) : hres bytes :=
  if glen input =? 0 then Err ErrEmptyString
  else if negb (has0xPrefix input) then Err ErrMissingPrefix
  else
    let input := drop 2 input in
    if glen input =? 0 then Err ErrEmptyNumber
    else match input with
         | 48 :: _ :: _ => Err ErrLeadingZero
         | _ => Ok input
         end.

Definition badNibble : Z := 2 ^ 64 - 1.
Definition decodeNibble (c : Z) : Z :=
  if (48 <=? c) && (c <=? 57) then c - 48
  else if (65 <=? c) && (c <=? 70) then c - 65 + 10
  else if (97 <=? c) && (c <=? 102) then c - 97 + 10
  else badNibble.

(** The bytes are returned together with the error, as Go does. *)
Definition Decode (input : bytes) : bytes * option decError :=
  if glen input =? 0 then ([], Some ErrEmptyString)
  else if negb (has0xPrefix input) then ([], Some ErrMissingPrefix)
  else let '(b, e) := hexDecode (drop 2 input) in (b, mapHexError <$> e).
Definition MustDecode (input : bytes) : hres bytes :=
  match Decode input with (b, None) => Ok b | (_, Some _) => Panic end.
Definition Encode (b : bytes) : bytes := str "0x" ++ hexEncode b.

Definition DecodeUint64 (input : bytes) : hres Z :=
  raw ← checkNumber input;
  match ParseUint raw 16 with
  | Ok v => Ok v
  | Err e => Err (mapNumError e)
  | Panic => Panic
  | Hang => Hang
  end.
Definition EncodeUint64 (i : Z) : bytes := str "0x" ++ formatNat 16 i.

Definition bigWordNibbles : nat := 16.
(** One word of 64 bits, from [w] on: [words[i] *= 16; words[i] += nib]. *)
Fixpoint decodeWord (w : Z) (raw : bytes) : hres Z :=
  match raw with
  | [] => Ok w
  | c :: raw =>
      let nib := decodeNibble c in
      if nib =? badNibble then Err ErrSyntax else decodeWord (w *u 16 +u nib) raw
  end.
(** The words of the digits before [e], least significant word first. *)
Fixpoint decodeWords (n : nat) (raw : bytes) (e : nat) : hres (list Z) :=
  match n with
  | O => Ok []
  | S n =>
      let start := (e - bigWordNibbles)%nat in
      w ← decodeWord 0 (take (e - start) (drop start raw));
      ws ← decodeWords n raw start;
      Ok (w :: ws)
  end.
(** [SetBits]: little-endian words. *)
Definition wordsValue (ws : list Z) : Z := foldr (fun w v => w + 2 ^ 64 * v) 0 ws.
Definition decodeBigDigits (raw : bytes) : hres Z :=
  if 64 <? glen raw then Err ErrBig256Range
  else
    words ← decodeWords (length raw / bigWordNibbles + 1)%nat raw (length raw);
    Ok (wordsValue words).
Definition DecodeBig (input : bytes) : hres Z := raw ← checkNumber input; decodeBigDigits raw.

(** [%#x] of a [big.Int] prints the sign before the prefix. *)
Definition EncodeBig (bigint : Z) : bytes :=
  if bigint =? 0 then str "0x0"
  else (if bigint <? 0 then [45] else []) ++ str "0x" ++ formatNat 16 (Z.abs bigint).

(** ** custom_hex_prefix.go *)
Definition PossibleCustomHexPrefixMap : list bytes :=
  map str ["0x"; "0X"; "t0"; "t1"; "t2"; "t3"; "t4"; "t5"; "t6"; "t7"; "t8"; "t9";
           "T0"; "T1"; "T2"; "T3"; "T4"; "T5"; "T6"; "T7"; "T8"; "T9"]%string.
Definition CustomHexPrefix : bytes := str "0x".
Definition CPToHex (s : bytes) : bytes :=
  if (glen CustomHexPrefix <? glen s) && bool_decide (take 2 s ∈ PossibleCustomHexPrefixMap)
  then str "0x" ++ drop 2 s else s.
Definition HexToCP (s : bytes) : bytes :=
  if (2 <? glen s) && (bool_decide (take 2 s = str "0x") || bool_decide (take 2 s = str "0X"))
  then CustomHexPrefix ++ drop 2 s else s.

(** ** json.go *)
Definition bytesHave0xPrefix (input : bytes) : bool :=
  (2 <=? glen input) && bool_decide (take 2 input ∈ PossibleCustomHexPrefixMap).
Definition isString (input : bytes) : bool :=
  (2 <=? glen input) && bool_decide (head input = Some 34) && bool_decide (last input = Some 34).
(** [input[1:len(input)-1]]. *)
Definition unquote (input : bytes) : bytes := take (length input - 2) (drop 1 input).

Definition checkText (input : bytes) (wantPrefix : bool) : hres bytes :=
  if glen input =? 0 then Ok []
  else
    input ← (if bytesHave0xPrefix input then Ok (drop 2 input)
             else if wantPrefix then Err ErrMissingPrefix else Ok input);
    if negb (glen input mod 2 =? 0) then Err ErrOddLength else Ok input.
Definition checkNumberText (input : bytes) : hres bytes :=
  if glen input =? 0 then Ok []
  else if negb (bytesHave0xPrefix input) then Err ErrMissingPrefix
  else
    let input := drop 2 input in
    if glen input =? 0 then Err ErrEmptyNumber
    else match input with
         | 48 :: _ :: _ => Err ErrLeadingZero
         | _ => Ok input
         end.

Definition Bytes_MarshalText (b : bytes) : bytes := str "0x" ++ hexEncode b.
Definition Bytes_UnmarshalText (input : bytes) : hres bytes :=
  raw ← checkText input true;
  match hexDecode raw with
  | (dec, None) => Ok dec
  | (_, Some e) => Err (mapHexError e)
  end.
Definition UnmarshalFixedText_ (wantPrefix : bool) (input : bytes) (outLen : Z) : hres bytes :=
  raw ← checkText input wantPrefix;
  if negb (glen raw / 2 =? outLen) then Err errFixedLength
  else if existsb (fun b => decodeNibble b =? badNibble) raw then Err ErrSyntax
  else Ok (fst (hexDecode raw)).
Definition UnmarshalFixedText := UnmarshalFixedText_ true.
Definition UnmarshalFixedUnprefixedText := UnmarshalFixedText_ false.
Definition Big_UnmarshalText (input : bytes) : hres Z :=
  raw ← checkNumberText input; decodeBigDigits raw.
Definition Big_MarshalText (b : Z) : bytes := EncodeBig b.

Fixpoint uint64Loop (dec : Z) (raw : bytes) : hres Z :=
  match raw with
  | [] => Ok dec
  | c :: raw =>
      let nib := decodeNibble c in
      if nib =? badNibble then Err ErrSyntax else uint64Loop (dec *u 16 +u nib) raw
  end.
Definition Uint64_UnmarshalText (input : bytes) : hres Z :=
  raw ← checkNumberText input;
  if 16 <? glen raw then Err ErrUint64Range else uint64Loop 0 raw.
Definition Uint64_MarshalText (b : Z) : bytes := str "0x" ++ formatNat 16 b.
(** [uint] has 64 bits. *)
Definition Uint_UnmarshalText (input : bytes) : hres Z :=
  match Uint64_UnmarshalText input with
  | Ok v => if maxUint64 <? v then Err ErrUintRange else Ok v
  | Err ErrUint64Range => Err ErrUintRange
  | r => r
  end.
(** The [UnmarshalJSON] methods unquote and call the text form. *)
Definition unmarshalJSON {A} (f : bytes -> hres A) (input : bytes) : hres A :=
  if negb (isString input) then Err errNonString else f (unquote input).

(** ** common/bytes.go *)
Definition Hex2Bytes (s : bytes) : bytes := fst (hexDecode s).
Definition Bytes2Hex (d : bytes) : bytes := hexEncode d.
Definition ToHex (b : bytes) : bytes :=
  let hex := Bytes2Hex b in
  str "0x" ++ (if glen hex =? 0 then str "0" else hex).
Definition FromHex (s : bytes) : bytes :=
  let s := if (1 <? glen s) && (bool_decide (take 2 s = str "0x") || bool_decide (take 2 s = str "0X"))
           then drop 2 s else s in
  let s := if glen s mod 2 =? 1 then str "0" ++ s else s in
  Hex2Bytes s.
Definition hasHexPrefix := has0xPrefix.
Definition isHexCharacter (c : Z) : bool :=
  ((48 <=? c) && (c <=? 57)) || ((97 <=? c) && (c <=? 102)) || ((65 <=? c) && (c <=? 70)).
Definition isHex (s : bytes) : bool := (glen s mod 2 =? 0) && forallb isHexCharacter s.
Definition RightPadBytes (slice : bytes) (l : Z) : bytes :=
  if l <=? glen slice then slice else slice ++ replicate (Z.to_nat (l - glen slice)) 0.
Definition LeftPadBytes (slice : bytes) (l : Z) : bytes :=
  if l <=? glen slice then slice else replicate (Z.to_nat (l - glen slice)) 0 ++ slice.
Definition Hex2BytesFixed (s : bytes) (flen : Z) : bytes :=
  let h := fst (hexDecode s) in
  if glen h =? flen then h
  else if flen <? glen h then drop (Z.to_nat (glen h - flen)) h
  else replicate (Z.to_nat (flen - glen h)) 0 ++ h.

(** ** common/types.go: arrays of [n] bytes as their big-endian value *)
Definition be (b : bytes) : Z := fold_left (fun acc x => acc * 256 + x) b 0.
Fixpoint beBytes (n : nat) (v : Z) : bytes :=
  match n with O => [] | S n => beBytes n (v / 256) ++ [v mod 256] end.
Definition HashLength : Z := 32.
Definition AddressLength : Z := 20.
(** [SetBytes] on a zero array: the last [n] bytes, right aligned. *)
Definition setBytes (n : Z) (b : bytes) : Z :=
  be (if n <? glen b then drop (Z.to_nat (glen b - n)) b else b).
Definition BytesToHash (b : bytes) : Z := setBytes HashLength b.
Definition BytesToAddress (b : bytes) : Z := setBytes AddressLength b.
Definition HexToHash (s : bytes) : Z := BytesToHash (FromHex (CPToHex s)).
Definition HexToAddress (s : bytes) : Z := BytesToAddress (FromHex (CPToHex s)).
Definition Hash_Hex (h : Z) : bytes := HexToCP (Encode (beBytes (Z.to_nat HashLength) h)).
Definition IsHexAddress (s : bytes) : bool :=
  let s := CPToHex s in
  let s := if hasHexPrefix s then drop 2 s else s in
  (glen s =? 2 * AddressLength) && isHex s.
(** [Hash.UnmarshalText] and [Address.UnmarshalText]: unchanged on an error. *)
Definition Hash_UnmarshalText (h : Z) (input : bytes) : Z :=
  match UnmarshalFixedText input HashLength with Ok b => be b | _ => h end.
Definition Address_UnmarshalText (a : Z) (input : bytes) : Z :=
  match UnmarshalFixedText input AddressLength with Ok b => be b | _ => a end.

(** ** Lemmas *)
Lemma decodeNibble_digit c : decodeNibble c = default badNibble (digitIn 16 c).
Proof.
  unfold decodeNibble, digitIn, digitVal, mbind, option_bind.
  repeat case_match; simpl in *; simplify_eq; try lia; try done; exfalso; lia.
Qed.

Lemma digitIn16_nibble c d : digitIn 16 c = Some d -> (decodeNibble c =? badNibble) = false /\ decodeNibble c = d.
Proof.
  intros H. pose proof (digitIn_range _ _ _ H). rewrite decodeNibble_digit, H. simpl.
  unfold badNibble. split; [|done]. apply Z.eqb_neq. lia.
Qed.

Lemma valueFrom_shift_iff base a s :
  valueFrom base a s = (fun v => a * base ^ glen s + v) <$> valueFrom base 0 s.
Proof.
  destruct (valueFrom base 0 s) as [v|] eqn:E; simpl; [by apply valueFrom_shift|].
  revert a E. assert (forall a b, valueFrom base b s = None -> valueFrom base a s = None) as H; [|eauto].
  induction s as [|c s IH]; intros a b; simpl; [done|]. destruct (digitIn base c); simpl; [|done]. apply IH.
Qed.

(** A word of at most sixteen digits does not wrap. *)
Lemma decodeWord_value w raw :
  0 <= w -> (w + 1) * 16 ^ glen raw <= 2 ^ 64 ->
  decodeWord w raw = match valueFrom 16 w raw with Some v => Ok v | None => Err ErrSyntax end.
Proof.
  revert w; induction raw as [|c raw IH]; intros w Hw Hb; [done|]. cbn [decodeWord valueFrom].
  assert (0 <= glen raw) by (unfold glen; lia).
  assert (16 ^ glen (c :: raw) = 16 * 16 ^ glen raw) as Hp.
  { unfold glen. simpl length. rewrite Nat2Z.inj_succ, Z.pow_succ_r by lia. done. }
  assert (1 <= 16 ^ glen raw) by (apply (Z.pow_le_mono_r 16 0); lia).
  destruct (digitIn 16 c) as [d|] eqn:Ed; simpl.
  - destruct (digitIn16_nibble c d Ed) as [-> ->]. apply digitIn_range in Ed.
    assert (u64 (u64 (w * 16) + d) = w * 16 + d) as ->.
    { rewrite (u64_small (w * 16)), u64_small; [done|split; nia..]. }
    apply IH; nia.
  - by rewrite decodeNibble_digit, Ed, Z.eqb_refl.
Qed.

Lemma uint64Loop_word w raw : uint64Loop w raw = decodeWord w raw.
Proof. revert w; induction raw as [|c raw IH]; intros w; simpl; [done|]. by rewrite IH. Qed.

Lemma decodeWords_value n raw e :
  (e <= length raw)%nat -> (e <= 16 * n)%nat ->
  match valueFrom 16 0 (take e raw) with
  | Some v => exists ws, decodeWords n raw e = Ok ws /\ wordsValue ws = v
  | None => decodeWords n raw e = Err ErrSyntax
  end.
Proof.
  revert e; induction n as [|n IH]; intros e He Hn; cbn [decodeWords].
  { replace e with O by lia. simpl. eauto. }
  unfold bigWordNibbles. set (start := (e - 16)%nat).
  set (chunk := take (e - start) (drop start raw)).
  assert (take e raw = take start raw ++ chunk) as ->.
  { subst chunk. rewrite <- (take_drop start (take e raw)), take_take, Nat.min_l by lia. f_equal.
    by rewrite skipn_firstn_comm. }
  assert (length chunk = e - start)%nat as Hlen.
  { subst chunk. rewrite length_take, length_drop. lia. }
  assert (1 * 16 ^ glen chunk <= 2 ^ 64) as Hsmall.
  { rewrite Z.mul_1_l. change (2 ^ 64) with (16 ^ 16). apply Z.pow_le_mono_r; unfold glen; lia. }
  rewrite decodeWord_value by (done || lia). rewrite valueFrom_app.
  specialize (IH start ltac:(lia) ltac:(lia)).
  destruct (valueFrom 16 0 chunk) as [c|] eqn:Ec; simpl.
  - destruct (valueFrom 16 0 (take start raw)) as [p|] eqn:Ep; simpl.
    + destruct IH as (ws & -> & <-). simpl. rewrite (valueFrom_shift _ _ _ _ Ec).
      eexists; split; [done|]. simpl. destruct (decide (start = 0)%nat) as [E0|].
      * rewrite E0 in Ep. simpl in Ep. injection Ep as Ep. rewrite <- Ep. lia.
      * replace (glen chunk) with 16 by (unfold glen; lia). change (16 ^ 16) with (2 ^ 64). lia.
    + by rewrite IH.
  - destruct (valueFrom 16 0 (take start raw)) as [p|]; simpl; [|done].
    by rewrite (valueFrom_shift_iff 16 p), Ec.
Qed.

(** The word-by-word loop computes the value of the digits. *)
Lemma decodeBigDigits_value raw :
  decodeBigDigits raw =
  if 64 <? glen raw then Err ErrBig256Range
  else match valueFrom 16 0 raw with Some v => Ok v | None => Err ErrSyntax end.
Proof.
  unfold decodeBigDigits. destruct (64 <? glen raw); [done|].
  pose proof (decodeWords_value (length raw / bigWordNibbles + 1) raw (length raw)) as H.
  rewrite take_ge in H by lia.
  assert (length raw <= 16 * (length raw / bigWordNibbles + 1))%nat as Hle.
  { unfold bigWordNibbles. pose proof (Nat.div_mod_eq (length raw) 16).
    pose proof (Nat.mod_upper_bound (length raw) 16). lia. }
  specialize (H ltac:(lia) Hle). destruct (valueFrom 16 0 raw).
  - by destruct H as (ws & -> & <-).
  - by rewrite H.
Qed.

Lemma has0xPrefix_str s : has0xPrefix (str "0x" ++ s) = true.
Proof. done. Qed.

Lemma checkNumber_canonical c ds :
  (c = 48 -> ds = []) -> checkNumber (str "0x" ++ c :: ds) = Ok (c :: ds).
Proof.
  intros Hc. change (checkNumber (48 :: 120 :: c :: ds) = Ok (c :: ds)). unfold checkNumber. simpl.
  destruct ds as [|d ds]; [by repeat case_match|].
  assert (c <> 48) as Hne by (intros H%Hc; done). by repeat case_match.
Qed.

Lemma checkNumber_raw input raw : checkNumber input = Ok raw -> raw <> [].
Proof.
  unfold checkNumber. destruct (glen input =? 0); [done|]. destruct (negb _); [done|].
  destruct (drop 2 input) as [|c l] eqn:E; simpl; [done|]. repeat case_match; intros; by simplify_eq.
Qed.

(** ** Round trips *)

(** Decoding an encoded byte slice gives the slice back, for the plain
    functions and for the JSON type. *)
Lemma Decode_Encode b :
  Forall is_byte b ->
  Decode (Encode b) = (b, None) /\ Bytes_UnmarshalText (Bytes_MarshalText b) = Ok b.
Proof.
  intros Hb. split.
  - unfold Decode, Encode. change (drop 2 (str "0x" ++ hexEncode b)) with (hexEncode b).
    rewrite hexDecode_encode by done. done.
  - unfold Bytes_UnmarshalText, Bytes_MarshalText, checkText.
    change (bytesHave0xPrefix (str "0x" ++ hexEncode b)) with
      ((2 <=? glen (48 :: 120 :: hexEncode b)) && bool_decide ([48; 120] ∈ PossibleCustomHexPrefixMap)).
    assert ((2 <=? glen (48 :: 120 :: hexEncode b)) = true) as -> by (apply Z.leb_le; unfold glen; simpl; lia).
    rewrite (bool_decide_true ([48; 120] ∈ _)) by left.
    change (drop 2 (str "0x" ++ hexEncode b)) with (hexEncode b).
    assert (glen (hexEncode b) mod 2 = 0) as Hm.
    { unfold glen. rewrite hexEncode_length, Nat2Z.inj_mul, Z.mul_comm. apply Z.mod_mul. lia. }
    assert ((glen (str "0x" ++ hexEncode b) =? 0) = false) as -> by (apply Z.eqb_neq; unfold glen; simpl; lia).
    cbn [mbind res_bind andb]. rewrite Hm. cbn [negb Z.eqb mbind res_bind].
    by rewrite hexDecode_encode.
Qed.

(** Every [uint64] is read back from its encoding, and a decoded number is
    always a [uint64]. *)
Lemma DecodeUint64_Encode :
  (forall i, is_u64 i -> DecodeUint64 (EncodeUint64 i) = Ok i) /\
  (forall s v, DecodeUint64 s = Ok v -> is_u64 v).
Proof.
  split.
  - intros i Hi. unfold is_u64 in Hi. unfold DecodeUint64, EncodeUint64.
    destruct (formatNat_spec 16 i) as (c & ds & -> & Hv & Hz); [lia..|].
    rewrite checkNumber_canonical by (intros H; by apply Hz). cbn [mbind res_bind]. unfold ParseUint.
    rewrite (parseUintLoop_value 16 0 (c :: ds) i); [done|lia|lia|done|unfold maxUint64; lia].
  - intros s v. unfold DecodeUint64. intros (raw & _ & H)%bind_Ok_inv.
    destruct (ParseUint raw 16) as [w| | |] eqn:E; [|done..]. injection H as <-.
    unfold ParseUint in E. destruct raw; [done|].
    apply parseUintLoop_inv in E as [_ ?]; unfold maxUint64, is_u64 in *; lia.
Qed.

(** Every number below 2^256 is read back from its encoding, and nothing
    larger is ever decoded; the word-by-word loop loses no digit. *)
Lemma DecodeBig_Encode :
  (forall n, 0 <= n < 2 ^ 256 -> DecodeBig (EncodeBig n) = Ok n) /\
  (forall s v, DecodeBig s = Ok v -> 0 <= v < 2 ^ 256).
Proof.
  split.
  - intros n Hn. unfold DecodeBig, EncodeBig. destruct (Z.eqb_spec n 0) as [->|Hne].
    { change (str "0x0") with (str "0x" ++ 48 :: []). rewrite checkNumber_canonical by done.
      cbn [mbind res_bind]. rewrite decodeBigDigits_value. done. }
    destruct (Z.ltb_spec n 0); [lia|]. rewrite Z.abs_eq, app_nil_l by lia.
    destruct (formatNat_spec 16 n) as (c & ds & -> & Hv & Hz); [lia..|].
    rewrite checkNumber_canonical by (intros H'; by apply Hz). cbn [mbind res_bind].
    rewrite decodeBigDigits_value, Hv. destruct (Z.ltb_spec 64 (glen (c :: ds))) as [Hlong|]; [|done].
    (* a leading digit beyond position 64 would exceed the bound *)
    exfalso. cbn [valueFrom] in Hv. destruct (digitIn 16 c) as [d|] eqn:Ed; [|done]. cbn [mbind option_bind] in Hv.
    rewrite valueFrom_shift_iff in Hv. destruct (valueFrom 16 0 ds) as [v|] eqn:Ev; [|done].
    apply valueFrom_bound in Ev; [|lia]. simpl in Hv. injection Hv as <-.
    assert (d <> 0).
    { intros ->. destruct (Z.eq_dec c 48) as [E|E]; [by destruct (Hz E) as [? _]|].
      unfold digitIn, digitVal, mbind, option_bind in Ed. repeat case_match; simplify_eq; lia. }
    apply digitIn_range in Ed. assert (16 ^ 64 <= 16 ^ glen ds).
    { apply Z.pow_le_mono_r; [lia|]. unfold glen in *. simpl length in Hlong. lia. }
    change (16 ^ 64) with (2 ^ 256) in *. nia.
  - intros s v. unfold DecodeBig. intros (raw & _ & H)%bind_Ok_inv. rewrite decodeBigDigits_value in H.
    destruct (Z.ltb_spec 64 (glen raw)); [done|]. destruct (valueFrom 16 0 raw) as [w|] eqn:E; [|done].
    injection H as <-. apply valueFrom_bound in E; [|lia].
    assert (16 ^ glen raw <= 2 ^ 256); [|lia]. change (2 ^ 256) with (16 ^ 64).
    apply Z.pow_le_mono_r; lia.
Qed.

(** The sign is printed before the prefix, so the encoding of a negative
    number cannot be decoded. *)
Lemma EncodeBig_negative n :
  n < 0 ->
  EncodeBig n = [45] ++ EncodeBig (- n) /\ DecodeBig (EncodeBig n) = Err ErrMissingPrefix.
Proof.
  intros Hn. unfold EncodeBig. destruct (Z.eqb_spec n 0); [lia|]. destruct (Z.eqb_spec (- n) 0); [lia|].
  destruct (Z.ltb_spec n 0); [|lia]. destruct (Z.ltb_spec (- n) 0); [lia|].
  by rewrite Z.abs_opp.
Qed.

(** On text with the [0x] prefix, the JSON type and the plain function
    decode the same numbers. *)
Lemma Uint64_UnmarshalText_DecodeUint64 input v :
  has0xPrefix input = true ->
  (Uint64_UnmarshalText input = Ok v <-> DecodeUint64 input = Ok v).
Proof.
  intros Hp. unfold Uint64_UnmarshalText, DecodeUint64.
  assert (checkNumberText input = checkNumber input) as ->.
  { unfold checkNumberText, checkNumber.
    destruct input as [|a [|b input]]; [done..|]. simpl in Hp.
    assert (bytesHave0xPrefix (a :: b :: input) = true) as ->; [|by rewrite <- Hp].
    apply andb_true_iff in Hp as [->%Z.eqb_eq Hb]. unfold bytesHave0xPrefix.
    apply andb_true_iff. split; [apply Z.leb_le; unfold glen; simpl; lia|].
    apply bool_decide_eq_true. apply orb_true_iff in Hb as [->%Z.eqb_eq| ->%Z.eqb_eq]; simpl take;
      [left|right; left]. }
  destruct (checkNumber input) as [raw| | |] eqn:E; [|done..]. cbn [mbind res_bind].
  apply checkNumber_raw in E as Hne. unfold ParseUint. destruct raw as [|c raw']; [done|].
  set (raw := c :: raw') in *.
  rewrite uint64Loop_word.
  destruct (Z.ltb_spec 16 (glen raw)) as [Hlong|Hshort].
  - split; [done|]. intros H. exfalso.
    destruct (parseUintLoop 16 0 raw) as [w| | |] eqn:Ew; [|done..]. injection H as <-.
    apply parseUintLoop_inv in Ew as [Ew Hmax]; [|lia|unfold maxUint64; lia].
    assert (c <> 48) as Hc.
    { intros ->. unfold checkNumber in E. repeat case_match; simplify_eq. }
    subst raw. cbn [valueFrom] in Ew. destruct (digitIn 16 c) as [d|] eqn:Ed; [|done].
    cbn [mbind option_bind] in Ew. rewrite valueFrom_shift_iff in Ew.
    destruct (valueFrom 16 0 raw') as [x|] eqn:Ex; [|done]. simpl in Ew. injection Ew as <-.
    apply valueFrom_bound in Ex; [|lia].
    assert (d <> 0) by (intros ->; unfold digitIn, digitVal, mbind, option_bind in Ed;
      repeat case_match; simplify_eq; lia).
    apply digitIn_range in Ed. assert (16 ^ 16 <= 16 ^ glen raw').
    { apply Z.pow_le_mono_r; [lia|]. unfold glen in *. simpl length in Hlong. lia. }
    change (16 ^ 16) with (2 ^ 64) in *. unfold maxUint64 in Hmax. nia.
  - rewrite decodeWord_value; [|lia|].
    2: { rewrite Z.mul_1_l. change (2 ^ 64) with (16 ^ 16). apply Z.pow_le_mono_r; lia. }
    destruct (valueFrom 16 0 raw) as [w|] eqn:Ew.
    + rewrite (parseUintLoop_value 16 0 raw w); [done|lia|lia|done|].
      apply valueFrom_bound in Ew; [|lia]. unfold maxUint64.
      assert (16 ^ glen raw <= 16 ^ 16) by (apply Z.pow_le_mono_r; lia). change (16 ^ 16) with (2 ^ 64) in *. lia.
    + split; [done|]. intros H. destruct (parseUintLoop 16 0 raw) eqn:El; [|done..].
      apply parseUintLoop_inv in El as [El _]; [congruence|lia|unfold maxUint64; lia].
Qed.

(** ** Hashes and addresses *)
Lemma be_app b x : be (b ++ [x]) = be b * 256 + x.
Proof. unfold be. by rewrite fold_left_app. Qed.

Lemma beBytes_length n v : length (beBytes n v) = n.
Proof. revert v; induction n as [|n IH]; intros v; simpl; [done|]. rewrite length_app, IH. simpl. lia. Qed.

Lemma beBytes_bytes n v : Forall is_byte (beBytes n v).
Proof.
  revert v; induction n as [|n IH]; intros v; simpl; [constructor|].
  apply Forall_app. split; [apply IH|]. constructor; [|constructor]. apply Z.mod_pos_bound. lia.
Qed.

Lemma be_beBytes n v : 0 <= v < 256 ^ Z.of_nat n -> be (beBytes n v) = v.
Proof.
  revert v; induction n as [|n IH]; intros v Hv; cbn [beBytes].
  - change (256 ^ Z.of_nat 0) with 1 in Hv. unfold be; simpl. lia.
  - rewrite be_app, IH; [rewrite (Z.div_mod v 256) at 3 by lia; lia|].
    rewrite Nat2Z.inj_succ, Z.pow_succ_r in Hv by lia.
    split; [apply Z.div_pos; lia|apply Z.div_lt_upper_bound; lia].
Qed.

(** Reading a [0x] string of [n] bytes gives the bytes. *)
Lemma FromHex_encode b :
  b <> [] -> Forall is_byte b -> FromHex (CPToHex (HexToCP (str "0x" ++ hexEncode b))) = b.
Proof.
  intros Hne Hb. assert (2 < glen (str "0x" ++ hexEncode b)) as Hl.
  { unfold glen. simpl. rewrite hexEncode_length. destruct b; [done|]. simpl. lia. }
  assert (HexToCP (str "0x" ++ hexEncode b) = str "0x" ++ hexEncode b) as ->.
  { unfold HexToCP. destruct (_ && _); done. }
  assert (CPToHex (str "0x" ++ hexEncode b) = str "0x" ++ hexEncode b) as ->.
  { unfold CPToHex. destruct (_ && _); done. }
  unfold FromHex. assert ((1 <? glen (str "0x" ++ hexEncode b)) = true) as -> by (apply Z.ltb_lt; lia).
  rewrite (bool_decide_true (take 2 (str "0x" ++ hexEncode b) = str "0x")) by done. cbn [orb andb].
  change (drop 2 (str "0x" ++ hexEncode b)) with (hexEncode b).
  assert (glen (hexEncode b) mod 2 = 0) as Hm.
  { unfold glen. rewrite hexEncode_length, Nat2Z.inj_mul, Z.mul_comm. apply Z.mod_mul. lia. }
  rewrite Hm. cbn [Z.eqb]. unfold Hex2Bytes. by rewrite hexDecode_encode.
Qed.

Lemma drop_beBytes k n v : (k <= n)%nat -> drop k (beBytes n v) = beBytes (n - k) v.
Proof.
  revert k v. induction n as [|n IH]; intros k v Hk; [by destruct k|].
  destruct (decide (k = S n)) as [->|].
  - rewrite drop_ge by (rewrite beBytes_length; lia). by rewrite Nat.sub_diag.
  - cbn [beBytes]. rewrite drop_app_le by (rewrite beBytes_length; lia). rewrite IH by lia.
    by replace (S n - k)%nat with (S (n - k)) by lia.
Qed.

Lemma be_beBytes_mod n v : be (beBytes n v) = v mod 256 ^ Z.of_nat n.
Proof.
  revert v. induction n as [|n IH]; intros v; cbn [beBytes]; [by rewrite Z.mod_1_r|].
  rewrite be_app, IH, Nat2Z.inj_succ, Z.pow_succ_r, Z.rem_mul_r by lia. lia.
Qed.

Lemma FromHex_Hash h : FromHex (CPToHex (Hash_Hex h)) = beBytes 32 h.
Proof.
  unfold Hash_Hex, Encode. apply FromHex_encode; [|apply beBytes_bytes].
  intros E%(f_equal length). by rewrite beBytes_length in E.
Qed.

Lemma HexToHash_of_Hex h : 0 <= h < 2 ^ 256 -> HexToHash (Hash_Hex h) = h.
Proof.
  intros Hh. unfold HexToHash, BytesToHash, setBytes, HashLength, glen.
  rewrite FromHex_Hash, beBytes_length. change (32 <? Z.of_nat 32) with false. cbv iota.
  by apply be_beBytes.
Qed.

(** A hash is read back from its hexadecimal text, and the same text parses
    as an address by cropping from the left: [HexToAddress] keeps the low 20
    bytes, it does not panic on longer input. *)
Lemma HexToHash_Hex h :
  0 <= h < 2 ^ 256 ->
  HexToHash (Hash_Hex h) = h /\ HexToAddress (Hash_Hex h) = h mod 2 ^ 160.
Proof.
  intros Hh. split; [by apply HexToHash_of_Hex|].
  unfold HexToAddress, BytesToAddress, setBytes, AddressLength, glen.
  rewrite FromHex_Hash, beBytes_length. change (20 <? Z.of_nat 32) with true.
  change (Z.to_nat (Z.of_nat 32 - 20)) with 12%nat. cbv iota.
  by rewrite drop_beBytes, be_beBytes_mod by lia.
Qed.

(** C39. What is encoded is decoded: byte strings, 64-bit and 256-bit numbers and
    hashes survive the round trip through their hexadecimal text, and whatever
    text is accepted as a number gives one in range. *)
Theorem hexutil_roundtrips :
  (forall b, Forall is_byte b -> Decode (Encode b) = (b, None)) /\
  (forall i, is_u64 i -> DecodeUint64 (EncodeUint64 i) = Ok i) /\
  (forall n, 0 <= n < 2 ^ 256 -> DecodeBig (EncodeBig n) = Ok n) /\
  (forall h, 0 <= h < 2 ^ 256 -> HexToHash (Hash_Hex h) = h /\ HexToAddress (Hash_Hex h) = h mod 2 ^ 160) /\
  (forall s v, DecodeUint64 s = Ok v -> is_u64 v) /\ (forall s v, DecodeBig s = Ok v -> 0 <= v < 2 ^ 256).
Proof.
  split_and!; [intros b Hb; by apply Decode_Encode|apply DecodeUint64_Encode|apply DecodeBig_Encode|
    intros h Hh; by apply HexToHash_Hex|apply DecodeUint64_Encode|apply DecodeBig_Encode].
Qed.
