(* ===== verification/AlienSideChain.v ===== *)
(** * Side chains in the alien snapshot

    Models the side-chain bookkeeping of [consensus/alien/snapshot.go]: the
    coinbases signers set for a side chain, the confirmations of side-chain
    blocks and the reward scores computed from them at the end of each loop, the
    confirmation of notices by two thirds of the signers, and the gas charging
    a side chain records. *)
From S2P Require Import Prelude AlienTypes GoText Hexutil.

(** The separator of a loop info key, [":"]. *)
Definition sep : Z := 58.

Section Operations.
Context {RT : GoRuntime}.

(** ** Coinbases of side chains *)
Definition setSCCoinbase (s : Snapshot) (scc : SCSetCoinbase) : Snapshot :=
  let s1 := match SCCoinbase s !! sscSigner scc with
            | Some _ => s
            | None => s <| SCCoinbase ::= <[sscSigner scc := ∅]> |>
            end in
  s1 <| SCCoinbase ::= alter <[sscHash scc := sscCoinbase scc]> (sscSigner scc) |>.
Definition updateSnapshotBySetSCCoinbase (scCoinbases : list SCSetCoinbase) (s : Snapshot) :
  Snapshot := fold_left setSCCoinbase scCoinbases s.

Definition isSideChainCoinbase (s : Snapshot) (sc : Hash) (address : Address) (realtime : bool) : bool :=
  let hit (row : gmap Z Address) :=
    match row !! sc with Some coinbase => coinbase =? address | None => false end in
  if realtime
  then existsb (fun signer =>
         match SCCoinbase s !! signer with Some row => hit row | None => false end) (Signers s)
  else existsb (fun '(_, row) => hit row) (range (SCCoinbase s)).

(** ** Confirmation of side-chain blocks *)
Definition scConfirmStep (s : Snapshot) (scc : SCConfirmation) : Snapshot :=
  if isSideChainCoinbase s (scHash scc) (scCoinbase scc) false then
    match SCRecordMap s !! scHash scc with
    | Some r =>
        if LastConfirmedNumber r <? scNumber scc then
          let r1 := r <| Record_ ::= <[scNumber scc := default [] (Record_ r !! scNumber scc) ++ [scc]]> |> in
          let r2 := if MaxHeaderNumber r1 <? scNumber scc
                    then r1 <| MaxHeaderNumber := scNumber scc |> else r1 in
          s <| SCRecordMap ::= <[scHash scc := r2]> |>
        else s
    | None => s
    end
  else s.

(** One side chain of [checkSCConfirmation]: expired rents are dropped, and
    the records are reset when there are too many of them. *)
Definition checkRecord (headerNumber : Z) (c : AlienConfig) (r : SCRecord) : SCRecord :=
  let bound := bigUint64 headerNumber -u (scRewardExpiredLoopCount *u MaxSignerCount c) in
  let r1 := r <| RentReward := fold_left (fun m '(txHash, scRentInfo) =>
              if bigUint64 (MaxRewardNumber scRentInfo) <? bound then delete txHash m else m)
              (range (RentReward r)) (RentReward r) |> in
  if scMaxConfirmedRecordLength <? Z.of_nat (size (Record_ r1))
  then r1 <| Record_ := ∅ |> <| LastConfirmedNumber := 0 |> <| MaxHeaderNumber := 0 |>
  else r1.
Definition checkSCConfirmation (headerNumber : Z) (s : Snapshot) : Snapshot :=
  fold_left (fun s '(hash, scRecord) =>
    s <| SCRecordMap ::= <[hash := checkRecord headerNumber (config s) scRecord]> |>)
    (range (SCRecordMap s)) s.

(** State of the scan of the records: [confirmedNumber] and
    [confirmedRecordMap], the coinbases that sent each loop info. *)
Definition scan : Type := Z * gmap (list Z) (gset Z).
Definition scanConfirm (minCount : Z) (st : scan) (scConfirm : SCConfirmation) : ares scan :=
  let '(confirmedNumber, m) := st in
  if i64 (minCount * 2) <=? glen (LoopInfo scConfirm) then
    let key := Join (LoopInfo scConfirm) sep in
    let m1 := match m !! key with Some _ => m | None => <[key := ∅]> m end in
    let seen := default ∅ (m1 !! key) in
    if bool_decide (scCoinbase scConfirm ∈ seen) then Ok (confirmedNumber, m1)
    else
      let seen' := {[ scCoinbase scConfirm ]} ∪ seen in
      let m2 := <[key := seen']> m1 in
      if minCount <=? Z.of_nat (size seen') then
        info ← gindex (LoopInfo scConfirm) (glen (LoopInfo scConfirm) - 2);
        Ok (match bigUnmarshalText info with
            | Some v => if confirmedNumber <? bigUint64 v then bigUint64 v else confirmedNumber
            | None => confirmedNumber
            end, m2)
      else Ok (confirmedNumber, m2)
  else Ok (confirmedNumber, m).
Definition scanNumber (record : SCRecord) (minCount : Z) (st : scan) (i : Z) : ares scan :=
  match Record_ record !! i with
  | Some l => foldM (scanConfirm minCount) l st
  | None => Ok st
  end.

(** [infos[i]], [infos[i+1]] for [i := 0; i+1 < len(infos); i += 2]. *)
Fixpoint assignPairs (m : gmap Z Address) (infos : list bytes) : gmap Z Address :=
  match infos with
  | n :: a :: infos =>
      assignPairs (match bigUnmarshalText n with
                   | Some v => <[bigUint64 v := HexToAddress a]> m
                   | None => m
                   end) infos
  | _ => m
  end.
Definition confirmedCoinbases (minCount : Z) (m : gmap (list Z) (gset Z)) : gmap Z Address :=
  fold_left (fun cb '(info, confirm) =>
    if minCount <=? Z.of_nat (size confirm) then assignPairs cb (Split info sep) else cb)
    (range m) ∅.

(** The reward of a period goes on until one coinbase has finished it. *)
Definition finishPeriod (record : SCRecord) (confirmedNumber : Z) (cb : gmap Z Address) :
  Z * gmap Z Address :=
  if (1 <? CountPerPeriod record) && (LastConfirmedNumber record <? confirmedNumber) then
    match cb !! confirmedNumber with
    | Some lastConfirmedCoinbase =>
        let n' := match List.find (fun i => negb (lastConfirmedCoinbase =? default 0 (cb !! i)))
                      (downto (confirmedNumber -u 1) (confirmedNumber -u CountPerPeriod record)) with
                  | Some i => i
                  | None => confirmedNumber
                  end in
        (n', fold_left (fun m i => delete i m) (upto (n' +u 1) (n' +u CountPerPeriod record)) cb)
    | None => (confirmedNumber, cb)
    end
  else (confirmedNumber, cb).

Definition calculateSCConfirmedNumber (record : SCRecord) (minConfirmedSignerCount : Z) :
  ares (Z * gmap Z Address) :=
  '(confirmedNumber, m) ←
    forIncl (LastConfirmedNumber record +u 1) (MaxHeaderNumber record)
      (scanNumber record minConfirmedSignerCount) (LastConfirmedNumber record, ∅);
  Ok (finishPeriod record confirmedNumber (confirmedCoinbases minConfirmedSignerCount m)).

(** The table [SCCurrentBlockReward]: the row of a period count. *)
Definition SCCurrentBlockReward (periodCount : Z) : list Z :=
  if periodCount =? 1 then [100]
  else if periodCount =? 2 then [30; 70]
  else if periodCount =? 3 then [15; 30; 55]
  else if periodCount =? 4 then [5; 15; 30; 50]
  else if periodCount =? 5 then [5; 10; 15; 25; 45]
  else if periodCount =? 6 then [1; 4; 10; 15; 25; 45]
  else [].
Definition calculateCurrentBlockReward (currentCount periodCount : Z) : Z :=
  let periodCount := if scMaxCountPerPeriod <? periodCount then scMaxCountPerPeriod else periodCount in
  if 1 <=? currentCount
  then default 0 (SCCurrentBlockReward periodCount !! Z.to_nat (currentCount - 1)) else 0.

(** One side-chain block of the reward loop: the scores, [lastSCCoinbase] and
    [currentSCCoinbaseCount]. *)
Definition scoreStep (periodCount : Z) (cb : gmap Z Address)
    (st : gmap Z Z * Address * Z) (n : Z) : gmap Z Z * Address * Z :=
  let '(scores, lastSCCoinbase, count) := st in
  match cb !! n with
  | Some scCoinbase =>
      let count' := if lastSCCoinbase =? scCoinbase then count +u 1 else 1 in
      let reward := calculateCurrentBlockReward count' periodCount in
      (<[scCoinbase := match scores !! scCoinbase with Some v => v +u reward | None => reward end]> scores,
       scCoinbase, count')
  | None => st
  end.

Definition scConfirmationStep (headerNumber : Z) (s : Snapshot) (kv : Hash * SCRecord) : ares Snapshot :=
  let '(scHash, record) := kv in
  let minCount := i64 ((2 *u MaxSignerCount (config s)) / 3) in
  let s1 := match SCRewardMap s !! scHash with
            | Some _ => s
            | None => s <| SCRewardMap ::= <[scHash := ∅]> |>
            end in
  '(confirmedNumber, cb) ← calculateSCConfirmedNumber record minCount;
  '(s2, scores) ←
    (if LastConfirmedNumber record <? confirmedNumber then
       '(scores, _, _) ← forIncl (LastConfirmedNumber record +u 1) confirmedNumber
           (fun st n => Ok (scoreStep (CountPerPeriod record) cb st n)) (∅, 0, 0);
       rec ← forIncl (LastConfirmedNumber record +u 1) confirmedNumber
           (fun m i => Ok (delete i m)) (Record_ record);
       Ok (s1 <| SCRecordMap ::=
             <[scHash := record <| Record_ := rec |> <| LastConfirmedNumber := confirmedNumber |>]> |>,
           scores)
     else Ok (s1, ∅));
  Ok (if Z.of_nat (size scores) =? 0 then s2
      else s2 <| SCRewardMap ::= alter <[bigUint64 headerNumber := scores]> scHash |>).

Definition clearRewards (headerNumber : Z) (s : Snapshot) (kv : Hash * gmap Z (gmap Z Z)) : Snapshot :=
  let '(scHash, rewards) := kv in
  let bound := bigUint64 headerNumber -u (scRewardExpiredLoopCount *u MaxSignerCount (config s)) in
  let rewards' := fold_left (fun m '(number, _) => if number <? bound then delete number m else m)
                    (range rewards) rewards in
  if Z.of_nat (size rewards') =? 0 then s <| SCRewardMap ::= delete scHash |>
  else s <| SCRewardMap ::= <[scHash := rewards']> |>.

Definition updateSCConfirmation (headerNumber : Z) (s : Snapshot) : ares Snapshot :=
  s1 ← foldM (scConfirmationStep headerNumber) (range (SCRecordMap s)) s;
  Ok (fold_left (clearRewards headerNumber) (range (SCRewardMap s1)) s1).

(** [(headerNumber.Uint64()+1) % s.config.MaxSignerCount == 0]. *)
Definition loopEnd (c : AlienConfig) (headerNumber : Z) : ares bool :=
  m ← umod (bigUint64 headerNumber +u 1) (MaxSignerCount c); Ok (m =? 0).

Definition updateSnapshotBySCConfirm (scConfirmations : list SCConfirmation) (headerNumber : Z)
    (s : Snapshot) : ares Snapshot :=
  let s1 := fold_left scConfirmStep scConfirmations s in
  e ← loopEnd (config s1) headerNumber;
  if e : bool then updateSCConfirmation headerNumber (checkSCConfirmation headerNumber s1) else Ok s1.

(** ** Notices *)
Definition freshNotice : NoticeCR := mkNoticeCR ∅ 0 noticeTypeGasCharging false.
(** One hash of the loop info of a notice confirmation. *)
Definition recordNotice (coinbase : Address) (n : CCNotice) (strHash : bytes) : CCNotice :=
  let noticeHash := HexToHash strHash in
  match CurrentCharging n !! noticeHash with
  | Some _ =>
      let n1 := match ConfirmReceived n !! noticeHash with
                | Some _ => n
                | None => n <| ConfirmReceived ::= <[noticeHash := freshNotice]> |>
                end in
      n1 <| ConfirmReceived ::= alter (set NRecord <[coinbase := true]>) noticeHash |>
  | None => n
  end.
Definition noticeConfirmStep (s : Snapshot) (noticeConfirm : SCConfirmation) : Snapshot :=
  if isSideChainCoinbase s (scHash noticeConfirm) (scCoinbase noticeConfirm) true then
    match SCNoticeMap s !! scHash noticeConfirm with
    | Some n => s <| SCNoticeMap ::= <[scHash noticeConfirm :=
                  fold_left (recordNotice (scCoinbase noticeConfirm)) (LoopInfo noticeConfirm) n]> |>
    | None => s
    end
  else s.

(** The quorum of the notices, [int(2*s.config.MaxSignerCount/3+1)]. *)
Definition noticeQuorum (c : AlienConfig) : Z := i64 ((2 *u MaxSignerCount c) / 3 + 1).
(** The check of one notice at the end of a loop: [delay] loops after it
    succeeded it is removed. *)
Definition checkNotice (c : AlienConfig) (headerNumber delay : Z) (keepType : bool)
    (n : CCNotice) (kv : Hash * NoticeCR) : CCNotice :=
  let '(noticeHash, noticeRecord) := kv in
  let n1 := if (noticeQuorum c <=? Z.of_nat (size (NRecord noticeRecord))) && negb (Success noticeRecord)
            then n <| ConfirmReceived ::= <[noticeHash := mkNoticeCR (NRecord noticeRecord)
                     (bigUint64 headerNumber)
                     (if keepType then nType noticeRecord else noticeTypeGasCharging) true]> |>
            else n in
  if Success noticeRecord
     && (nNumber noticeRecord <? bigUint64 headerNumber -u (MaxSignerCount c *u delay))
  then n1 <| CurrentCharging ::= delete noticeHash |> <| ConfirmReceived ::= delete noticeHash |>
  else n1.
Definition checkNotices (c : AlienConfig) (headerNumber delay : Z) (keepType : bool) (n : CCNotice) : CCNotice :=
  fold_left (checkNotice c headerNumber delay keepType) (range (ConfirmReceived n)) n.

Definition updateSnapshotByNoticeConfirm (scNoticeConfirmed : list SCConfirmation) (headerNumber : Z)
    (s : Snapshot) : ares Snapshot :=
  let s1 := fold_left noticeConfirmStep scNoticeConfirmed s in
  e ← loopEnd (config s1) headerNumber;
  Ok (if e : bool then
        fold_left (fun s '(chainHash, scNotice) =>
          s <| SCNoticeMap ::= <[chainHash :=
            checkNotices (config s) headerNumber mcNoticeClearDelayLoopCount true scNotice]> |>)
          (range (SCNoticeMap s1)) s1
      else s1).

(** ** Gas charging, on a side chain. The entry of [ConfirmReceived] of a
    known charging may be missing: its [NRecord] is then a nil map, and
    writing to it panics. *)
Definition chargingStep (coinbase : Address) (n : CCNotice) (charge : GasCharging) : ares CCNotice :=
  let n1 := match CurrentCharging n !! gcHash charge with
            | Some _ => n
            | None => n <| CurrentCharging ::= <[gcHash charge := charge]> |>
                        <| ConfirmReceived ::= <[gcHash charge := freshNotice]> |>
            end in
  _ ← get_or_panic (ConfirmReceived n1 !! gcHash charge);
  Ok (n1 <| ConfirmReceived ::= alter (set NRecord <[coinbase := true]>) (gcHash charge) |>).
Definition updateSnapshotBySCCharging (scCharging : list GasCharging) (headerNumber : Z)
    (coinbase : Address) (s : Snapshot) : ares Snapshot :=
  n1 ← foldM (chargingStep coinbase) scCharging (LocalNotice s);
  e ← loopEnd (config s) headerNumber;
  Ok (s <| LocalNotice :=
        if e : bool then checkNotices (config s) headerNumber scNoticeClearDelayLoopCount false n1
        else n1 |>).
End Operations.

(** ** Scores *)

(** What [k] consecutive blocks of one coinbase earn. *)
Definition scoreSum (p : Z) (k : nat) : Z :=
  sumZ (fun i => calculateCurrentBlockReward i p) (seqZ 1 (Z.of_nat k)).

Lemma scoreSum_S p k : scoreSum p (S k) = scoreSum p k + calculateCurrentBlockReward (Z.of_nat k + 1) p.
Proof.
  unfold scoreSum. rewrite seqZ_S, sumZ_app.
  cbn [sumZ foldr]. replace (1 + Z.of_nat k) with (Z.of_nat k + 1) by lia. lia.
Qed.

Lemma calculateCurrentBlockReward_saturates c p :
  6 < p -> calculateCurrentBlockReward c p = calculateCurrentBlockReward c 6.
Proof.
  intros Hp. unfold calculateCurrentBlockReward, scMaxCountPerPeriod.
  rewrite (proj2 (Z.ltb_lt 6 p)) by done. done.
Qed.

(** Blocks past the end of the period, or past the sixth, earn nothing. *)
Lemma calculateCurrentBlockReward_past c p : 1 <= p -> Z.min p 6 < c -> calculateCurrentBlockReward c p = 0.
Proof.
  intros Hp Hc. destruct (Z.le_gt_cases p 6) as [Hle|Hgt]; [|rewrite calculateCurrentBlockReward_saturates by done].
  - assert (p = 1 \/ p = 2 \/ p = 3 \/ p = 4 \/ p = 5 \/ p = 6) as Hcases by lia.
    unfold calculateCurrentBlockReward. rewrite (proj2 (Z.leb_le 1 c)) by lia.
    rewrite lookup_ge_None_2; [done|]. repeat destruct Hcases as [->|Hcases]; subst; simpl length; lia.
  - unfold calculateCurrentBlockReward. rewrite (proj2 (Z.leb_le 1 c)) by lia.
    rewrite lookup_ge_None_2; [done|]. simpl length. lia.
Qed.
(** The rewards of the blocks of a period add up to one hundred, and no more
    blocks in a row earn more. *)
Lemma scoreSum_period p k : 1 <= p -> p <= Z.of_nat k -> scoreSum p k = 100.
Proof.
  intros Hp Hk. assert (forall j, scoreSum p (Z.to_nat (Z.min p 6) + j) = 100) as H.
  { induction j as [|j IH].
    - rewrite Nat.add_0_r. destruct (Z.le_gt_cases p 6) as [Hle|Hgt].
      + assert (p = 1 \/ p = 2 \/ p = 3 \/ p = 4 \/ p = 5 \/ p = 6) as Hc by lia.
        repeat destruct Hc as [->|Hc]; [reflexivity..|]. by subst.
      + rewrite Z.min_r by lia. unfold scoreSum.
        erewrite sumZ_ext by (intros; by apply calculateCurrentBlockReward_saturates). reflexivity.
    - rewrite Nat.add_succ_r, scoreSum_S, IH, calculateCurrentBlockReward_past by lia. done. }
  replace k with (Z.to_nat (Z.min p 6) + (k - Z.to_nat (Z.min p 6)))%nat by lia. apply H.
Qed.

Lemma calculateCurrentBlockReward_nonneg c p : 0 <= calculateCurrentBlockReward c p.
Proof.
  unfold calculateCurrentBlockReward. destruct (1 <=? c); [|done].
  destruct (_ !! _) as [v|] eqn:E; [simpl|done].
  apply list_elem_of_lookup_2 in E. unfold SCCurrentBlockReward in E.
  repeat case_match; set_unfold in E; lia.
Qed.

Lemma calculateCurrentBlockReward_le c p : calculateCurrentBlockReward c p <= 100.
Proof.
  unfold calculateCurrentBlockReward. destruct (1 <=? c); [|done].
  destruct (_ !! _) as [v|] eqn:E; [simpl|done].
  apply list_elem_of_lookup_2 in E. unfold SCCurrentBlockReward in E.
  repeat case_match; set_unfold in E; lia.
Qed.

Lemma scoreSum_bounds p k : 1 <= p -> 0 <= scoreSum p k <= 100.
Proof.
  intros Hp. assert (forall k j, scoreSum p k <= scoreSum p (k + j)) as Hmono.
  { intros k0 j. induction j as [|j IH]; [by rewrite Nat.add_0_r|]. rewrite Nat.add_succ_r, scoreSum_S.
    pose proof (calculateCurrentBlockReward_nonneg (Z.of_nat (k0 + j) + 1) p). lia. }
  split; [exact (Hmono O k)|]. rewrite <- (scoreSum_period p (k + Z.to_nat p)) by lia. apply Hmono.
Qed.

(** [k] consecutive blocks of the coinbase [a] that has sealed the [run] blocks
    before them. *)
Lemma scoreStep_run p cb scores last count a n (run k : nat) :
  Z.of_nat run = (if decide (a = last) then count else 0) ->
  0 <= default 0 (scores !! a) < 2 ^ 64 -> Z.of_nat run + Z.of_nat k < 2 ^ 64 ->
  (forall i, n < i <= n + Z.of_nat k -> cb !! i = Some a) -> (0 < k)%nat ->
  fold_left (scoreStep p cb) (seqZ (n + 1) (Z.of_nat k)) (scores, last, count) =
  (<[a := u64 (default 0 (scores !! a) + (scoreSum p (run + k) - scoreSum p run))]> scores, a, Z.of_nat (run + k)).
Proof.
  intros Hrun Hd. induction k as [|[|k] IH]; intros Hk Hcb Hpos; [lia| |].
  - change (seqZ (n + 1) (Z.of_nat 1)) with [n + 1]. cbn [fold_left]. unfold scoreStep.
    rewrite Hcb by lia.
    assert ((if last =? a then count +u 1 else 1) = Z.of_nat run + 1) as ->.
    { destruct (Z.eqb_spec last a), (decide (a = last)); try congruence; [|lia].
      rewrite <- Hrun. apply u64_small. split; lia. }
    rewrite Nat.add_1_r, scoreSum_S, Nat2Z.inj_succ.
    replace (scoreSum p run + _ - scoreSum p run) with (calculateCurrentBlockReward (Z.of_nat run + 1) p) by lia.
    pose proof (calculateCurrentBlockReward_nonneg (Z.of_nat run + 1) p).
    pose proof (calculateCurrentBlockReward_le (Z.of_nat run + 1) p).
    destruct (scores !! a); simpl; [done|]. by rewrite u64_small by (split; lia).
  - rewrite seqZ_S, fold_left_app.
    rewrite IH by (try lia; intros; apply Hcb; lia). cbn [fold_left]. unfold scoreStep at 1.
    rewrite Hcb by lia. rewrite Z.eqb_refl, lookup_insert_eq.
    rewrite (u64_small (Z.of_nat (run + S k) + 1)) by (split; lia).
    rewrite insert_insert_eq, (Nat.add_succ_r run (S k)), (scoreSum_S p (run + S k)).
    unfold u64 at 1 2. rewrite Zplus_mod_idemp_l.
    f_equal; [|lia]. do 2 f_equal. unfold u64. f_equal. lia.
Qed.

(** C31. A side-chain coinbase that seals all [p] blocks of a period, with room
    below 2^64 for its score and its count, scores for them what is left of one
    hundred after the [run] blocks in a row it has sealed just before: exactly
    one hundred when another coinbase sealed the block before, and nothing at
    all when it has already sealed a whole period, since the count of its
    blocks goes on. No other score changes. *)
Theorem score_full_period p cb scores last count a n :
  let run := if decide (a = last) then count else 0 in
  1 <= p -> 0 <= run -> run + p < 2 ^ 64 -> 0 <= default 0 (scores !! a) < 2 ^ 64 - 100 ->
  (forall i, n < i <= n + p -> cb !! i = Some a) ->
  exists score,
    fold_left (scoreStep p cb) (seqZ (n + 1) p) (scores, last, count) =
      (<[a := default 0 (scores !! a) + score]> scores, a, run + p) /\
    score = 100 - scoreSum p (Z.to_nat run) /\
    (run = 0 -> score = 100) /\ (p <= run -> score = 0).
Proof.
  intros run Hp Hr Hrp Hd Hcb. exists (100 - scoreSum p (Z.to_nat run)).
  pose proof (scoreStep_run p cb scores last count a n (Z.to_nat run) (Z.to_nat p)) as H.
  fold run in H. rewrite Nat2Z.inj_add, !Z2Nat.id in H by lia.
  rewrite H by (try done; lia). rewrite (scoreSum_period p (Z.to_nat run + Z.to_nat p)) by lia. split_and!.
  - pose proof (scoreSum_bounds p (Z.to_nat run) Hp). by rewrite u64_small by (split; lia).
  - done.
  - by intros ->.
  - intros Hge. rewrite scoreSum_period by lia. done.
Qed.

(** ** Quorum of side-chain confirmations *)














(** ** A confirmation of the largest block number *)

Lemma scanConfirm_total minCount st sc :
  1 <= minCount < 2 ^ 62 -> exists st', scanConfirm minCount st sc = Ok st'.
Proof.
  intros Hmin. destruct st as [n m]. unfold scanConfirm.
  destruct (Z.leb_spec (i64 (minCount * 2)) (glen (LoopInfo sc))) as [Hlen|]; [|by eauto].
  case_bool_decide; [by eauto|].
  destruct (minCount <=? _); [|by eauto].
  assert (i64 (minCount * 2) = minCount * 2) as Hi.
  { unfold i64. rewrite Z.mod_small; lia. }
  rewrite Hi in Hlen. unfold glen in *.
  destruct (lookup_lt_is_Some_2 (LoopInfo sc) (Z.to_nat (Z.of_nat (length (LoopInfo sc)) - 2))) as [t Ht]; [lia|].
  unfold gindex. rewrite decide_True by lia. rewrite Ht. simpl. eauto.
Qed.

Lemma scanNumber_total record minCount st i :
  1 <= minCount < 2 ^ 62 -> exists st', scanNumber record minCount st i = Ok st'.
Proof.
  intros Hmin. unfold scanNumber. destruct (Record_ record !! i) as [l|]; [|by eauto].
  destruct (foldM_total (fun _ => True) (scanConfirm minCount) l st) as (st' & ? & _); [done| |by eauto].
  intros x s1 _ _. destruct (scanConfirm_total minCount s1 x Hmin) as [s2 ?]. eauto.
Qed.

Lemma calculateSCConfirmedNumber_hang {RT : GoRuntime} record minCount :
  1 <= minCount < 2 ^ 62 -> MaxHeaderNumber record = maxUint64 ->
  calculateSCConfirmedNumber record minCount = Hang.
Proof.
  intros Hmin Hmax. unfold calculateSCConfirmedNumber. rewrite Hmax.
  rewrite (forIncl_Hang (fun _ => True)); [done|done|].
  intros x s1 _. destruct (scanNumber_total record minCount s1 x Hmin) as [s2 ?]. eauto.
Qed.

(** Either the loop of a side chain returns, or it never ends. *)
Definition returns_or_hangs {E A} (r : res E A) : Prop := r = Hang \/ exists a, r = Ok a.

Lemma bind_returns_or_hangs {E A B} (m : res E A) (k : A -> res E B) :
  returns_or_hangs m -> (forall a, returns_or_hangs (k a)) -> returns_or_hangs (m ≫= k).
Proof. intros [->|[a ->]] Hk; [by left|apply Hk]. Qed.

Lemma forIncl_returns_or_hangs {E S} a b (body : S -> Z -> res E S) s :
  (forall x s1, exists s2, body s1 x = Ok s2) -> returns_or_hangs (forIncl a b body s).
Proof.
  intros Hb. unfold forIncl.
  assert (forall l s, exists s', foldM body l s = Ok s') as Hf.
  { intros l s0. destruct (foldM_total (fun _ => True) body l s0) as (s' & ? & _); [done| |by eauto].
    intros x s1 _ _. destruct (Hb x s1). eauto. }
  destruct (b =? maxUint64).
  - destruct (Hf (seqZ a (2 ^ 64 - a) ++ seqZ 0 a) s) as [s' ->]. by left.
  - right. apply Hf.
Qed.

(** A loop with an element that never ends, whose other elements return or
    never end, never ends. *)
Lemma foldM_hang {E S A T} (pi : S -> T) (body : S -> A -> res E S) xs s x :
  x ∈ xs -> (forall y s1, pi s1 = pi s -> returns_or_hangs (body s1 y)) ->
  (forall y s1 s2, body s1 y = Ok s2 -> pi s2 = pi s1) ->
  (forall s1, pi s1 = pi s -> body s1 x = Hang) -> foldM body xs s = Hang.
Proof.
  intros Hx Hb Hpi Hhang. revert s Hb Hhang.
  induction xs as [|y xs IH]; intros s Hb Hhang; simpl; [by apply not_elem_of_nil in Hx|].
  apply elem_of_cons in Hx as [->|Hx].
  - by rewrite Hhang.
  - destruct (Hb y s eq_refl) as [->|[s1 Hs1]]; [done|]. rewrite Hs1. simpl.
    pose proof (Hpi _ _ _ Hs1) as Hs. apply IH; [done|..].
    + intros z s2 Hs2. apply Hb. congruence.
    + intros s2 Hs2. apply Hhang. congruence.
Qed.

Section Hang.
Context {RT : GoRuntime}.

Lemma scConfirmationStep_returns n s kv :
  2 <= MaxSignerCount (config s) < 2 ^ 62 -> returns_or_hangs (scConfirmationStep n s kv).
Proof.
  intros HM. destruct kv as [h record]. unfold scConfirmationStep.
  assert (1 <= i64 ((2 *u MaxSignerCount (config s)) / 3) < 2 ^ 62) as Hmin.
  { rewrite u64_small by (split; lia). unfold i64. rewrite Z.mod_small by (Z.to_euclidean_division_equations; lia).
    Z.to_euclidean_division_equations; lia. }
  apply bind_returns_or_hangs.
  { unfold calculateSCConfirmedNumber. apply bind_returns_or_hangs; [|intros []; right; eauto].
    apply forIncl_returns_or_hangs. intros. by apply scanNumber_total. }
  intros [n' cb]. apply bind_returns_or_hangs; [|intros []; right; eauto].
  case_match; [|right; eauto].
  apply bind_returns_or_hangs; [apply forIncl_returns_or_hangs; eauto|]. intros [[scores ?] ?].
  apply bind_returns_or_hangs; [apply forIncl_returns_or_hangs; eauto|]. intros ?. right; eauto.
Qed.

Lemma scConfirmationStep_config n s kv s' :
  scConfirmationStep n s kv = Ok s' -> config s' = config s.
Proof.
  destruct kv as [h record]. unfold scConfirmationStep.
  set (s1 := match SCRewardMap s !! h with Some _ => s | None => _ end).
  assert (config s1 = config s) as <- by (subst s1; by destruct (SCRewardMap s !! h)).
  intros ([n' cb] & _ & H)%bind_Ok_inv. apply bind_Ok_inv in H as ([s2 scores] & H2 & H).
  injection H as <-. assert (config s2 = config s1) as <-; [|by destruct (_ =? 0)].
  destruct (_ <? n'); [|by injection H2 as <- <-].
  apply bind_Ok_inv in H2 as ([[sc ?] ?] & _ & H2). apply bind_Ok_inv in H2 as (rec & _ & H2).
  by injection H2 as <- <-.
Qed.

Lemma updateSCConfirmation_hang n s h record :
  2 <= MaxSignerCount (config s) < 2 ^ 62 ->
  SCRecordMap s !! h = Some record -> MaxHeaderNumber record = maxUint64 ->
  updateSCConfirmation n s = Hang.
Proof.
  intros HM Hr Hmax. unfold updateSCConfirmation.
  rewrite (foldM_hang config (scConfirmationStep n) _ _ (h, record)); [done|by apply elem_of_range|..].
  - intros y s1 Hs1. apply scConfirmationStep_returns. by rewrite Hs1.
  - intros y s1 s2. apply scConfirmationStep_config.
  - intros s1 Hs1. unfold scConfirmationStep.
    rewrite calculateSCConfirmedNumber_hang; [done| |done].
    rewrite Hs1, u64_small by (split; lia). unfold i64.
    rewrite Z.mod_small by (Z.to_euclidean_division_equations; lia).
    Z.to_euclidean_division_equations; lia.
Qed.

Lemma checkSCConfirmation_records n s :
  SCRecordMap (checkSCConfirmation n s) = checkRecord n (config s) <$> SCRecordMap s /\
  config (checkSCConfirmation n s) = config s.
Proof.
  unfold checkSCConfirmation. split; [|by apply fold_left_frame; intros ? []].
  rewrite <- (range_insert_fmap (checkRecord n (config s))). generalize (range (SCRecordMap s)).
  intros l. remember (SCRecordMap s) as m eqn:Em. remember (config s) as c eqn:Ec.
  revert s m Em Ec; induction l as [|[k v] l IH]; intros s m -> ->; [done|]. simpl. by apply IH.
Qed.

(** C37. A coinbase registered for a side chain can stop every node: after its
    confirmation of block [2^64-1] the computation at the end of the loop,
    which counts up to that number with an unsigned counter, never ends. *)
Theorem updateSnapshotBySCConfirm_hang n s scc record :
  2 <= MaxSignerCount (config s) < 2 ^ 62 ->
  isSideChainCoinbase s (scHash scc) (scCoinbase scc) false = true ->
  SCRecordMap s !! scHash scc = Some record ->
  LastConfirmedNumber record < maxUint64 -> MaxHeaderNumber record <= maxUint64 ->
  Z.of_nat (size (Record_ record)) < scMaxConfirmedRecordLength ->
  scNumber scc = maxUint64 -> loopEnd (config s) n = Ok true ->
  updateSnapshotBySCConfirm [scc] n s = Hang.
Proof.
  intros HM Hcb Hr Hlast Hmax Hsize Hnum Hend. unfold updateSnapshotBySCConfirm. cbn [fold_left].
  unfold scConfirmStep. rewrite Hcb, Hr, Hnum. rewrite (proj2 (Z.ltb_lt _ _)) by done.
  set (r2 := if MaxHeaderNumber _ <? _ then _ else _).
  assert (MaxHeaderNumber r2 = maxUint64) as Hmax2.
  { subst r2. cbn [MaxHeaderNumber set]. destruct (Z.ltb_spec (MaxHeaderNumber record) maxUint64); [done|].
    simpl. lia. }
  assert (Record_ r2 = <[maxUint64 := default [] (Record_ record !! maxUint64) ++ [scc]]> (Record_ record))
    as Hrec by (subst r2; by case_match).
  set (s1 := s <| SCRecordMap ::= _ |>). change (config s1) with (config s). rewrite Hend. cbn [mbind res_bind].
  destruct (checkSCConfirmation_records n s1) as [Hrs Hcfg].
  eapply (updateSCConfirmation_hang _ _ (scHash scc) (checkRecord n (config s1) r2)).
  - rewrite Hcfg. done.
  - rewrite Hrs, lookup_fmap. unfold s1; cbn [SCRecordMap set]. by rewrite lookup_insert_eq.
  - unfold checkRecord. cbn [Record_ set]. rewrite Hrec, (proj2 (Z.ltb_ge _ _)); [done|].
    rewrite map_size_insert. destruct (Record_ record !! maxUint64); simpl; lia.
Qed.
End Hang.

(** ** Quorum of notices *)

(** A notice is marked successful only with the confirmations of more than two
    thirds of the signers. *)
Definition notice_inv (c : AlienConfig) (n : CCNotice) : Prop :=
  forall h r, ConfirmReceived n !! h = Some r -> Success r = true ->
    noticeQuorum c <= Z.of_nat (size (NRecord r)).
(** Every charging a side chain knows has its confirmation record. *)
Definition charging_tracked (n : CCNotice) : Prop :=
  forall h g, CurrentCharging n !! h = Some g -> is_Some (ConfirmReceived n !! h).

Lemma size_insert_ge (m : gmap Z bool) k v : (size m <= size (<[k:=v]> m))%nat.
Proof. rewrite map_size_insert. destruct (m !! k); simpl; lia. Qed.

Lemma notice_inv_fresh c n h :
  notice_inv c n -> notice_inv c (n <| ConfirmReceived ::= <[h := freshNotice]> |>).
Proof. intros Hn h' r Hl; simpl in Hl; apply lookup_insert_Some in Hl as [[<- <-]|[_ Hr]]; [done|by apply Hn with (h := h')]. Qed.

Lemma notice_inv_record c n h a :
  notice_inv c n -> notice_inv c (n <| ConfirmReceived ::= alter (set NRecord <[a := true]>) h |>).
Proof.
  intros Hn h' r Hr Hs. simpl in Hr.
  apply lookup_alter_Some in Hr as [(<- & r0 & Hr0 & ->)|[_ Hr]]; [|by eapply Hn].
  specialize (Hn _ _ Hr0 Hs). simpl. pose proof (size_insert_ge (NRecord r0) a true). lia.
Qed.

Lemma recordNotice_inv c a n x : notice_inv c n -> notice_inv c (recordNotice a n x).
Proof.
  intros Hn. unfold recordNotice. destruct (CurrentCharging n !! _); [|done].
  apply notice_inv_record. destruct (ConfirmReceived n !! _); [done|by apply notice_inv_fresh].
Qed.

Lemma checkNotice_inv c hn delay kt n kv :
  notice_inv c n -> notice_inv c (checkNotice c hn delay kt n kv).
Proof.
  intros Hn. destruct kv as [h r]. unfold checkNotice.
  set (n1 := if _ && negb _ then _ else n).
  assert (notice_inv c n1) as Hn1.
  { subst n1. destruct (Z.leb_spec (noticeQuorum c) (Z.of_nat (size (NRecord r)))); simpl; [|done].
    destruct (Success r); simpl; [done|].
    intros h' r' Hl Hs; simpl in Hl. apply lookup_insert_Some in Hl as [[<- <-]|[_ Hr]]; [done|by eapply Hn]. }
  clearbody n1. destruct (_ && _); [|done].
  intros h' r' Hl; simpl in Hl. apply lookup_delete_Some in Hl as [_ Hr]. by apply Hn1 with (h := h').
Qed.

Lemma chargingStep_inv c a n g n' :
  notice_inv c n -> chargingStep a n g = Ok n' -> notice_inv c n'.
Proof.
  intros Hn. unfold chargingStep. intros (r & _ & H)%bind_Ok_inv. injection H as <-.
  apply notice_inv_record. destruct (CurrentCharging n !! _); [done|by apply notice_inv_fresh].
Qed.

Lemma chargingStep_total a n g :
  charging_tracked n -> exists n', chargingStep a n g = Ok n' /\ charging_tracked n'.
Proof.
  intros Ht. unfold chargingStep.
  set (n1 := match CurrentCharging n !! _ with Some _ => _ | None => _ end).
  assert (charging_tracked n1 /\ is_Some (ConfirmReceived n1 !! gcHash g)) as [Ht1 [r Hr]].
  { subst n1. destruct (CurrentCharging n !! gcHash g) eqn:E; [split; [done|by eapply Ht]|].
    split; [|simpl; rewrite lookup_insert_eq; by eauto].
    intros h g' Hg. simpl in *. apply lookup_insert_is_Some.
    apply lookup_insert_Some in Hg as [[-> _]|[? ?]]; [by left|right; eauto]. }
  rewrite Hr. cbn [get_or_panic mbind res_bind]. eexists; split; [done|].
  intros h g' Hg. simpl in *.
  destruct (Ht1 _ _ Hg) as [r' Hr']. destruct (decide (gcHash g = h)) as [->|].
  - rewrite lookup_alter_eq, Hr'. by eauto.
  - rewrite lookup_alter_ne by done. by eauto.
Qed.

Lemma checkNotice_tracked c hn delay kt n kv :
  charging_tracked n -> charging_tracked (checkNotice c hn delay kt n kv).
Proof.
  intros Ht. destruct kv as [h r]. unfold checkNotice.
  set (n1 := if _ && negb _ then _ else n).
  assert (charging_tracked n1) as Ht1.
  { subst n1. destruct (_ && _); [|done]. intros h' g Hg. simpl in *. apply lookup_insert_is_Some.
    destruct (decide (h = h')); [by left|right; split; [done|by eapply Ht]]. }
  clearbody n1. destruct (_ && _); [|done].
  intros h' g Hl; simpl in *. apply lookup_delete_Some in Hl as [Hne Hg].
  rewrite lookup_delete_ne by done. by eapply Ht1.
Qed.

Section Notices.
Context {RT : GoRuntime}.
Definition notices_inv (s : Snapshot) : Prop :=
  (forall h n, SCNoticeMap s !! h = Some n -> notice_inv (config s) n) /\
  notice_inv (config s) (LocalNotice s) /\ charging_tracked (LocalNotice s).

Lemma noticeConfirmStep_inv s x :
  notices_inv s -> notices_inv (noticeConfirmStep s x) /\ config (noticeConfirmStep s x) = config s.
Proof.
  intros (Hm & Hl & Ht). unfold noticeConfirmStep.
  destruct (isSideChainCoinbase _ _ _ _); [|by split].
  destruct (SCNoticeMap s !! scHash x) as [n|] eqn:En; [|by split].
  split; [|done]. split; [|done]. intros h n' Hi; simpl in Hi; apply lookup_insert_Some in Hi as [[<- <-]|[_ Hr]]; [|by eapply Hm].
  apply fold_left_inv; [by eapply Hm|]. intros. by apply recordNotice_inv.
Qed.

Lemma loopEnd_Ok c n : MaxSignerCount c <> 0 -> exists e, loopEnd c n = Ok e.
Proof. intros HM. unfold loopEnd. rewrite umod_Ok by done. by eexists. Qed.

Lemma updateSnapshotByNoticeConfirm_inv confirmed n s :
  notices_inv s -> MaxSignerCount (config s) <> 0 ->
  exists s1, updateSnapshotByNoticeConfirm confirmed n s = Ok s1 /\ notices_inv s1 /\ config s1 = config s.
Proof.
  intros Hinv HM. destruct (loopEnd_Ok (config s) n HM) as [e He].
  set (s0 := fold_left noticeConfirmStep confirmed s).
  assert (notices_inv s0 /\ config s0 = config s) as [Hinv0 Hc0].
  { apply (fold_left_inv (fun s' => notices_inv s' /\ config s' = config s)); [done|].
    intros s' x _ [Hs' <-]. by apply noticeConfirmStep_inv. }
  unfold updateSnapshotByNoticeConfirm. fold s0. rewrite Hc0, He. cbn [mbind res_bind].
  eexists; split; [done|]. destruct e; [|done].
  apply (fold_left_inv (fun s' => notices_inv s' /\ config s' = config s)); [done|].
  intros s' [h nt] Hin [(Hm & Hrest) Hc]. apply elem_of_range in Hin.
  split; [|done]. split; [|done]. intros h' n' Hi; simpl in Hi.
  apply lookup_insert_Some in Hi as [[<- <-]|[_ Hr]]; [|by eapply Hm].
  simpl. unfold checkNotices. apply fold_left_inv; [rewrite Hc, <- Hc0; by eapply (proj1 Hinv0)|].
  intros. by apply checkNotice_inv.
Qed.

Lemma updateSnapshotBySCCharging_inv charging n coinbase s :
  notices_inv s -> MaxSignerCount (config s) <> 0 ->
  exists s1, updateSnapshotBySCCharging charging n coinbase s = Ok s1 /\ notices_inv s1 /\ config s1 = config s.
Proof.
  intros (Hm & Hl & Ht) HM. destruct (loopEnd_Ok (config s) n HM) as [e He].
  destruct (foldM_total (fun n => notice_inv (config s) n /\ charging_tracked n)
    (chargingStep coinbase) charging (LocalNotice s)) as (n1 & Hn1 & Hinv1 & Ht1); [done| |].
  { intros g n0 _ [Hi Htr]. destruct (chargingStep_total coinbase n0 g Htr) as (n' & Hn' & Htr').
    exists n'. split_and!; [done|by eapply chargingStep_inv|done]. }
  unfold updateSnapshotBySCCharging. rewrite Hn1, He. cbn [mbind res_bind].
  eexists; split; [done|]. split; [|done]. split; [done|]. simpl. destruct e; [|done]. unfold checkNotices.
  apply (fold_left_inv (fun n => notice_inv (config s) n /\ charging_tracked n)); [done|].
  intros n0 kv _ []. split; [by apply checkNotice_inv|by apply checkNotice_tracked].
Qed.

(** The quorum the code computes is more than two thirds. *)
Lemma noticeQuorum_two_thirds c k :
  0 < MaxSignerCount c < 2 ^ 62 -> noticeQuorum c <= k <-> 2 * MaxSignerCount c < 3 * k.
Proof.
  intros HM. unfold noticeQuorum. rewrite u64_small by (split; lia). unfold i64.
  rewrite Z.mod_small by (Z.to_euclidean_division_equations; lia). Z.to_euclidean_division_equations; lia.
Qed.

(** C27. From a snapshot that keeps to the quorum (each notice marked successful
    was confirmed by the quorum, each charging of a side chain has its record),
    with a number of signers in range, recording any confirmations and
    chargings of a block never fails and gives such a snapshot again: a notice,
    on the chain that sends it and on the one that receives it, is marked
    successful only if the addresses recorded as confirming it, counted once
    each, are more than two thirds of [MaxSignerCount]. *)
Theorem notices_quorum s confirmed charging n coinbase :
  notices_inv s -> 0 < MaxSignerCount (config s) < 2 ^ 62 ->
  exists s1 s2, updateSnapshotByNoticeConfirm confirmed n s = Ok s1 /\
    updateSnapshotBySCCharging charging n coinbase s1 = Ok s2 /\ notices_inv s2 /\ config s2 = config s /\
    forall nt h r, (nt = LocalNotice s2 \/ exists chain, SCNoticeMap s2 !! chain = Some nt) ->
      ConfirmReceived nt !! h = Some r -> Success r = true ->
      2 * MaxSignerCount (config s) < 3 * Z.of_nat (size (NRecord r)).
Proof.
  intros Hinv HM. destruct (updateSnapshotByNoticeConfirm_inv confirmed n s) as (s1 & H1 & Hi1 & Hc1); [done|lia|].
  destruct (updateSnapshotBySCCharging_inv charging n coinbase s1) as (s2 & H2 & Hi2 & Hc2); [done|rewrite Hc1; lia|].
  rewrite Hc1 in Hc2. exists s1, s2. split_and!; try done. intros nt h r Hnt Hr Hs.
  apply noticeQuorum_two_thirds; [done|]. rewrite <- Hc2. destruct Hi2 as (Hm & Hl & _).
  destruct Hnt as [->|[chain Hch]]; [by eapply Hl|by eapply Hm].
Qed.
End Notices.
