(* ===== verification/AlienApply.v ===== *)
(** * The snapshot as a state machine

    Models [newSnapshot], [loadSnapshot], [copy] and [apply] of
    [consensus/alien/snapshot.go] and [ecrecover], [sigHash] of
    [consensus/alien/alien.go], composes the updates of the other files the way
    [apply] does, and proves the invariants every snapshot keeps.

    What the code takes from other packages is the class [Env]: the hash of a
    header, the hash that is signed, the recovery of a public key from a
    signature, Keccak and the RLP codec of the extra data. *)
From S2P Require Import Prelude AlienTypes AlienVotes AlienProposal AlienQueue GoText Hexutil AlienSideChain.

Class Env := {
  (** [header.Hash()] *)
  Header_Hash : Header -> Hash;
  (** Keccak of the RLP list of the fifteen fields of a header *)
  fieldsHash : Header -> Hash;
  (** [crypto.Ecrecover]; [None] is an error *)
  Ecrecover : Hash -> bytes -> option bytes;
  (** [crypto.Keccak256] *)
  Keccak256 : bytes -> bytes;
  (** [rlp.DecodeBytes] into a [HeaderExtra]; [None] is an error *)
  rlpDecodeExtra : bytes -> option HeaderExtra;
  (** [rlp.EncodeToBytes] of a [HeaderExtra]; [None] is an error *)
  rlpEncodeExtra : HeaderExtra -> option bytes
}.

#[export] Instance Header_eta : Settable Header := fun h =>
  mkHeader (hParentHash h) (hUncleHash h) (hCoinbase h) (hRoot h) (hTxHash h) (hReceiptHash h)
    (hBloom h) (hDifficulty h) (hNumber h) (hGasLimit h) (hGasUsed h) (hTime h) (hExtra h)
    (hMixDigest h) (hNonce h).

Section Seal.
Context {EN : Env}.

(** The signed hash leaves out the last 65 bytes of the extra data, and
    panics when there are fewer. *)
Definition sigHash (header : Header) : ares Hash :=
  extra ← gslice (hExtra header) 0 (glen (hExtra header) - 65);
  Ok (fieldsHash (header <| hExtra := extra |>)).

(** [sigcache] is what the cache of recent signatures answers. *)
Definition ecrecover (sigcache : Hash -> option Address) (header : Header) : ares Address :=
  match sigcache (Header_Hash header) with
  | Some address => Ok address
  | None =>
      if glen (hExtra header) <? extraSeal then Err errMissingSignature else
      signature ← gslice (hExtra header) (glen (hExtra header) - extraSeal) (glen (hExtra header));
      headerSigHash ← sigHash header;
      match Ecrecover headerSigHash signature with
      | None => Err errSignature
      | Some pubkey =>
          tail ← gslice pubkey 1 (glen pubkey);
          low ← gslice (Keccak256 tail) 12 (glen (Keccak256 tail));
          Ok (be (take 20 low))
      end
  end.

Definition decodeHeaderExtra (b : bytes) : ares HeaderExtra :=
  match rlpDecodeExtra b with Some e => Ok e | None => Err errDecode end.
Definition encodeHeaderExtra (e : HeaderExtra) : ares bytes :=
  match rlpEncodeExtra e with Some b => Ok b | None => Err errEncode end.
(** [header.Extra[extraVanity:len(header.Extra)-extraSeal]], decoded. *)
Definition headerExtra (header : Header) : ares HeaderExtra :=
  b ← gslice (hExtra header) extraVanity (glen (hExtra header) - extraSeal);
  decodeHeaderExtra b.
End Seal.

Section Operations.
Context {RT : GoRuntime} {EN : Env}.
(** The package variable [minVoterBalance], and the signature cache. *)
Variables (minVB : Z) (sigcache : Hash -> option Address).

(** ** Creation *)
Definition genesisVote (snap : Snapshot) (vote : Vote) : Snapshot :=
  let snap := snap <| Votes ::= <[Voter vote := vote]> |> in
  let snap := match Tally snap !! Candidate vote with
              | Some _ => snap
              | None => snap <| Tally ::= <[Candidate vote := 0]> |>
              end in
  snap <| Tally ::= alter (fun t => t + Stake vote) (Candidate vote) |>
       <| Voters ::= <[Voter vote := 0]> |>
       <| Candidates ::= <[Voter vote := candidateStateNormal]> |>.
(** [l[i%len(l)]] for [i] below [n]. *)
Definition cycle (l : list Address) (n : Z) : list Address :=
  map (fun i => default 0 (l !! Z.to_nat (i mod glen l))) (upto 0 n).
Definition newSnapshot (c : AlienConfig) (now : Z) (hash : Hash) (votes : list Vote) (lcrs : Z) : Snapshot :=
  let snap := mkSnapshot c lcrs (Period c) 0 0 hash ([] ++ [hash]) [] ∅ ∅ ∅ ∅ ∅ ∅ ∅ []
    (u64 now -u 1) (GenesisTimestamp c) ∅ ∅ ∅ ∅ ∅ (mkCCNotice ∅ ∅) minerRewardPerThousand
    (MinVoterBalance c) in
  let snap := fold_left genesisVote votes snap in
  if 0 <? glen (SelfVoteSigners c)
  then snap <| Signers := cycle (SelfVoteSigners c) (i64 (MaxSignerCount c)) |> else snap.

(** What [loadSnapshot] does with the decoded JSON. *)
Definition restoreSnapshot (c : AlienConfig) (snap : Snapshot) : Snapshot :=
  let snap := snap <| config := c |> in
  let snap := if MinerReward snap =? 0 then snap <| MinerReward := minerRewardPerThousand |> else snap in
  match MinVB snap with Some _ => snap | None => snap <| MinVB := Some minVB |> end.

(** ** Copy. Every map is copied entry by entry, and each proposal gets a cell
    of its own; the copies of the other fields are equal to the originals. *)
Definition copyProposal (s : Snapshot) (st : gmap Z nat * list Proposal) (kv : Hash * nat) :
  ares (gmap Z nat * list Proposal) :=
  proposal ← get_or_panic (pheap s !! kv.2);
  Ok (<[kv.1 := length st.2]> st.1, st.2 ++ [proposal]).
Definition copy (s : Snapshot) : ares Snapshot :=
  '(proposals, heap) ← foldM (copyProposal s) (range (Proposals s)) (∅, []);
  let cpy := s <| Proposals := proposals |> <| pheap := heap |> in
  let cpy := if MinerReward s =? 0 then cpy <| MinerReward := minerRewardPerThousand |> else cpy in
  Ok (cpy <| MinVB := Some (default minVB (MinVB s)) |>).

(** ** Apply *)
Definition headerNumber (h : Header) : ares Z := get_or_panic (hNumber h).

(** The history keeps the hashes of two loops. *)
Definition pushHistory (c : AlienConfig) (history : list Hash) (h : Hash) : ares (list Hash) :=
  let m2 := i64 (i64 (MaxSignerCount c) * 2) in
  history ← (if m2 <=? glen history then gslice history 1 m2 else Ok history);
  Ok (history ++ [h]).

Definition applyHeader (snap : Snapshot) (header : Header) : ares Snapshot :=
  coinbase ← ecrecover sigcache header;
  number ← headerNumber header;
  if negb (coinbase =? hCoinbase header) && negb (number =? bugFixBlockNumber)
  then Err errUnauthorized else
  extra ← headerExtra header;
  history ← pushHistory (config snap) (HistoryHash snap) (Header_Hash header);
  let snap := snap <| HeaderTime := bigUint64 (hTime header) |>
                   <| LoopStartTime := eLoopStartTime extra |>
                   <| Signers := SignerQueue extra |>
                   <| ConfirmedNumber := ConfirmedBlockNumber extra |>
                   <| HistoryHash := history |> in
  let snap := updateSnapshotByConfirmations (CurrentBlockConfirmations extra) snap in
  snap ← updateSnapshotByVotes (CurrentBlockVotes extra) number snap;
  snap ← updateSnapshotByMPVotes (ModifyPredecessorVotes extra) snap;
  let snap := updateSnapshotForPunish (SignerMissing extra) number (hCoinbase header) snap in
  let snap := updateSnapshotByProposals (CurrentBlockProposals extra) number snap in
  let snap := updateSnapshotByDeclares (CurrentBlockDeclares extra) number snap in
  let snap := if sPeriod snap =? 0 then snap <| sPeriod := Period (config snap) |> else snap in
  let snap := updateSnapshotBySetSCCoinbase (SideChainSetCoinbases extra) snap in
  snap ← updateSnapshotBySCConfirm (SideChainConfirmations extra) number snap;
  snap ← updateSnapshotByNoticeConfirm (SideChainNoticeConfirmed extra) number snap;
  snap ← calculateProposalResult number snap;
  r ← (if negb candidateNeedPD
       then umod (Number snap +u 1) (MaxSignerCount (config snap) *u LCRS snap) else Ok 1);
  let snap := if (r =? 0) && (candidateMaxLen <? Z.of_nat (size (Candidates snap)))
              then removeExtraCandidate snap else snap in
  snap ← updateSnapshotBySCCharging (SideChainCharging extra) number (hCoinbase header) snap;
  updateSnapshotForExpired number snap.

(** The headers are contiguous. *)
Fixpoint contiguous (hs : list Header) : ares bool :=
  match hs with
  | h1 :: ((h2 :: _) as tl) =>
      n1 ← headerNumber h1; n2 ← headerNumber h2;
      if bigUint64 n2 =? bigUint64 n1 +u 1 then contiguous tl else Ok false
  | _ => Ok true
  end.

Definition apply (headers : list Header) (s : Snapshot) : ares Snapshot :=
  match headers, last headers with
  | first :: _, Some lastHeader =>
      ok ← contiguous headers;
      if negb ok then Err errInvalidVotingChain else
      n0 ← headerNumber first;
      if negb (bigUint64 n0 =? Number s +u 1) then Err errInvalidVotingChain else
      snap ← copy s;
      snap ← foldM applyHeader headers snap;
      let snap := snap <| Number ::= fun n => n +u glen headers |>
                       <| sHash := Header_Hash lastHeader |> in
      _ ← verifyTallyCnt snap;
      Ok snap
  | _, _ => Ok s
  end.
End Operations.

(** ** Frames

    [F ignores field]: the observation [F] of a snapshot does not read the
    field. Each update leaves unchanged every observation that ignores the
    fields it writes. *)
Definition ignores {T U} (F : Snapshot -> T) (proj : Snapshot -> U) `{!Setter proj} : Prop :=
  forall s f, F (s <| proj ::= f |>) = F s.

Section Frames.
Context {RT : GoRuntime} {T : Type} (F : Snapshot -> T).

Section Voting.
Context (Hvotes : ignores F Votes) (Hvoters : ignores F Voters) (Htally : ignores F Tally)
  (Hcand : ignores F Candidates).

Lemma tally_add_frame s c d s' : tally_add s c d = Ok s' -> F s' = F s.
Proof using Htally. intros (t & _ & ->)%tally_add_Ok. apply Htally. Qed.

Lemma updateSnapshotByVotes_frame votes n s s' : updateSnapshotByVotes votes n s = Ok s' -> F s' = F s.
Proof using All.
  apply foldM_frame. intros s0 v s1. unfold voteStep. intros (s2 & H2 & H)%bind_Ok_inv. injection H as <-.
  rewrite Hvoters, Hvotes. transitivity (F s2).
  - destruct (Tally s2 !! Candidate v); [apply Htally|]. simpl negb. cbv iota zeta. by rewrite Hcand, Htally.
  - destruct (Votes s0 !! Voter v); [by eapply tally_add_frame|by injection H2 as <-].
Qed.

Lemma updateSnapshotByMPVotes_frame votes s s' : updateSnapshotByMPVotes votes s = Ok s' -> F s' = F s.
Proof using All.
  apply foldM_frame. intros s0 v s1. unfold mpVoteStep.
  destruct (Votes s0 !! Voter v); [|by intros [= <-]]. intros (s2 & H2%tally_add_frame & H)%bind_Ok_inv.
  apply bind_Ok_inv in H as (s3 & H3%tally_add_frame & H). injection H as <-. rewrite Hvotes. congruence.
Qed.

Lemma updateSnapshotForExpired_frame n s s' :
  ignores F Confirmations -> ignores F SCCoinbase -> updateSnapshotForExpired n s = Ok s' -> F s' = F s.
Proof using Hvotes Hvoters Htally.
  intros Hconf Hsc. unfold updateSnapshotForExpired. intros (l & _ & H)%bind_Ok_inv. injection H as <-.
  unfold removeZeroTally. rewrite fold_left_frame.
  2: { intros s0 [a t]. destruct (t <=? 0); [|done]. by rewrite Htally, Hsc. }
  unfold removeExpiredConfirmations. rewrite fold_left_frame.
  2: { intros s0 [a t]. destruct (_ <? _); [|done]. by rewrite Hconf. }
  destruct (_ <=? _); [|done]. apply fold_left_frame. intros s0 v. unfold removeExpiredVote.
  rewrite Hvoters, Hvotes. destruct (Tally s0 !! _); [|done]. destruct (_ =? 0); apply Htally.
Qed.
End Voting.

Lemma updateSnapshotForPunish_frame m n c s :
  ignores F Punished -> F (updateSnapshotForPunish m n c s) = F s.
Proof.
  intros Hp. unfold updateSnapshotForPunish.
  assert (forall k s0 a, F (reducePunish k s0 a) = F s0) as Hr.
  { intros k s0 a. unfold reducePunish. destruct (Punished s0 !! a); [|done]. destruct (_ <? _); apply Hp. }
  set (s2 := reducePunish _ _ _). assert (F s2 = F s) as Hs2.
  { subst s2. rewrite Hr. apply fold_left_frame. intros s0 a. unfold punishMissing.
    destruct (Punished s0 !! a); [destruct (_ <=? _)|]; rewrite ?Hp; done. }
  destruct (_ && _); rewrite ?Hp, <- Hs2; (apply fold_left_frame; intros s0 [a k]; apply Hr).
Qed.

Lemma updateSnapshotByProposals_frame ps n s :
  ignores F pheap -> ignores F Proposals -> F (updateSnapshotByProposals ps n s) = F s.
Proof.
  intros Hh Hp. unfold updateSnapshotByProposals. rewrite fold_left_frame; [apply Hh|].
  intros s0 p. unfold proposalStep. by rewrite Hp, Hh.
Qed.

Lemma updateSnapshotByDeclares_frame ds n s :
  ignores F pheap -> F (updateSnapshotByDeclares ds n s) = F s.
Proof.
  intros Hh. apply fold_left_frame. intros s0 d. unfold declareStep.
  destruct (Proposals s0 !! _); [|done]. destruct (pheap s0 !! _); [|done].
  destruct (_ || _); [done|]. destruct (existsb _ _); [done|]. apply Hh.
Qed.

Lemma updateSnapshotBySetSCCoinbase_frame l s :
  ignores F SCCoinbase -> F (updateSnapshotBySetSCCoinbase l s) = F s.
Proof.
  intros Hc. apply fold_left_frame. intros s0 x. unfold setSCCoinbase. rewrite Hc.
  destruct (SCCoinbase s0 !! _); [done|apply Hc].
Qed.

Lemma removeExtraCandidate_frame s :
  ignores F SCCoinbase -> ignores F Candidates -> F (removeExtraCandidate s) = F s.
Proof.
  intros Hs Hc. unfold removeExtraCandidate. destruct (_ <? _); [|done].
  apply fold_left_frame. intros s0 x. by rewrite Hc, Hs.
Qed.

Lemma updateSnapshotBySCConfirm_frame l n s s' :
  ignores F SCRecordMap -> ignores F SCRewardMap -> updateSnapshotBySCConfirm l n s = Ok s' -> F s' = F s.
Proof.
  intros Hr Hw. unfold updateSnapshotBySCConfirm.
  set (s1 := fold_left scConfirmStep l s). assert (F s1 = F s) as <-.
  { apply fold_left_frame. intros s0 x. unfold scConfirmStep. destruct (isSideChainCoinbase _ _ _ _); [|done].
    destruct (SCRecordMap s0 !! _); [|done]. destruct (_ <? _); [apply Hr|done]. }
  intros (e & _ & H)%bind_Ok_inv. destruct e; [|by injection H as <-].
  apply bind_Ok_inv in H as (s3 & H3 & H). injection H as <-.
  rewrite fold_left_frame.
  2: { intros s0 [h r]. unfold clearRewards. destruct (_ =? 0); apply Hw. }
  transitivity (F (checkSCConfirmation n s1)).
  - revert H3. apply foldM_frame. intros s0 [h r] s4. unfold scConfirmationStep.
    set (s5 := match SCRewardMap s0 !! h with Some _ => _ | None => _ end).
    assert (F s5 = F s0) as <- by (subst s5; destruct (SCRewardMap s0 !! h); [done|apply Hw]).
    intros ([n' cb] & _ & H)%bind_Ok_inv. apply bind_Ok_inv in H as ([s6 sc] & H6 & H). injection H as <-.
    transitivity (F s6); [destruct (_ =? 0); [done|apply Hw]|].
    destruct (_ <? n'); [|by injection H6 as <- <-].
    apply bind_Ok_inv in H6 as ([[? ?] ?] & _ & H6). apply bind_Ok_inv in H6 as (? & _ & H6).
    injection H6 as <- <-. apply Hr.
  - apply fold_left_frame. intros s0 [h r]. apply Hr.
Qed.

Lemma updateSnapshotByNoticeConfirm_frame l n s s' :
  ignores F SCNoticeMap -> updateSnapshotByNoticeConfirm l n s = Ok s' -> F s' = F s.
Proof.
  intros Hn. unfold updateSnapshotByNoticeConfirm.
  set (s1 := fold_left noticeConfirmStep l s). assert (F s1 = F s) as <-.
  { apply fold_left_frame. intros s0 x. unfold noticeConfirmStep. destruct (isSideChainCoinbase _ _ _ _); [|done].
    destruct (SCNoticeMap s0 !! _); [apply Hn|done]. }
  intros (e & _ & H)%bind_Ok_inv. injection H as <-. destruct e; [|done].
  apply fold_left_frame. intros s0 [h x]. apply Hn.
Qed.

Lemma updateSnapshotBySCCharging_frame l n c s s' :
  ignores F LocalNotice -> updateSnapshotBySCCharging l n c s = Ok s' -> F s' = F s.
Proof.
  intros Hn. unfold updateSnapshotBySCCharging. intros (n1 & _ & H)%bind_Ok_inv.
  apply bind_Ok_inv in H as (e & _ & H). injection H as <-. apply Hn.
Qed.

Lemma calculateProposalResult_frames n s s' :
  ignores F ProposalRefund -> ignores F Candidates -> ignores F MinerReward -> ignores F SCRecordMap ->
  ignores F MinVB -> ignores F SCNoticeMap -> ignores F Proposals ->
  calculateProposalResult n s = Ok s' -> F s' = F s.
Proof.
  intros Hr Hc Hm Hs Hv Hn Hp. unfold calculateProposalResult.
  set (s0 := s <| ProposalRefund ::= _ |>). assert (F s0 = F s) as <- by apply Hr.
  assert (forall a b c s1, F (addRefund a b c s1) = F s1) as Ha by (intros; apply Hr).
  apply foldM_frame. intros s1 [h loc] s2. unfold resultStep. intros (p & _ & H)%bind_Ok_inv.
  destruct (proposalDue s1 n p); [|by injection H as <-].
  apply bind_Ok_inv in H as (s3 & H3 & H). injection H as <-. rewrite Hp.
  rewrite <- (Ha (bigUint64 n) (Proposer p) (CurrentDeposit p) s1).
  set (s4 := addRefund _ _ _ s1) in *. destruct (proposalPasses s4 p).
  - unfold executeProposal, executeRent in H3.
    repeat (case_match; simplify_eq; rewrite ?Hr, ?Hc, ?Hm, ?Hs, ?Hv, ?Hn; try done).
    apply bind_Ok_inv in H3 as (? & _ & H3). injection H3 as <-. by rewrite Hn, Hs.
  - injection H3 as <-. unfold rejectProposal. destruct (_ =? _); [apply Ha|done].
Qed.
End Frames.

(** ** Invariants of the snapshot *)

(** What an update may not change except through the operations on it. *)
Definition core (s : Snapshot) := (config s, LCRS s, Number s, sHash s, HistoryHash s).
Definition voting (s : Snapshot) := (Votes s, Tally s).
Definition notices (s : Snapshot) := (config s, SCNoticeMap s, LocalNotice s).
Definition props (s : Snapshot) := (Proposals s, length (pheap s)).

Record good (s : Snapshot) : Prop := {
  good_tally : tally_inv s;
  good_heap : heap_wf s;
  good_notices : notices_inv s;
  good_count : MaxSignerCount (config s) <> 0
}.
(** An update that keeps the invariant and the identity of the snapshot. *)
Definition keeps (s s' : Snapshot) : Prop := (good s -> good s') /\ core s' = core s.

Lemma keeps_trans s1 s2 s3 : keeps s1 s2 -> keeps s2 s3 -> keeps s1 s3.
Proof. intros [H1 E1] [H2 E2]. split; [auto|congruence]. Qed.

Lemma tally_inv_voting s s' : voting s' = voting s -> tally_inv s -> tally_inv s'.
Proof. intros [= HV HT] [H1 H2 H3]. split; rewrite ?HV, ?HT; done. Qed.
Lemma heap_wf_props s s' : props s' = props s -> heap_wf s -> heap_wf s'.
Proof. intros [= HP HH] Hwf h loc. rewrite HP, HH. apply Hwf. Qed.
Lemma notices_inv_obs s s' : notices s' = notices s -> notices_inv s -> notices_inv s'.
Proof. intros [= Hc Hm Hl]. unfold notices_inv. by rewrite Hc, Hm, Hl. Qed.

Lemma keeps_intro s s' :
  core s' = core s -> (good s -> tally_inv s') -> (good s -> heap_wf s') -> (good s -> notices_inv s') ->
  keeps s s'.
Proof.
  intros Hc Ht Hh Hn. split; [|done]. intros Hg. split; [auto..|].
  injection Hc as -> _ _ _ _. apply Hg.
Qed.

Lemma good_voting s s' : voting s' = voting s -> good s -> tally_inv s'.
Proof. intros H []. by eapply tally_inv_voting. Qed.
Lemma good_props s s' : props s' = props s -> good s -> heap_wf s'.
Proof. intros H []. by eapply heap_wf_props. Qed.
Lemma good_obs s s' : notices s' = notices s -> good s -> notices_inv s'.
Proof. intros H []. by eapply notices_inv_obs. Qed.

Lemma heap_wf_sub s s' :
  (forall h loc, Proposals s' !! h = Some loc -> Proposals s !! h = Some loc) -> pheap s' = pheap s ->
  heap_wf s -> heap_wf s'.
Proof. intros HP HH Hwf h loc Hl. rewrite HH. eauto. Qed.

(** Each part of the invariant an update does not touch, by its frame lemma. *)
Ltac obs_frame app :=
  lazymatch goal with
  | |- core _ = core _ => app core
  | |- good _ -> tally_inv _ => apply good_voting; app voting
  | |- good _ -> heap_wf _ => apply good_props; app props
  | |- good _ -> notices_inv _ => apply good_obs; app notices
  end;
  solve [eassumption | intros ? ?; reflexivity].
Tactic Notation "by_frame" uconstr(L) := obs_frame ltac:(fun F => eapply (L F)).

Section Keeps.
Context {RT : GoRuntime}.

Lemma confirmations_keeps l s : keeps s (updateSnapshotByConfirmations l s).
Proof. split; [|done]. by intros [[] ? ? ?]. Qed.

Lemma votes_keeps l n s s' :
  valid_votes l -> updateSnapshotByVotes l n s = Ok s' -> keeps s s'.
Proof.
  intros Hl H. apply keeps_intro; try by_frame updateSnapshotByVotes_frame.
  intros [Ht _ _ _]. revert H. apply foldM_inv; [done|].
  intros v s1 s2 Hv%(proj1 (Forall_forall _ _) Hl). by eauto using voteStep_inv.
Qed.

Lemma mpVotes_keeps l s s' :
  valid_votes l -> updateSnapshotByMPVotes l s = Ok s' -> keeps s s'.
Proof.
  intros Hl H. apply keeps_intro; try by_frame updateSnapshotByMPVotes_frame.
  intros [Ht _ _ _]. revert H. apply foldM_inv; [done|].
  intros v s1 s2 Hv%(proj1 (Forall_forall _ _) Hl). by eauto using mpVoteStep_inv.
Qed.

Lemma punish_keeps m n c s : keeps s (updateSnapshotForPunish m n c s).
Proof. apply keeps_intro; by_frame updateSnapshotForPunish_frame. Qed.

Lemma proposals_keeps l n s : keeps s (updateSnapshotByProposals l n s).
Proof.
  apply keeps_intro; try by_frame updateSnapshotByProposals_frame.
  intros [_ Hwf _ _]. by apply updateSnapshotByProposals_wf.
Qed.

Lemma declares_keeps l n s : keeps s (updateSnapshotByDeclares l n s).
Proof.
  apply keeps_intro; try by_frame updateSnapshotByDeclares_frame.
  apply good_props. apply fold_left_frame. intros s0 d. unfold declareStep.
  destruct (Proposals s0 !! _); [|done]. destruct (pheap s0 !! _); [|done].
  destruct (_ || _); [done|]. destruct (existsb _ _); [done|]. unfold props. simpl. by rewrite length_insert.
Qed.

Lemma setcoinbase_keeps l s : keeps s (updateSnapshotBySetSCCoinbase l s).
Proof. apply keeps_intro; by_frame updateSnapshotBySetSCCoinbase_frame. Qed.

Lemma scconfirm_keeps l n s s' : updateSnapshotBySCConfirm l n s = Ok s' -> keeps s s'.
Proof. intros H. apply keeps_intro; by_frame updateSnapshotBySCConfirm_frame. Qed.

Lemma extra_keeps s : keeps s (removeExtraCandidate s).
Proof. apply keeps_intro; by_frame removeExtraCandidate_frame. Qed.

Lemma notice_keeps l n s s' : updateSnapshotByNoticeConfirm l n s = Ok s' -> keeps s s'.
Proof.
  intros H. apply keeps_intro; try by_frame updateSnapshotByNoticeConfirm_frame.
  intros [_ _ Hn HM]. destruct (updateSnapshotByNoticeConfirm_inv l n s Hn HM) as (s1 & H1 & Hs1 & _). congruence.
Qed.

Lemma charging_keeps l n c s s' : updateSnapshotBySCCharging l n c s = Ok s' -> keeps s s'.
Proof.
  intros H. apply keeps_intro; try by_frame updateSnapshotBySCCharging_frame.
  intros [_ _ Hn HM]. destruct (updateSnapshotBySCCharging_inv l n c s Hn HM) as (s1 & H1 & Hs1 & _). congruence.
Qed.

Lemma expired_keeps n s s' : updateSnapshotForExpired n s = Ok s' -> keeps s s'.
Proof.
  intros H. apply keeps_intro; try by_frame updateSnapshotForExpired_frame.
  intros [Ht _ _ _]. by apply (updateSnapshotForExpired_inv n s s').
Qed.
End Keeps.

Section ProposalKeeps.
Context {RT : GoRuntime}.

(** A rented side chain gets a charging; the confirmations are untouched. *)
Lemma executeRent_notices n p s s' :
  executeRent n p s = Ok s' -> notices_inv s -> notices_inv s'.
Proof.
  unfold executeRent. destruct (SCRecordMap s !! SCHash p); [|intros [= <-]; done].
  intros (r & _ & H)%bind_Ok_inv [Hm Hl]. injection H as <-. split; [|exact Hl].
  intros h n' Hn; simpl in *. apply lookup_insert_Some in Hn as [[<- <-]|[_ Hn]]; [|by eapply Hm].
  destruct (SCNoticeMap s !! SCHash p) eqn:E; simpl; [by apply (Hm _ _ E)|].
  intros h' r' Hr; simpl in Hr. by rewrite lookup_empty in Hr.
Qed.

Lemma executeProposal_notices n p s s' :
  executeProposal n p s = Ok s' -> notices_inv s -> notices_inv s'.
Proof.
  unfold executeProposal.
  repeat (case_match; [intros [= <-]; try done; by repeat case_match|]).
  case_match; [apply executeRent_notices|by intros [= <-]].
Qed.

Lemma resultStep_notices n s kv s' : resultStep n s kv = Ok s' -> notices_inv s -> notices_inv s'.
Proof.
  destruct kv as [h loc]. unfold resultStep. intros (p & _ & H)%bind_Ok_inv.
  destruct (proposalDue s n p); [|by injection H as <-].
  apply bind_Ok_inv in H as (s2 & H2 & H). injection H as <-.
  set (s1 := addRefund _ _ _ s) in *. intros Hs. change (notices_inv s1) in Hs.
  change (notices_inv s2). destruct (proposalPasses s1 p); [by eapply executeProposal_notices|].
  injection H2 as <-. unfold rejectProposal. by destruct (_ =? _).
Qed.

Lemma result_keeps n s s' : calculateProposalResult n s = Ok s' -> keeps s s'.
Proof.
  intros H. apply keeps_intro; try by_frame calculateProposalResult_frames.
  - intros [_ Hwf _ _]. unfold calculateProposalResult in H.
    set (s0 := s <| ProposalRefund ::= _ |>) in H. change (heap_wf s0) in Hwf. revert Hwf.
    revert H. apply (foldM_inv (fun s1 => heap_wf s0 -> heap_wf s1)); [done|].
    intros kv s1 s2 _ IH Hs Hwf. eapply heap_wf_sub; [|apply (resultStep_frame n s1 kv s2 Hs)|by apply IH].
    intros h loc. rewrite (resultStep_Proposals _ _ _ _ Hs).
    destruct (dueKey s1 n kv); [|done]. by intros [_ ?]%lookup_delete_Some.
  - intros [_ _ Hn _]. unfold calculateProposalResult in H.
    set (s0 := s <| ProposalRefund ::= _ |>) in H. change (notices_inv s0) in Hn. revert H Hn.
    apply (foldM_inv (fun s1 => notices_inv s0 -> notices_inv s1)); [done|].
    intros kv s1 s2 _ IH Hs Hn. eapply resultStep_notices; eauto.
Qed.
End ProposalKeeps.

(** RLP integers are unsigned: decoded stakes are not negative. *)
Definition rlp_unsigned (EN : Env) : Prop :=
  forall b e, rlpDecodeExtra b = Some e ->
    valid_votes (CurrentBlockVotes e) /\ valid_votes (ModifyPredecessorVotes e).

(** The history holds the hashes of the last two loops, the last of them the
    hash of the snapshot. *)
Definition history_inv (s : Snapshot) : Prop :=
  glen (HistoryHash s) = Z.min (2 * MaxSignerCount (config s)) (Number s + 1) /\
  last (HistoryHash s) = Some (sHash s).
Record snapshot_inv (s : Snapshot) : Prop := {
  inv_good : good s;
  inv_history : history_inv s;
  inv_count : 1 <= MaxSignerCount (config s) < 2 ^ 32;
  inv_number : 0 <= Number s < 2 ^ 64
}.

Lemma pushHistory_spec c l h :
  1 <= MaxSignerCount c < 2 ^ 32 -> glen l <= 2 * MaxSignerCount c ->
  exists l', pushHistory c l h = Ok l' /\ last l' = Some h /\
    glen l' = Z.min (2 * MaxSignerCount c) (glen l + 1).
Proof.
  intros HM Hl. unfold pushHistory.
  assert (i64 (i64 (MaxSignerCount c) * 2) = 2 * MaxSignerCount c) as ->.
  { rewrite !i64_small; rewrite ?i64_small; lia. }
  destruct (Z.leb_spec (2 * MaxSignerCount c) (glen l)) as [Hle|Hlt].
  - unfold gslice. rewrite decide_True by (unfold glen in *; lia). cbn [mbind res_bind].
    eexists; split_and!; [done|apply last_snoc|]. unfold glen in *.
    rewrite length_app, length_take, length_drop. simpl length. lia.
  - cbn [mbind res_bind]. eexists; split_and!; [done|apply last_snoc|].
    unfold glen in *. rewrite length_app. simpl length. lia.
Qed.

Section Apply.
Context {RT : GoRuntime} {EN : Env}.
Variables (minVB : Z) (sigcache : Hash -> option Address).

(** Every tally entry is positive: what the expiry pass leaves behind. *)
Definition tally_positive (s : Snapshot) : Prop := forall c t, Tally s !! c = Some t -> 0 < t.

Lemma applyHeader_inv s h s' :
  rlp_unsigned EN -> good s -> 1 <= MaxSignerCount (config s) < 2 ^ 32 ->
  glen (HistoryHash s) <= 2 * MaxSignerCount (config s) ->
  applyHeader sigcache s h = Ok s' ->
  good s' /\ tally_positive s' /\
  config s' = config s /\ LCRS s' = LCRS s /\ Number s' = Number s /\ sHash s' = sHash s /\
  last (HistoryHash s') = Some (Header_Hash h) /\
  glen (HistoryHash s') = Z.min (2 * MaxSignerCount (config s)) (glen (HistoryHash s) + 1).
Proof.
  intros Hrlp Hg HM Hlen H. unfold applyHeader in H.
  apply bind_Ok_inv in H as (cb & _ & H). apply bind_Ok_inv in H as (number & _ & H).
  destruct (_ && _); [done|]. apply bind_Ok_inv in H as (extra & Hx & H).
  assert (valid_votes (CurrentBlockVotes extra) /\ valid_votes (ModifyPredecessorVotes extra)) as [Hv1 Hv2].
  { unfold headerExtra in Hx. apply bind_Ok_inv in Hx as (b & _ & Hb). unfold decodeHeaderExtra in Hb.
    destruct (rlpDecodeExtra b) eqn:E; [|done]. injection Hb as <-. by eapply Hrlp. }
  destruct (pushHistory_spec (config s) (HistoryHash s) (Header_Hash h) HM Hlen) as (hist & Hp & Hlast & Hhl).
  rewrite Hp in H. cbn [mbind res_bind] in H.
  set (s0 := s <| HeaderTime := _ |> <| LoopStartTime := _ |> <| Signers := _ |>
               <| ConfirmedNumber := _ |> <| HistoryHash := hist |>) in H.
  assert (good s0) as Hg0 by (destruct Hg as [[] ? ? ?]; done).
  enough (keeps s0 s' /\ tally_positive s') as [[Hgs' Hcore] Hpos].
  { injection Hcore as E1 E2 E3 E4 E5. split_and!; auto.
    - by rewrite E5.
    - rewrite E5. exact Hhl. }
  apply bind_Ok_inv in H as (s2 & H2%votes_keeps & H); [|done].
  apply bind_Ok_inv in H as (s3 & H3%mpVotes_keeps & H); [|done].
  apply bind_Ok_inv in H as (s8 & H8%scconfirm_keeps & H).
  apply bind_Ok_inv in H as (s9 & H9%notice_keeps & H).
  apply bind_Ok_inv in H as (s10 & H10%result_keeps & H).
  apply bind_Ok_inv in H as (r & _ & H). apply bind_Ok_inv in H as (s12 & H12%charging_keeps & H).
  assert (keeps s0 s12) as [Hg12 Hc12].
  { eapply keeps_trans; [apply confirmations_keeps|]. eapply keeps_trans; [exact H2|].
    eapply keeps_trans; [exact H3|]. eapply keeps_trans; [apply punish_keeps|].
    eapply keeps_trans; [apply proposals_keeps|]. eapply keeps_trans; [apply declares_keeps|].
    eapply keeps_trans; [|eapply keeps_trans; [apply setcoinbase_keeps|]; eapply keeps_trans; [exact H8|]].
    { destruct (_ =? 0); [|by split]. split; [|done]. by intros [[] ? ? ?]. }
    eapply keeps_trans; [exact H9|]. eapply keeps_trans; [exact H10|].
    eapply keeps_trans; [|exact H12]. destruct (_ && _); [apply extra_keeps|by split]. }
  split; [eapply keeps_trans; [|by eapply expired_keeps]; by split|].
  refine (proj2 (updateSnapshotForExpired_inv number s12 s' _ H)). apply Hg12, Hg0.
Qed.

(** *** Copy *)
Lemma copyProposal_run s l m heap :
  NoDup l.*1 -> (forall h loc, (h, loc) ∈ l -> is_Some (pheap s !! loc)) ->
  exists m' heap', foldM (copyProposal s) l (m, heap) = Ok (m', heap') /\
    (exists suffix, heap' = heap ++ suffix) /\
    (forall h, h ∉ l.*1 -> m' !! h = m !! h) /\
    (forall h loc, (h, loc) ∈ l -> exists loc', m' !! h = Some loc' /\ heap' !! loc' = pheap s !! loc).
Proof.
  revert m heap. induction l as [|[h loc] l IH]; intros m heap Hnd Hl.
  { exists m, heap. split_and!; [done|exists []; by rewrite app_nil_r|done|].
    intros h loc Hin. by apply not_elem_of_nil in Hin. }
  apply NoDup_cons in Hnd as [Hh Hnd]. destruct (Hl h loc ltac:(left)) as [p Hp].
  destruct (IH (<[h := length heap]> m) (heap ++ [p])) as (m' & heap' & Hrun & [suf ->] & Hout & Hin);
    [done|intros; eapply Hl; by right|].
  exists m', ((heap ++ [p]) ++ suf). split_and!.
  - cbn [foldM]. assert (copyProposal s (m, heap) (h, loc) = Ok (<[h := length heap]> m, heap ++ [p])) as ->
      by (unfold copyProposal; simpl; by rewrite Hp). exact Hrun.
  - exists ([p] ++ suf). by rewrite app_assoc.
  - intros h'. change (((h, loc) :: l).*1) with (h :: l.*1). intros [Hne Hni]%not_elem_of_cons.
    rewrite Hout by done. by apply lookup_insert_ne.
  - intros h' loc' [[= -> ->]|Hin']%elem_of_cons; [|eauto].
    exists (length heap). rewrite Hout, lookup_insert_eq by done. split; [done|].
    by rewrite <- app_assoc, lookup_app_r, Nat.sub_diag by lia.
Qed.

Lemma copy_props s :
  heap_wf s -> exists m heap, foldM (copyProposal s) (range (Proposals s)) (∅, []) = Ok (m, heap) /\
    (forall h, m !! h ≫= (fun loc => heap !! loc) = getProposal s h) /\
    (forall h loc, m !! h = Some loc -> (loc < length heap)%nat).
Proof.
  intros Hwf. destruct (copyProposal_run s (range (Proposals s)) ∅ []) as (m & heap & Hrun & _ & Hout & Hin).
  { apply range_NoDup. }
  { intros h loc Hl%elem_of_range. by apply lookup_lt_is_Some, Hwf with (h := h). }
  assert (forall h, Proposals s !! h = None -> m !! h = None) as Hnone.
  { intros h Hh. rewrite Hout; [apply lookup_empty|].
    intros ([h' loc] & -> & Hin')%list_elem_of_fmap. apply elem_of_range in Hin'. simpl in Hh. congruence. }
  exists m, heap. split_and!; [done|..].
  - intros h. unfold getProposal. destruct (Proposals s !! h) as [loc|] eqn:E.
    + destruct (Hin h loc) as (loc' & -> & Hloc'); [by apply elem_of_range|]. done.
    + by rewrite (Hnone _ E).
  - intros h loc Hm. destruct (Proposals s !! h) as [loc0|] eqn:E; [|by rewrite (Hnone _ E) in Hm].
    destruct (Hin h loc0) as (loc' & Hm' & Hloc'); [by apply elem_of_range|].
    rewrite Hm in Hm'. injection Hm' as <-. apply lookup_lt_is_Some. rewrite Hloc'.
    by apply lookup_lt_is_Some, Hwf with (h := h).
Qed.

Lemma copy_total s :
  heap_wf s -> exists cpy, copy minVB s = Ok cpy /\ keeps s cpy /\ is_Some (MinVB cpy) /\
    forall h, getProposal cpy h = getProposal s h.
Proof.
  intros Hwf. destruct (copy_props s Hwf) as (m & heap & Hrun & Hget & Hlt). unfold copy. rewrite Hrun.
  cbn [mbind res_bind]. eexists; split; [done|].
  destruct (MinerReward s =? 0); (split; [|split; [by eexists|done]]);
    (split; [|done]); intros [[] ? [] ?]; split; done.
Qed.

(** *** Apply *)
Lemma foldM_applyHeader_inv hs s s' :
  rlp_unsigned EN -> good s -> 1 <= MaxSignerCount (config s) < 2 ^ 32 ->
  glen (HistoryHash s) <= 2 * MaxSignerCount (config s) -> hs <> [] ->
  foldM (applyHeader sigcache) hs s = Ok s' ->
  good s' /\ tally_positive s' /\
  config s' = config s /\ LCRS s' = LCRS s /\ Number s' = Number s /\ sHash s' = sHash s /\
  (exists h, last hs = Some h /\ last (HistoryHash s') = Some (Header_Hash h)) /\
  glen (HistoryHash s') = Z.min (2 * MaxSignerCount (config s)) (glen (HistoryHash s) + glen hs).
Proof.
  intros Hrlp. revert s s'. induction hs as [|h hs IH] using rev_ind; [done|].
  intros s s' Hg HM Hlen _ H. rewrite foldM_app in H. apply bind_Ok_inv in H as (s1 & H1 & H).
  cbn [foldM] in H. apply bind_Ok_inv in H as (s2 & H2 & H). injection H as <-.
  rewrite last_snoc. unfold glen in *. rewrite length_app. cbn [length].
  destruct (decide (hs = [])) as [->|Hne].
  - injection H1 as <-. destruct (applyHeader_inv s h s2) as (? & ? & ? & ? & ? & ? & ? & Hl); [done..|].
    unfold glen in Hl. rewrite Hl. split_and!; try done; try (by eexists); simpl; lia.
  - destruct (IH s s1) as (Hg1 & _ & Hc1 & Hl1 & Hn1 & Hh1 & _ & Hlen1); [done..|].
    unfold glen in Hlen1.
    destruct (applyHeader_inv s1 h s2) as (? & ? & Hc2 & ? & ? & ? & ? & Hl2);
      rewrite ?Hc1; try done; try (unfold glen; lia).
    unfold glen in Hl2. rewrite Hl2, Hc1. split_and!; try done; try congruence; try (by eexists); lia.
Qed.
End Apply.

Section ApplyTheorems.
Context {RT : GoRuntime} {EN : Env}.
Variables (minVB : Z) (sigcache : Hash -> option Address).

Lemma apply_Ok_inv hs s s' :
  hs <> [] -> heap_wf s -> apply minVB sigcache hs s = Ok s' ->
  exists cpy s1 h, copy minVB s = Ok cpy /\ keeps s cpy /\
    foldM (applyHeader sigcache) hs cpy = Ok s1 /\ last hs = Some h /\
    s' = s1 <| Number ::= fun n => n +u glen hs |> <| sHash := Header_Hash h |>.
Proof.
  intros Hne Hwf. destruct (copy_total minVB s Hwf) as (cpy & Hcpy & Hk & _).
  unfold apply. destruct hs as [|h0 hs]; [done|]. destruct (last (h0 :: hs)) as [h|] eqn:Elast.
  2: { by apply last_None in Elast. }
  intros (ok & _ & H)%bind_Ok_inv. destruct ok; [|done]. cbn [negb] in H.
  apply bind_Ok_inv in H as (n0 & _ & H). destruct (negb _); [done|].
  rewrite Hcpy in H. cbn [mbind res_bind] in H.
  apply bind_Ok_inv in H as (s1 & H1 & H). apply bind_Ok_inv in H as ([] & _ & H).
  injection H as <-. by exists cpy, s1, h.
Qed.

Lemma apply_inv hs s s' :
  rlp_unsigned EN -> snapshot_inv s -> hs <> [] -> Number s + glen hs < 2 ^ 64 ->
  apply minVB sigcache hs s = Ok s' ->
  snapshot_inv s' /\ tally_positive s' /\ config s' = config s /\ Number s' = Number s + glen hs /\
  Some (sHash s') = Header_Hash <$> last hs.
Proof.
  intros Hrlp [Hg [Hlen Hlast] HM HN] Hne Hb H.
  apply apply_Ok_inv in H as (cpy & s1 & h & _ & [Hk Hcore] & Hrun & Hh & ->); [|done|apply Hg].
  injection Hcore as Ec El En Eh Ehist. rewrite <- Ec in HM. rewrite <- Ec, <- Ehist, <- En in Hlen.
  destruct (foldM_applyHeader_inv sigcache hs cpy s1) as
    (Hg1 & Hpos & Hc1 & Hl1 & Hn1 & _ & (h' & Hh' & Hlast1) & Hlen1); [done|auto|done|lia|done|done|].
  rewrite Hh in Hh'. injection Hh' as <-.
  assert (Number s1 +u glen hs = Number s + glen hs) as HN'.
  { rewrite Hn1, En. apply u64_small. split; unfold glen in *; lia. }
  split_and!; simpl; [|done|congruence|done|by rewrite Hh].
  split; simpl.
  - destruct Hg1 as [[] ? ? ?]. done.
  - split; simpl; [|done]. rewrite HN', Hlen1, Hlen, Hc1, En, Ec in *. assert (0 <= glen hs) by (unfold glen; lia). lia.
  - by rewrite Hc1.
  - rewrite HN'. unfold glen in *. lia.
Qed.

(** C1. A snapshot that satisfies the invariants and to which headers are
    applied gives one that satisfies them again: the tally of every candidate
    is the sum of the stakes voted for it and positive, the stored proposals
    are allocated, notices keep to their quorum, and the history holds the
    last [min(2*MaxSignerCount, Number+1)] hashes and ends with the hash of
    the last header applied. *)
Theorem apply_preserves_inv hs s s' :
  rlp_unsigned EN -> snapshot_inv s -> hs <> [] -> Number s + glen hs < 2 ^ 64 ->
  apply minVB sigcache hs s = Ok s' ->
  snapshot_inv s' /\ tally_positive s' /\ config s' = config s /\ Number s' = Number s + glen hs /\
  Some (sHash s') = Header_Hash <$> last hs.
Proof. apply apply_inv. Qed.
End ApplyTheorems.

(** ** Errors *)

(** Every error [r] can return satisfies [L]. *)
Definition errs {E A} (L : E -> Prop) (r : res E A) : Prop := forall e, r = Err e -> L e.

Section Errs.
Context {E : Type} (L : E -> Prop).
Lemma errs_Ok {A} (a : A) : errs L (Ok a). Proof. done. Qed.
Lemma errs_Panic {A} : errs L (@Panic E A). Proof. done. Qed.
Lemma errs_Hang {A} : errs L (@Hang E A). Proof. done. Qed.
Lemma errs_Err {A} e : L e -> errs L (@Err E A e). Proof. by intros ? ? [= ->]. Qed.
Lemma errs_bind {A B} (m : res E A) (k : A -> res E B) :
  errs L m -> (forall a, m = Ok a -> errs L (k a)) -> errs L (m ≫= k).
Proof. intros Hm Hk e. destruct m; simpl; intros; simplify_eq; [by eapply Hk|by apply Hm]. Qed.
Lemma errs_foldM {S A} (body : S -> A -> res E S) xs s :
  (forall s x, errs L (body s x)) -> errs L (foldM body xs s).
Proof.
  intros Hb. revert s; induction xs as [|x xs IH]; intros s; simpl; [apply errs_Ok|].
  by apply errs_bind.
Qed.
Lemma errs_forIncl {S} a b (body : S -> Z -> res E S) s :
  (forall s x, errs L (body s x)) -> errs L (forIncl a b body s).
Proof.
  intros Hb. unfold forIncl. destruct (_ =? _); [|by apply errs_foldM].
  apply errs_bind; [by apply errs_foldM|]. intros; apply errs_Hang.
Qed.
Lemma errs_get_or_panic {A} (o : option A) : errs L (get_or_panic o).
Proof. by destruct o. Qed.
Lemma errs_gindex {A} (l : list A) i : errs L (gindex l i).
Proof. unfold gindex. destruct (decide _); [apply errs_get_or_panic|done]. Qed.
Lemma errs_gslice {A} (l : list A) i j : errs L (gslice l i j).
Proof. unfold gslice. by destruct (decide _). Qed.
Lemma errs_umod x y : errs L (umod x y).
Proof. unfold umod. by destruct (decide _). Qed.
Lemma errs_bigDiv x y : errs L (bigDiv x y).
Proof. unfold bigDiv. by destruct (decide _). Qed.
End Errs.

Create HintDb errs discriminated.
#[export] Hint Resolve errs_Ok errs_Panic errs_Hang errs_bind errs_foldM errs_forIncl errs_get_or_panic
  errs_gindex errs_gslice errs_umod errs_bigDiv : errs.
(** Walks through a computation: binds, loops, primitives and cases. *)
Ltac solve_errs :=
  repeat (intros; cbv beta zeta in *;
    first [ progress eauto 1 with errs
          | apply errs_bind | apply errs_foldM | apply errs_forIncl
          | match goal with |- errs _ (match ?x with _ => _ end) => destruct x end ]).

Section Errors.
Context {RT : GoRuntime} {EN : Env}.
Variables (minVB : Z) (sigcache : Hash -> option Address).
Variable (L : AlienError -> Prop).

Lemma votes_errs l n s : errs L (updateSnapshotByVotes l n s).
Proof. apply errs_foldM. intros s0 v. unfold voteStep, tally_add. solve_errs. Qed.
Lemma mpVotes_errs l s : errs L (updateSnapshotByMPVotes l s).
Proof. apply errs_foldM. intros s0 v. unfold mpVoteStep, tally_add. solve_errs. Qed.
Lemma scconfirm_errs l n s : errs L (updateSnapshotBySCConfirm l n s).
Proof.
  unfold updateSnapshotBySCConfirm, updateSCConfirmation, scConfirmationStep, calculateSCConfirmedNumber,
    scanNumber, scanConfirm, loopEnd. solve_errs.
Qed.
Lemma notice_errs l n s : errs L (updateSnapshotByNoticeConfirm l n s).
Proof. unfold updateSnapshotByNoticeConfirm, loopEnd. solve_errs. Qed.
Lemma charging_errs l n c s : errs L (updateSnapshotBySCCharging l n c s).
Proof. unfold updateSnapshotBySCCharging, chargingStep, loopEnd. solve_errs. Qed.
Lemma result_errs n s : errs L (calculateProposalResult n s).
Proof.
  unfold calculateProposalResult, resultStep, executeProposal, executeRent. solve_errs.
Qed.
Lemma expired_errs n s : errs L (updateSnapshotForExpired n s).
Proof. unfold updateSnapshotForExpired, collectExpired, voteExpired. solve_errs. Qed.
End Errors.

(** The faults of a single header. *)
Definition headerFault (e : AlienError) : Prop :=
  e = errMissingSignature \/ e = errSignature \/ e = errUnauthorized \/ e = errDecode.
(** The numbers of the headers count up from [n]. *)
Definition consecutive (n : Z) (hs : list Header) : Prop :=
  forall i h, hs !! i = Some h -> bigUint64 <$> hNumber h = Some (u64 (n + Z.of_nat i)).

Section ApplyErrors.
Context {RT : GoRuntime} {EN : Env}.
Variables (minVB : Z) (sigcache : Hash -> option Address).

Lemma applyHeader_errs s h : errs headerFault (applyHeader sigcache s h).
Proof.
  pose proof (votes_errs headerFault) as H1. pose proof (mpVotes_errs headerFault) as H2.
  pose proof (scconfirm_errs headerFault) as H3. pose proof (notice_errs headerFault) as H4.
  pose proof (charging_errs headerFault) as H5. pose proof (result_errs headerFault) as H6.
  pose proof (expired_errs headerFault) as H7.
  assert (forall e, e = errMissingSignature \/ e = errSignature \/ e = errUnauthorized \/ e = errDecode ->
    forall A, errs headerFault (@Err AlienError A e)) as H8 by (intros; by apply errs_Err).
  unfold applyHeader, ecrecover, sigHash, headerNumber, headerExtra, decodeHeaderExtra, pushHistory.
  solve_errs; apply H8; tauto.
Qed.

Lemma copy_errs L s : errs L (copy minVB s).
Proof. unfold copy, copyProposal. solve_errs. Qed.

Lemma contiguous_cons h1 h2 hs n1 n2 :
  hNumber h1 = Some n1 -> hNumber h2 = Some n2 ->
  contiguous (h1 :: h2 :: hs) =
  if bigUint64 n2 =? bigUint64 n1 +u 1 then contiguous (h2 :: hs) else Ok false.
Proof.
  intros H1 H2. change (contiguous (h1 :: h2 :: hs)) with
    (n1 ← headerNumber h1; n2 ← headerNumber h2;
     if bigUint64 n2 =? bigUint64 n1 +u 1 then contiguous (h2 :: hs) else Ok false).
  generalize (contiguous (h2 :: hs)). intros r. unfold headerNumber. by rewrite H1, H2.
Qed.

Lemma contiguous_spec hs n0 :
  Forall (fun h => is_Some (hNumber h)) hs -> 
  (forall h n, head hs = Some h -> hNumber h = Some n -> bigUint64 n = u64 n0) ->
  exists b, contiguous hs = Ok b /\ (b = true <-> consecutive n0 hs).
Proof.
  revert n0. induction hs as [|h1 hs IH]; intros n0 Hall Hhead.
  { exists true. split; [done|]. split; [|done]. intros _ i h Hi. by rewrite lookup_nil in Hi. }
  apply Forall_cons in Hall as [[n1 Hn1] Hall]. specialize (Hhead h1 n1 eq_refl Hn1).
  destruct hs as [|h2 hs].
  { exists true. split; [done|]. split; [|done]. intros _ [|i] h Hi; simpl in Hi.
    - injection Hi as <-. rewrite Hn1; simpl. by rewrite Hhead, Z.add_0_r.
    - by rewrite lookup_nil in Hi. }
  pose proof Hall as Hall2. apply Forall_cons in Hall2 as [[n2 Hn2] _].
  rewrite (contiguous_cons h1 h2 hs n1 n2) by done.
  assert (bigUint64 n1 +u 1 = u64 (n0 + 1)) as Hnext.
  { rewrite Hhead. unfold u64. by rewrite Zplus_mod_idemp_l. }
  destruct (Z.eqb_spec (bigUint64 n2) (bigUint64 n1 +u 1)) as [Heq|Hneq].
  - destruct (IH (n0 + 1) Hall) as (b & Hb & Hiff).
    { intros h n [= <-] Hn. rewrite Hn2 in Hn. injection Hn as <-. congruence. }
    exists b. split; [exact Hb|]. rewrite Hiff. split.
    + intros Hc [|i] h Hi; [injection Hi as <-; rewrite Hn1; simpl; by rewrite Hhead, Z.add_0_r|].
      rewrite (Hc i h) by done. do 2 f_equal. lia.
    + intros Hc i h Hi. rewrite (Hc (S i) h Hi). do 2 f_equal. lia.
  - exists false. split; [done|]. split; [done|]. intros Hc. destruct Hneq.
    specialize (Hc 1%nat h2 eq_refl). rewrite Hn2 in Hc. simpl in Hc. injection Hc as ->. by rewrite Hnext.
Qed.

Lemma apply_Ok_consecutive hs s s' :
  Forall (fun h => is_Some (hNumber h)) hs -> apply minVB sigcache hs s = Ok s' -> consecutive (Number s + 1) hs.
Proof.
  intros Hall. destruct hs as [|h0 hs]; [intros _ i h Hi; by rewrite lookup_nil in Hi|].
  pose proof Hall as Hall0. apply Forall_cons in Hall0 as [[n0 Hn0] _].
  unfold apply. destruct (last (h0 :: hs)) as [h|] eqn:El; [|by apply last_None in El].
  destruct (contiguous_spec (h0 :: hs) (bigUint64 n0) Hall) as (b & -> & Hb).
  { intros h' n [= <-] Hn. rewrite Hn0 in Hn. injection Hn as <-. unfold bigUint64. by rewrite u64_idemp. }
  unfold headerNumber. rewrite Hn0. cbn [get_or_panic mbind res_bind].
  destruct b; [|done]. cbn [negb]. destruct (Z.eqb_spec (bigUint64 n0) (Number s +u 1)) as [Heq|]; [|done].
  intros _ i h' Hi. rewrite (proj1 Hb eq_refl i h' Hi), Heq. f_equal. unfold u64. by rewrite Zplus_mod_idemp_l.
Qed.

(** C7. Headers are applied only in sequence: [apply] answers
    [errInvalidVotingChain] exactly when the numbers of the headers do not
    count up one by one from the number of the snapshot. *)
Theorem apply_contiguous hs s :
  rlp_unsigned EN -> hs <> [] -> Forall (fun h => is_Some (hNumber h)) hs ->
  apply minVB sigcache hs s = Err errInvalidVotingChain <-> ~ consecutive (Number s + 1) hs.
Proof.
  intros Hrlp Hne Hall. destruct hs as [|h0 hs]; [done|].
  pose proof Hall as Hall0. apply Forall_cons in Hall0 as [[n0 Hn0] _].
  unfold apply. destruct (last (h0 :: hs)) as [h|] eqn:El; [|by apply last_None in El].
  destruct (contiguous_spec (h0 :: hs) (bigUint64 n0) Hall) as (b & -> & Hb).
  { intros h' n [= <-] Hn. rewrite Hn0 in Hn. injection Hn as <-. unfold bigUint64. by rewrite u64_idemp. }
  unfold headerNumber. rewrite Hn0. cbn [get_or_panic mbind res_bind].
  assert (bigUint64 n0 = Number s +u 1 -> consecutive (bigUint64 n0) (h0 :: hs) <->
    consecutive (Number s + 1) (h0 :: hs)) as Hsame.
  { intros Heq. rewrite Heq. unfold consecutive. split; intros Hc i h' Hi; rewrite (Hc i h' Hi); f_equal;
      unfold u64; by rewrite Zplus_mod_idemp_l. }
  destruct (Z.eqb_spec (bigUint64 n0) (Number s +u 1)) as [Heq|Hneq].
  - rewrite <- (Hsame Heq), <- Hb. destruct b; cbn [negb]; [|done]. split; [|done]. intros Herr. exfalso.
    match type of Herr with ?r = _ => enough (errs (fun e => e <> errInvalidVotingChain) r) as He
      by (by apply (He _ Herr)) end. clear Herr.
    apply errs_bind; [apply copy_errs|]. intros cpy _. apply errs_bind.
    + apply errs_foldM. intros s0 x e He%applyHeader_errs. by destruct He as [-> | [-> | [-> | ->]]].
    + intros s1 _. apply errs_bind; [|done]. intros e He.
      destruct (verifyTallyCnt_iff (s1 <| Number ::= fun n => n +u glen (h0 :: hs) |>
        <| sHash := Header_Hash h |>)) as [_ [H|H]]; rewrite H in He; congruence.
  - assert (~ consecutive (Number s + 1) (h0 :: hs)) as Hn.
    { intros Hc. specialize (Hc 0%nat h0 eq_refl). rewrite Hn0 in Hc. simpl in Hc.
      injection Hc as Hc. rewrite Z.add_0_r in Hc. done. }
    destruct b; cbn [negb]; done.
Qed.

(** C2. The check of the tally at the end of [apply] never rejects a snapshot:
    from a snapshot that satisfies the invariants [apply] fails only on the
    sequence of the headers, their signatures or their encoding. *)
Theorem apply_never_miscounts hs s :
  rlp_unsigned EN -> snapshot_inv s ->
  errs (fun e => e = errInvalidVotingChain \/ headerFault e) (apply minVB sigcache hs s).
Proof.
  intros Hrlp [Hg [Hlen Hlast] HM HN]. unfold apply. destruct hs as [|h0 hs]; [done|].
  destruct (last (h0 :: hs)) as [h|] eqn:El; [|done].
  apply errs_bind.
  { clear. generalize (h0 :: hs). intros l. induction l as [|h1 [|h2 l] IH]; [done..|].
    cbn [contiguous]. unfold headerNumber. solve_errs. }
  intros b _. destruct b; cbn [negb]; [|apply errs_Err; by left].
  apply errs_bind; [apply errs_get_or_panic|]. intros n0 _. destruct (negb _); [apply errs_Err; by left|].
  apply errs_bind; [apply copy_errs|]. intros cpy Hcpy.
  apply errs_bind; [apply errs_foldM; intros s0 x e He%applyHeader_errs; by right|]. intros s1 Hrun.
  destruct (copy_total minVB s (good_heap s Hg)) as (cpy' & Hcpy' & [Hk Hcore] & _).
  rewrite Hcpy in Hcpy'. injection Hcpy' as <-. injection Hcore as Ec El' En Eh Ehist.
  destruct (foldM_applyHeader_inv sigcache (h0 :: hs) cpy s1) as (Hg1 & Hpos & _);
    [done|auto|by rewrite Ec|rewrite Ehist, Ec; lia|done|done|].
  rewrite verifyTallyCnt_inv; [done| |done]. by destruct Hg1 as [[] ? ? ?].
Qed.
End ApplyErrors.

(** ** Reachable snapshots *)

Lemma genesisVote_inv s v :
  tally_inv s -> 0 <= Stake v -> Votes s !! Voter v = None -> tally_inv (genesisVote s v).
Proof.
  intros Hinv Hst Hnew. unfold genesisVote.
  apply (tally_inv_replace s _ v); [done|done|by destruct (Tally _ !! _)|].
  intros c. rewrite Hnew. simpl. destruct (Tally s !! Candidate v) as [t|] eqn:E; simpl.
  - destruct (Z.eqb_spec (Candidate v) c) as [<-|]; [rewrite lookup_alter_eq, E|rewrite lookup_alter_ne by done]; simpl; lia.
  - destruct (Z.eqb_spec (Candidate v) c) as [<-|].
    + rewrite lookup_alter_eq, lookup_insert_eq, E. simpl. lia.
    + rewrite lookup_alter_ne, lookup_insert_ne by done. lia.
Qed.

Lemma genesisVotes_inv votes s :
  tally_inv s -> valid_votes votes -> NoDup (map Voter votes) ->
  (forall v, v ∈ votes -> Votes s !! Voter v = None) -> tally_inv (fold_left genesisVote votes s).
Proof.
  revert s. induction votes as [|v votes IH]; intros s Hinv Hst Hnd Hnew; [done|].
  apply Forall_cons in Hst as [Hv Hst]. apply NoDup_cons in Hnd as [Hv' Hnd].
  cbn [fold_left]. apply IH; [apply genesisVote_inv; auto; apply Hnew; left|done|done|].
  intros w Hw. unfold genesisVote. assert (Voter v <> Voter w) as Hne.
  { intros Heq. apply Hv'. rewrite Heq. apply list_elem_of_fmap. by exists w. }
  simpl. destruct (Tally s !! Candidate v); simpl; rewrite lookup_insert_ne by done; apply Hnew; by right.
Qed.

Lemma genesisVote_frame {T} (F : Snapshot -> T) votes s :
  ignores F Votes -> ignores F Voters -> ignores F Tally -> ignores F Candidates ->
  F (fold_left genesisVote votes s) = F s.
Proof.
  intros H1 H2 H3 H4. apply fold_left_frame. intros s0 v. unfold genesisVote. rewrite H4, H2, H3.
  destruct (Tally _ !! _); [apply H1|]. by rewrite H3, H1.
Qed.

Lemma newSnapshot_inv c now hash votes lcrs :
  1 <= MaxSignerCount c < 2 ^ 32 -> valid_votes votes -> NoDup (map Voter votes) ->
  snapshot_inv (newSnapshot c now hash votes lcrs).
Proof.
  intros HM Hst Hnd. unfold newSnapshot.
  set (s0 := mkSnapshot _ _ _ _ _ _ _ _ _ _ _ _ _ _ _ _ _ _ _ _ _ _ _ _ _ _).
  assert (tally_inv s0) as H0.
  { split; simpl; intros; by rewrite lookup_empty in *. }
  set (s1 := fold_left genesisVote votes s0).
  assert (tally_inv s1) as H1 by (apply genesisVotes_inv; [done..|]; intros; apply lookup_empty).
  assert (core s1 = core s0 /\ notices s1 = notices s0 /\ props s1 = props s0) as (Hc & Hn & Hp).
  { subst s1. split_and!; [apply (genesisVote_frame core)|apply (genesisVote_frame notices)|
      apply (genesisVote_frame props)]; intros ? ?; reflexivity. }
  assert (snapshot_inv s1) as Hs1.
  { injection Hc as Ec El En Eh Ehist. split.
    - split; [done| | |rewrite Ec; simpl; lia].
      + eapply heap_wf_props; [exact Hp|]. intros h loc Hl. simpl in Hl. by rewrite lookup_empty in Hl.
      + eapply notices_inv_obs; [exact Hn|]. repeat split; intros ? ? Hl; simpl in Hl; by rewrite lookup_empty in Hl.
    - split; rewrite Ehist, ?Ec, ?En, ?Eh; [|done]. simpl MaxSignerCount. simpl Number. unfold glen. simpl length. lia.
    - by rewrite Ec.
    - by rewrite En. }
  destruct (0 <? glen (SelfVoteSigners c)); [|done].
  destruct Hs1 as [[[] ? ? ?] ? ? ?]. done.
Qed.

Section Reachable.
Context {RT : GoRuntime} {EN : Env}.
Variables (minVB : Z) (sigcache : Hash -> option Address).

(** The snapshots a node can hold: the one of the genesis block, with one
    vote for each voter, and those obtained by applying headers. *)
Inductive reachable (c : AlienConfig) : Snapshot -> Prop :=
| reachable_genesis now hash votes lcrs :
    valid_votes votes -> NoDup (map Voter votes) -> reachable c (newSnapshot c now hash votes lcrs)
| reachable_apply hs s s' :
    reachable c s -> Number s + glen hs < 2 ^ 64 -> apply minVB sigcache hs s = Ok s' -> reachable c s'.

(** C5. Every snapshot a node can reach satisfies the invariants, whatever the
    order in which its maps are visited. *)
Theorem reachable_inv c s :
  rlp_unsigned EN -> 1 <= MaxSignerCount c < 2 ^ 32 -> reachable c s -> snapshot_inv s /\ config s = c.
Proof.
  intros Hrlp HM. induction 1 as [now hash votes lcrs Hst Hnd|hs s s' _ [IH <-] Hb Happ].
  - split; [by apply newSnapshot_inv|]. unfold newSnapshot.
    destruct (0 <? _); simpl; by rewrite (genesisVote_frame config).
  - destruct hs as [|h hs]; [by injection Happ as <-|].
    by destruct (apply_inv minVB sigcache (h :: hs) s s') as (? & _ & ? & _).
Qed.
End Reachable.
