(* ===== verification/AlienReward.v ===== *)
(** * Rewards

    Models [calculateProposalRefund], [calculateVoteReward],
    [calculateGasCharging] and [calculateSCReward] of
    [consensus/alien/snapshot.go] and [accumulateRewards], [sideChainRewards]
    of [consensus/alien/alien.go]. The account state they write is the interface
    [Balances]; the theorems are proved against it. *)
From S2P Require Import Prelude AlienTypes AlienVotes.

(** What the engine uses of the state database. *)
Class Balances (St : Type) := {
  GetBalance : St -> Address -> Z;
  AddBalance : St -> Address -> Z -> St;
  SubBalance : St -> Address -> Z -> St;
  SetBalance : St -> Address -> Z -> St;
  GetBalance_Add st a v b : GetBalance (AddBalance st a v) b = GetBalance st b + if a =? b then v else 0;
  GetBalance_Sub st a v b : GetBalance (SubBalance st a v) b = GetBalance st b - if a =? b then v else 0;
  GetBalance_Set st a v b : GetBalance (SetBalance st a v) b = if a =? b then v else GetBalance st b
}.

Definition secondsPerYear : Z := 365 * 24 * 3600.
Definition totalBlockReward : Z := ether * 250000000.

Section Operations.
Context {RT : GoRuntime}.

Definition calculateProposalRefund (s : Snapshot) : gmap Z Z :=
  match ProposalRefund s !! (Number s -u (proposalRefundDelayLoopCount *u MaxSignerCount (config s))) with
  | Some refund => refund
  | None => ∅
  end.

(** Whether a vote earns a part of the reward of a block of [coinbase]; the
    number of a voter that is not recorded is a nil pointer. *)
Definition voteEarns (s : Snapshot) (coinbase : Address) (vote : Vote) : ares bool :=
  if Candidate vote =? coinbase then
    n ← get_or_panic (Voters s !! Voter vote);
    Ok (bigUint64 n <? Number s -u MaxSignerCount (config s))
  else Ok false.
Definition voteRewardStep (s : Snapshot) (coinbase : Address) (st : Z * gmap Z Z) (kv : Address * Vote) :
  ares (Z * gmap Z Z) :=
  e ← voteEarns s coinbase kv.2;
  Ok (if e : bool then (st.1 + Stake kv.2, <[kv.1 := Stake kv.2]> st.2) else st).
(** The stakes become shares of the reward. *)
Definition shareReward (votersReward : Z) (st : Z * gmap Z Z) : ares (gmap Z Z) :=
  let '(allStake, rewards) := st in
  if (allStake <=? 0) && (0 <? Z.of_nat (size rewards)) then Err errAllStakeMissing
  else Ok ((fun stake => stake * votersReward / allStake) <$> rewards).
Definition calculateVoteReward (s : Snapshot) (coinbase : Address) (votersReward : Z) : ares (gmap Z Z) :=
  foldM (voteRewardStep s coinbase) (range (Votes s)) (0, ∅) ≫= shareReward votersReward.

Definition calculateGasCharging (s : Snapshot) : gmap Z Z :=
  fold_left (fun (gasCharge : gmap Z Z) '(hash, noticeRecord) =>
    if Success noticeRecord
       && (Number s =? nNumber noticeRecord +u (scGasChargingDelayLoopCount *u MaxSignerCount (config s)))
    then match CurrentCharging (LocalNotice s) !! hash with
         | Some charge =>
             match gasCharge !! Target charge with
             | None => <[Target charge := ether * Volume charge]> gasCharge
             | Some v => <[Target charge := v + ether * Volume charge]> gasCharge
             end
         | None => gasCharge
         end
    else gasCharge) (range (ConfirmReceived (LocalNotice s))) ∅.

(** The number whose scores are paid. *)
Definition scRewardNumber (s : Snapshot) : Z :=
  Number s -u (scRewardDelayLoopCount *u MaxSignerCount (config s)).
Definition scRewardMilliSum (s : Snapshot) : Z :=
  fold_left (fun acc '(_, record) => acc +u RewardPerPeriod record) (range (SCRecordMap s)) 0.
(** What the side chains get, what is left for the miner and the divisor. *)
Definition scShares (milliSum minerReward : Z) : Z * Z * Z :=
  if (0 <? milliSum) && (milliSum <? 1000) then
    let scRewardAll := minerReward * milliSum / 1000 in
    (scRewardAll, minerReward - scRewardAll, 1000)
  else if 1000 <=? milliSum then (minerReward, 0, milliSum)
  else (0, minerReward, 1000).
Definition scRentSumPerPeriod (s : Snapshot) (record : SCRecord) : Z :=
  fold_left (fun acc '(_, rent) =>
    if scRewardNumber s <=? bigUint64 (MaxRewardNumber rent) then acc + RentPerPeriod rent else acc)
    (range (RentReward record)) 0.
Definition singleReward (scRewardAll milliSum rentSum score : Z) (record : SCRecord) : Z :=
  (scRewardAll * RewardPerPeriod record / milliSum + rentSum) * score / 100.
Definition addReward (m : gmap Z Z) (addr : Address) (v : Z) : gmap Z Z :=
  match m !! addr with Some old => <[addr := old + v]> m | None => <[addr := v]> m end.
Definition scRewardStep (s : Snapshot) (scRewardAll milliSum : Z) (scRewards : gmap Z Z)
    (kv : Hash * gmap Z (gmap Z Z)) : gmap Z Z :=
  let '(scHash, rewards) := kv in
  match rewards !! scRewardNumber s with
  | Some reward =>
      match SCRecordMap s !! scHash with
      | Some confirmation =>
          let rentSum := scRentSumPerPeriod s confirmation in
          fold_left (fun m '(addr, score) =>
            addReward m addr (singleReward scRewardAll milliSum rentSum score confirmation))
            (range reward) scRewards
      | None => scRewards
      end
  | None => scRewards
  end.
Definition calculateSCReward (s : Snapshot) (minerReward : Z) : gmap Z Z * Z :=
  let '(scRewardAll, minerLeft, milliSum) := scShares (scRewardMilliSum s) minerReward in
  (fold_left (scRewardStep s scRewardAll milliSum) (range (SCRewardMap s)) ∅, minerLeft).

(** ** Rewards of a block *)

(** The reward of block [number], halved every year. *)
Definition blockRewardAt (period number : Z) : ares Z :=
  blockNumPerYear ← udiv secondsPerYear period;
  initSignerBlockReward ← bigDiv totalBlockReward (i64 (2 *u blockNumPerYear));
  yearCount ← udiv number blockNumPerYear;
  Ok (Z.shiftr initSignerBlockReward yearCount).

Section State.
Context {St : Type} {BS : Balances St}.

Definition credit (st : St) (l : list (Address * Z)) : St :=
  fold_left (fun st '(a, v) => AddBalance st a v) l st.

Definition accumulateRewards (c : AlienConfig) (state : St) (header : Header) (s : Snapshot)
    (refundGas : gmap Z Z) : ares St :=
  number ← get_or_panic (hNumber header);
  blockReward ← blockRewardAt (Period c) (bigUint64 number);
  let minerReward := blockReward * MinerReward s / 1000 in
  let votersReward := blockReward - minerReward in
  voteRewardMap ← calculateVoteReward s (hCoinbase header) votersReward;
  let state := credit state (range voteRewardMap) in
  let state := credit state (range (calculateProposalRefund s)) in
  let '(scReward, minerLeft) := calculateSCReward s minerReward in
  let state := credit state (range scReward) in
  let '(state, minerReward) :=
    fold_left (fun '(state, minerReward) '(sender, gas) => (AddBalance state sender gas, minerReward - gas))
      (range refundGas) (state, minerLeft) in
  Ok (if 0 <? minerReward then AddBalance state (hCoinbase header) minerReward else state).

Definition sideChainRewards (state : St) (header : Header) (s : Snapshot) : St :=
  let gasUsed := hGasUsed header in
  let state := if gasUsed <=? GetBalance state (hCoinbase header)
               then SubBalance state (hCoinbase header) gasUsed else state in
  credit state (range (calculateGasCharging s)).
End State.
End Operations.

(** ** Rewards of the voters *)

(** The votes that earn a part of the reward of a block of [coinbase]. *)
Definition earns (s : Snapshot) (coinbase : Address) (v : Vote) : bool :=
  (Candidate v =? coinbase) &&
  from_option (fun n => bigUint64 n <? Number s -u MaxSignerCount (config s)) false (Voters s !! Voter v).
Definition earningStake (s : Snapshot) (coinbase : Address) : Z :=
  msum (fun v => if earns s coinbase v then Stake v else 0) (Votes s).

Lemma voteEarns_Ok s coinbase v e : voteEarns s coinbase v = Ok e -> e = earns s coinbase v.
Proof.
  unfold voteEarns, earns. destruct (_ =? _); simpl; [|congruence].
  destruct (Voters s !! Voter v); simpl; congruence.
Qed.

Lemma voteReward_run s coinbase l S0 R0 S1 R1 :
  NoDup l.*1 -> (forall a v, (a, v) ∈ l -> R0 !! a = None) ->
  foldM (voteRewardStep s coinbase) l (S0, R0) = Ok (S1, R1) ->
  S1 = S0 + sumZ (fun kv => if earns s coinbase kv.2 then Stake kv.2 else 0) l /\
  msum id R1 - msum id R0 = S1 - S0 /\
  (forall a x, R1 !! a = Some x <->
     R0 !! a = Some x \/ exists v, (a, v) ∈ l /\ earns s coinbase v = true /\ x = Stake v).
Proof.
  revert S0 R0. induction l as [|[a v] l IH]; intros S0 R0 Hnd Hnew H.
  { injection H as <- <-. split_and!; [simpl; lia|lia|]. intros a x. split; [by left|].
    intros [?|(v & Hin & _)]; [done|]. by apply not_elem_of_nil in Hin. }
  change (((a, v) :: l).*1) with (a :: l.*1) in Hnd.
  apply NoDup_cons in Hnd as [Ha Hnd]. cbn [foldM] in H.
  apply bind_Ok_inv in H as ([S2 R2] & H2 & H). unfold voteRewardStep in H2.
  apply bind_Ok_inv in H2 as (e & He%voteEarns_Ok & H2). simpl in He, H2. subst e.
  assert (forall a' v', (a', v') ∈ l -> a <> a') as Hne.
  { intros a' v' Hin ->. apply Ha. apply list_elem_of_fmap. by exists (a', v'). }
  cbn [sumZ foldr snd]. fold (sumZ (fun kv : Z * Vote => if earns s coinbase kv.2 then Stake kv.2 else 0) l).
  destruct (earns s coinbase v) eqn:Ev; injection H2 as <- <-.
  - apply IH in H as (HS & Hsum & Hiff); [|done|].
    2: { intros a' v' Hin. rewrite lookup_insert_ne by (by eapply Hne). eapply Hnew. by right. }
    rewrite msum_insert in Hsum by (eapply Hnew; left). unfold id in Hsum at 2.
    split_and!; [lia|lia|]. intros a' x. rewrite Hiff. split.
    + intros [[[<- <-]|[_ ?]]%lookup_insert_Some|(w & ? & ? & ?)]; [|by left|].
      * right. exists v. split_and!; [left|done|done].
      * right. exists w. split_and!; [by right|done|done].
    + intros [Hx|(w & Hin & Hw & ->)].
      * left. rewrite lookup_insert_ne; [done|]. intros ->. by rewrite (Hnew a' v ltac:(left)) in Hx.
      * apply elem_of_cons in Hin as [[= -> ->]|Hin]; [left; by rewrite lookup_insert_eq|].
        right. by exists w.
  - apply IH in H as (HS & Hsum & Hiff); [|done|].
    2: { intros a' v' Hin. eapply Hnew. by right. }
    split_and!; [lia|lia|]. intros a' x. rewrite Hiff. split.
    + intros [?|(w & ? & ? & ?)]; [by left|]. right. exists w. split_and!; [by right|done|done].
    + intros [?|(w & Hin & Hw & ->)]; [by left|].
      apply elem_of_cons in Hin as [[= -> ->]|Hin]; [congruence|]. right. by exists w.
Qed.

(** Sum of the floors of the shares of [R] in proportion to the entries. *)
Lemma msum_shares (m : gmap Z Z) S R :
  0 < S -> 0 <= R -> (forall a x, m !! a = Some x -> 0 <= x) ->
  R * msum id m - S * Z.of_nat (size m) <= S * msum (fun x => x * R / S) m <= R * msum id m /\
  (m <> ∅ -> R * msum id m - S * Z.of_nat (size m) < S * msum (fun x => x * R / S) m).
Proof.
  intros HS HR. induction m as [|a x m Ha IH] using map_ind; intros Hpos.
  { rewrite !msum_empty, map_size_empty. change (Z.of_nat 0) with 0. split; [lia|done]. }
  destruct IH as [[IH1 IH2] _].
  { intros a' x' Ha'. apply (Hpos a'). apply lookup_insert_Some. right. split; [congruence|done]. }
  rewrite !msum_insert, map_size_insert_None by done. change (id x) with x.
  pose proof (Z.mul_div_le (x * R) S HS). pose proof (Z.mul_succ_div_gt (x * R) S HS).
  rewrite Nat2Z.inj_succ. split; [|intros _]; lia.
Qed.

Lemma msum_fmap {V W} (f : W -> Z) (g : V -> W) (m : gmap Z V) : msum f (g <$> m) = msum (f ∘ g) m.
Proof. unfold msum. by rewrite map_fold_fmap. Qed.

(** The shares of [R] together never exceed it and lose less than one unit each. *)
Lemma shares_total (base : gmap Z Z) S R :
  msum id base = S -> (base = ∅ \/ 0 < S) -> 0 <= R -> (forall a x, base !! a = Some x -> 0 <= x) ->
  let shares := (fun x => x * R / S) <$> base in
  0 <= msum id shares <= R /\ (shares <> ∅ -> R - Z.of_nat (size shares) < msum id shares).
Proof.
  intros Hsum Hpos HR Hnn shares. subst shares. rewrite msum_fmap, map_size_fmap. destruct Hpos as [->|Hpos].
  { rewrite msum_empty. split; [lia|]. by rewrite fmap_empty. }
  destruct (msum_shares base S R Hpos HR Hnn) as [[H1 H2] H3]. rewrite Hsum in *.
  change (id ∘ (fun x => x * R / S)) with (fun x => x * R / S). split; [split|].
  - apply msum_nonneg. intros a x Hx. simpl. apply Z.div_pos; [|done].
    apply Z.mul_nonneg_nonneg; [by eapply Hnn|done].
  - nia.
  - intros Hne. assert (base <> ∅) as Hb by (intros ->; by rewrite fmap_empty in Hne). specialize (H3 Hb). nia.
Qed.

Section VoteReward.
Context {RT : GoRuntime}.

Lemma calculateVoteReward_lookup s coinbase R rewards :
  calculateVoteReward s coinbase R = Ok rewards ->
  exists base, rewards = (fun x => x * R / earningStake s coinbase) <$> base /\
    msum id base = earningStake s coinbase /\
    (base = ∅ \/ 0 < earningStake s coinbase) /\
    (forall a x, base !! a = Some x <-> exists v, Votes s !! a = Some v /\ earns s coinbase v = true /\ x = Stake v).
Proof.
  unfold calculateVoteReward. intros ([S1 R1] & Hrun & H)%bind_Ok_inv. unfold shareReward in H.
  apply voteReward_run in Hrun as (HS & Hsum & Hiff); [|apply range_NoDup|intros; apply lookup_empty].
  rewrite msum_empty in Hsum.
  assert (S1 = earningStake s coinbase) as ->.
  { rewrite HS. unfold earningStake. rewrite msum_range. done. }
  exists R1. destruct (Z.leb_spec (earningStake s coinbase) 0); simpl in H.
  - destruct (Z.ltb_spec 0 (Z.of_nat (size R1))); simpl in H; [done|]. injection H as <-.
    assert (R1 = ∅) as -> by (apply map_size_empty_inv; lia).
    split_and!; [by rewrite fmap_empty|lia|by left|].
    intros a x. rewrite Hiff. setoid_rewrite elem_of_range. rewrite lookup_empty. split; [by intros [[=]|?]|by right].
  - injection H as <-. split_and!; [done|lia|right; lia|].
    intros a x. rewrite Hiff. setoid_rewrite elem_of_range. rewrite lookup_empty. split; [by intros [[=]|?]|by right].
Qed.

(** When a vote for [coinbase] earns, in plain integers. *)
Lemma earns_iff s coinbase v n :
  is_u64 (Number s) -> is_u64 (MaxSignerCount (config s)) -> Voters s !! Voter v = Some n -> 0 <= n <= Number s ->
  earns s coinbase v = true <->
  Candidate v = coinbase /\ (n < Number s - MaxSignerCount (config s) \/ Number s < MaxSignerCount (config s)).
Proof.
  unfold is_u64. intros HN HM Hv Hn. unfold earns. rewrite Hv. simpl.
  rewrite andb_true_iff, Z.eqb_eq, Z.ltb_lt. unfold bigUint64. rewrite Z.abs_eq, (u64_small n) by (unfold is_u64; lia).
  destruct (Z.lt_ge_cases (Number s) (MaxSignerCount (config s))).
  - rewrite u64_sub_wrap by lia. intuition lia.
  - rewrite u64_sub_le by lia. intuition lia.
Qed.

(** C13. For a snapshot whose tally is consistent and whose voters are recorded at
    numbers up to its own: when [calculateVoteReward] succeeds, the voters of the
    coinbase whose vote was recorded more than [MaxSignerCount] blocks before the
    snapshot (every voter of it while the snapshot is in the first loop, where
    the subtraction wraps) share the reward in proportion to their stakes and
    nobody else gets a share: each gets the floor of its part, the parts together
    never exceed the reward and lose less than one unit per voter. *)
Theorem calculateVoteReward_shares s coinbase R rewards :
  tally_inv s -> is_u64 (Number s) -> is_u64 (MaxSignerCount (config s)) ->
  (forall a n, Voters s !! a = Some n -> 0 <= n <= Number s) ->
  0 <= R -> calculateVoteReward s coinbase R = Ok rewards ->
  exists stakes : gmap Z Z,
    (forall a x, stakes !! a = Some x <-> exists v n,
       Votes s !! a = Some v /\ Candidate v = coinbase /\ Stake v = x /\ Voters s !! a = Some n /\
       (n < Number s - MaxSignerCount (config s) \/ Number s < MaxSignerCount (config s))) /\
    rewards = (fun x => x * R / msum id stakes) <$> stakes /\
    0 <= msum id rewards <= R /\
    (rewards <> ∅ -> R - Z.of_nat (size rewards) < msum id rewards).
Proof.
  intros [Hkey Hst _] HN HM Hvn HR (base & -> & Hsum & Hpos & Hiff)%calculateVoteReward_lookup.
  exists base. rewrite Hsum. split; [|split; [done|]].
  - intros a x. rewrite Hiff. split.
    + intros (v & Hv & He & ->). pose proof (Hkey _ _ Hv) as <-.
      destruct (Voters s !! Voter v) as [n|] eqn:En; [|unfold earns in He; rewrite En in He; simpl in He; by rewrite andb_false_r in He].
      destruct (proj1 (earns_iff s coinbase v n HN HM En (Hvn _ _ En)) He) as [Hc Hold]. by exists v, n.
    + intros (v & n & Hv & Hc & <- & Hn & Hold). exists v. split_and!; [done| |done].
      pose proof (Hkey _ _ Hv) as <-. by apply (earns_iff s coinbase v n HN HM Hn (Hvn _ _ Hn)).
  - apply (shares_total base _ R Hsum Hpos HR).
    intros a x (v & Hv & _ & ->)%Hiff. by eapply Hst.
Qed.
End VoteReward.

(** ** Issuance *)

(** With [b] blocks a year, the reward of block [n]. *)
Definition yearReward (b n : Z) : Z := (totalBlockReward / (2 * b)) / 2 ^ (n / b).
Definition issued (b : Z) (n : nat) : Z := sumZ (yearReward b) (seqZ 0 (Z.of_nat n)).

Lemma blockRewardAt_year period n :
  1 <= period <= secondsPerYear -> 0 <= n ->
  blockRewardAt period n = Ok (yearReward (secondsPerYear / period) n).
Proof.
  intros Hp Hn. unfold blockRewardAt.
  assert (1 <= secondsPerYear / period <= secondsPerYear) as Hb.
  { split; [apply Z.div_le_lower_bound; lia|]. apply Z.div_le_upper_bound; unfold secondsPerYear in *; nia. }
  rewrite udiv_Ok by lia. cbn [mbind res_bind].
  set (b := secondsPerYear / period) in *. clearbody b. change secondsPerYear with 31536000 in Hb.
  rewrite u64_small by (split; lia). rewrite i64_small by lia.
  unfold bigDiv. rewrite decide_False by lia. cbn [mbind res_bind]. rewrite udiv_Ok by lia. cbn [mbind res_bind].
  rewrite Z.shiftr_div_pow2 by (apply Z.div_pos; lia). done.
Qed.

(** [y] full years issue at most the part [1 - 1/2^y] of the total. *)
Lemma issued_years b (y : nat) :
  1 <= b -> issued b (Z.to_nat b * y) * 2 ^ Z.of_nat y <= totalBlockReward * (2 ^ Z.of_nat y - 1).
Proof.
  intros Hb. induction y as [|y IH].
  { rewrite Nat.mul_0_r. unfold issued. simpl. lia. }
  assert (issued b (Z.to_nat b * S y) = issued b (Z.to_nat b * y) + b * (totalBlockReward / (2 * b) / 2 ^ Z.of_nat y)) as ->.
  { unfold issued. replace (Z.of_nat (Z.to_nat b * S y)) with (Z.of_nat (Z.to_nat b * y) + b) by lia.
    rewrite seqZ_app, sumZ_app by lia. f_equal.
    rewrite (sumZ_ext _ (fun _ => totalBlockReward / (2 * b) / 2 ^ Z.of_nat y)).
    - assert (forall c k n, sumZ (fun _ : Z => c) (seqZ k (Z.of_nat n)) = Z.of_nat n * c) as Hc.
      { intros c k n. revert k. induction n as [|n IHn]; intros k; [simpl; lia|].
        rewrite seqZ_S, sumZ_app, IHn. cbn [sumZ foldr]. lia. }
      rewrite <- (Z2Nat.id b) at 2 by lia. rewrite Hc. lia.
    - intros n Hn%elem_of_seqZ. unfold yearReward. do 2 f_equal.
      symmetry. apply (Z.div_unique _ _ _ (n - b * Z.of_nat y)); lia. }
  set (q := totalBlockReward / (2 * b)) in *. pose proof (Z.pow_pos_nonneg 2 (Z.of_nat y)) as Hpow.
  assert (2 * b * q <= totalBlockReward) as Hq by (apply Z.mul_div_le; lia).
  pose proof (Z.mul_div_le q (2 ^ Z.of_nat y)) as Hd.
  rewrite Nat2Z.inj_succ, Z.pow_succ_r by lia. nia.
Qed.

Lemma yearReward_nonneg b n : 1 <= b -> 0 <= n -> 0 <= yearReward b n.
Proof.
  intros Hb Hn. unfold yearReward. apply Z.div_pos; [apply Z.div_pos; [done|lia]|].
  apply Z.pow_pos_nonneg; [done|]. apply Z.div_pos; lia.
Qed.

Lemma issued_mono b m n : 1 <= b -> (m <= n)%nat -> issued b m <= issued b n.
Proof.
  intros Hb Hmn. unfold issued. replace (Z.of_nat n) with (Z.of_nat m + Z.of_nat (n - m)) by lia.
  rewrite seqZ_app, sumZ_app by lia.
  enough (0 <= sumZ (yearReward b) (seqZ (0 + Z.of_nat m) (Z.of_nat (n - m)))) by lia.
  apply sumZ_nonneg. intros x Hx%elem_of_seqZ. apply yearReward_nonneg; lia.
Qed.

(** C16. The reward of a block halves every year, and the rewards of all blocks,
    however long the chain grows, never exceed the total of 250 million coins. *)
Theorem block_rewards_bounded period (n : nat) :
  1 <= period <= secondsPerYear ->
  (forall i, 0 <= i -> blockRewardAt period i = Ok (yearReward (secondsPerYear / period) i) /\
     blockRewardAt period (i + secondsPerYear / period) = Ok (yearReward (secondsPerYear / period) i / 2)) /\
  issued (secondsPerYear / period) n <= totalBlockReward.
Proof.
  intros Hp. set (b := secondsPerYear / period).
  assert (1 <= b) as Hb by (apply Z.div_le_lower_bound; lia). split.
  - intros i Hi. split; [by apply blockRewardAt_year|]. rewrite blockRewardAt_year by lia. fold b. f_equal.
    unfold yearReward. replace ((i + b) / b) with (i / b + 1) by (rewrite <- (Z.div_add i 1 b) by lia; f_equal; lia).
    rewrite Z.pow_add_r, <- Z.div_div; [done|..]; try lia.
    + apply Z.pow_nonzero; [done|]. apply Z.div_pos; lia.
    + apply Z.div_pos; lia.
  - transitivity (issued b (Z.to_nat b * n)); [apply issued_mono; [done|nia]|].
    pose proof (issued_years b n Hb). pose proof (Z.pow_pos_nonneg 2 (Z.of_nat n)).
    assert (0 < totalBlockReward) by done. nia.
Qed.

(** ** Balances after a block *)

(** What [l] pays to [b]. *)
Definition paid (b : Address) (l : list (Address * Z)) : Z := sumZ (fun kv => if kv.1 =? b then kv.2 else 0) l.

Lemma paid_NoDup b l :
  NoDup l.*1 -> paid b l = default 0 (snd <$> List.find (fun kv => kv.1 =? b) l).
Proof.
  unfold paid. induction l as [|[a v] l IH]; intros Hnd; [done|].
  change (((a, v) :: l).*1) with (a :: l.*1) in Hnd. apply NoDup_cons in Hnd as [Ha Hnd].
  rewrite sumZ_cons. cbn [List.find fst snd]. destruct (Z.eqb_spec a b) as [->|]; [|rewrite IH by done; lia].
  rewrite (sumZ_ext _ (fun _ => 0)).
  - rewrite sumZ_zero. simpl. lia.
  - intros [a' v'] Hin; simpl. destruct (Z.eqb_spec a' b) as [->|]; [|done].
    destruct Ha. apply list_elem_of_fmap. by exists (b, v').
Qed.

Lemma paid_range {RT : GoRuntime} b (m : gmap Z Z) : paid b (range m) = default 0 (m !! b).
Proof.
  rewrite paid_NoDup by apply range_NoDup. destruct (List.find _ _) as [[a v]|] eqn:E; simpl.
  - apply find_some in E as [Hin Hb%Z.eqb_eq]. simpl in Hb. subst a.
    apply list_elem_of_In, elem_of_range in Hin. by rewrite Hin.
  - destruct (m !! b) as [v|] eqn:Eb; [|done]. apply elem_of_range, list_elem_of_In in Eb.
    apply (find_none _ _ E) in Eb. simpl in Eb. by rewrite Z.eqb_refl in Eb.
Qed.

Section Balance.
Context {St : Type} {BS : Balances St}.

Lemma GetBalance_credit st l b : GetBalance (credit st l) b = GetBalance st b + paid b l.
Proof.
  unfold credit, paid. revert st. induction l as [|[a v] l IH]; intros st; simpl; [lia|].
  rewrite IH, GetBalance_Add. lia.
Qed.

Lemma refund_run l st m b :
  let r := fold_left (fun '(state, minerReward) '(sender, gas) => (AddBalance state sender gas, minerReward - gas)) l (st, m) in
  GetBalance r.1 b = GetBalance st b + paid b l /\ r.2 = m - sumZ snd l.
Proof.
  unfold paid. revert st m. induction l as [|[a v] l IH]; intros st m; simpl; [lia|].
  destruct (IH (AddBalance st a v) (m - v)) as [-> ->]. rewrite GetBalance_Add. lia.
Qed.
End Balance.

Lemma default_addReward m a v b : default 0 (addReward m a v !! b) = default 0 (m !! b) + if a =? b then v else 0.
Proof.
  unfold addReward. destruct (Z.eqb_spec a b) as [->|].
  - destruct (m !! b); rewrite lookup_insert_eq; simpl; lia.
  - destruct (m !! a); rewrite lookup_insert_ne by done; simpl; lia.
Qed.

(** What one side chain pays to [b]. *)
Definition scPaid {RT : GoRuntime} (s : Snapshot) (scRewardAll milliSum : Z) (b : Address)
    (kv : Hash * gmap Z (gmap Z Z)) : Z :=
  match kv.2 !! scRewardNumber s, SCRecordMap s !! kv.1 with
  | Some reward, Some confirmation =>
      match reward !! b with
      | Some score => singleReward scRewardAll milliSum (scRentSumPerPeriod s confirmation) score confirmation
      | None => 0
      end
  | _, _ => 0
  end.

Section Order.
Context {RT : GoRuntime}.

Lemma scRewardStep_paid s A ms m kv b :
  default 0 (scRewardStep s A ms m kv !! b) = default 0 (m !! b) + scPaid s A ms b kv.
Proof.
  destruct kv as [h rewards]. unfold scRewardStep, scPaid; simpl.
  destruct (rewards !! _) as [reward|]; [|lia]. destruct (SCRecordMap s !! h) as [c|]; [|lia].
  set (f := fun score => singleReward A ms (scRentSumPerPeriod s c) score c).
  transitivity (default 0 (m !! b) + paid b (range (f <$> reward))).
  2: { rewrite paid_range, lookup_fmap. by destruct (reward !! b). }
  assert (forall l m, default 0 (fold_left (fun m '(addr, score) => addReward m addr (f score)) l m !! b) =
    default 0 (m !! b) + paid b ((prod_map id f) <$> l)) as Hl.
  { unfold paid. induction l as [|[a v] l IH]; intros m0; [simpl; lia|]. cbn [fold_left].
    rewrite IH, default_addReward. change (prod_map id f <$> (a, v) :: l) with ((a, f v) :: (prod_map id f <$> l)).
    rewrite sumZ_cons. cbn [fst snd]. lia. }
  fold f. rewrite Hl. f_equal. unfold paid. rewrite !range_perm. by rewrite map_to_list_fmap.
Qed.

Lemma calculateSCReward_paid s R b :
  let '(A, rest, ms) := scShares (scRewardMilliSum s) R in
  default 0 ((calculateSCReward s R).1 !! b) = sumZ (scPaid s A ms b) (map_to_list (SCRewardMap s)) /\
  (calculateSCReward s R).2 = rest.
Proof.
  unfold calculateSCReward. destruct (scShares _ _) as [[A rest] ms]. simpl. split; [|done].
  rewrite <- range_perm. generalize (range (SCRewardMap s)). intros l.
  assert (forall m, default 0 (fold_left (scRewardStep s A ms) l m !! b) =
    default 0 (m !! b) + sumZ (scPaid s A ms b) l) as Hl.
  { induction l as [|kv l IH]; intros m; simpl; [lia|]. rewrite IH, scRewardStep_paid. lia. }
  rewrite Hl, lookup_empty. simpl. lia.
Qed.
End Order.

(** ** Independence of the order of the maps *)
Lemma foldM_Ok_all {E S A} (body : S -> A -> res E S) xs s s' :
  foldM body xs s = Ok s' -> (forall x s1 s2, body s1 x = Ok s2 -> forall s3, exists s4, body s3 x = Ok s4) ->
  forall x, x ∈ xs -> forall s3, exists s4, body s3 x = Ok s4.
Proof.
  intros H Hb. revert s H. induction xs as [|y xs IH]; intros s H x Hx; [by apply not_elem_of_nil in Hx|].
  apply bind_Ok_inv in H as (s1 & H1 & H). apply elem_of_cons in Hx as [->|Hx]; eauto.
Qed.

Section Independence.
Variables (R1 R2 : GoRuntime).

Lemma voteReward_total s coinbase st :
  @foldM AlienError _ _ (voteRewardStep s coinbase) (@range R1 _ _ _ _ (Votes s)) (0, ∅) = Ok st ->
  exists st', @foldM AlienError _ _ (voteRewardStep s coinbase) (@range R2 _ _ _ _ (Votes s)) (0, ∅) = Ok st'.
Proof.
  intros H. destruct (foldM_total (fun _ => True) (voteRewardStep s coinbase) (@range R2 _ _ _ _ (Votes s)) (0, ∅))
    as (st' & ? & _); [done| |by eauto].
  intros [a v] st1 Hin _. apply (@elem_of_range R2) in Hin. apply (@elem_of_range R1) in Hin.
  apply (foldM_Ok_all _ _ _ _ H) with (s3 := st1) in Hin as [st2 Hst2]; [by eauto|].
  intros [a' v'] s1 s2. unfold voteRewardStep. simpl. intros (e & -> & _)%bind_Ok_inv s3. by eexists.
Qed.

Lemma calculateVoteReward_order s coinbase R rewards :
  @calculateVoteReward R1 s coinbase R = Ok rewards -> @calculateVoteReward R2 s coinbase R = Ok rewards.
Proof.
  intros H. pose proof H as H0. unfold calculateVoteReward in H0.
  apply bind_Ok_inv in H0 as (st1 & Hrun & Hsh1). pose proof Hrun as Hrun2.
  apply voteReward_total in Hrun2 as ([S2 B2] & Hrun2).
  destruct st1 as [S1 B1].
  apply voteReward_run in Hrun as (HS1 & _ & Hi1); [|apply range_NoDup|intros; apply lookup_empty].
  pose proof Hrun2 as Hr2.
  apply voteReward_run in Hrun2 as (HS2 & _ & Hi2); [|apply range_NoDup|intros; apply lookup_empty].
  assert (S2 = S1) as -> by (rewrite HS1, HS2; by rewrite !range_perm).
  assert (B2 = B1) as ->.
  { apply map_eq. intros a. apply option_eq. intros x. rewrite Hi1, Hi2.
    setoid_rewrite (@elem_of_range R1). by setoid_rewrite (@elem_of_range R2). }
  unfold calculateVoteReward. rewrite Hr2. exact Hsh1.
Qed.

Lemma fold_u64_perm {A} (f : A -> Z) l n : is_u64 n -> fold_left (fun acc x => acc +u f x) l n = u64 (n + sumZ f l).
Proof.
  revert n. induction l as [|x l IH]; intros n Hn; simpl; [by rewrite Z.add_0_r, u64_small|].
  rewrite IH by apply u64_range. unfold u64. rewrite Zplus_mod_idemp_l. f_equal. lia.
Qed.

Lemma scRewardMilliSum_order s : @scRewardMilliSum R1 s = @scRewardMilliSum R2 s.
Proof.
  unfold scRewardMilliSum.
  assert (forall l : list (Z * SCRecord), fold_left (fun acc '(_, record) => acc +u RewardPerPeriod record) l 0 =
    u64 (sumZ (RewardPerPeriod ∘ snd) l)) as H.
  { intros l. rewrite <- (Z.add_0_l (sumZ _ _)), <- fold_u64_perm by done.
    apply fold_left_ext. by intros ? []. }
  by rewrite !H, !range_perm.
Qed.

Lemma scRentSum_order s record : @scRentSumPerPeriod R1 s record = @scRentSumPerPeriod R2 s record.
Proof.
  unfold scRentSumPerPeriod.
  set (f := fun kv : Z * SCRentInfo =>
    if scRewardNumber s <=? bigUint64 (MaxRewardNumber kv.2) then RentPerPeriod kv.2 else 0).
  assert (forall l, fold_left (fun acc '(_, rent) =>
    if scRewardNumber s <=? bigUint64 (MaxRewardNumber rent) then acc + RentPerPeriod rent else acc) l 0 = 0 + sumZ f l) as H.
  { intros l. rewrite <- fold_left_sumZ. apply fold_left_ext. intros acc [h r]. unfold f; simpl.
    destruct (_ <=? _); lia. }
  by rewrite !H, !range_perm.
Qed.

Lemma calculateSCReward_order s R b :
  default 0 ((@calculateSCReward R1 s R).1 !! b) = default 0 ((@calculateSCReward R2 s R).1 !! b) /\
  (@calculateSCReward R1 s R).2 = (@calculateSCReward R2 s R).2.
Proof.
  pose proof (@calculateSCReward_paid R1 s R b) as H1. pose proof (@calculateSCReward_paid R2 s R b) as H2.
  rewrite <- scRewardMilliSum_order in H2. destruct (scShares _ _) as [[A rest] ms].
  destruct H1 as [-> ->], H2 as [-> ->]. split; [|done]. apply sumZ_ext. intros [h r] _. unfold scPaid; simpl.
  destruct (r !! _); [|done]. destruct (SCRecordMap s !! h); [|done]. destruct (_ !! b); [|done].
  by rewrite scRentSum_order.
Qed.
End Independence.

Section BlockBalances.
Context {RT : GoRuntime} {St : Type} {BS : Balances St}.

(** What is left of the miner's part after the gas refunds. *)
Definition minerPart (s : Snapshot) (minerReward : Z) (refundGas : gmap Z Z) : Z :=
  Z.max 0 ((calculateSCReward s minerReward).2 - msum id refundGas).

Lemma accumulateRewards_spec c st h s refundGas st' :
  accumulateRewards c st h s refundGas = Ok st' ->
  exists n R rewards, hNumber h = Some n /\ blockRewardAt (Period c) (bigUint64 n) = Ok R /\
    let miner := R * MinerReward s / 1000 in
    calculateVoteReward s (hCoinbase h) (R - miner) = Ok rewards /\
    forall b, GetBalance st' b = GetBalance st b + default 0 (rewards !! b) +
      default 0 (calculateProposalRefund s !! b) + default 0 ((calculateSCReward s miner).1 !! b) +
      default 0 (refundGas !! b) + (if hCoinbase h =? b then minerPart s miner refundGas else 0).
Proof.
  unfold accumulateRewards. intros (n & Hn & H)%bind_Ok_inv. apply bind_Ok_inv in H as (R & HR & H).
  cbv zeta in H. apply bind_Ok_inv in H as (rewards & Hv & H).
  destruct (hNumber h) as [n'|]; [|done]. injection Hn as <-.
  exists n', R, rewards. split_and!; [done..|]. intros b. unfold minerPart.
  set (miner := R * MinerReward s / 1000) in *.
  destruct (calculateSCReward s miner) as [sc rest]. cbn [fst snd].
  set (st3 := credit _ (range sc)) in H.
  pose proof (refund_run (range refundGas) st3 rest b) as Hr. cbv zeta in Hr.
  destruct (fold_left _ (range refundGas) (st3, rest)) as [st4 m4]. cbn [fst snd] in Hr. destruct Hr as [Hb Hm].
  assert (GetBalance st4 b = GetBalance st b + default 0 (rewards !! b) +
      default 0 (calculateProposalRefund s !! b) + default 0 (sc !! b) + default 0 (refundGas !! b)) as Hb4.
  { rewrite Hb. subst st3. rewrite !GetBalance_credit, !paid_range. lia. }
  rewrite <- Hb4. injection H as <-. rewrite msum_range. change (id ∘ snd) with (@snd Z Z). rewrite <- Hm.
  destruct (Z.ltb_spec 0 m4).
  - rewrite GetBalance_Add. destruct (_ =? b); lia.
  - destruct (_ =? b); lia.
Qed.

Lemma accumulateRewards_total c st h s refundGas n R rewards :
  hNumber h = Some n -> blockRewardAt (Period c) (bigUint64 n) = Ok R ->
  calculateVoteReward s (hCoinbase h) (R - R * MinerReward s / 1000) = Ok rewards ->
  exists st', accumulateRewards c st h s refundGas = Ok st'.
Proof.
  intros Hn HR Hv. unfold accumulateRewards. rewrite Hn. simpl. rewrite HR. simpl. rewrite Hv. simpl.
  destruct (calculateSCReward _ _), (fold_left _ _ _). by eexists.
Qed.

(** C14. The balances after a block of the main chain: every account gets its
    share as a voter, its refunds of proposals and of gas and its side-chain
    rewards, and the miner what the gas refunds leave of its part, never less
    than nothing. *)
Theorem accumulateRewards_balances c st h s refundGas st' :
  accumulateRewards c st h s refundGas = Ok st' ->
  exists n R rewards, hNumber h = Some n /\ blockRewardAt (Period c) (bigUint64 n) = Ok R /\
    let miner := R * MinerReward s / 1000 in
    calculateVoteReward s (hCoinbase h) (R - miner) = Ok rewards /\
    forall b, GetBalance st' b = GetBalance st b + default 0 (rewards !! b) +
      default 0 (calculateProposalRefund s !! b) + default 0 ((calculateSCReward s miner).1 !! b) +
      default 0 (refundGas !! b) + (if hCoinbase h =? b then minerPart s miner refundGas else 0).
Proof. apply accumulateRewards_spec. Qed.
End BlockBalances.

(** C15. All nodes pay the same rewards: where one node's accounting of a block
    succeeds, that of every other node does, whatever order its run time visits
    the maps in, and the balances after the block are equal. *)
Theorem accumulateRewards_order (R1 R2 : GoRuntime) {St} {BS : Balances St} c st h s refundGas st1 :
  @accumulateRewards R1 St BS c st h s refundGas = Ok st1 ->
  exists st2, @accumulateRewards R2 St BS c st h s refundGas = Ok st2 /\
    forall b, GetBalance st1 b = GetBalance st2 b.
Proof.
  intros H1. apply accumulateRewards_spec in H1 as (n & R & rw & Hn & HR & Hv & Hb).
  apply (calculateVoteReward_order R1 R2) in Hv.
  destruct (accumulateRewards_total (RT := R2) c st h s refundGas n R rw Hn HR Hv) as (st2 & H2).
  exists st2. split; [done|]. intros b.
  apply accumulateRewards_spec in H2 as (n' & R' & rw' & Hn' & HR' & Hv' & Hb').
  rewrite Hn in Hn'. injection Hn' as <-. rewrite HR in HR'. injection HR' as <-.
  rewrite Hv in Hv'. injection Hv' as <-. rewrite Hb, Hb'. unfold minerPart.
  destruct (calculateSCReward_order R1 R2 s (R * MinerReward s / 1000) b) as [-> ->]. done.
Qed.
