(* ===== verification/AlienTx.v ===== *)
(** * Custom transactions

    Models [consensus/alien/custom_tx.go]: the votes, confirmations, proposals,
    declares and side-chain events that transactions carry in their data as
    ["ufo:version:category:..."], and what they charge and refund. The account
    state is the interface [Balances], the chain a [ChainReader]. *)
From S2P Require Import Prelude AlienTypes AlienVotes AlienProposal AlienQueue GoText Hexutil AlienSideChain AlienApply AlienReward.

(** What the engine uses of a transaction; [txSender] is the outcome of
    recovering the sender. *)
Record Transaction := mkTransaction {
  txHash : Hash; txSender : option Address; txData : bytes; txTo : option Address;
  txValue : Z; txGasPrice : Z
}.
Record Receipt := mkReceipt { rTxHash : Hash; rStatus : Z; rGasUsed : Z }.
Record RefundPair := mkRefundPair { Sender : Address; GasPrice : Z }.
Abbreviation RefundHash := (gmap Z RefundPair) (only parsing).
Abbreviation RefundGas := (gmap Z Z) (only parsing).

(** The chain: a header found by number has that number, one found by hash and
    number has both. *)
Class ChainReader {EN : Env} := {
  GetHeader : Hash -> Z -> option Header;
  GetHeaderByNumber : Z -> option Header;
  ChainConfig : AlienConfig;
  GetHeaderByNumber_number n h : GetHeaderByNumber n = Some h -> hNumber h = Some n;
  GetHeader_hash hash n h : GetHeader hash n = Some h -> Header_Hash h = hash /\ hNumber h = Some n
}.

Definition ufoPrefix : bytes := str "ufo".
Definition ufoVersion : bytes := str "1".
Definition ufoCategoryEvent : bytes := str "event".
Definition ufoCategoryLog : bytes := str "oplog".
Definition ufoCategorySC : bytes := str "sc".
Definition ufoEventVote : bytes := str "vote".
Definition ufoEventConfirm : bytes := str "confirm".
Definition ufoEventPorposal : bytes := str "proposal".
Definition ufoEventDeclare : bytes := str "declare".
Definition ufoEventSetCoinbase : bytes := str "setcb".
Definition ufoMinSplitLen : Z := 3.
Definition posEvent : Z := 3.
Definition posEventConfirmNumber : Z := 4.
Definition maxValidationLoopCnt : Z := 50000.
Definition minValidationLoopCnt : Z := 4.
Definition defaultValidationLoopCnt : Z := 10000.
Definition maxProposalDeposit : Z := 100000.
Definition minSCRentFee : Z := 100.
Definition minSCRentLength : Z := 850000.
Definition defaultSCRentLength : Z := minSCRentLength * 3.
Definition maxSCRentLength : Z := defaultSCRentLength * 4.
Definition minSCSetCoinbaseValue : Z := 5 * ether.
(** The separators [":"] and ["#"]. *)
Definition colon : Z := 58.
Definition sharp : Z := 35.

Definition beqb (a b : bytes) : bool := bool_decide (a = b).

(** [buildSCEventConfirmData]. *)
Definition buildSCEventConfirmData (scHash : Hash) (headerNumber headerTime : Z)
    (lastLoopInfo chargingInfo : bytes) : bytes :=
  Join [ufoPrefix; ufoVersion; ufoCategorySC; ufoEventConfirm; Hash_Hex scHash;
        formatNat 10 (bigUint64 headerNumber); formatNat 10 (bigUint64 headerTime);
        lastLoopInfo; chargingInfo] colon.

(** The pairs [k], [v] of the data after the event: a last odd field is ignored. *)
Fixpoint pairs (l : list bytes) : list (bytes * bytes) :=
  match l with k :: v :: l => (k, v) :: pairs l | _ => [] end.

(** [strconv.Atoi(v)] with the test that makes the caller ignore the
    transaction; the result is converted to [uint64]. *)
Definition atoiIn (v : bytes) (accept : Z -> bool) : option Z :=
  match Atoi v with Ok n => if accept n then Some (u64 n) else None | _ => None end.

(** One [case] of the [switch]; [None] is the early return. *)
Definition proposalField (p : Proposal) (kv : bytes * bytes) : option Proposal :=
  let '(k, v) := kv in
  if beqb k (str "vlcnt") then
    n ← atoiIn v (fun n => (minValidationLoopCnt <=? n) && (n <=? maxValidationLoopCnt));
    Some (p <| ValidationLoopCnt := n |>)
  else if beqb k (str "schash") then Some (p <| SCHash ::= fun h => Hash_UnmarshalText h v |>)
  else if beqb k (str "sccount") then
    n ← atoiIn v (fun _ => true); Some (p <| SCBlockCountPerPeriod := n |>)
  else if beqb k (str "screward") then
    n ← atoiIn v (fun _ => true); Some (p <| SCBlockRewardPerPeriod := n |>)
  else if beqb k (str "proposal_type") then
    n ← atoiIn v (fun _ => true); Some (p <| ProposalType := n |>)
  else if beqb k (str "candidate") then Some (p <| TargetAddress ::= fun a => Address_UnmarshalText a v |>)
  else if beqb k (str "mrpt") then
    n ← atoiIn v (fun n => (0 <? n) && (n <=? 1000)); Some (p <| MinerRewardPerThousand := n |>)
  else if beqb k (str "mvb") then
    n ← atoiIn v (fun n => 0 <? n); Some (p <| pMinVoterBalance := n |>)
  else if beqb k (str "mpd") then
    n ← atoiIn v (fun n => (0 <? n) && (n <=? maxProposalDeposit)); Some (p <| ProposalDeposit := n |>)
  else if beqb k (str "scrt") then Some (p <| TargetAddress ::= fun a => Address_UnmarshalText a v |>)
  else if beqb k (str "scrf") then
    n ← atoiIn v (fun n => minSCRentFee <=? n); Some (p <| SCRentFee := n |>)
  else if beqb k (str "scrr") then
    n ← atoiIn v (fun n => 0 <? n); Some (p <| SCRentRate := n |>)
  else if beqb k (str "scrl") then
    n ← atoiIn v (fun n => (minSCRentLength <=? n) && (n <=? maxSCRentLength)); Some (p <| SCRentLength := n |>)
  else Some p.

(** A loop over pairs with an early return. *)
Fixpoint foldO {S A} (f : S -> A -> option S) (l : list A) (s : S) : option S :=
  match l with [] => Some s | x :: l => s' ← f s x; foldO f l s' end.

Definition declareField (d : Declare_) (kv : bytes * bytes) : option Declare_ :=
  let '(k, v) := kv in
  if beqb k (str "hash") then
    Some (mkDeclare (Hash_UnmarshalText (ProposalHash d) v) (Declarer d) (Decision d))
  else if beqb k (str "decision") then
    if beqb v (str "yes") then Some (mkDeclare (ProposalHash d) (Declarer d) true)
    else if beqb v (str "no") then Some (mkDeclare (ProposalHash d) (Declarer d) false)
    else None
  else Some d.

Definition processEventDeclare (currentBlockDeclares : list Declare_) (txDataInfo : list bytes)
    (declarer : Address) : list Declare_ :=
  if glen txDataInfo <=? posEvent + 2 then currentBlockDeclares
  else match foldO declareField (pairs (drop (Z.to_nat (posEvent + 1)) txDataInfo)) (mkDeclare 0 declarer true) with
       | Some d => currentBlockDeclares ++ [d]
       | None => currentBlockDeclares
       end.

Definition processSCEventNoticeConfirm (l : list SCConfirmation) (hash : Hash) (number : Z)
    (chargingInfo : bytes) (sender : Address) : list SCConfirmation :=
  if beqb chargingInfo [] then l
  else l ++ [mkSCConfirmation hash sender number (Split chargingInfo sharp)].
Definition processSCEventConfirm (l : list SCConfirmation) (hash : Hash) (number : Z) (loopInfo : bytes)
    (tx : Transaction) (sender : Address) (refundHash : RefundHash) : list SCConfirmation * RefundHash :=
  (l ++ [mkSCConfirmation hash sender number (Split loopInfo sharp)],
   <[txHash tx := mkRefundPair sender (txGasPrice tx)]> refundHash).
Definition processSCEventSetCoinbase (l : list SCSetCoinbase) (hash : Hash) (signer coinbase : Address) :
  list SCSetCoinbase := l ++ [mkSCSetCoinbase hash signer coinbase].
(** The amount of an address is not a number of its own but the gas price of the
    pair it was first refunded for, a big integer that is changed in place; so
    the amounts are kept as the transaction whose pair holds them, next to the
    pairs. *)
Definition refundAddGas (refundHash : RefundHash) (refundGas : gmap Z Hash) (address : Address) (value : Hash) :
    RefundHash * gmap Z Hash :=
  match refundGas !! address with
  | Some cell => (alter (fun rp => mkRefundPair (Sender rp) (GasPrice rp + from_option GasPrice 0 (refundHash !! value)))
                    cell refundHash, refundGas)
  | None => (refundHash, <[address := value]> refundGas)
  end.

Section Events.
Context {EN : Env} {CR : ChainReader} {St : Type} {BS : Balances St}.
(** The package variable [minVoterBalance] and the configuration of the engine. *)
Variables (minVB : Z) (c : AlienConfig).

Definition freshProposal (tx : Transaction) (proposer : Address) : Proposal :=
  mkProposal (txHash tx) 0 proposalDeposit defaultValidationLoopCnt proposalTypeCandidateAdd proposer 0
    minerRewardPerThousand 0 1 0 [] (bigUint64 (minVB / ether)) (bigUint64 (proposalDeposit / ether))
    0 1 defaultSCRentLength.

(** What the proposer pays: the deposit, and the rent of a side chain;
    [None] ignores the transaction. *)
Definition proposalPay (snap : option Snapshot) (p : Proposal) : ares (option Z) :=
  if ProposalType p =? proposalTypeRentSideChain then
    s ← get_or_panic snap;
    Ok (if negb (isSideChainExist s (SCHash p)) || (TargetAddress p =? 0) then None
        else Some (proposalDeposit + SCRentFee p * ether))
  else Ok (Some proposalDeposit).

Definition processEventProposal (currentBlockProposals : list Proposal) (txDataInfo : list bytes)
    (state : St) (tx : Transaction) (proposer : Address) (snap : option Snapshot) : ares (list Proposal * St) :=
  if glen txDataInfo <=? posEvent + 2 then Ok (currentBlockProposals, state) else
  match foldO proposalField (pairs (drop (Z.to_nat (posEvent + 1)) txDataInfo)) (freshProposal tx proposer) with
  | None => Ok (currentBlockProposals, state)
  | Some proposal =>
      pay ← proposalPay snap proposal;
      Ok match pay with
         | None => (currentBlockProposals, state)
         | Some currentProposalPay =>
             if GetBalance state proposer <? currentProposalPay then (currentBlockProposals, state)
             else (currentBlockProposals ++ [proposal],
                   SetBalance state proposer (GetBalance state proposer - currentProposalPay))
         end
  end.

(** [*tx.To()] of a contract creation is a nil dereference. *)
Definition processEventVote (currentBlockVotes : list Vote) (state : St) (tx : Transaction)
    (voter : Address) : ares (list Vote) :=
  to ← get_or_panic (txTo tx);
  Ok (currentBlockVotes ++ [mkVote voter to (GetBalance state voter)]).

Definition processEventConfirm (currentBlockConfirmations : list Confirmation) (txDataInfo : list bytes)
    (number : Z) (tx : Transaction) (confirmer : Address) (refundHash : RefundHash) :
  list Confirmation * RefundHash :=
  let unchanged := (currentBlockConfirmations, refundHash) in
  match txDataInfo !! Z.to_nat posEventConfirmNumber with
  | None => unchanged
  | Some info =>
      match bigUnmarshalText info with
      | None => unchanged
      | Some confirmedBlockNumber =>
          if MaxSignerCount c <? number -u bigUint64 confirmedBlockNumber then unchanged else
          match GetHeaderByNumber (bigUint64 confirmedBlockNumber) with
          | None => unchanged
          | Some confirmedHeader =>
              if glen (hExtra confirmedHeader) <? extraVanity + extraSeal then unchanged else
              match headerExtra confirmedHeader with
              | Ok extra =>
                  if existsb (Z.eqb confirmer) (SignerQueue extra)
                  then (currentBlockConfirmations ++ [mkConfirmation confirmer confirmedBlockNumber],
                        <[txHash tx := mkRefundPair confirmer (txGasPrice tx)]> refundHash)
                  else unchanged
              | _ => unchanged
              end
          end
      end
  end.

Definition processPredecessorVoter (modifyPredecessorVotes : list Vote) (state : St) (tx : Transaction)
    (voter : Address) (snap : Snapshot) : list Vote :=
  match txTo tx with
  | Some to =>
      if 0 <? txValue tx then
        let l := if isVoter snap voter
                 then modifyPredecessorVotes ++ [mkVote voter 0 (GetBalance state voter)]
                 else modifyPredecessorVotes in
        if isVoter snap to then l ++ [mkVote to 0 (GetBalance state to)] else l
      else modifyPredecessorVotes
  | None => modifyPredecessorVotes
  end.
End Events.

Section Process.
Context {RT : GoRuntime} {EN : Env} {CR : ChainReader} {St : Type} {BS : Balances St}.
Variables (minVB : Z) (c : AlienConfig).

(** The variables of the loop over the transactions. *)
Record txState := mkTxState { tExtra : HeaderExtra; tState : St; tRefund : RefundHash }.

(** [snap.isCandidate(a)], which dereferences [snap]. *)
Definition snapIsCandidate (snap : option Snapshot) (a : Address) : ares bool :=
  s ← get_or_panic snap; Ok (isCandidate s a).

(** [txDataInfo[posEventVote] == ufoEventVote && ... && balance > snap.MinVB]. *)
Definition isVoteEvent (event : bytes) (snap : option Snapshot) (state : St) (tx : Transaction)
    (sender : Address) : ares bool :=
  if negb (beqb event ufoEventVote) then Ok false else
  ok ← (if negb candidateNeedPD then Ok true
        else to ← get_or_panic (txTo tx); snapIsCandidate snap to);
  if negb ok then Ok false else
  s ← get_or_panic snap; vb ← get_or_panic (MinVB s);
  Ok (vb <? GetBalance state sender).
Definition isCandidateEvent (event name : bytes) (snap : option Snapshot) (sender : Address) : ares bool :=
  if beqb event name then snapIsCandidate snap sender else Ok false.

Definition processEvent (number : Z) (snap : option Snapshot) (st : txState) (tx : Transaction)
    (sender : Address) (info : list bytes) (event : bytes) : ares txState :=
  let '(mkTxState x state refund) := st in
  vote ← isVoteEvent event snap state tx sender;
  if vote : bool then
    votes ← processEventVote (CurrentBlockVotes x) state tx sender;
    Ok (mkTxState (x <| CurrentBlockVotes := votes |>) state refund)
  else
  confirm ← isCandidateEvent event ufoEventConfirm snap sender;
  if confirm : bool then
    let '(l, refund') := processEventConfirm c (CurrentBlockConfirmations x) info number tx sender refund in
    Ok (mkTxState (x <| CurrentBlockConfirmations := l |>) state refund')
  else if beqb event ufoEventPorposal then
    '(l, state') ← processEventProposal minVB (CurrentBlockProposals x) info state tx sender snap;
    Ok (mkTxState (x <| CurrentBlockProposals := l |>) state' refund)
  else
  declare ← isCandidateEvent event ufoEventDeclare snap sender;
  Ok (if declare : bool
      then mkTxState (x <| CurrentBlockDeclares := processEventDeclare (CurrentBlockDeclares x) info sender |>) state refund
      else st).

(** The flag says that the code goes to the next transaction at once. *)
Definition processSC (snap : option Snapshot) (st : txState) (tx : Transaction)
    (sender : Address) (info : list bytes) (event : bytes) : ares (txState * bool) :=
  let '(mkTxState x state refund) := st in
  if beqb event ufoEventConfirm then
    match info with
    | _ :: _ :: _ :: _ :: hash :: num :: time :: loopInfo :: chargingInfo :: _ =>
        match bigUnmarshalText num, bigUnmarshalText time with
        | Some number, Some _ =>
            let scHash := HexToHash hash in
            let '(l, refund') := processSCEventConfirm (SideChainConfirmations x) scHash
                                   (bigUint64 number) loopInfo tx sender refund in
            let nl := processSCEventNoticeConfirm (SideChainNoticeConfirmed x) scHash
                        (bigUint64 number) chargingInfo sender in
            Ok (mkTxState (x <| SideChainConfirmations := l |> <| SideChainNoticeConfirmed := nl |>)
                  state refund', false)
        | _, _ => Ok (st, true)
        end
    | _ => Ok (st, false)
    end
  else
  set ← isCandidateEvent event ufoEventSetCoinbase snap sender;
  if set : bool then
    match info !! 4%nat with
    | Some hash =>
        if minSCSetCoinbaseValue <=? txValue tx then
          to ← get_or_panic (txTo tx);
          Ok (mkTxState (x <| SideChainSetCoinbases :=
                processSCEventSetCoinbase (SideChainSetCoinbases x) (HexToHash hash) sender to |>)
                state refund, false)
        else Ok (st, false)
    | None => Ok (st, false)
    end
  else Ok (st, false).

Definition processData (number : Z) (snap : option Snapshot) (st : txState) (tx : Transaction)
    (sender : Address) : ares (txState * bool) :=
  if glen (txData tx) <? glen ufoPrefix then Ok (st, false) else
  match Split (txData tx) colon with
  | (prefix :: version :: category :: rest) as info =>
      if negb (beqb prefix ufoPrefix && beqb version ufoVersion) then Ok (st, false)
      else match rest with
           | event :: _ =>
               if beqb category ufoCategoryEvent then
                 st' ← processEvent number snap st tx sender info event; Ok (st', false)
               else if beqb category ufoCategoryLog then Ok (st, false)
               else if beqb category ufoCategorySC then processSC snap st tx sender info event
               else Ok (st, false)
           | [] => Ok (st, false)
           end
  | _ => Ok (st, false)
  end.

Definition processTx (number : Z) (snap : option Snapshot) (st : txState) (tx : Transaction) : ares txState :=
  match txSender tx with
  | None => Ok st
  | Some sender =>
      '(st', next) ← processData number snap st tx sender;
      if next : bool then Ok st'
      else if 1 <? number then
        s ← get_or_panic snap;
        Ok (mkTxState (tExtra st' <| ModifyPredecessorVotes :=
              processPredecessorVoter (ModifyPredecessorVotes (tExtra st')) (tState st') tx sender s |>)
            (tState st') (tRefund st'))
      else Ok st'
  end.

(** The gas of the refunded transactions that succeeded. *)
Definition refundReceipt (st : RefundHash * gmap Z Hash) (r : Receipt) : RefundHash * gmap Z Hash :=
  let '(refundHash, refundGas) := st in
  match refundHash !! rTxHash r with
  | Some rp =>
      if rStatus r =? 1
      then refundAddGas (<[rTxHash r := mkRefundPair (Sender rp) (GasPrice rp * i64 (rGasUsed r))]> refundHash)
             refundGas (Sender rp) (rTxHash r)
      else st
  | None => st
  end.
(** The amounts read from their pairs. *)
Definition refundAmounts (st : RefundHash * gmap Z Hash) : RefundGas :=
  (fun cell => from_option GasPrice 0 (st.1 !! cell)) <$> st.2.

(** [snap] is the snapshot of the parent, retrieved only after block 1. *)
Definition processCustomTx (extra : HeaderExtra) (number : Z) (snap : option Snapshot) (state : St)
    (txs : list Transaction) (receipts : list Receipt) : ares (HeaderExtra * St * RefundGas) :=
  st ← foldM (processTx number snap) txs (mkTxState extra state ∅);
  Ok (tExtra st, tState st, refundAmounts (fold_left refundReceipt receipts (tRefund st, ∅))).
End Process.

(** ** Gas refunds *)

(** What a receipt adds to the refund of [a]. *)
Definition refundPart (refundHash : RefundHash) (a : Address) (r : Receipt) : Z :=
  match refundHash !! rTxHash r with
  | Some rp => if (rStatus r =? 1) && (Sender rp =? a) then GasPrice rp * i64 (rGasUsed r) else 0
  | None => 0
  end.
(** The pairs of the receipts that are still to come are untouched, and the cell
    of an address is a pair of that address that has been used. *)
Definition refund_inv (refundHash : RefundHash) (used : list Hash) (st : RefundHash * gmap Z Hash) : Prop :=
  (forall h, h ∉ used -> st.1 !! h = refundHash !! h) /\
  (forall a c, st.2 !! a = Some c -> c ∈ used /\ exists rp, st.1 !! c = Some rp /\ Sender rp = a).

Lemma refundReceipt_step refundHash used st r a :
  refund_inv refundHash used st -> rTxHash r ∉ used ->
  refund_inv refundHash (used ++ [rTxHash r]) (refundReceipt st r) /\
  default 0 (refundAmounts (refundReceipt st r) !! a) =
    default 0 (refundAmounts st !! a) + refundPart refundHash a r.
Proof.
  destruct st as [P C]. intros [H1 H2] Hnew. simpl in H1, H2. unfold refundReceipt, refundPart.
  rewrite <- (H1 _ Hnew). set (h := rTxHash r) in *.
  assert (forall k, k ∉ used ++ [h] -> (k ∉ used) /\ k <> h) as Hout
    by (intros k Hk; rewrite elem_of_app, list_elem_of_singleton in Hk; tauto).
  assert (refund_inv refundHash (used ++ [h]) (P, C)) as Hsame.
  { split; simpl; [intros k Hk; by apply H1, Hout|]. intros a' c Hc. destruct (H2 a' c Hc) as [Hu Hrp].
    split; [apply elem_of_app; by left|done]. }
  destruct (P !! h) as [rp|] eqn:Eh; [|split; [done|simpl; lia]].
  destruct (rStatus r =? 1); [|split; [done|simpl; lia]]. simpl.
  set (v := GasPrice rp * i64 (rGasUsed r)). unfold refundAddGas.
  destruct (C !! Sender rp) as [cell|] eqn:Ec; simpl.
  - destruct (H2 _ _ Ec) as (Hu & rc & Erc & Hs). assert (cell <> h) as Hne by congruence. split; [split; simpl|].
    + intros k [Hk Hkh]%Hout. rewrite lookup_alter_ne, lookup_insert_ne by congruence. by apply H1.
    + intros a' c Hc. destruct (H2 a' c Hc) as (Hu' & rp' & Erp' & Hs'). split; [apply elem_of_app; by left|].
      destruct (decide (cell = c)) as [<-|Hcc].
      * rewrite lookup_alter_eq, lookup_insert_eq, lookup_insert_ne, Erp' by congruence. by eexists.
      * rewrite lookup_alter_ne, lookup_insert_ne by congruence. by eexists.
    + unfold refundAmounts; simpl. rewrite !lookup_fmap. destruct (Z.eqb_spec (Sender rp) a) as [<-|Ha].
      * rewrite Ec; simpl. by rewrite lookup_alter_eq, lookup_insert_eq, lookup_insert_ne, Erc by congruence.
      * destruct (C !! a) as [c|] eqn:Ea; simpl; [|done]. destruct (H2 _ _ Ea) as (_ & rp' & Erp' & Hs').
        rewrite lookup_alter_ne, lookup_insert_ne by congruence. lia.
  - split; [split; simpl|].
    + intros k [Hk Hkh]%Hout. rewrite lookup_insert_ne by congruence. by apply H1.
    + intros a' c [[<- <-]|[_ Hc]]%lookup_insert_Some.
      { split; [apply elem_of_app; right; by left|]. rewrite lookup_insert_eq. by eexists. }
      destruct (H2 a' c Hc) as (Hu' & rp' & Erp' & Hs'). split; [apply elem_of_app; by left|].
      rewrite lookup_insert_ne by congruence. by eexists.
    + unfold refundAmounts; simpl. rewrite !lookup_fmap. destruct (Z.eqb_spec (Sender rp) a) as [<-|Ha].
      * rewrite lookup_insert_eq, Ec; simpl. by rewrite lookup_insert_eq.
      * rewrite lookup_insert_ne by done. destruct (C !! a) as [c|] eqn:Ea; simpl; [|done].
        destruct (H2 _ _ Ea) as (Hc & _). rewrite lookup_insert_ne by congruence. lia.
Qed.

(** With one receipt for each transaction the sharing cannot be seen: an address
    gets the gas of its successful transactions at their gas prices. *)
Lemma refund_total refundHash receipts a :
  NoDup (map rTxHash receipts) ->
  default 0 (refundAmounts (fold_left refundReceipt receipts (refundHash, ∅)) !! a) =
    sumZ (refundPart refundHash a) receipts.
Proof.
  intros Hnd. cut (refund_inv refundHash (map rTxHash receipts) (fold_left refundReceipt receipts (refundHash, ∅)) /\
    default 0 (refundAmounts (fold_left refundReceipt receipts (refundHash, ∅)) !! a) =
    sumZ (refundPart refundHash a) receipts); [by intros []|].
  revert Hnd. induction receipts as [|r l IH] using rev_ind; intros Hnd.
  { split; [|done]. split; [done|]. simpl. intros a' c. by rewrite lookup_empty. }
  rewrite map_app in Hnd |- *. apply NoDup_app in Hnd as (Hnd & Hnew & _). destruct (IH Hnd) as [IH1 IH2].
  rewrite fold_left_app, sumZ_app. cbn [fold_left map].
  destruct (refundReceipt_step refundHash (map rTxHash l) _ r a IH1) as [H1 H2].
  { intros Hin. apply (Hnew _ Hin). by left. }
  split; [done|]. rewrite H2, IH2. simpl. lia.
Qed.

(** ** Transactions that stop every node *)
Section Panics.
Context {RT : GoRuntime} {EN : Env} {CR : ChainReader} {St : Type} {BS : Balances St}.

(** C38. A vote event in a contract creation, which has no recipient, sent by
    anyone whose balance allows a vote, panics in the block it is mined in;
    so does any vote event in block 1, where there is no snapshot yet. *)
Theorem vote_event_panics minVB c number s vb (st : txState) tx sender rest :
  txSender tx = Some sender -> txData tx = str "ufo:1:event:vote" ->
  (MinVB s = Some vb -> vb < GetBalance (tState st) sender -> txTo tx = None ->
     foldM (processTx minVB c number (Some s)) (tx :: rest) st = Panic) /\
  foldM (processTx minVB c 1 None) (tx :: rest) st = Panic.
Proof.
  intros Hs Hd. destruct st as [x state refund]. cbn [tState].
  assert (Split (str "ufo:1:event:vote") colon = [ufoPrefix; ufoVersion; ufoCategoryEvent; ufoEventVote])
    as Hsplit by reflexivity.
  assert (forall n snap r, isVoteEvent ufoEventVote snap state tx sender = r -> r = Panic \/ r = Ok true /\ txTo tx = None ->
    foldM (processTx minVB c n snap) (tx :: rest) (mkTxState x state refund) = Panic) as Hstep.
  { intros n snap r Hr Hcase.
    assert (processEvent minVB c n snap (mkTxState x state refund) tx sender
      [ufoPrefix; ufoVersion; ufoCategoryEvent; ufoEventVote] ufoEventVote = Panic) as He.
    { unfold processEvent. rewrite Hr. destruct Hcase as [->|[-> Hto]]; [done|]. cbn [mbind res_bind].
      unfold processEventVote. by rewrite Hto. }
    assert (processTx minVB c n snap (mkTxState x state refund) tx = Panic) as Hp; [|cbn [foldM]; by rewrite Hp].
    unfold processTx. rewrite Hs. unfold processData. rewrite Hd, Hsplit.
    change (glen (str "ufo:1:event:vote") <? glen ufoPrefix) with false. cbv iota.
    change (negb (beqb ufoPrefix ufoPrefix && beqb ufoVersion ufoVersion)) with false. cbv iota.
    change (beqb ufoCategoryEvent ufoCategoryEvent) with true. cbv iota. by rewrite He. }
  split; [intros Hvb Hbal Hto|]; (eapply Hstep; [reflexivity|]).
  - right. split; [|done]. unfold isVoteEvent. change (negb (beqb ufoEventVote ufoEventVote)) with false. cbv iota.
    cbn [negb candidateNeedPD mbind res_bind get_or_panic]. rewrite Hvb. cbn [mbind res_bind get_or_panic].
    by rewrite (proj2 (Z.ltb_lt vb (GetBalance state sender)) Hbal).
  - left. reflexivity.
Qed.
End Panics.

(** ** Proposals *)
Lemma Atoi_range s n : Atoi s = Ok n -> - 2 ^ 63 <= n < 2 ^ 63.
Proof.
  unfold Atoi. set (p := match s with [] => _ | _ :: _ => _ end). destruct p as [neg digits].
  intros (un & Hun & H)%bind_Ok_inv.
  assert (0 <= un <= maxUint64) as Hr.
  { unfold ParseUint in Hun. destruct digits; [done|]. by apply parseUintLoop_inv in Hun as [_ ?]. }
  destruct neg; [destruct (Z.ltb_spec (2 ^ 63) un)|destruct (Z.leb_spec (2 ^ 63) un)]; simplify_eq; lia.
Qed.

Lemma atoiIn_Some v accept n :
  atoiIn v accept = Some n -> exists m, accept m = true /\ n = u64 m /\ - 2 ^ 63 <= m < 2 ^ 63.
Proof.
  unfold atoiIn. destruct (Atoi v) as [m| | |] eqn:E; try done. destruct (accept m) eqn:Ea; [|done].
  intros [= <-]. exists m. split_and!; [done|done|apply (Atoi_range _ _ E)..].
Qed.

(** What the fields of an accepted proposal satisfy. *)
Record proposal_wf (p : Proposal) : Prop := {
  wf_validation : minValidationLoopCnt <= ValidationLoopCnt p <= maxValidationLoopCnt;
  wf_reward : 1 <= MinerRewardPerThousand p <= 1000;
  wf_deposit : 1 <= ProposalDeposit p <= maxProposalDeposit;
  wf_current : CurrentDeposit p = proposalDeposit;
  wf_fee : SCRentFee p = 0 \/ minSCRentFee <= SCRentFee p < 2 ^ 63;
  wf_rate : 1 <= SCRentRate p < 2 ^ 63;
  wf_length : minSCRentLength <= SCRentLength p <= maxSCRentLength;
  wf_undeclared : Declares p = []
}.

Lemma freshProposal_wf minVB tx a : proposal_wf (freshProposal minVB tx a).
Proof.
  split; cbn [freshProposal ValidationLoopCnt MinerRewardPerThousand ProposalDeposit CurrentDeposit SCRentFee
    SCRentRate SCRentLength Declares]; first [reflexivity | by left | vm_compute; split; first [intros [=] | reflexivity]].
Qed.

Ltac atoi_field H :=
  let n := fresh "n" in let Hn := fresh "Hn" in let m := fresh "m" in let Hm := fresh "Hm" in
  apply bind_Some in H as (n & Hn & H); apply atoiIn_Some in Hn as (m & Hm & -> & ?); injection H as <-;
  repeat match goal with
  | H : _ && _ = true |- _ => apply andb_true_iff in H as [? ?]
  | H : (_ <=? _) = true |- _ => apply Z.leb_le in H
  | H : (_ <? _) = true |- _ => apply Z.ltb_lt in H
  end.

Ltac bounds :=
  unfold minValidationLoopCnt, maxValidationLoopCnt, maxProposalDeposit, minSCRentFee,
    maxSCRentLength, defaultSCRentLength, minSCRentLength in *;
  rewrite ?u64_small by (split; lia); first [assumption | lia].

Lemma proposalField_wf p kv p' : proposal_wf p -> proposalField p kv = Some p' ->
  proposal_wf p' /\ pHash p' = pHash p /\ Proposer p' = Proposer p.
Proof.
  intros [? ? ? ? ? ? ? ?] H. destruct kv as [k v]. unfold proposalField in H. cbv beta iota in H.
  repeat (case_match; [first [injection H as <- | atoi_field H];
    (split; [|done]); split; simpl; bounds|]).
  injection H as <-. split; [|done]. by split.
Qed.

Lemma proposalFields_wf l p p' : proposal_wf p -> foldO proposalField l p = Some p' ->
  proposal_wf p' /\ pHash p' = pHash p /\ Proposer p' = Proposer p.
Proof.
  revert p. induction l as [|kv l IH]; intros p Hp H; simpl in H; [by injection H as <-|].
  apply bind_Some in H as (p1 & H1 & H). destruct (proposalField_wf _ _ _ Hp H1) as (Hp1 & Eh & Ep).
  destruct (IH _ Hp1 H) as (? & ? & ?). split_and!; congruence.
Qed.

Section Proposals.
Context {RT : GoRuntime} {EN : Env} {CR : ChainReader} {St : Type} {BS : Balances St}.

(** C21. A proposal is taken up only with every parameter in its range and
    paid for: the deposit, and the rent of a side chain, leave the balance of
    the proposer, which stays non-negative, and no other balance changes;
    otherwise the transaction changes nothing. *)
Theorem processEventProposal_pays minVB l info (state : St) tx a snap l' state' :
  processEventProposal minVB l info state tx a snap = Ok (l', state') ->
  (l' = l /\ state' = state) \/
  exists p, l' = l ++ [p] /\ proposal_wf p /\ pHash p = txHash tx /\ Proposer p = a /\
    GetBalance state' a = GetBalance state a - (CurrentDeposit p + rentPaid p) /\
    0 <= GetBalance state' a /\ forall b, b <> a -> GetBalance state' b = GetBalance state b.
Proof.
  unfold processEventProposal. destruct (_ <=? _); [intros [= <- <-]; by left|].
  destruct (foldO _ _ _) as [p|] eqn:Ef; [|intros [= <- <-]; by left].
  apply proposalFields_wf in Ef as (Hwf & Hh & Hp); [|apply freshProposal_wf].
  intros (pay & Hpay & H)%bind_Ok_inv. destruct pay as [v|]; [|injection H as <- <-; by left].
  destruct (Z.ltb_spec (GetBalance state a) v) as [|Hge]; injection H as <- <-; [by left|].
  right. exists p. rewrite GetBalance_Set, Z.eqb_refl.
  assert (v = CurrentDeposit p + rentPaid p) as ->.
  { rewrite (wf_current p Hwf). unfold rentPaid, proposalPay in *.
    destruct (ProposalType p =? proposalTypeRentSideChain); [|injection Hpay as <-; lia].
    apply bind_Ok_inv in Hpay as (s & _ & Hpay). destruct (_ || _); [done|]. injection Hpay as <-. done. }
  split_and!; try done; try lia. intros b Hb. rewrite GetBalance_Set.
  by destruct (Z.eqb_spec a b) as [->|].
Qed.
End Proposals.

(** ** Votes *)
Section Votes.
Context {RT : GoRuntime} {EN : Env} {CR : ChainReader} {St : Type} {BS : Balances St}.
Variables (minVB : Z) (c : AlienConfig).

Definition solvent (state : St) : Prop := forall b, 0 <= GetBalance state b.
(** The votes of the block carry more than the minimum stake, the changed
    stakes are not negative and no account is overdrawn. *)
Definition votes_ok (vb : Z) (st : txState) : Prop :=
  Forall (fun v => vb < Stake v) (CurrentBlockVotes (tExtra st)) /\
  valid_votes (ModifyPredecessorVotes (tExtra st)) /\ solvent (tState st).

Lemma processEventProposal_solvent l info state tx a snap l' state' :
  solvent state -> processEventProposal minVB l info state tx a snap = Ok (l', state') -> solvent state'.
Proof.
  intros Hs. unfold processEventProposal. destruct (_ <=? _); [by intros [= <- <-]|].
  destruct (foldO _ _ _) as [p|]; [|by intros [= <- <-]].
  intros (pay & _ & H)%bind_Ok_inv. destruct pay as [v|]; [|by injection H as <- <-].
  destruct (Z.ltb_spec (GetBalance state a) v); injection H as <- <-; [done|].
  intros b. rewrite GetBalance_Set. destruct (_ =? b); [lia|apply Hs].
Qed.

Lemma isVoteEvent_balance event s vb state tx sender :
  MinVB s = Some vb -> isVoteEvent event (Some s) state tx sender = Ok true -> vb < GetBalance state sender.
Proof.
  intros Hvb. unfold isVoteEvent. destruct (negb (beqb event ufoEventVote)); [done|].
  cbn [negb candidateNeedPD mbind res_bind get_or_panic]. rewrite Hvb. cbn [mbind res_bind get_or_panic].
  intros [= H%Z.ltb_lt]. done.
Qed.

Lemma processEvent_votes number s vb st tx sender info event st' :
  MinVB s = Some vb -> votes_ok vb st ->
  processEvent minVB c number (Some s) st tx sender info event = Ok st' -> votes_ok vb st'.
Proof.
  intros Hvb (Hv & Hm & Hs) H. destruct st as [x state refund]. cbn [tExtra tState] in *.
  unfold processEvent in H. apply bind_Ok_inv in H as (vote & Hvote & H). destruct vote.
  { apply isVoteEvent_balance with (vb := vb) in Hvote; [|done].
    apply bind_Ok_inv in H as (votes & Hvs & H). injection H as <-. unfold processEventVote in Hvs.
    apply bind_Ok_inv in Hvs as (to & _ & Hvs). injection Hvs as <-.
    split; [|done]. simpl. apply Forall_app. split; [done|]. by apply Forall_singleton. }
  apply bind_Ok_inv in H as (confirm & _ & H). destruct confirm.
  { destruct (processEventConfirm _ _ _ _ _ _ _). by injection H as <-. }
  destruct (beqb event ufoEventPorposal).
  { apply bind_Ok_inv in H as ([l state'] & Hp & H). injection H as <-.
    split_and!; [done|done|]. by eapply processEventProposal_solvent. }
  apply bind_Ok_inv in H as (d & _ & H). injection H as <-. by destruct d.
Qed.

Lemma processSC_votes snap vb st tx sender info event st' next :
  votes_ok vb st -> processSC snap st tx sender info event = Ok (st', next) -> votes_ok vb st'.
Proof.
  intros Hok H. destruct st as [x state refund]. unfold processSC in H.
  destruct (beqb event ufoEventConfirm).
  { do 9 (destruct info as [|? info]; [by injection H as <- <-|]).
    destruct (bigUnmarshalText _); [|by injection H as <- <-].
    destruct (bigUnmarshalText _); by injection H as <- <-. }
  apply bind_Ok_inv in H as (b & _ & H). destruct b; [|by injection H as <- <-].
  destruct (info !! 4%nat); [|by injection H as <- <-].
  destruct (_ <=? _); [|by injection H as <- <-].
  apply bind_Ok_inv in H as (to & _ & H). by injection H as <- <-.
Qed.

Lemma processData_votes number s vb st tx sender st' next :
  MinVB s = Some vb -> votes_ok vb st ->
  processData minVB c number (Some s) st tx sender = Ok (st', next) -> votes_ok vb st'.
Proof.
  intros Hvb Hok. unfold processData. destruct (_ <? _); [by intros [= <- <-]|].
  destruct (Split _ _) as [|prefix [|version [|category rest]]]; [by intros [= <- <-]..|].
  destruct (negb _); [by intros [= <- <-]|]. destruct rest as [|event rest]; [by intros [= <- <-]|].
  destruct (beqb category ufoCategoryEvent).
  { intros (st1 & H1 & H)%bind_Ok_inv. injection H as <- <-. by eapply processEvent_votes. }
  destruct (beqb category ufoCategoryLog); [by intros [= <- <-]|].
  destruct (beqb category ufoCategorySC); [by apply processSC_votes|by intros [= <- <-]].
Qed.

Lemma processTx_votes number s vb st tx st' :
  MinVB s = Some vb -> votes_ok vb st ->
  processTx minVB c number (Some s) st tx = Ok st' -> votes_ok vb st'.
Proof.
  intros Hvb Hok. unfold processTx. destruct (txSender tx) as [sender|]; [|by intros [= <-]].
  intros ([st1 next] & H1 & H)%bind_Ok_inv.
  eapply processData_votes in H1 as (Hv & Hm & Hs); [|done..].
  destruct next; [by injection H as <-|]. destruct (1 <? number); [|by injection H as <-].
  cbn [get_or_panic mbind res_bind] in H. injection H as <-. split_and!; [done| |done].
  simpl. unfold processPredecessorVoter. destruct (txTo tx) as [to|]; [|done]. destruct (0 <? txValue tx); [|done].
  destruct (isVoter s sender), (isVoter s to); unfold valid_votes in *; rewrite ?Forall_app, ?Forall_singleton;
    split_and?; try done; apply Hs.
Qed.

(** C20. Only voters with more than the minimum balance are recorded: every
    stake is above the minimum; no stake put into a header is negative, which is
    what the tally invariant needs, and no account is overdrawn. *)
Theorem processCustomTx_votes extra number s vb (state : St) txs receipts extra' state' refund :
  MinVB s = Some vb -> 0 <= vb -> solvent state ->
  CurrentBlockVotes extra = [] -> ModifyPredecessorVotes extra = [] ->
  processCustomTx minVB c extra number (Some s) state txs receipts = Ok (extra', state', refund) ->
  Forall (fun v => vb < Stake v) (CurrentBlockVotes extra') /\
  valid_votes (CurrentBlockVotes extra') /\ valid_votes (ModifyPredecessorVotes extra') /\ solvent state'.
Proof.
  intros Hvb H0 Hs Hv Hm. unfold processCustomTx. intros (st & Hrun & H)%bind_Ok_inv. injection H as <- <- <-.
  assert (votes_ok vb st) as (H1 & H2 & H3).
  { revert Hrun. apply foldM_inv.
    - split_and!; simpl; [by rewrite Hv|unfold valid_votes; by rewrite Hm|done].
    - intros tx st1 st2 _. by apply processTx_votes. }
  split_and!; try done. eapply Forall_impl; [exact H1|]. simpl. lia.
Qed.
End Votes.

(** ** Confirmations of side-chain blocks *)
Lemma valueFrom_digits b a s v : valueFrom b a s = Some v -> Forall (fun c => is_Some (digitIn b c)) s.
Proof.
  revert a. induction s as [|c s IH]; intros a H; [done|]. cbn [valueFrom] in H.
  apply bind_Some in H as (d & Hd & H). constructor; [by eexists|by eapply IH].
Qed.

Lemma formatNat_no_colon n : 0 <= n -> colon ∉ formatNat 10 n.
Proof.
  intros Hn. destruct (formatNat_spec 10 n ltac:(lia) Hn) as (c & ds & -> & Hv & _).
  apply valueFrom_digits in Hv. rewrite Forall_forall in Hv. intros [d Hd]%Hv. vm_compute in Hd. done.
Qed.

Lemma unmarshal_formatNat n : 0 <= n -> bigUnmarshalText (formatNat 10 n) = Some n.
Proof.
  intros Hn. destruct (formatNat_spec 10 n ltac:(lia) Hn) as (c & ds & -> & Hv & Hz).
  pose proof (valueFrom_digits _ _ _ _ Hv) as Hd. apply Forall_cons in Hd as [[d Hd] _].
  assert (48 <= c <= 57) as Hc.
  { unfold digitIn, digitVal in Hd. repeat case_match; simplify_eq/=; repeat case_match; simplify_eq; lia. }
  destruct (decide (c = 48)) as [->|Hne].
  - by destruct (Hz eq_refl) as [-> ->].
  - assert (unmarshalNat (c :: ds) = Some n) as Hu.
    { unfold unmarshalNat. assert (c = 49 \/ c = 50 \/ c = 51 \/ c = 52 \/ c = 53 \/ c = 54 \/ c = 55 \/ c = 56 \/ c = 57)
        as Hcase by lia. repeat destruct Hcase as [->|Hcase]; try done. by subst c. }
    unfold bigUnmarshalText.
    assert (c = 49 \/ c = 50 \/ c = 51 \/ c = 52 \/ c = 53 \/ c = 54 \/ c = 55 \/ c = 56 \/ c = 57)
        as Hcase by lia. repeat destruct Hcase as [->|Hcase]; try done. by subst c.
Qed.

Lemma hexEncode_no_colon b : Forall is_byte b -> colon ∉ hexEncode b.
Proof.
  assert (forall d, 0 <= d < 16 -> digitChar d <> colon) as Hd.
  { intros d Hd. unfold digitChar, colon. destruct (Z.ltb_spec d 10); lia. }
  induction 1 as [|x b Hx Hb IH]; [apply not_elem_of_nil|]. unfold is_byte in Hx.
  change (hexEncode (x :: b)) with (digitChar (x / 16) :: digitChar (x mod 16) :: hexEncode b).
  rewrite !not_elem_of_cons. split_and!; [| |done]; apply not_eq_sym, Hd.
  - split; [apply Z.div_pos; lia|apply Z.div_lt_upper_bound; lia].
  - apply Z.mod_pos_bound. lia.
Qed.

Lemma Hash_Hex_no_colon h : colon ∉ Hash_Hex h.
Proof.
  unfold Hash_Hex, Encode. set (b := beBytes _ h).
  assert (HexToCP (str "0x" ++ hexEncode b) = str "0x" ++ hexEncode b) as ->.
  { unfold HexToCP. destruct (_ && _); [|done]. reflexivity. }
  rewrite not_elem_of_app. split; [by apply (bool_decide_unpack _); vm_compute|].
  apply hexEncode_no_colon, beBytes_bytes.
Qed.

Section RoundTrip.
Context {RT : GoRuntime} {EN : Env} {CR : ChainReader} {St : Type} {BS : Balances St}.
Variables (minVB : Z) (c : AlienConfig).

(** C22. What a side chain writes is what the main chain reads: the
    confirmation a side-chain node builds for block [n] of its chain is
    recorded with the hash of the chain, the number and the fields of its
    loop info, its notices are recorded when there are any, and the sender
    is registered for the refund of its gas. *)
Theorem sc_confirm_roundtrip number snap x (state : St) refund tx sender h n t loop charging :
  0 <= h < 2 ^ 256 -> colon ∉ loop -> colon ∉ charging ->
  txData tx = buildSCEventConfirmData h n t loop charging ->
  processData minVB c number snap (mkTxState x state refund) tx sender =
  Ok (mkTxState
        (x <| SideChainConfirmations ::= fun l => l ++ [mkSCConfirmation h sender (bigUint64 n) (Split loop sharp)] |>
           <| SideChainNoticeConfirmed ::= fun l =>
                if beqb charging [] then l
                else l ++ [mkSCConfirmation h sender (bigUint64 n) (Split charging sharp)] |>)
        state (<[txHash tx := mkRefundPair sender (txGasPrice tx)]> refund), false).
Proof.
  intros Hh Hl Hc Hd. unfold processData. rewrite Hd.
  assert (forall z, 0 <= bigUint64 z) as Hpos by (intros; apply u64_range).
  set (fields := [ufoPrefix; ufoVersion; ufoCategorySC; ufoEventConfirm; Hash_Hex h;
      formatNat 10 (bigUint64 n); formatNat 10 (bigUint64 t); loop; charging]).
  assert (Split (buildSCEventConfirmData h n t loop charging) colon = fields) as ->.
  { apply Split_Join; [done|].
    assert (Forall (fun l => colon ∉ l) [ufoPrefix; ufoVersion; ufoCategorySC; ufoEventConfirm]) as Hk
      by (apply (bool_decide_unpack _); by vm_compute).
    apply (Forall_app_2 _ [ufoPrefix; ufoVersion; ufoCategorySC; ufoEventConfirm] _ Hk).
    repeat constructor; auto using formatNat_no_colon, Hash_Hex_no_colon. }
  assert ((glen (buildSCEventConfirmData h n t loop charging) <? glen ufoPrefix) = false) as ->.
  { apply Z.ltb_ge. unfold buildSCEventConfirmData. cbn [Join]. unfold glen. rewrite !length_app. simpl length. lia. }
  unfold fields. cbv iota beta.
  change (negb (beqb ufoPrefix ufoPrefix && beqb ufoVersion ufoVersion)) with false. cbv iota.
  change (beqb ufoCategorySC ufoCategoryEvent) with false. change (beqb ufoCategorySC ufoCategoryLog) with false.
  change (beqb ufoCategorySC ufoCategorySC) with true. cbv iota.
  unfold processSC. change (beqb ufoEventConfirm ufoEventConfirm) with true. cbv iota beta.
  rewrite !unmarshal_formatNat by apply Hpos. unfold processSCEventConfirm, processSCEventNoticeConfirm.
  rewrite HexToHash_of_Hex by done.
  assert (bigUint64 (bigUint64 n) = bigUint64 n) as ->.
  { unfold bigUint64 at 1. rewrite Z.abs_eq by apply Hpos. apply u64_idemp. }
  destruct (beqb charging []); done.
Qed.
End RoundTrip.
