(* ===== verification/AlienEngine.v ===== *)
(** * The alien consensus engine

    Models [consensus/alien/alien.go]: verification of headers and seals, the
    retrieval of snapshots through the caches, the assembly of a block
    ([Finalize]), its seal, and the signers to punish; the engine that answers
    for the main chain on a side chain ([cross_chain.go]) is a parameter. *)
From S2P Require Import Prelude AlienTypes AlienVotes AlienProposal AlienQueue GoText Hexutil AlienSideChain AlienApply AlienReward AlienTx.

(** ** Missing signers *)

(** The queue read backwards up to [lastSigner]. *)
Fixpoint missingUntil (lastSigner : Address) (l : list Address) : list Address :=
  match l with
  | [] => []
  | x :: l => if lastSigner =? x then [] else x :: missingUntil lastSigner l
  end.
(** The scan of [getSignerMissing] inside a loop. *)
Fixpoint missingScan (lastSigner currentSigner : Address) (recordMissing : bool) (l : list Address) : list Address :=
  match l with
  | [] => []
  | signer :: l =>
      if signer =? lastSigner then missingScan lastSigner currentSigner true l
      else if signer =? currentSigner then []
      else if recordMissing then signer :: missingScan lastSigner currentSigner recordMissing l
      else missingScan lastSigner currentSigner recordMissing l
  end.
Definition getSignerMissing (lastSigner currentSigner : Address) (extra : HeaderExtra) (newLoop : bool) : list Address :=
  if newLoop then missingUntil lastSigner (reverse (SignerQueue extra))
  else missingScan lastSigner currentSigner false (SignerQueue extra).

(** The scan of [getSignerMissingTrantor]: only the first [lastSigner] starts
      the record, only a later [currentSigner] ends it. *)
Fixpoint trantorScan (lastSigner currentSigner : Address) (recordMissing : bool) (l : list Address) : list Address :=
  match l with
  | [] => []
  | signer :: l =>
      if negb recordMissing && (signer =? lastSigner) then trantorScan lastSigner currentSigner true l
      else if recordMissing && (signer =? currentSigner) then []
      else if recordMissing then signer :: trantorScan lastSigner currentSigner recordMissing l
      else trantorScan lastSigner currentSigner recordMissing l
  end.
(** Position of the first [lastSigner] in the queue of the grandparent. *)
Fixpoint position (x : Address) (l : list Address) : option nat :=
  match l with
  | [] => None
  | y :: l => if y =? x then Some O else S <$> position x l
  end.
(** The capacity of the slice the RLP decoder fills with a list of [n] elements:
    it grows by half, to four at least, whenever it reads on at a full slice,
    also for the end of the list; an empty list gets an empty slice. *)
Definition growCap (cap : nat) : nat :=
  let newcap := (cap + cap / 2)%nat in if decide (newcap < 4)%nat then 4%nat else newcap.
Fixpoint capAt (i : nat) : nat :=
  match i with
  | O => growCap 0
  | S j => if decide (capAt j <= i)%nat then growCap (capAt j) else capAt j
  end.
Definition decodedCap (n : nat) : nat := match n with O => O | S _ => capAt n end.
(** Two turns of the queue, from the slot of [lastSigner] in the queue of the
    grandparent when it has one there; a slot outside the queue panics. With
    the queue the parent is left with: [append] doubles a decoded queue in its
    own array when the capacity allows, and then the slot of [lastSigner] is
    written into the queue of the parent too. *)
Definition trantorQueue (lastSigner : Address) (queue gpQueue : list Address) :
    ares (list Address * list Address) :=
  let signerQueue := queue ++ queue in
  match position lastSigner gpQueue with
  | Some i => if decide (i < length signerQueue)%nat
              then Ok (drop i (<[i := lastSigner]> signerQueue),
                       if decide (length signerQueue <= decodedCap (length queue))%nat
                       then <[i := lastSigner]> queue else queue)
              else Panic
  | None => Ok (signerQueue, queue)
  end.
(** The missing signers, and the queue [extra] is left with. *)
Definition getSignerMissingTrantor (lastSigner currentSigner : Address) (extra gpExtra : HeaderExtra) :
    ares (list Address * list Address) :=
  '(q, queue) ← trantorQueue lastSigner (SignerQueue extra) (SignerQueue gpExtra);
  Ok (trantorScan lastSigner currentSigner false q, queue).

(** ** The engine *)
Definition checkpointInterval : Z := 360.
Definition defaultEpochLength : Z := 201600.
Definition defaultBlockPeriod : Z := 3.
Definition defaultMaxSignerCount : Z := 21.
Definition defaultDifficulty : Z := 1.

(** The engine: its configuration, the snapshots on disk and in memory, and
    the variables of the package that describe the main chain. *)
Record Alien := mkAlien {
  aConfig : AlienConfig; aDb : gmap Z Snapshot; recents : gmap Z Snapshot;
  mcLoopStartTime : Z; mcPeriod : Z; mcSignerLength : Z
}.
#[export] Instance Alien_eta : Settable Alien := fun a =>
  mkAlien (aConfig a) (aDb a) (recents a) (mcLoopStartTime a) (mcPeriod a) (mcSignerLength a).
#[export] Instance AlienConfig_eta : Settable AlienConfig := fun c =>
  mkAlienConfig (Period c) (Epoch c) (MaxSignerCount c) (MinVoterBalance c) (GenesisTimestamp c)
    (SelfVoteSigners c) (SideChain c) (TrantorBlock c).

(** [New]: the missing parameters get their defaults, and a configured minimum
    balance replaces the package variable. A nil balance panics. *)
Definition New (minVB : Z) (c : AlienConfig) : ares (Z * Alien) :=
  let conf := if Epoch c =? 0 then c <| Epoch := defaultEpochLength |> else c in
  let conf := if Period conf =? 0 then conf <| Period := defaultBlockPeriod |> else conf in
  let conf := if MaxSignerCount conf =? 0 then conf <| MaxSignerCount := defaultMaxSignerCount |> else conf in
  b ← get_or_panic (MinVoterBalance conf);
  Ok (if 0 <? bigUint64 b then b else minVB, mkAlien conf ∅ ∅ 0 0 0).

Section Engine.
Context {RT : GoRuntime} {EN : Env} {CR : ChainReader}.
(** The clock, the hash of an empty list of uncles, the signature cache, the
    package variable [minVoterBalance], the bounded cache of snapshots and the
    snapshot the main chain answers. *)
Variables (now : Z) (uncleHash : Hash) (sigcache : Hash -> option Address) (minVB : Z)
  (cacheAdd : gmap Z Snapshot -> Hash -> Snapshot -> gmap Z Snapshot)
  (getMainChainSnapshotByTime : Z -> Hash -> ares Snapshot).

Definition Author (header : Header) : ares Address := ecrecover sigcache header.

(** *** Headers: the checks of [verifyHeader] that need no other header *)
Definition verifyBasic (header : Header) : ares Z :=
  match hNumber header with
  | None => Err errUnknownBlock
  | Some number =>
      if now <? hTime header then Err ErrFutureBlock
      else if glen (hExtra header) <? extraVanity then Err errMissingVanity
      else if glen (hExtra header) <? extraVanity + extraSeal then Err errMissingSignature
      else if negb (hMixDigest header =? 0) then Err errInvalidMixDigest
      else if negb (hUncleHash header =? uncleHash) then Err errInvalidUncleHash
      else Ok number
  end.

(** *** Snapshots *)
Definition loadSnapshot (a : Alien) (hash : Hash) : ares (option Snapshot) :=
  match aDb a !! hash with
  | Some stored =>
      '(proposals, heap) ← foldM (copyProposal stored) (range (Proposals stored)) (∅, []);
      Ok (Some (restoreSnapshot minVB (aConfig a) (stored <| Proposals := proposals |> <| pheap := heap |>)))
  | None => Ok None
  end.
Definition store (a : Alien) (s : Snapshot) : Alien := a <| aDb ::= <[sHash s := s]> |>.

(** The header of [hash] from the explicit parents, else from the chain, and
    the parents left. *)
Definition parentHeader (hash : Hash) (number : Z) (parents : list Header) : ares (Header * list Header) :=
  match last parents with
  | Some header =>
      n ← get_or_panic (hNumber header);
      if negb (Header_Hash header =? hash) || negb (bigUint64 n =? number) then Err ErrUnknownAncestor
      else Ok (header, take (length parents - 1) parents)
  | None => match GetHeader hash number with Some h => Ok (h, []) | None => Err ErrUnknownAncestor end
  end.

(** The search backwards for a snapshot, collecting the headers on the way;
    [number] decreases, so [fuel] above it is enough. *)
Fixpoint gather (fuel : nat) (a : Alien) (number : Z) (hash : Hash) (parents : list Header)
    (genesisVotes : list Vote) (lcrs : Z) (headers : list Header) : ares (Alien * Snapshot * list Header) :=
  match fuel with
  | O => Hang
  | S fuel =>
      match recents a !! hash with
      | Some s => Ok (a, s, headers)
      | None =>
          loaded ← (if number mod checkpointInterval =? 0 then loadSnapshot a hash else Ok None);
          match loaded with
          | Some s => Ok (a, s, headers)
          | None =>
              if number =? 0 then
                genesis ← get_or_panic (GetHeaderByNumber 0);
                _ ← verifyBasic genesis;
                let a := a <| aConfig ::= set Period (fun _ => Period ChainConfig) |> in
                let snap := newSnapshot (aConfig a) now (Header_Hash genesis) genesisVotes lcrs in
                Ok (store a snap, snap, headers)
              else
                '(header, parents) ← parentHeader hash number parents;
                gather fuel a (number -u 1) (hParentHash header) parents genesisVotes lcrs (headers ++ [header])
          end
      end
  end.

Definition snapshot (a : Alien) (number : Z) (hash : Hash) (parents : list Header) (genesisVotes : list Vote)
    (lcrs : Z) : ares (Alien * Snapshot) :=
  '(a, snap, headers) ← gather (S (Z.to_nat number)) a number hash parents genesisVotes lcrs [];
  snap ← apply minVB sigcache (reverse headers) snap;
  let a := a <| recents ::= fun m => cacheAdd m (sHash snap) snap |> in
  Ok (if (Number snap mod checkpointInterval =? 0) && (0 <? glen headers) then store a snap else a, snap).

(** *** Seals *)
Definition parentOf (header : Header) (number : Z) (parents : list Header) : option Header :=
  match last parents with
  | Some p => Some p
  | None => GetHeader (hParentHash header) (number -u 1)
  end.

(** [parent.SignerQueue[i] != current.SignerQueue[i]] for [i] below [n]; an
    index outside either queue panics. *)
Fixpoint sameQueue (n : nat) (i : Z) (q1 q2 : list Address) : ares bool :=
  match n with
  | O => Ok true
  | S n => x ← gindex q1 i; y ← gindex q2 i; if x =? y then sameQueue n (i + 1) q1 q2 else Ok false
  end.

Definition checkQueue (c : AlienConfig) (snap : Snapshot) (number : Z) (signer : Address)
    (header parent : Header) (parentExtra currentExtra : HeaderExtra) : ares unit :=
  r ← umod number (MaxSignerCount c);
  if r =? 0 then verifySignerQueue snap (SignerQueue currentExtra)
  else
    same ← sameQueue (Z.to_nat (i64 (MaxSignerCount c))) 0 (SignerQueue parentExtra) (SignerQueue currentExtra);
    if negb same then Err errInvalidSignerQueue
    else if (signer =? hCoinbase parent)
            && (bigUint64 (hTime header) -u bigUint64 (hTime parent) <? Period ChainConfig)
    then Err errInvalidNeighborSigner else Ok tt.

Definition grandParentOf (parent : Header) (number : Z) (parents : list Header) : option Header :=
  if 1 <? glen parents then parents !! (length parents - 2)%nat
  else GetHeader (hParentHash parent) (number -u 2).

(** The signers missing since the parent, and the queue the extra data of the
    parent are left with. *)
Definition missingSigners (c : AlienConfig) (number : Z) (bigNumber : Z) (header parent : Header)
    (parents : list Header) (parentExtra : HeaderExtra) : ares (list Address * list Address) :=
  r ← umod number (MaxSignerCount c);
  if IsTrantor c bigNumber then
    gpExtra ← (if r =? 1 then
                 match grandParentOf parent number parents with
                 | Some gp => headerExtra gp
                 | None => Err errLastLoopHeaderFail
                 end
               else Ok emptyHeaderExtra);
    getSignerMissingTrantor (hCoinbase parent) (hCoinbase header) parentExtra gpExtra
  else Ok (getSignerMissing (hCoinbase parent) (hCoinbase header) parentExtra (r =? 0), SignerQueue parentExtra).
Definition expectedMissing (c : AlienConfig) (number : Z) (bigNumber : Z) (header parent : Header)
    (parents : list Header) (parentExtra : HeaderExtra) : ares (list Address) :=
  '(missing, _) ← missingSigners c number bigNumber header parent parents parentExtra; Ok missing.

(** The part of [verifySeal] past the first loop of the main chain. *)
Definition verifyLoop (c : AlienConfig) (snap : Snapshot) (number bigNumber : Z) (signer : Address)
    (header : Header) (parents : list Header) : ares unit :=
  parent ← get_or_panic (parentOf header number parents);
  parentExtra ← headerExtra parent;
  currentExtra ← headerExtra header;
  _ ← checkQueue c snap number signer header parent parentExtra currentExtra;
  missing ← expectedMissing c number bigNumber header parent parents parentExtra;
  if bool_decide (missing = SignerMissing currentExtra) then Ok tt else Err errPunishedMissing.

(** [mcSnapshot]: the notice of the main chain, with its loop start, period
    and number of signers; the block number it also answers is never used. *)
Definition mcSnapshot (signer : Address) (headerTime : Z) : ares (CCNotice * Z * Z * Z) :=
  if SideChain ChainConfig then
    genesis ← get_or_panic (GetHeaderByNumber 0);
    let chainHash := hParentHash genesis in
    ms ← getMainChainSnapshotByTime headerTime chainHash;
    if glen (Signers ms) =? 0 then Err errSignerQueueEmpty
    else if sPeriod ms =? 0 then Err errMCPeriodMissing
    else
      let loopIndex := Z.rem (i64 ((headerTime -u LoopStartTime ms) / sPeriod ms)) (glen (Signers ms)) in
      if glen (Signers ms) <=? loopIndex then Err errInvalidSignerQueue
      else
        x ← gindex (Signers ms) loopIndex;
        if negb (x =? signer) then Err errUnauthorized
        else Ok (default (mkCCNotice ∅ ∅) (SCNoticeMap ms !! chainHash), LoopStartTime ms, sPeriod ms, glen (Signers ms))
  else Err errNotSideChain.

(** The chargings of a side-chain header against the notice: a hash the
    notice does not know returns the [err] of the call before, which is nil. *)
Fixpoint checkChargings (notice : CCNotice) (l : list GasCharging) : ares unit :=
  match l with
  | [] => Ok tt
  | charge :: l =>
      match CurrentCharging notice !! gcHash charge with
      | None => Ok tt
      | Some v => if negb (Volume v =? Volume charge) || negb (Target v =? Target charge)
                  then Err errMCGasChargingInvalid else checkChargings notice l
      end
  end.

Definition verifySeal (a : Alien) (header : Header) (parents : list Header) : ares Alien :=
  bigNumber ← get_or_panic (hNumber header);
  let number := bigUint64 bigNumber in
  if number =? 0 then Err errUnknownBlock else
  '(a, snap) ← snapshot a (number -u 1) (hParentHash header) parents [] defaultLoopCntRecalculateSigners;
  signer ← ecrecover sigcache header;
  if (bugFixBlockNumber <? bigNumber) && negb (signer =? hCoinbase header) then Err errUnauthorized else
  if negb (SideChain ChainConfig) then
    _ ← (if MaxSignerCount (aConfig a) <? number
         then verifyLoop (aConfig a) snap number bigNumber signer header parents else Ok tt);
    turn ← inturn snap signer (bigUint64 (hTime header));
    if (turn : bool) then Ok a else Err errUnauthorized
  else
    '(notice, loopStartTime, period, signerLength) ← mcSnapshot signer (bigUint64 (hTime header));
    let a := a <| mcLoopStartTime := loopStartTime |> <| mcPeriod := period |> <| mcSignerLength := signerLength |> in
    extra ← headerExtra header;
    if negb (Z.of_nat (size (CurrentCharging notice)) =? glen (SideChainCharging extra))
    then Err errMCGasChargingInvalid
    else _ ← checkChargings notice (SideChainCharging extra); Ok a.

Definition verifyCascadingFields (a : Alien) (header : Header) (bigNumber : Z) (parents : list Header) : ares Alien :=
  let number := bigUint64 bigNumber in
  if number =? 0 then Ok a else
  match parentOf header number parents with
  | None => Err ErrUnknownAncestor
  | Some parent =>
      pn ← get_or_panic (hNumber parent);
      if negb (bigUint64 pn =? number -u 1) || negb (Header_Hash parent =? hParentHash header)
      then Err ErrUnknownAncestor
      else if bigUint64 (hTime header) <? bigUint64 (hTime parent) then Err ErrInvalidTimestamp
      else
        '(a, _) ← snapshot a (number -u 1) (hParentHash header) parents [] defaultLoopCntRecalculateSigners;
        verifySeal a header parents
  end.
Definition verifyHeader (a : Alien) (header : Header) (parents : list Header) : ares Alien :=
  number ← verifyBasic header; verifyCascadingFields a header number parents.
Definition VerifyHeader (a : Alien) (header : Header) : ares Alien := verifyHeader a header [].
Definition VerifyUncles (uncles : list Header) : ares unit :=
  if 0 <? glen uncles then Err errUnclesNotAllowed else Ok tt.
End Engine.

(** ** Blocks *)

(** The text of an address with its checksum: a letter is a capital when the
    digit of the hash of the lower-case text at its place is above seven. *)
Fixpoint checksum (hash : bytes) (i : Z) (result : bytes) : ares bytes :=
  match result with
  | [] => Ok []
  | c :: result =>
      hb ← gindex hash (i / 2);
      let hashByte := if i mod 2 =? 0 then Z.shiftr hb 4 else Z.land hb 15 in
      rest ← checksum hash (i + 1) result;
      Ok ((if (57 <? c) && (7 <? hashByte) then c - 32 else c) :: rest)
  end.
Definition Address_Hex {EN : Env} (a : Address) : ares bytes :=
  let unchecksummed := hexEncode (beBytes 20 a) in
  result ← checksum (Keccak256 unchecksummed) 0 unchecksummed;
  Ok (HexToCP (str "0x" ++ result)).

(** The votes of the signers of the configuration, one for each. *)
Fixpoint selfVotes (balance : Address -> option Z) (already : gset Z) (signers : list Address) : list Vote :=
  match signers with
  | [] => []
  | voter :: signers =>
      match balance voter with
      | Some stake =>
          if bool_decide (voter ∈ already) then selfVotes balance already signers
          else mkVote voter voter stake :: selfVotes balance ({[voter]} ∪ already) signers
      | None => selfVotes balance already signers
      end
  end.

Section Blocks.
Context {RT : GoRuntime} {EN : Env} {CR : ChainReader}.
Variables (now : Z) (uncleHash : Hash) (sigcache : Hash -> option Address) (minVB : Z)
  (cacheAdd : gmap Z Snapshot -> Hash -> Snapshot -> gmap Z Snapshot).

(** [parseNoticeInfo]. *)
Definition parseNoticeInfo (notice : CCNotice) : bytes :=
  Join (map (fun '(hash, _) => Hash_Hex hash) (range (CurrentCharging notice))) sharp.

(** The walk of [getLastLoopInfo] back from [header], at most [n] headers:
    [inLastLoop] once the time of day has wrapped, [extraTime] the last one. *)
Fixpoint lastLoopWalk (n : nat) (a : Alien) (header : Header) (extraTime : Z) (inLastLoop : bool)
    (info : list bytes) : ares (list bytes) :=
  match n with
  | O => Ok info
  | S n =>
      hn ← get_or_panic (hNumber header);
      match GetHeader (hParentHash header) (bigUint64 hn -u 1) with
      | None => Err ErrUnknownAncestor
      | Some header =>
          newTime ← umod (bigUint64 (hTime header) -u mcLoopStartTime a) (mcPeriod a *u mcSignerLength a);
          if (extraTime <? newTime) && inLastLoop then Ok info
          else
            let inLastLoop := inLastLoop || (extraTime <? newTime) in
            info ← (if inLastLoop then
                      number ← get_or_panic (hNumber header);
                      text ← Address_Hex (hCoinbase header);
                      Ok (info ++ [Join [formatNat 10 (bigUint64 number); text] sharp])
                    else Ok info);
            lastLoopWalk n a header newTime inLastLoop info
      end
  end.
Definition getLastLoopInfo (a : Alien) (header : Header) : ares bytes :=
  if SideChain ChainConfig && negb (mcLoopStartTime a =? 0) && negb (mcPeriod a =? 0)
     && negb (Period (aConfig a) =? 0) then
    extraTime ← umod (bigUint64 (hTime header) -u mcLoopStartTime a) (mcPeriod a *u mcSignerLength a);
    per ← udiv (mcPeriod a) (Period (aConfig a));
    info ← lastLoopWalk (Z.to_nat (MaxSignerCount (aConfig a) *u 2 *u per)) a header extraTime false [];
    if 0 <? glen info then Ok (Join info sharp) else Err errGetLastLoopInfoFail
  else Err errGetLastLoopInfoFail.

(** The first 32 bytes of the extra data, padded with zeros. *)
Definition vanity (extra : bytes) : bytes :=
  take (Z.to_nat extraVanity)
    (if glen extra <? extraVanity
     then extra ++ replicate (Z.to_nat (extraVanity - glen extra)) 0 else extra).
Definition sealedExtra (prefix enc : bytes) : bytes :=
  prefix ++ enc ++ replicate (Z.to_nat extraSeal) 0.

(** [Seal] on a side chain writes the chargings of the notice into the header. *)
Definition chargeHeader (header : Header) (notice : CCNotice) : ares Header :=
  extra ← headerExtra header;
  let extra := extra <| SideChainCharging ::= fun l => l ++ map snd (range (CurrentCharging notice)) |> in
  enc ← encodeHeaderExtra extra;
  prefix ← gslice (hExtra header) 0 extraVanity;
  Ok (header <| hExtra := sealedExtra prefix enc |>).

Section State.
Context {St : Type} {BS : Balances St}.
Variable IntermediateRoot : St -> Hash.

(** What [Finalize] takes over from the parent, and the signers it missed; the
    queue is the slice of the parent, so that a write to it is inherited. *)
Definition inheritExtra (a : Alien) (header parent : Header) (number bigNumber : Z) : ares (HeaderExtra * HeaderExtra) :=
  parentExtra ← headerExtra parent;
  '(missing, queue) ← missingSigners (aConfig a) number bigNumber header parent [] parentExtra;
  let parentExtra := parentExtra <| SignerQueue := queue |> in
  Ok (parentExtra,
      emptyHeaderExtra <| ConfirmedBlockNumber := ConfirmedBlockNumber parentExtra |>
        <| SignerQueue := SignerQueue parentExtra |> <| eLoopStartTime := eLoopStartTime parentExtra |>
        <| SignerMissing := missing |>).

(** The queue and the start of the loop in the extra data of a block of the
    main chain. *)
Definition loopExtra (c : AlienConfig) (snap : Snapshot) (number : Z) (x : HeaderExtra) : ares HeaderExtra :=
  if number =? 1 then
    let x := x <| eLoopStartTime := GenesisTimestamp c |> in
    Ok (if 0 <? glen (SelfVoteSigners c)
        then x <| SignerQueue ::= fun q => q ++ cycle (SelfVoteSigners c) (i64 (MaxSignerCount c)) |> else x)
  else
    r ← umod number (MaxSignerCount c);
    if r =? 0 then
      q ← createSignerQueue snap;
      Ok (x <| eLoopStartTime ::= fun t => t +u (Period c *u MaxSignerCount c) |> <| SignerQueue := q |>)
    else Ok x.

Definition Finalize (a : Alien) (header : Header) (state : St) (txs : list Transaction)
    (receipts : list Receipt) : ares (Alien * Header * St) :=
  bigNumber ← get_or_panic (hNumber header);
  let number := bigUint64 bigNumber in
  match GetHeader (hParentHash header) (number -u 1) with
  | None => Err ErrUnknownAncestor
  | Some parent =>
      let time := hTime parent + Period (aConfig a) in
      let header := header <| hMixDigest := 0 |>
                           <| hTime := if i64 time <? now then now else time |>
                           <| hExtra ::= vanity |> in
      '(genesisVotes, parentExtra, x) ←
        (if number =? 1
         then Ok (selfVotes (fun v => Some (GetBalance state v)) ∅ (SelfVoteSigners (aConfig a)),
                  emptyHeaderExtra, emptyHeaderExtra)
         else '(parentExtra, x) ← inheritExtra a header parent number bigNumber; Ok ([], parentExtra, x));
      '(a, snap) ← snapshot now uncleHash sigcache minVB cacheAdd a (number -u 1) (hParentHash header) []
                     genesisVotes defaultLoopCntRecalculateSigners;
      '(x, state) ←
        (if negb (SideChain ChainConfig) then
           '(x, state, refundGas) ← processCustomTx minVB (aConfig a) x number
               (if 1 <? number then Some snap else None) state txs receipts;
           let x := x <| ConfirmedBlockNumber :=
                      bigUint64 (getLastConfirmedBlockNumber (CurrentBlockConfirmations x) snap) |> in
           x ← loopExtra (aConfig a) snap number x;
           match accumulateRewards ChainConfig state header snap refundGas with
           | Ok state => Ok (x, state)
           | Err _ => Err errUnauthorized
           | Panic => Panic
           | Hang => Hang
           end
         else
           let q := [hCoinbase header] ++ SignerQueue parentExtra in
           Ok (x <| SignerQueue := take (Z.to_nat (i64 (MaxSignerCount (aConfig a)))) q |>,
               sideChainRewards state header snap));
      enc ← encodeHeaderExtra x;
      Ok (a, header <| hExtra := sealedExtra (hExtra header) enc |>
                    <| hDifficulty := defaultDifficulty |>
                    <| hRoot := IntermediateRoot state |>
                    <| hUncleHash := uncleHash |>, state)
  end.
End State.

(** [ApplyGenesis] of a light node: the balances are those of the genesis
    allocation, texts that [big.Int.UnmarshalText] reads; [unread] is the value
    it leaves when the text is not a number, which its documentation leaves
    undefined. *)
Definition ApplyGenesis (unread : bytes -> Z) (a : Alien) (LightConfig : option (gmap Z bytes)) (genesisHash : Hash) :
    ares Alien :=
  match LightConfig with
  | Some alloc =>
      let balance v := (fun text => default (unread text) (bigUnmarshalText text)) <$> alloc !! v in
      '(a, _) ← snapshot now uncleHash sigcache minVB cacheAdd a 0 genesisHash []
                  (selfVotes balance ∅ (SelfVoteSigners (aConfig a))) defaultLoopCntRecalculateSigners;
      Ok a
  | None => Err errMissingGenesisLightConfig
  end.
End Blocks.

(** ** Missing signers *)
Lemma trantorScan_skip last cur pre rest :
  last ∉ pre -> trantorScan last cur false (pre ++ last :: rest) = trantorScan last cur true rest.
Proof.
  induction pre as [|x pre IH]; intros Hx; simpl; [by rewrite Z.eqb_refl|].
  apply not_elem_of_cons in Hx as [Hne Hx]. rewrite (proj2 (Z.eqb_neq x last)) by congruence. by apply IH.
Qed.
Lemma trantorScan_record last cur mid rest :
  cur ∉ mid -> trantorScan last cur true (mid ++ cur :: rest) = mid.
Proof.
  induction mid as [|x mid IH]; intros Hx; simpl; [by rewrite Z.eqb_refl|].
  apply not_elem_of_cons in Hx as [Hne Hx]. rewrite (proj2 (Z.eqb_neq x cur)) by congruence. by rewrite IH.
Qed.
Lemma missingScan_skip last cur pre rest :
  last ∉ pre -> cur ∉ pre -> missingScan last cur false (pre ++ last :: rest) = missingScan last cur true rest.
Proof.
  induction pre as [|x pre IH]; intros Hx Hy; simpl; [by rewrite Z.eqb_refl|].
  apply not_elem_of_cons in Hx as [Hne Hx], Hy as [Hne' Hy].
  rewrite (proj2 (Z.eqb_neq x last)), (proj2 (Z.eqb_neq x cur)) by congruence. by apply IH.
Qed.
Lemma missingScan_record last cur mid rest :
  cur ∉ mid -> last ∉ mid -> cur <> last -> missingScan last cur true (mid ++ cur :: rest) = mid.
Proof.
  induction mid as [|x mid IH]; intros Hx Hl Hne; simpl.
  { by rewrite (proj2 (Z.eqb_neq cur last)), Z.eqb_refl. }
  apply not_elem_of_cons in Hx as [Hx1 Hx], Hl as [Hl1 Hl].
  rewrite (proj2 (Z.eqb_neq x last)), (proj2 (Z.eqb_neq x cur)) by congruence. by rewrite IH.
Qed.
Lemma missingUntil_app last l1 l2 : last ∉ l1 -> missingUntil last (l1 ++ last :: l2) = l1.
Proof.
  induction l1 as [|x l1 IH]; intros Hx; simpl; [by rewrite Z.eqb_refl|].
  apply not_elem_of_cons in Hx as [Hne Hx]. rewrite (proj2 (Z.eqb_neq last x)) by congruence. by rewrite IH.
Qed.

(** What precedes the first [x] of a list (all of it without one), and what
    follows it (nothing without one). *)
Definition before (x : Address) (l : list Address) : list Address :=
  match list_find (x =.) l with Some (i, _) => take i l | None => l end.
Definition after (x : Address) (l : list Address) : list Address :=
  match list_find (x =.) l with Some (i, _) => drop (S i) l | None => [] end.
Lemma before_cons x y l : before x (y :: l) = if decide (x = y) then [] else y :: before x l.
Proof. unfold before. simpl. case_decide; [done|]. by destruct (list_find (x =.) l) as [[i z]|]. Qed.
Lemma after_cons x y l : after x (y :: l) = if decide (x = y) then l else after x l.
Proof.
  unfold after. simpl. case_decide; [done|]. by destruct (list_find (x =.) l) as [[i z]|].
Qed.
Lemma position_list_find x l : position x l = fst <$> list_find (x =.) l.
Proof.
  induction l as [|y l IH]; simpl; [done|]. rewrite IH. case_decide as E.
  - subst. by rewrite Z.eqb_refl.
  - rewrite (proj2 (Z.eqb_neq y x)) by congruence. by destruct (list_find (x =.) l) as [[i z]|].
Qed.
Lemma missingUntil_before x l : missingUntil x l = before x l.
Proof.
  induction l as [|y l IH]; [done|]. rewrite before_cons. simpl. rewrite IH.
  case_decide as E; [subst; by rewrite Z.eqb_refl|]. by rewrite (proj2 (Z.eqb_neq x y)).
Qed.
Lemma trantorScan_before x c l : trantorScan x c true l = before c l.
Proof.
  induction l as [|y l IH]; [done|]. rewrite before_cons. simpl. rewrite IH.
  case_decide as E; [subst; by rewrite Z.eqb_refl|]. by rewrite (proj2 (Z.eqb_neq y c)) by congruence.
Qed.
Lemma trantorScan_after x c l : trantorScan x c false l = before c (after x l).
Proof.
  induction l as [|y l IH]; [done|]. rewrite after_cons. simpl.
  case_decide as E; [subst; rewrite Z.eqb_refl; apply trantorScan_before|].
  by rewrite (proj2 (Z.eqb_neq y x)) by congruence.
Qed.
(** The slots the scan inside a loop looks at: up to the current signer, all of
    them when it is also the last one. *)
Definition scanned (last cur : Address) (l : list Address) : list Address :=
  if decide (cur = last) then l else before cur l.
Lemma scanned_cons last cur y l :
  scanned last cur (y :: l) =
    if decide (y = last) then y :: scanned last cur l
    else if decide (y = cur) then [] else y :: scanned last cur l.
Proof. unfold scanned. rewrite before_cons. repeat case_decide; congruence. Qed.
Lemma missingScan_true last cur l :
  missingScan last cur true l = filter (.≠ last) (scanned last cur l).
Proof.
  induction l as [|y l IH]; [by unfold scanned; case_decide|]. rewrite scanned_cons. simpl. rewrite IH.
  case_decide as E; [subst; by rewrite Z.eqb_refl, filter_cons_False by naive_solver|].
  rewrite (proj2 (Z.eqb_neq y last)) by done.
  case_decide as E'; [subst; by rewrite Z.eqb_refl|].
  by rewrite (proj2 (Z.eqb_neq y cur)), filter_cons_True.
Qed.
Lemma missingScan_false last cur l :
  missingScan last cur false l = filter (.≠ last) (after last (scanned last cur l)).
Proof.
  induction l as [|y l IH]; [by unfold scanned; case_decide|]. rewrite scanned_cons. simpl. rewrite IH.
  case_decide as E.
  - subst. rewrite Z.eqb_refl, missingScan_true, after_cons, decide_True; done.
  - rewrite (proj2 (Z.eqb_neq y last)) by done. case_decide as E'.
    + subst. by rewrite Z.eqb_refl.
    + by rewrite (proj2 (Z.eqb_neq y cur)), after_cons, decide_False by congruence.
Qed.

Lemma growCap_bound cap n : (3 <= n -> cap <= n -> growCap cap < 2 * n)%nat.
Proof. intros Hn Hc. unfold growCap. case_decide; [lia|]. pose proof (Nat.div_mod_eq cap 2). lia. Qed.
Lemma capAt_bound n : (3 <= n -> capAt n < 2 * n)%nat.
Proof.
  induction n as [|n IH]; intros Hn; [lia|]. cbn [capAt]. case_decide.
  - by apply growCap_bound.
  - destruct (decide (3 <= n)%nat) as [Hn'|Hn']; [specialize (IH Hn'); lia|].
    assert (n = 2)%nat as -> by lia. vm_compute. lia.
Qed.
(** A decoded queue of three or more signers is never doubled in place. *)
Lemma decodedCap_double n : (n + n <= decodedCap n <-> n <= 2)%nat.
Proof.
  split.
  - intros H. destruct (decide (n <= 2)%nat); [done|]. pose proof (capAt_bound n ltac:(lia)).
    destruct n; simpl in *; lia.
  - intros Hn. destruct n as [|[|[|n]]]; [vm_compute; lia..|lia].
Qed.

Lemma missing_signers_eq last cur extra gpExtra :
  let q := SignerQueue extra in
  getSignerMissing last cur extra true = before last (reverse q) /\
  getSignerMissing last cur extra false =
    filter (.≠ last) (after last (if decide (cur = last) then q else before cur q)) /\
  getSignerMissingTrantor last cur extra gpExtra =
    match list_find (last =.) (SignerQueue gpExtra) with
    | None => Ok (before cur (after last (q ++ q)), q)
    | Some (i, _) =>
        if decide (i < length (q ++ q))%nat
        then Ok (before cur (drop (S i) (q ++ q)), if decide (length q <= 2)%nat then <[i := last]> q else q)
        else Panic
    end.
Proof.
  intros q. unfold getSignerMissing, getSignerMissingTrantor, trantorQueue. split_and!.
  - apply missingUntil_before.
  - apply missingScan_false.
  - rewrite position_list_find. fold q. destruct (list_find _ _) as [[i z]|]; simpl.
    + case_decide as Hi; [|done]. simpl. rewrite drop_insert_ge, Nat.sub_diag by lia. do 2 f_equal.
      * destruct (drop i (q ++ q)) as [|y l] eqn:Hd;
          [apply (f_equal length) in Hd; rewrite length_drop in Hd; simpl in Hd; lia|].
        simpl. rewrite Z.eqb_refl, trantorScan_before. f_equal.
        by rewrite <- Nat.add_1_l, Nat.add_comm, <- drop_drop, Hd.
      * apply decide_ext. rewrite length_app. apply decodedCap_double.
    + by rewrite trantorScan_after.
Qed.
(** C25. The signers punished, for every queue (with repeated signers too) and
    also when one signer seals two blocks in a row. At the end of a loop: those
    behind the last slot of the last signer, backwards. Inside a loop: of the
    slots before the first one of the current signer (all slots, when it is
    also the last signer), those behind the first one of the last signer that
    are not the last signer's. After the Trantor fork, in two turns of the
    queue: those before the first slot of the current signer, counted from
    behind the first slot of the last signer or, when the last signer stands in
    the queue of the grandparent, from behind the slot with that index; an
    index outside the two turns panics. The queue of the parent stays as it is,
    but one of at most two signers gets the last signer written into the slot
    with that index. *)
Theorem missing_signers last cur extra gpExtra :
  let q := SignerQueue extra in
  getSignerMissing last cur extra true = before last (reverse q) /\
  getSignerMissing last cur extra false =
    filter (.≠ last) (after last (if decide (cur = last) then q else before cur q)) /\
  getSignerMissingTrantor last cur extra gpExtra =
    match list_find (last =.) (SignerQueue gpExtra) with
    | None => Ok (before cur (after last (q ++ q)), q)
    | Some (i, _) =>
        if decide (i < length (q ++ q))%nat
        then Ok (before cur (drop (S i) (q ++ q)), if decide (length q <= 2)%nat then <[i := last]> q else q)
        else Panic
    end.
Proof. apply missing_signers_eq. Qed.
(** With distinct signers and no slot in the queue of the grandparent, these are
    the signers between the two slots, across the end of the queue too. *)
Lemma missing_signers_distinct pre mid post last cur extra gpExtra :
  NoDup (pre ++ last :: mid ++ cur :: post) -> position last (SignerQueue gpExtra) = None ->
  (SignerQueue extra = pre ++ last :: mid ++ cur :: post ->
     getSignerMissing last cur extra false = mid /\
     getSignerMissing last cur extra true = reverse (mid ++ cur :: post) /\
     getSignerMissingTrantor last cur extra gpExtra = Ok (mid, SignerQueue extra)) /\
  (SignerQueue extra = pre ++ cur :: mid ++ last :: post ->
     getSignerMissingTrantor last cur extra gpExtra = Ok (post ++ pre, SignerQueue extra)).
Proof.
  intros Hnd Hgp.
  assert ((last ∉ pre) /\ (cur ∉ pre) /\ (cur ∉ mid) /\ (last ∉ mid) /\ cur <> last /\ (last ∉ post) /\ (cur ∉ post))
    as (H1 & H2 & H3 & H4 & H5 & H6 & H7).
  { apply NoDup_app in Hnd as (_ & Hpre & Hnd). apply NoDup_cons in Hnd as [Hlast Hnd].
    apply NoDup_app in Hnd as (_ & Hmid & Hnd). apply NoDup_cons in Hnd as [Hcur _]. 
    rewrite not_elem_of_app, not_elem_of_cons in Hlast. destruct Hlast as (? & ? & ?).
    split_and!; try done.
    - intros Hin. apply (Hpre last Hin). left.
    - intros Hin. apply (Hpre cur Hin). right. apply elem_of_app. right. left.
    - intros Hin. apply (Hmid cur Hin). left. }
  unfold getSignerMissing, getSignerMissingTrantor, trantorQueue. rewrite Hgp. cbn [mbind res_bind]. split.
  - intros ->. split_and!.
    + rewrite missingScan_skip by done. by apply missingScan_record.
    + rewrite reverse_app, reverse_cons, <- app_assoc. simpl. apply missingUntil_app.
      rewrite elem_of_reverse, not_elem_of_app, not_elem_of_cons. split_and!; congruence.
    + rewrite <- app_assoc. simpl. rewrite trantorScan_skip by done. rewrite <- app_assoc. simpl.
      by rewrite trantorScan_record.
  - intros ->. rewrite <- app_assoc. simpl. rewrite <- app_assoc. simpl.
    replace (pre ++ cur :: mid ++ last :: post ++ pre ++ cur :: mid ++ last :: post) with
      ((pre ++ cur :: mid) ++ last :: ((post ++ pre) ++ cur :: mid ++ last :: post))
      by (rewrite <- !app_assoc; simpl; by rewrite <- ?app_assoc).
    rewrite trantorScan_skip by (rewrite not_elem_of_app, not_elem_of_cons; split_and!; congruence).
    rewrite trantorScan_record; [done|]. rewrite not_elem_of_app. done.
Qed.

(** ** Retrieval of snapshots *)
Section Retrieval.
Context {RT : GoRuntime} {EN : Env} {CR : ChainReader}.
Variables (now : Z) (uncleHash : Hash) (sigcache : Hash -> option Address) (minVB : Z)
  (cacheAdd : gmap Z Snapshot -> Hash -> Snapshot -> gmap Z Snapshot).
(** A bounded cache only forgets: what it holds was there or was added. *)
Definition cache_forgets : Prop := forall m h s k v,
  cacheAdd m h s !! k = Some v -> (k = h /\ v = s) \/ m !! k = Some v.

Definition cached (M : Z) (h : Hash) (s : Snapshot) : Prop :=
  sHash s = h /\ snapshot_inv s /\ MaxSignerCount (config s) = M.
(** Every snapshot in memory or on disk is filed under its hash and satisfies
    the invariants. *)
Record engine_inv (a : Alien) : Prop := {
  engine_count : 1 <= MaxSignerCount (aConfig a) < 2 ^ 32;
  engine_recents : forall h s, recents a !! h = Some s -> cached (MaxSignerCount (aConfig a)) h s;
  engine_db : forall h s, aDb a !! h = Some s -> cached (MaxSignerCount (aConfig a)) h s
}.

(** Only the number of signers of a configuration matters to the invariants. *)
Lemma snapshot_inv_config c s :
  MaxSignerCount c = MaxSignerCount (config s) -> snapshot_inv s -> snapshot_inv (s <| config := c |>).
Proof.
  intros Hc [[Ht Hh Hn HM] Hhist Hcnt Hnum].
  assert (noticeQuorum c = noticeQuorum (config s)) as Hq by (unfold noticeQuorum; by rewrite Hc).
  split; simpl.
  - split; simpl; [by destruct Ht|done| |by rewrite Hc].
    unfold notices_inv, notice_inv in *. simpl. by rewrite Hq.
  - unfold history_inv in *. simpl. by rewrite Hc.
  - by rewrite Hc.
  - done.
Qed.

Lemma restore_cached M c h s :
  MaxSignerCount c = M -> cached M h s -> cached M h (restoreSnapshot minVB c s).
Proof.
  intros Hc (Hh & Hinv & HM). apply (snapshot_inv_config c) in Hinv; [|congruence].
  unfold restoreSnapshot. set (s1 := s <| config := c |>) in *.
  assert (sHash s1 = h) as K1 by done. assert (MaxSignerCount (config s1) = M) as K3 by done. clearbody s1.
  assert (forall s2, core s2 = core s1 -> voting s2 = voting s1 -> notices s2 = notices s1 -> props s2 = props s1 ->
    cached M h s2) as Hsame.
  { intros s2 Hco Hv Hn Hp. injection Hco as E1 E2 E3 E4 E5. split_and!; [congruence| |congruence].
    destruct Hinv as [[Ht Hhp Hnt HMM] Hhist Hcnt Hnum]. split.
    - split; [by eapply tally_inv_voting|by eapply heap_wf_props|by eapply notices_inv_obs|by rewrite E1].
    - unfold history_inv. by rewrite E1, E3, E4, E5.
    - by rewrite E1.
    - by rewrite E3. }
  destruct (MinerReward s1 =? 0); (case_match; apply Hsame; reflexivity).
Qed.

Lemma realloc_cached M h s m heap :
  cached M h s -> foldM (copyProposal s) (range (Proposals s)) (∅, []) = Ok (m, heap) ->
  cached M h (s <| Proposals := m |> <| pheap := heap |>).
Proof.
  intros (Hh & [[Ht Hhp Hnt HMM] Hhist Hcnt Hnum] & HM) Hrun. split_and!; [done| |done].
  destruct (copy_props s Hhp) as (m' & heap' & Hrun' & _ & Hlt). rewrite Hrun in Hrun'. injection Hrun' as <- <-.
  split; simpl; [|done|done|done]. split; simpl; [by destruct Ht|exact Hlt|done|done].
Qed.

Lemma loadSnapshot_cached a h s :
  engine_inv a -> loadSnapshot minVB a h = Ok (Some s) -> cached (MaxSignerCount (aConfig a)) h s.
Proof.
  intros [_ _ Hdb]. unfold loadSnapshot. destruct (aDb a !! h) as [st|] eqn:E; [|done].
  intros ([m heap] & Hrun & H)%bind_Ok_inv. injection H as <-.
  apply restore_cached; [done|]. eapply realloc_cached; [by apply Hdb|done].
Qed.

Lemma parentHeader_spec hash number parents header rest :
  0 <= number < 2 ^ 64 -> parentHeader hash number parents = Ok (header, rest) ->
  Header_Hash header = hash /\ bigUint64 <$> hNumber header = Some number.
Proof.
  intros Hn. unfold parentHeader. destruct (last parents) as [p|].
  - intros (n & Hnum & H)%bind_Ok_inv. destruct (hNumber p) as [n'|] eqn:En; [|done]. injection Hnum as <-.
    destruct (Z.eqb_spec (Header_Hash p) hash); [|done]. destruct (Z.eqb_spec (bigUint64 n') number); [|done].
    injection H as <- <-. split; [done|]. rewrite En. simpl. by subst.
  - destruct (GetHeader hash number) as [p|] eqn:Eg; [|done]. intros [= <- <-].
    apply GetHeader_hash in Eg as [? Hnum]. split; [done|]. rewrite Hnum. simpl. f_equal.
    unfold bigUint64. rewrite Z.abs_eq by lia. by apply u64_small.
Qed.

(** The headers collected for [hash] at [number], the newest first. *)
Fixpoint collected (hash : Hash) (number : Z) (hs : list Header) : Prop :=
  match hs with
  | [] => True
  | h :: hs => Header_Hash h = hash /\ bigUint64 <$> hNumber h = Some number /\ 1 <= number /\
               collected (hParentHash h) (number - 1) hs
  end.

(** What the search returns: a valid snapshot, and the headers from [hash]
    back to it. *)
Definition gathered (hash : Hash) (number : Z) (headers : list Header) (r : Alien * Snapshot * list Header) : Prop :=
  let '(a', s, hs) := r in
  engine_inv a' /\ snapshot_inv s /\ MaxSignerCount (config s) = MaxSignerCount (aConfig a') /\
  exists new, hs = headers ++ new /\ collected hash number new /\
    (new = [] -> number <> 0 -> sHash s = hash) /\
    (new = [] -> sHash s = hash \/ exists g, GetHeaderByNumber 0 = Some g /\ sHash s = Header_Hash g).

Lemma gather_spec fuel a number hash parents votes lcrs headers r :
  engine_inv a -> 0 <= number < 2 ^ 64 -> valid_votes votes -> NoDup (map Voter votes) ->
  gather now uncleHash minVB fuel a number hash parents votes lcrs headers = Ok r ->
  gathered hash number headers r.
Proof.
  intros Hinv Hn Hv Hnd. revert a number hash parents headers Hinv Hn.
  induction fuel as [|fuel IH]; intros a number hash parents headers Hinv Hn H; [done|]. cbn [gather] in H.
  assert (forall s0, cached (MaxSignerCount (aConfig a)) hash s0 -> gathered hash number headers (a, s0, headers)) as Hfound.
  { intros s0 (Hh & Hi & HM). split_and!; try done. exists []. rewrite app_nil_r.
    split_and!; [done|done|done|by left]. }
  destruct (recents a !! hash) as [s0|] eqn:Er; [injection H as <-; by apply Hfound, (engine_recents a Hinv)|].
  apply bind_Ok_inv in H as (loaded & Hload & H). destruct loaded as [s0|].
  { injection H as <-. apply Hfound. destruct (_ =? 0); [|done]. by eapply loadSnapshot_cached. }
  destruct (Z.eqb_spec number 0) as [->|Hne].
  - apply bind_Ok_inv in H as (g & Hg & H). destruct (GetHeaderByNumber 0) as [g'|] eqn:Eg; [|done].
    injection Hg as <-. apply bind_Ok_inv in H as (_ & _ & H). injection H as <-.
    assert (1 <= MaxSignerCount (aConfig a) < 2 ^ 32) as HM by apply Hinv.
    set (c := set Period _ (aConfig a)). change (MaxSignerCount (aConfig a)) with (MaxSignerCount c) in HM.
    pose proof (newSnapshot_inv c now (Header_Hash g') votes lcrs HM Hv Hnd) as Hs.
    assert (config (newSnapshot c now (Header_Hash g') votes lcrs) = c /\
      sHash (newSnapshot c now (Header_Hash g') votes lcrs) = Header_Hash g') as [Hc Hh].
    { unfold newSnapshot. destruct (0 <? _); (split; simpl; [by rewrite (genesisVote_frame config)|by rewrite (genesisVote_frame sHash)]). }
    split_and!; [|done|by rewrite Hc|].
    + split; simpl; [exact HM|apply (engine_recents a Hinv)|].
      intros h s1 [[<- <-]|[_ Hd]]%lookup_insert_Some; [|by apply (engine_db a Hinv)].
      split_and!; [done|done|by rewrite Hc].
    + exists []. rewrite app_nil_r. split_and!; [done|done|done|]. intros _. right. by exists g'.
  - apply bind_Ok_inv in H as ([h rest] & Hp & H). apply parentHeader_spec in Hp as [Hhash Hnum]; [|done].
    rewrite u64_sub_le in H by lia.
    apply IH in H; [|done|lia]. destruct r as [[a' s] hs]. destruct H as (Ha & Hs & HM & new & -> & Hcol & _ & _).
    split_and!; try done. exists (h :: new). split_and!; try done; [by rewrite <- app_assoc|].
    simpl. split_and!; try done. lia.
Qed.

Lemma collected_spec hash number new :
  0 <= number -> collected hash number new ->
  glen new <= number /\ (forall i h, new !! i = Some h -> bigUint64 <$> hNumber h = Some (number - Z.of_nat i)).
Proof.
  unfold glen. revert hash number. induction new as [|h new IH]; intros hash number Hn H.
  { split; [simpl; lia|]. intros i h Hi. by rewrite lookup_nil in Hi. }
  destruct H as (_ & Hnum & H1 & Hc). apply IH in Hc as [Hlen Hi]; [|lia].
  split; [simpl length; lia|]. intros [|i] h' Hh'; simpl in Hh'.
  - injection Hh' as <-. rewrite Hnum. f_equal. lia.
  - rewrite (Hi i h' Hh'). f_equal. lia.
Qed.

(** The snapshot the collected headers apply to is the one just below them. *)
Lemma collected_base hash number new s s' :
  0 <= number < 2 ^ 64 -> 0 <= Number s < 2 ^ 64 -> new <> [] -> collected hash number new ->
  apply minVB sigcache (reverse new) s = Ok s' -> Number s + glen new = number.
Proof.
  intros Hn Hs Hne Hc Happ. destruct (collected_spec hash number new) as [Hlen Hi]; [lia|done|].
  assert (Forall (fun h => is_Some (hNumber h)) (reverse new)) as Hall.
  { apply Forall_forall. intros h Hh. rewrite elem_of_reverse in Hh. apply list_elem_of_lookup in Hh as [i Hh].
    apply Hi in Hh. destruct (hNumber h); [by eexists|done]. }
  apply apply_Ok_consecutive in Happ; [|done].
  destruct (last new) as [h|] eqn:El; [|by apply last_None in El].
  rewrite last_lookup in El. specialize (Hi _ _ El).
  assert (reverse new !! 0%nat = Some h) as Hr.
  { rewrite reverse_lookup by (destruct new; [done|simpl; lia]). rewrite <- El. f_equal. lia. }
  rewrite (Happ 0%nat h Hr) in Hi. injection Hi as Hi. unfold glen in *.
  assert (0 < length new)%nat by (destruct new; [done|simpl; lia]).
  destruct (decide (Number s + 1 = 2 ^ 64)) as [Hw|Hw].
  - exfalso. revert Hi. replace (Number s + 1 + Z.of_nat 0) with (2 ^ 64) by lia.
    change (u64 (2 ^ 64)) with 0. lia.
  - rewrite u64_small in Hi by (split; lia). lia.
Qed.

Lemma snapshot_ok a number hash parents votes lcrs a' s :
  rlp_unsigned EN -> cache_forgets -> engine_inv a -> 0 <= number < 2 ^ 64 ->
  valid_votes votes -> NoDup (map Voter votes) ->
  (number = 0 -> forall g, GetHeaderByNumber 0 = Some g -> Header_Hash g = hash) ->
  snapshot now uncleHash sigcache minVB cacheAdd a number hash parents votes lcrs = Ok (a', s) ->
  engine_inv a' /\ snapshot_inv s /\ sHash s = hash.
Proof.
  intros Hrlp Hcache Hinv Hn Hv Hnd H0 H. unfold snapshot in H.
  apply bind_Ok_inv in H as ([[a1 s0] hs] & Hg & H). apply gather_spec in Hg; [|done..].
  destruct Hg as (Ha1 & Hs0 & HM & new & Hhs & Hc & Hh1 & Hh2). simpl in Hhs. subst hs.
  apply bind_Ok_inv in H as (s1 & Happ & H). injection H as <- <-.
  assert (snapshot_inv s1 /\ sHash s1 = hash /\ config s1 = config s0) as (Hs1 & Hhash & Hcfg).
  { destruct (decide (new = [])) as [->|Hne].
    - injection Happ as <-. split_and!; [done| |done].
      destruct (decide (number = 0)) as [Hz|Hz]; [|auto].
      destruct (Hh2 eq_refl) as [?|(g & Hg & ->)]; [done|auto].
    - pose proof (collected_base _ _ _ _ _ Hn (inv_number s0 Hs0) Hne Hc Happ) as Hb.
      destruct (apply_inv minVB sigcache (reverse new) s0 s1) as (Hi & _ & Hcf & _ & Hsh); try done.
      + intros E. apply Hne. rewrite <- (reverse_involutive new). by rewrite E.
      + unfold glen in *. rewrite length_reverse. lia.
      + split_and!; [done| |done]. destruct new as [|h new]; [done|]. rewrite last_reverse in Hsh. simpl in Hsh.
        destruct Hc as [Hch _]. congruence. }
  assert (cached (MaxSignerCount (aConfig a1)) (sHash s1) s1) as Hcached.
  { split_and!; [done|done|by rewrite Hcfg]. }
  assert (engine_inv (a1 <| recents ::= fun m => cacheAdd m (sHash s1) s1 |>)) as Ha2.
  { destruct Ha1 as [H1 H2 H3]. split; simpl; [done| |done].
    intros h x [[-> ->]|Hx]%Hcache; [done|by apply H2]. }
  split_and!; [|done|done]. destruct (_ && _); [|done].
  destruct Ha2 as [H1 H2 H3]. split; simpl in *; [done|done|].
  intros h x [[<- <-]|[_ Hx]]%lookup_insert_Some; [done|by apply H3].
Qed.

(** C6. The snapshot retrieved for a block is the snapshot of that block,
    whether it comes from memory, from disk, from the genesis block or is
    rebuilt from the headers after an older one: it carries the hash asked
    for and satisfies the invariants, and so does all that is cached. *)
Theorem snapshot_correct a number hash parents votes lcrs a' s :
  rlp_unsigned EN -> cache_forgets -> engine_inv a -> 0 <= number < 2 ^ 64 ->
  valid_votes votes -> NoDup (map Voter votes) ->
  (number = 0 -> forall g, GetHeaderByNumber 0 = Some g -> Header_Hash g = hash) ->
  snapshot now uncleHash sigcache minVB cacheAdd a number hash parents votes lcrs = Ok (a', s) ->
  engine_inv a' /\ snapshot_inv s /\ sHash s = hash.
Proof. apply snapshot_ok. Qed.

Lemma bind_no_hang {E A B} (m : res E A) (k : A -> res E B) :
  m <> Hang -> (forall a, k a <> Hang) -> (m ≫= k) <> Hang.
Proof. intros Hm Hk. destruct m; simpl; [apply Hk|done..]. Qed.

Lemma foldM_no_hang {E S A} (body : S -> A -> res E S) xs s :
  (forall s x, body s x <> Hang) -> foldM body xs s <> Hang.
Proof.
  intros Hb. revert s. induction xs as [|x xs IH]; intros s; simpl; [done|].
  by apply bind_no_hang.
Qed.

Lemma loadSnapshot_no_hang a hash : loadSnapshot minVB a hash <> Hang.
Proof.
  unfold loadSnapshot. destruct (aDb a !! hash) as [st|]; [|done]. apply bind_no_hang; [|by intros []].
  apply foldM_no_hang. intros st' [h loc]. unfold copyProposal. simpl. by destruct (pheap st !! loc).
Qed.

(** The search for a snapshot ends: it goes back one block at a time and
    stops at the genesis block at the latest. *)
Lemma snapshot_search_ends fuel a number hash parents votes lcrs headers :
  0 <= number < 2 ^ 64 -> (Z.to_nat number < fuel)%nat ->
  gather now uncleHash minVB fuel a number hash parents votes lcrs headers <> Hang.
Proof.
  revert a number hash parents headers.
  induction fuel as [|fuel IH]; intros a number hash parents headers Hn Hf; [lia|].
  cbn [gather]. destruct (recents a !! hash); [done|]. apply bind_no_hang.
  { destruct (_ =? 0); [apply loadSnapshot_no_hang|done]. }
  intros [s|]; [done|]. destruct (Z.eqb_spec number 0) as [->|Hne].
  - apply bind_no_hang; [by destruct (GetHeaderByNumber 0)|]. intros g. apply bind_no_hang; [|done].
    unfold verifyBasic. by repeat case_match.
  - apply bind_no_hang.
    + unfold parentHeader. destruct (last parents) as [p|].
      * apply bind_no_hang; [by destruct (hNumber p)|]. intros n. by destruct (_ || _).
      * by destruct (GetHeader hash number).
    + intros [h rest]. apply IH; rewrite u64_sub_le by lia; lia.
Qed.
End Retrieval.

(** ** Seals *)
Lemma sameQueue_prefix n i q k :
  0 <= i -> (Z.to_nat i <= k)%nat -> (k < Z.to_nat i + n)%nat -> (k < length q)%nat ->
  sameQueue n i q (take k q) = Panic.
Proof.
  revert i. induction n as [|n IH]; intros i Hi Hik Hkn Hk; [lia|]. cbn [sameQueue].
  destruct (lookup_lt_is_Some_2 q (Z.to_nat i)) as [x Hx]; [lia|].
  rewrite (gindex_in q i x) by done. cbn [mbind res_bind].
  destruct (decide (Z.to_nat i = k)) as [Heq|Hne].
  - rewrite gindex_out; [done|]. apply lookup_take_ge. lia.
  - rewrite (gindex_in (take k q) i x); [|done|by rewrite lookup_take_lt by lia]. cbn [mbind res_bind].
    rewrite Z.eqb_refl. apply IH; lia.
Qed.

Lemma sameQueue_refl n i q :
  0 <= i -> (Z.to_nat i + n <= length q)%nat -> sameQueue n i q q = Ok true.
Proof.
  revert i. induction n as [|n IH]; intros i Hi Hn; [done|]. cbn [sameQueue].
  destruct (lookup_lt_is_Some_2 q (Z.to_nat i)) as [x Hx]; [lia|].
  rewrite (gindex_in q i x) by done. cbn [mbind res_bind].
  rewrite Z.eqb_refl. apply IH; lia.
Qed.

Section Seals.
Context {RT : GoRuntime} {EN : Env} {CR : ChainReader}.
Variables (now : Z) (uncleHash : Hash) (sigcache : Hash -> option Address) (minVB : Z)
  (cacheAdd : gmap Z Snapshot -> Hash -> Snapshot -> gmap Z Snapshot)
  (mainSnapshot : Z -> Hash -> ares Snapshot).
Let seal := verifySeal now uncleHash sigcache minVB cacheAdd mainSnapshot.
Let snap_of a number hash parents :=
  snapshot now uncleHash sigcache minVB cacheAdd a number hash parents [] defaultLoopCntRecalculateSigners.

(** C33. Anyone can crash a node: a header on top of a known block, signed with
    any key and naming its own signer, whose queue is cut short, makes
    [verifySeal] index past the end of the queue before the signer is
    checked. *)
Theorem short_queue_panics a a' snap header parents bigNumber signer parent pe ce k :
  hNumber header = Some bigNumber -> bigUint64 bigNumber <> 0 ->
  snap_of a (bigUint64 bigNumber -u 1) (hParentHash header) parents = Ok (a', snap) ->
  ecrecover sigcache header = Ok signer -> signer = hCoinbase header ->
  SideChain ChainConfig = false -> 0 < MaxSignerCount (aConfig a') < 2 ^ 63 ->
  MaxSignerCount (aConfig a') < bigUint64 bigNumber ->
  bigUint64 bigNumber mod MaxSignerCount (aConfig a') <> 0 ->
  parentOf header (bigUint64 bigNumber) parents = Some parent ->
  headerExtra parent = Ok pe -> headerExtra header = Ok ce ->
  glen (SignerQueue pe) = MaxSignerCount (aConfig a') ->
  (k < length (SignerQueue pe))%nat -> SignerQueue ce = take k (SignerQueue pe) ->
  seal a header parents = Panic.
Proof.
  intros Hn Hnz Hsnap Hsig Hcb Hsc HM Hlt Hmod Hp Hpe Hce Hlen Hk Hq.
  unfold seal, verifySeal. rewrite Hn. cbn [get_or_panic mbind res_bind].
  rewrite (proj2 (Z.eqb_neq _ 0) Hnz). unfold snap_of in Hsnap. rewrite Hsnap. cbn [mbind res_bind].
  rewrite Hsig. cbn [mbind res_bind]. rewrite Hcb, Z.eqb_refl, andb_false_r, Hsc. cbn [negb].
  rewrite (proj2 (Z.ltb_lt (MaxSignerCount (aConfig a')) (bigUint64 bigNumber)) Hlt). unfold verifyLoop. rewrite Hp. cbn [get_or_panic mbind res_bind].
  rewrite Hpe, Hce. cbn [mbind res_bind]. unfold checkQueue. rewrite umod_Ok by lia. cbn [mbind res_bind].
  rewrite (proj2 (Z.eqb_neq _ 0) Hmod). rewrite i64_small by lia. unfold glen in Hlen. rewrite Hq, sameQueue_prefix; [done|lia..].
Qed.

(** On a side chain a charging the main chain never sent is accepted when
    it replaces one it did send: the lookup that misses returns a nil error
    and ends the check. *)
Lemma unknown_charging_accepted a a' snap header parents bigNumber signer notice start period len ce charge rest :
  hNumber header = Some bigNumber -> bigUint64 bigNumber <> 0 ->
  snap_of a (bigUint64 bigNumber -u 1) (hParentHash header) parents = Ok (a', snap) ->
  ecrecover sigcache header = Ok signer -> signer = hCoinbase header -> SideChain ChainConfig = true ->
  mcSnapshot mainSnapshot signer (bigUint64 (hTime header)) = Ok (notice, start, period, len) ->
  headerExtra header = Ok ce -> SideChainCharging ce = charge :: rest ->
  Z.of_nat (size (CurrentCharging notice)) = glen (charge :: rest) ->
  CurrentCharging notice !! gcHash charge = None ->
  exists a'', seal a header parents = Ok a''.
Proof.
  intros Hn Hnz Hsnap Hsig Hcb Hsc Hmc Hce Hch Hsize Hnone.
  unfold seal, verifySeal. rewrite Hn. cbn [get_or_panic mbind res_bind].
  rewrite (proj2 (Z.eqb_neq _ 0) Hnz). unfold snap_of in Hsnap. rewrite Hsnap. cbn [mbind res_bind].
  rewrite Hsig. cbn [mbind res_bind]. rewrite Hcb, Z.eqb_refl, andb_false_r, Hsc. cbn [negb].
  rewrite <- Hcb, Hmc. cbn [mbind res_bind]. rewrite Hce. cbn [mbind res_bind]. rewrite Hch, Hsize, Z.eqb_refl.
  cbn [negb checkChargings]. rewrite Hnone. by eexists.
Qed.

(** What a header past the first loop takes over: at the start of a loop a queue
    drawn from the snapshot, else the queue of its parent, whose signer does
    not sign again within a period; and the signers missing since its parent. *)
Definition inherits (c : AlienConfig) (snap : Snapshot) (number bigNumber : Z) (signer : Address)
    (header parent : Header) (parents : list Header) : Prop :=
  exists pe ce, headerExtra parent = Ok pe /\ headerExtra header = Ok ce /\
    expectedMissing c number bigNumber header parent parents pe = Ok (SignerMissing ce) /\
    (number mod MaxSignerCount c = 0 -> 0 < MaxSignerCount (config snap) < 2 ^ 63 ->
       createSignerQueue snap = Ok (SignerQueue ce)) /\
    (number mod MaxSignerCount c <> 0 ->
       (MaxSignerCount c < 2 ^ 63 -> forall i, 0 <= i < MaxSignerCount c ->
          exists x, SignerQueue pe !! Z.to_nat i = Some x /\ SignerQueue ce !! Z.to_nat i = Some x) /\
       (signer = hCoinbase parent -> Period ChainConfig <= bigUint64 (hTime header) -u bigUint64 (hTime parent))).

Lemma sameQueue_true n i q1 q2 : sameQueue n i q1 q2 = Ok true -> forall j, i <= j < i + Z.of_nat n ->
  exists x, q1 !! Z.to_nat j = Some x /\ q2 !! Z.to_nat j = Some x.
Proof.
  revert i. induction n as [|n IH]; intros i H j Hj; [lia|]. cbn [sameQueue] in H.
  apply bind_Ok_inv in H as (x & [_ Hx]%gindex_Ok & H). apply bind_Ok_inv in H as (y & [_ Hy]%gindex_Ok & H).
  destruct (Z.eqb_spec x y) as [->|]; [|done]. destruct (decide (j = i)) as [->|]; [eauto|].
  apply (IH _ H). lia.
Qed.
Lemma verifyLoop_inherits c snap number bigNumber signer header parent parents :
  parentOf header number parents = Some parent ->
  verifyLoop c snap number bigNumber signer header parents = Ok tt ->
  inherits c snap number bigNumber signer header parent parents.
Proof.
  intros Hp. unfold verifyLoop. rewrite Hp. cbn [get_or_panic mbind res_bind].
  intros (pe & Hpe & H)%bind_Ok_inv. apply bind_Ok_inv in H as (ce & Hce & H).
  apply bind_Ok_inv in H as ([] & Hq & H). apply bind_Ok_inv in H as (missing & Hm & H).
  case_bool_decide as Heq; [|done]. subst missing. unfold checkQueue in Hq.
  apply bind_Ok_inv in Hq as (r & Hr & Hq). unfold umod in Hr. destruct (decide (MaxSignerCount c = 0)); [done|]. injection Hr as <-.
  exists pe, ce. split_and!; [done..| |].
  - intros H0 HM. rewrite H0 in Hq. by apply verifySignerQueue_accepts.
  - intros H0. rewrite (proj2 (Z.eqb_neq _ 0) H0) in Hq. apply bind_Ok_inv in Hq as (same & Hs & Hq).
    destruct same; [|done]. cbn [negb] in Hq. destruct (_ && _) eqn:En; [done|]. split.
    + intros HM i Hi. rewrite i64_small in Hs by lia. apply (sameQueue_true _ _ _ _ Hs). lia.
    + intros ->. rewrite Z.eqb_refl in En. simpl in En. by apply Z.ltb_ge in En.
Qed.

(** C4. What acceptance of a header of the main chain guarantees: the block
    is sealed by the signer whose turn it is at its time in the snapshot of
    its parent, a block after the fix names that signer as its coinbase, its
    parent is known and not younger, and past the first loop it carries the
    queue and the missing signers the snapshot and the parent prescribe. *)
Theorem verifyHeader_sound a header parents a' :
  SideChain ChainConfig = false ->
  verifyHeader now uncleHash sigcache minVB cacheAdd mainSnapshot a header parents = Ok a' ->
  exists bigNumber, hNumber header = Some bigNumber /\ hTime header <= now /\ hMixDigest header = 0 /\
  (bigUint64 bigNumber = 0 \/
   exists parent a1 snap signer, parentOf header (bigUint64 bigNumber) parents = Some parent /\
     Header_Hash parent = hParentHash header /\ bigUint64 (hTime parent) <= bigUint64 (hTime header) /\
     snap_of a1 (bigUint64 bigNumber -u 1) (hParentHash header) parents = Ok (a', snap) /\
     ecrecover sigcache header = Ok signer /\
     inturn snap signer (bigUint64 (hTime header)) = Ok true /\
     (bugFixBlockNumber < bigNumber -> signer = hCoinbase header) /\
     (MaxSignerCount (aConfig a') < bigUint64 bigNumber ->
        inherits (aConfig a') snap (bigUint64 bigNumber) bigNumber signer header parent parents)).
Proof.
  intros Hsc. unfold verifyHeader. intros (bn & Hb & H)%bind_Ok_inv. unfold verifyBasic in Hb.
  destruct (hNumber header) as [bn'|] eqn:En; [|done]. destruct (Z.ltb_spec now (hTime header)); [done|].
  destruct (_ <? extraVanity); [done|]. destruct (_ <? _ + _); [done|].
  destruct (Z.eqb_spec (hMixDigest header) 0) as [Hmix|]; [|done]. destruct (_ =? uncleHash); [|done]. simpl in Hb.
  injection Hb as ->. exists bn. split_and!; [done|done|done|]. unfold verifyCascadingFields in H.
  destruct (Z.eqb_spec (bigUint64 bn) 0); [by left|]. right.
  destruct (parentOf header (bigUint64 bn) parents) as [parent|] eqn:Ep; [|done].
  apply bind_Ok_inv in H as (pn & _ & H).
  destruct (_ || _) eqn:Eh; [done|]. apply orb_false_iff in Eh as [_ Eh%negb_false_iff%Z.eqb_eq].
  destruct (Z.ltb_spec (bigUint64 (hTime header)) (bigUint64 (hTime parent))); [done|].
  apply bind_Ok_inv in H as ([a1 s1] & _ & H). unfold verifySeal in H. rewrite En in H.
  cbn [get_or_panic mbind res_bind] in H. destruct (_ =? 0); [done|].
  apply bind_Ok_inv in H as ([a2 snap] & Hsnap & H). apply bind_Ok_inv in H as (signer & Hsig & H).
  destruct (_ && _) eqn:Ebug; [done|]. rewrite Hsc in H. cbn [negb] in H.
  apply bind_Ok_inv in H as ([] & Hloop & H). apply bind_Ok_inv in H as (turn & Hturn & H).
  destruct turn; [|done]. injection H as <-.
  exists parent, a1, snap, signer. split_and!; try done.
  - intros Hbn. rewrite (proj2 (Z.ltb_lt _ _)) in Ebug by done. simpl in Ebug.
    by apply negb_false_iff, Z.eqb_eq in Ebug.
  - intros Hlt. rewrite (proj2 (Z.ltb_lt _ _)) in Hloop by done. by apply verifyLoop_inherits.
Qed.
End Seals.

(** ** Producer and validator agree *)
Section Agreement.
Context {RT : GoRuntime} {EN : Env} {CR : ChainReader} {St : Type} {BS : Balances St}.
Variables (now : Z) (uncleHash : Hash) (sigcache : Hash -> option Address) (minVB : Z)
  (cacheAdd : gmap Z Snapshot -> Hash -> Snapshot -> gmap Z Snapshot) (IntermediateRoot : St -> Hash).

(** The part of the extra data transactions do not touch. *)
Definition queueOf (x : HeaderExtra) := (SignerQueue x, SignerMissing x).

Lemma processEvent_queue c number snap (st st' : @txState St) tx sender info event :
  processEvent minVB c number snap st tx sender info event = Ok st' -> queueOf (tExtra st') = queueOf (tExtra st).
Proof.
  destruct st as [x state refund]. unfold processEvent. intros (vote & _ & H)%bind_Ok_inv. destruct vote.
  { apply bind_Ok_inv in H as (votes & _ & H). by injection H as <-. }
  apply bind_Ok_inv in H as (confirm & _ & H). destruct confirm.
  { destruct (processEventConfirm _ _ _ _ _ _ _). by injection H as <-. }
  destruct (beqb event ufoEventPorposal).
  { apply bind_Ok_inv in H as ([l state'] & _ & H). by injection H as <-. }
  apply bind_Ok_inv in H as (d & _ & H). injection H as <-. by destruct d.
Qed.

Lemma processSC_queue snap (st st' : @txState St) tx sender info event next :
  processSC snap st tx sender info event = Ok (st', next) -> queueOf (tExtra st') = queueOf (tExtra st).
Proof.
  destruct st as [x state refund]. unfold processSC. destruct (beqb event ufoEventConfirm).
  { intros H. do 9 (destruct info as [|? info]; [by injection H as <- <-|]).
    destruct (bigUnmarshalText _); [|by injection H as <- <-].
    destruct (bigUnmarshalText _); by injection H as <- <-. }
  intros (b & _ & H)%bind_Ok_inv. destruct b; [|by injection H as <- <-].
  destruct (info !! 4%nat); [|by injection H as <- <-]. destruct (_ <=? _); [|by injection H as <- <-].
  apply bind_Ok_inv in H as (to & _ & H). by injection H as <- <-.
Qed.

Lemma processTx_queue c number snap (st st' : @txState St) tx :
  processTx minVB c number snap st tx = Ok st' -> queueOf (tExtra st') = queueOf (tExtra st).
Proof.
  unfold processTx. destruct (txSender tx) as [sender|]; [|by intros [= <-]].
  intros ([st1 next] & H1 & H)%bind_Ok_inv. transitivity (queueOf (tExtra st1)).
  - destruct next; [by injection H as <-|]. destruct (1 <? number); [|by injection H as <-].
    apply bind_Ok_inv in H as (s & _ & H). by injection H as <-.
  - clear H. revert H1. unfold processData. destruct (_ <? _); [intros ?; by simplify_eq|].
    destruct (Split _ _) as [|prefix [|version [|category rest]]]; [intros ?; by simplify_eq..|].
    destruct (negb _); [intros ?; by simplify_eq|]. destruct rest as [|event rest]; [intros ?; by simplify_eq|].
    destruct (beqb category ufoCategoryEvent).
    { intros (st2 & H2 & H2')%bind_Ok_inv. injection H2' as <- <-. by eapply processEvent_queue. }
    destruct (beqb category ufoCategoryLog); [intros ?; by simplify_eq|].
    destruct (beqb category ufoCategorySC); [by apply processSC_queue|intros ?; by simplify_eq].
Qed.

Lemma processCustomTx_queue c x number snap (state : St) txs receipts x' state' rg :
  processCustomTx minVB c x number snap state txs receipts = Ok (x', state', rg) -> queueOf x' = queueOf x.
Proof.
  unfold processCustomTx. intros (st & Hrun & H)%bind_Ok_inv. injection H as <- <- <-.
  eapply (foldM_frame _ (fun st : @txState St => queueOf (tExtra st))) in Hrun; [exact Hrun|].
  intros s1 tx s2. apply processTx_queue.
Qed.

(** The queue a block of the main chain carries past the first loop. *)
Lemma loopExtra_queue c snap number x x' :
  number <> 1 -> MaxSignerCount c <> 0 -> loopExtra c snap number x = Ok x' ->
  SignerMissing x' = SignerMissing x /\
  if number mod MaxSignerCount c =? 0 then createSignerQueue snap = Ok (SignerQueue x')
  else SignerQueue x' = SignerQueue x.
Proof.
  intros Hn HM. unfold loopExtra. rewrite (proj2 (Z.eqb_neq number 1) Hn), umod_Ok by done.
  cbn [mbind res_bind]. destruct (_ =? 0); [|by intros [= <-]].
  intros (q & Hq & H)%bind_Ok_inv. by injection H as <-.
Qed.

(** RLP reads back what it writes. *)
Definition rlp_inverse : Prop := forall x b, rlpEncodeExtra x = Some b -> rlpDecodeExtra b = Some x.

Lemma headerExtra_sealed header prefix x enc sig :
  rlp_inverse -> encodeHeaderExtra x = Ok enc -> glen prefix = extraVanity -> glen sig = extraSeal ->
  hExtra header = prefix ++ enc ++ sig -> headerExtra header = Ok x.
Proof.
  intros Hcodec Henc Hp Hs He. unfold headerExtra. rewrite He. unfold glen, extraVanity, extraSeal in *.
  unfold gslice. rewrite decide_True by (rewrite !length_app; lia). cbn [mbind res_bind].
  rewrite !length_app, app_assoc.
  assert (take (Z.to_nat (Z.of_nat (length prefix + (length enc + length sig)) - 65 - 32))
    (drop (Z.to_nat 32) ((prefix ++ enc) ++ sig)) = enc) as ->.
  { rewrite <- app_assoc, drop_app_length' by lia. apply take_app_length'. lia. }
  unfold decodeHeaderExtra, encodeHeaderExtra in *. destruct (rlpEncodeExtra x) as [b|] eqn:Eb; [|done].
  injection Henc as <-. by rewrite (Hcodec _ _ Eb).
Qed.

Lemma vanity_length extra : glen (vanity extra) = extraVanity.
Proof.
  unfold vanity, glen, extraVanity. rewrite length_take. destruct (Z.ltb_spec (Z.of_nat (length extra)) 32).
  - rewrite length_app, length_replicate. lia.
  - lia.
Qed.

Lemma expectedMissing_config c c' number bn h h' parent parents pe :
  MaxSignerCount c = MaxSignerCount c' -> TrantorBlock c = TrantorBlock c' -> hCoinbase h = hCoinbase h' ->
  expectedMissing c number bn h parent parents pe = expectedMissing c' number bn h' parent parents pe.
Proof. intros H1 H2 H3. unfold expectedMissing, missingSigners, IsTrantor. by rewrite H1, H2, H3. Qed.
(** Queues of three or more signers are not written to. *)
Lemma missingSigners_queue c number bn h parent parents pe missing q :
  2 < glen (SignerQueue pe) -> missingSigners c number bn h parent parents pe = Ok (missing, q) -> q = SignerQueue pe.
Proof.
  unfold missingSigners, glen. intros Hlen (r & _ & H)%bind_Ok_inv. destruct (IsTrantor c bn); [|by injection H as _ <-].
  apply bind_Ok_inv in H as (gpExtra & _ & H). rewrite (proj2 (proj2 (missing_signers_eq _ _ _ _))) in H.
  destruct (list_find _ _) as [[i z]|]; [|by injection H as _ <-].
  destruct (decide _); [|done]. rewrite decide_False in H by lia. by injection H as _ <-.
Qed.

(** The configuration of the engine changes at most in its period. *)
Definition rules (a : Alien) := (MaxSignerCount (aConfig a), TrantorBlock (aConfig a)).
Lemma gather_rules fuel a number hash parents votes lcrs headers a' s hs :
  gather now uncleHash minVB fuel a number hash parents votes lcrs headers = Ok (a', s, hs) -> rules a' = rules a.
Proof.
  revert a number hash parents headers. induction fuel as [|fuel IH]; intros a number hash parents headers H; [done|].
  cbn [gather] in H. destruct (recents a !! hash); [by injection H as <- <- <-|].
  apply bind_Ok_inv in H as (loaded & _ & H). destruct loaded; [by injection H as <- <- <-|].
  destruct (number =? 0).
  - apply bind_Ok_inv in H as (g & _ & H). apply bind_Ok_inv in H as (? & _ & H). by injection H as <- _ _.
  - apply bind_Ok_inv in H as ([h rest] & _ & H). by eapply IH.
Qed.
Lemma snapshot_rules a number hash parents votes lcrs a' s :
  snapshot now uncleHash sigcache minVB cacheAdd a number hash parents votes lcrs = Ok (a', s) -> rules a' = rules a.
Proof.
  unfold snapshot. intros ([[a1 s0] hs] & Hg%gather_rules & H)%bind_Ok_inv. rewrite <- Hg.
  apply bind_Ok_inv in H as (s1 & _ & H). injection H as <- _. by destruct (_ && _).
Qed.

(** What [Finalize] puts into a block of the main chain past the first one. *)
Lemma Finalize_extra a header (state : St) txs receipts a' h state' bn parent pe :
  SideChain ChainConfig = false -> hNumber header = Some bn -> 1 < bigUint64 bn ->
  MaxSignerCount (aConfig a) <> 0 ->
  GetHeader (hParentHash header) (bigUint64 bn -u 1) = Some parent -> headerExtra parent = Ok pe ->
  2 < glen (SignerQueue pe) ->
  Finalize now uncleHash sigcache minVB cacheAdd IntermediateRoot a header state txs receipts = Ok (a', h, state') ->
  exists x enc snap missing,
    snapshot now uncleHash sigcache minVB cacheAdd a (bigUint64 bn -u 1) (hParentHash header) [] []
      defaultLoopCntRecalculateSigners = Ok (a', snap) /\
    encodeHeaderExtra x = Ok enc /\ hExtra h = sealedExtra (vanity (hExtra header)) enc /\
    hParentHash h = hParentHash header /\ hCoinbase h = hCoinbase header /\ hNumber h = Some bn /\
    expectedMissing (aConfig a) (bigUint64 bn) bn header parent [] pe = Ok missing /\ SignerMissing x = missing /\
    if bigUint64 bn mod MaxSignerCount (aConfig a) =? 0 then createSignerQueue snap = Ok (SignerQueue x)
    else SignerQueue x = SignerQueue pe.
Proof.
  intros Hsc Hn Hgt HM Hp Hpe Hlen H. unfold Finalize in H. rewrite Hn in H. cbn [get_or_panic mbind res_bind] in H.
  rewrite Hp in H. set (header1 := header <| hMixDigest := 0 |> <| hTime := _ |> <| hExtra ::= vanity |>) in H.
  apply bind_Ok_inv in H as ([[gv pe'] x0] & Hx & H).
  rewrite (proj2 (Z.eqb_neq (bigUint64 bn) 1)) in Hx by lia. unfold inheritExtra in Hx. rewrite Hpe in Hx.
  cbn [mbind res_bind] in Hx. apply bind_Ok_inv in Hx as ([pe2 x1] & Hm & Hx).
  apply bind_Ok_inv in Hm as ([missing q] & Hm & Hx1). injection Hx1 as <- <-. injection Hx as <- <- <-.
  assert (expectedMissing (aConfig a) (bigUint64 bn) bn header parent [] pe = Ok missing) as He
    by (unfold expectedMissing; by rewrite (Hm : missingSigners _ _ _ header _ _ _ = _)).
  apply missingSigners_queue in Hm as ->; [|done].
  apply bind_Ok_inv in H as ([a1 snap] & Hsnap & H). pose proof (snapshot_rules _ _ _ _ _ _ _ _ Hsnap) as [= EM _].
  apply bind_Ok_inv in H as ([x state1] & Hx & H). apply bind_Ok_inv in H as (enc & Henc & H). injection H as <- <- <-.
  rewrite Hsc in Hx. cbn [negb] in Hx. apply bind_Ok_inv in Hx as ([[x2 state2] rg] & Hcust & Hx).
  apply processCustomTx_queue in Hcust. injection Hcust as Hq Hmiss.
  apply bind_Ok_inv in Hx as (x3 & Hloop & Hx). apply loopExtra_queue in Hloop as [Hm3 Hq3]; [|lia|congruence].
  assert (x = x3) as ->.
  { by destruct (accumulateRewards _ _ _ _ _); [injection Hx as <- <-|..]. }
  rewrite EM in Hq3. exists x3, enc, snap, missing. split_and!; try done.
  - by rewrite Hm3.
  - destruct (_ =? 0); [done|]. by rewrite Hq3.
Qed.

(** A producer and a validator with the same snapshot agree, also when their run
    times differ but draw the same queue: past the first loop, whatever [Finalize] writes into a header of the main chain,
    sealed with any signature, passes the checks of the signer queue and of
    the missing signers; only the distance to a previous block of the same
    signer can still be refused. *)
Lemma Finalize_verifies a header (state : St) txs receipts a' h state' bn parent pe sig signer :
  rlp_inverse -> SideChain ChainConfig = false -> hNumber header = Some bn -> 1 < bigUint64 bn ->
  2 < MaxSignerCount (aConfig a) < 2 ^ 63 ->
  GetHeader (hParentHash header) (bigUint64 bn -u 1) = Some parent -> headerExtra parent = Ok pe ->
  glen (SignerQueue pe) = MaxSignerCount (aConfig a) ->
  Finalize now uncleHash sigcache minVB cacheAdd IntermediateRoot a header state txs receipts = Ok (a', h, state') ->
  glen sig = extraSeal ->
  exists snap,
    snapshot now uncleHash sigcache minVB cacheAdd a (bigUint64 bn -u 1) (hParentHash header) [] []
      defaultLoopCntRecalculateSigners = Ok (a', snap) /\
    (MaxSignerCount (config snap) = MaxSignerCount (aConfig a) -> forall R2 : GoRuntime,
     (bigUint64 bn mod MaxSignerCount (aConfig a) = 0 -> createSignerQueue (RT := R2) snap = createSignerQueue (RT := RT) snap) ->
     let sealed := h <| hExtra ::= fun e => take (length e - 65) e ++ sig |> in
     let r := verifyLoop (RT := R2) (aConfig a') snap (bigUint64 bn) bn signer sealed [] in
     r = Ok tt \/ r = Err errInvalidNeighborSigner).
Proof.
  intros Hcodec Hsc Hn Hgt HM Hp Hpe Hlen HF Hsig.
  destruct (Finalize_extra a header state txs receipts a' h state' bn parent pe) as
    (x & enc & snap & missing & Hsnap & Henc & Hex & Hph & Hcb & _ & Hmiss & Hxm & Hq); [done..|lia|done|done|lia|done|].
  exists snap. split; [done|]. intros HMs R2 Hdraw sealed. pose proof (snapshot_rules _ _ _ _ _ _ _ _ Hsnap) as [= EM ET].
  assert (headerExtra sealed = Ok x) as Hsx.
  { eapply (headerExtra_sealed sealed (vanity (hExtra header)) x enc sig); [done|done|apply vanity_length|done|].
    subst sealed. simpl. rewrite Hex. unfold sealedExtra. rewrite !app_assoc. f_equal.
    rewrite length_app, length_replicate. change (Z.to_nat extraSeal) with 65%nat.
    rewrite Nat.add_sub. apply take_app_length. }
  unfold verifyLoop. assert (parentOf sealed (bigUint64 bn) [] = Some parent) as ->.
  { unfold parentOf. simpl. by rewrite Hph. }
  cbn [get_or_panic mbind res_bind]. rewrite Hpe, Hsx. cbn [mbind res_bind].
  unfold checkQueue. rewrite EM, umod_Ok by lia. cbn [mbind res_bind].
  rewrite (expectedMissing_config (aConfig a') (aConfig a) _ _ sealed header) by done. rewrite Hmiss.
  destruct (_ =? 0) eqn:E.
  - apply Z.eqb_eq in E. rewrite <- (Hdraw E) in Hq. rewrite (proj2 (verifySignerQueue_accepts snap (SignerQueue x) ltac:(rewrite HMs; lia)) Hq).
    cbn [mbind res_bind]. left. by rewrite bool_decide_true.
  - rewrite Hq, i64_small, sameQueue_refl by (unfold glen in *; lia). cbn [mbind res_bind negb].
    destruct (_ && _); [by right|]. cbn [mbind res_bind]. left. by rewrite bool_decide_true.
Qed.
End Agreement.
