(* ===== verification/AlienAPI.v ===== *)
(** * The interface of a main chain to its side chains

    Models [consensus/alien/api.go] (the RPC methods that answer snapshots, with
    the search for the block of a given time) and the queries of
    [consensus/alien/cross_chain.go]. The search is a loop without a bound in
    the source: it is proved to end and to find the right block on a chain
    longer than one loop, and shown not to end on one just shorter. *)
From S2P Require Import Prelude AlienTypes AlienVotes AlienProposal AlienQueue GoText Hexutil AlienSideChain AlienApply AlienReward AlienTx AlienEngine.

(** [Div] of [big.Int] with any divisor but zero: the remainder is never
    negative. *)
Definition euclidDiv (x y : Z) : ares Z := if decide (y = 0) then Panic else Ok (Z.sgn y * (x / Z.abs y)).

Section API.
Context {RT : GoRuntime} {EN : Env} {CR : ChainReader}.
Variables (now : Z) (uncleHash : Hash) (sigcache : Hash -> option Address) (minVB : Z)
  (cacheAdd : gmap Z Snapshot -> Hash -> Snapshot -> gmap Z Snapshot)
  (CurrentHeader : option Header) (GetHeaderByHash : Hash -> option Header).
Let snap_of (a : Alien) (header : Header) : ares (Alien * Snapshot) :=
  n ← get_or_panic (hNumber header);
  snapshot now uncleHash sigcache minVB cacheAdd a (bigUint64 n) (Header_Hash header) [] []
    defaultLoopCntRecalculateSigners.

(** [GetSnapshot]: [None] asks for the latest block (a nil number or
    [rpc.LatestBlockNumber]). *)
Definition GetSnapshot (a : Alien) (number : option Z) : ares (Alien * Snapshot) :=
  match (match number with None => CurrentHeader | Some n => GetHeaderByNumber (u64 n) end) with
  | None => Err errUnknownBlock
  | Some header => snap_of a header
  end.
Definition GetSnapshotAtHash (a : Alien) (hash : Hash) : ares (Alien * Snapshot) :=
  match GetHeaderByHash hash with None => Err errUnknownBlock | Some header => snap_of a header end.
Definition GetSnapshotAtNumber (a : Alien) (number : Z) : ares (Alien * Snapshot) :=
  match GetHeaderByNumber number with None => Err errUnknownBlock | Some header => snap_of a header end.

(** At the end of the range, once, the distance of the two last blocks
    replaces the period; [None] leaves the loop. *)
Definition lastPeriod (minN maxN period : Z) (isNext : bool) : option (Z * bool) :=
  if (maxN =? minN) || (maxN =? minN + 1) then
    if negb isNext && (maxN =? minN + 1) then
      maxH ← GetHeaderByNumber (bigUint64 maxN);
      minH ← GetHeaderByNumber (bigUint64 minN);
      Some (hTime maxH - hTime minH, true)
    else None
  else Some (period, isNext).
(** The next block to look at: where [target] would be at one block per
    period, or the middle when that is outside the range. *)
Definition nextNumber (target : Z) (header : Header) (hn minN maxN period : Z) : ares Z :=
  q ← euclidDiv (target - hTime header) period;
  let nextN := q + hn in
  if (maxN <=? nextN) || (nextN <=? minN) then euclidDiv (maxN + minN) 2 else Ok nextN.
(** The range after looking at the block [n'] of time [t]. *)
Definition narrow (target t n' minN maxN : Z) : Z * Z :=
  if target <=? t then (minN, if n' <? maxN then n' else maxN)
  else (if minN <? n' then n' else minN, maxN).

(** The loop of [GetSnapshotByHeaderTime]; [Hang] when [fuel] rounds are not
    enough. *)
Fixpoint searchTime (fuel : nat) (target : Z) (header : Header) (minN maxN period : Z) (isNext : bool) :
    ares Header :=
  match fuel with
  | O => Hang
  | S fuel =>
      if (hTime header <=? target) && (target <? hTime header + period) then Ok header
      else
        match lastPeriod minN maxN period isNext with
        | None => Err errUnknownBlock
        | Some (period, isNext) =>
            hn ← get_or_panic (hNumber header);
            nextN ← nextNumber target header hn minN maxN period;
            match GetHeaderByNumber (bigUint64 nextN) with
            | None => Err errUnknownBlock
            | Some header =>
                n' ← get_or_panic (hNumber header);
                let '(minN, maxN) := narrow target (hTime header) n' minN maxN in
                searchTime fuel target header minN maxN period isNext
            end
        end
  end.

(** The coinbase a signer has set for the side chain [scHash], else itself. *)
Definition scSigner (snap : Snapshot) (scHash : Hash) (signer : Address) : Address :=
  default signer (lookup2 (SCCoinbase snap) signer scHash).
(** The part of the snapshot that is answered; the fields it leaves out are
    zero values. *)
Definition scSnapshot (snap : Snapshot) (scHash : Hash) : Snapshot :=
  blankSnapshot ChainConfig <| LCRS := 0 |> <| MinerReward := 0 |> <| MinVB := None |>
    <| LoopStartTime := LoopStartTime snap |> <| sPeriod := sPeriod snap |>
    <| Signers := map (scSigner snap scHash) (Signers snap) |> <| Number := Number snap |>
    <| SCNoticeMap := match SCNoticeMap snap !! scHash with Some n => {[scHash := n]} | None => ∅ end |>.

(** [GetSnapshotByHeaderTime]: the current header is used before it is compared
    with nil, and so is the snapshot before its error. *)
Definition GetSnapshotByHeaderTime (a : Alien) (targetTime : Z) (scHash : Hash) : ares (Alien * Snapshot) :=
  header ← get_or_panic CurrentHeader;
  let period := Period ChainConfig in
  if hTime header + period <? targetTime then Err errUnknownBlock else
  hn ← get_or_panic (hNumber header);
  found ← searchTime (Z.to_nat hn + 3) targetTime header (MaxSignerCount ChainConfig) hn period false;
  match snap_of a found with
  | Ok (a, snap) => Ok (a, scSnapshot snap scHash)
  | Hang => Hang
  | _ => Panic
  end.

(** *** cross_chain.go: what a side chain asks its main chain

    [call] is the RPC client of the configuration, [None] when there is none. *)
Definition mainChainCall {A} (call : option (ares A)) : ares A :=
  if negb (SideChain ChainConfig) then Err errNotSideChain
  else match call with None => Err errMCRPCClientEmpty | Some r => r end.
Definition getMainChainSnapshotByTime (call : option (Z -> Hash -> ares Snapshot)) (headerTime : Z) (scHash : Hash) :
    ares Snapshot :=
  ms ← mainChainCall ((fun f => f headerTime scHash) <$> call);
  if sPeriod ms =? 0 then Err errMCPeriodMissing else Ok ms.
Definition sendTransactionToMainChain {Tx} (call : option (Tx -> ares Hash)) (tx : Tx) : ares Hash :=
  mainChainCall ((fun f => f tx) <$> call).
Definition getTransactionCountFromMainChain (call : option (Address -> ares Z)) (account : Address) : ares Z :=
  mainChainCall ((fun f => f account) <$> call).
Definition getNetVersionFromMainChain (call : option (ares bytes)) : ares Z :=
  result ← mainChainCall call;
  match bigUnmarshalText result with Some v => Ok (bigUint64 v) | None => Err errDecode end.
End API.

(** ** The search *)
Lemma euclidDiv_pos x y : 0 < y -> euclidDiv x y = Ok (x / y).
Proof. intros Hy. unfold euclidDiv. rewrite decide_False by lia. do 2 f_equal. rewrite Z.sgn_pos, Z.abs_eq by lia. lia. Qed.

Section Search.
Context {EN : Env} {CR : ChainReader}.

Lemma bigUint64_small n : 0 <= n < 2 ^ 64 -> bigUint64 n = n.
Proof. intros Hn. unfold bigUint64. rewrite Z.abs_eq by lia. by apply u64_small. Qed.

(** Inside a range of at least two blocks the next one is strictly inside. *)
Lemma nextNumber_inside target header hn minN maxN period n :
  minN + 2 <= maxN -> nextNumber target header hn minN maxN period = Ok n -> minN < n < maxN.
Proof.
  intros Hmm. unfold nextNumber. intros (q & _ & H)%bind_Ok_inv.
  destruct (Z.leb_spec maxN (q + hn)); simpl in H.
  2: destruct (Z.leb_spec (q + hn) minN); simpl in H.
  3: injection H as <-; lia.
  all: rewrite euclidDiv_pos in H by lia; injection H as <-; split; [|apply Z.div_lt_upper_bound; lia];
    apply Z.lt_le_trans with (minN + 1); [lia|]; apply Z.div_le_lower_bound; lia.
Qed.
(** In a range of two neighbours it is the lower one. *)
Lemma nextNumber_last target header hn minN period n :
  nextNumber target header hn minN (minN + 1) period = Ok n -> n = minN.
Proof.
  unfold nextNumber. intros (q & _ & H)%bind_Ok_inv.
  assert (((minN + 1) + minN) / 2 = minN) as Hmid.
  { replace (minN + 1 + minN) with (1 + minN * 2) by lia. rewrite Z.div_add by lia. reflexivity. }
  destruct (Z.leb_spec (minN + 1) (q + hn)); simpl in H.
  2: destruct (Z.leb_spec (q + hn) minN); simpl in H; [|lia].
  all: rewrite euclidDiv_pos in H by lia; injection H as <-; done.
Qed.

(** One round away from the end: the range shrinks. *)
Lemma narrow_shrinks target t n minN maxN :
  minN < n < maxN ->
  let '(minN', maxN') := narrow target t n minN maxN in
  minN <= minN' <= maxN' /\ maxN' <= maxN /\ maxN' - minN' < maxN - minN.
Proof.
  intros Hn. unfold narrow. destruct (target <=? t).
  - rewrite (proj2 (Z.ltb_lt n maxN)) by lia. lia.
  - rewrite (proj2 (Z.ltb_lt minN n)) by lia. lia.
Qed.

(** The block of a number that is found has that number. *)
Lemma header_number n h : 0 <= n < 2 ^ 64 -> GetHeaderByNumber (bigUint64 n) = Some h -> hNumber h = Some n.
Proof. intros Hn H. rewrite bigUint64_small in H by done. by apply GetHeaderByNumber_number. Qed.

Lemma get_or_panic_no_hang {A} (o : option A) : @get_or_panic AlienError A o <> Hang.
Proof. by destruct o. Qed.
Lemma nextNumber_no_hang target header hn minN maxN period : nextNumber target header hn minN maxN period <> Hang.
Proof.
  unfold nextNumber, euclidDiv. apply bind_no_hang; [by case_decide|]. intros q.
  destruct (_ || _); [by case_decide|done].
Qed.

(** Once the last period has been used the loop ends. *)
Lemma searchTime_next_no_hang fuel target header minN maxN period :
  maxN = minN + 1 \/ maxN = minN -> (0 < fuel)%nat -> searchTime fuel target header minN maxN period true <> Hang.
Proof.
  intros Hm Hf. destruct fuel as [|fuel]; [lia|]. cbn [searchTime]. destruct (_ && _); [done|].
  unfold lastPeriod. destruct Hm as [-> | ->]; rewrite Z.eqb_refl; simpl; [|done].
  rewrite orb_true_r. done.
Qed.
Lemma searchTime_ends fuel target header minN maxN period :
  0 <= minN <= maxN -> maxN < 2 ^ 64 -> (Z.to_nat (maxN - minN) + 2 <= fuel)%nat ->
  searchTime fuel target header minN maxN period false <> Hang.
Proof.
  revert header minN maxN. induction fuel as [|fuel IH]; intros header minN maxN Hm Hmax Hf; [lia|].
  cbn [searchTime]. destruct (_ && _); [done|]. unfold lastPeriod. destruct (Z.eqb_spec maxN minN) as [->|Hne]; simpl.
  { by rewrite (proj2 (Z.eqb_neq minN (minN + 1))) by lia. }
  destruct (Z.eqb_spec maxN (minN + 1)) as [Hl|Hl]; simpl.
  - destruct (GetHeaderByNumber (bigUint64 maxN)) as [maxH|]; [|done]. simpl.
    destruct (GetHeaderByNumber (bigUint64 minN)) as [minH|]; [|done]. simpl.
    apply bind_no_hang; [apply get_or_panic_no_hang|]. intros hn.
    destruct (nextNumber _ _ _ _ _ _) as [n| | |] eqn:En; [|done|done|by destruct (nextNumber_no_hang _ _ _ _ _ _ En)]. simpl.
    subst maxN. apply nextNumber_last in En as ->.
    destruct (GetHeaderByNumber (bigUint64 minN)) as [h|] eqn:Eg; [|done].
    apply header_number in Eg; [|lia]. rewrite Eg. simpl. unfold narrow.
    destruct (target <=? hTime h); apply searchTime_next_no_hang; try lia.
    + rewrite (proj2 (Z.ltb_lt minN (minN + 1))) by lia. by right.
    + rewrite Z.ltb_irrefl. by left.
  - apply bind_no_hang; [apply get_or_panic_no_hang|]. intros hn.
    destruct (nextNumber _ _ _ _ _ _) as [n| | |] eqn:En; [|done|done|by destruct (nextNumber_no_hang _ _ _ _ _ _ En)]. simpl.
    apply nextNumber_inside in En; [|lia]. destruct (GetHeaderByNumber (bigUint64 n)) as [h|] eqn:Eg; [|done].
    apply header_number in Eg; [|lia]. rewrite Eg. simpl.
    pose proof (narrow_shrinks target (hTime h) n minN maxN En) as Hs.
    destruct (narrow target (hTime h) n minN maxN) as [minN' maxN']. apply IH; lia.
Qed.

(** A chain whose blocks up to [cur] are known. *)
Definition known (cur : Z) : Prop := forall n, 0 <= n <= cur -> is_Some (GetHeaderByNumber n).
(** The block of time [target]: no younger than it, and either less than a
    period older or, however much older, followed by a block of a later time
    than [target]. *)
Definition coversTime (target period : Z) (h : Header) : Prop :=
  hTime h <= target /\
  (target < hTime h + period \/
   exists n next, hNumber h = Some n /\ GetHeaderByNumber (n + 1) = Some next /\ target < hTime next).

Section Found.
Variables (cur period target : Z).
Hypotheses (Hcur : cur < 2 ^ 64) (Hknown : known cur) (Hperiod : 0 < period).
Definition onChain (h : Header) : Prop := exists n, 0 <= n <= cur /\ GetHeaderByNumber n = Some h.

Lemma covers_last fuel minN maxN minH maxH n m :
  0 <= minN -> GetHeaderByNumber minN = Some minH -> GetHeaderByNumber (minN + 1) = Some maxH ->
  hTime minH <= target < hTime maxH ->
  searchTime (S fuel) target minH n m (hTime maxH - hTime minH) true = Ok minH /\ coversTime target maxN minH.
Proof.
  intros H0 Hmin Hmax Ht. cbn [searchTime].
  rewrite (proj2 (Z.leb_le (hTime minH) target)), (proj2 (Z.ltb_lt target _)) by lia. split; [done|].
  split; [lia|]. right. exists minN, maxH. split_and!; [by apply GetHeaderByNumber_number|done|lia].
Qed.

Lemma nextNumber_Ok header hn minN maxN p : 0 < p -> exists n, nextNumber target header hn minN maxN p = Ok n.
Proof.
  intros Hp. unfold nextNumber. rewrite (euclidDiv_pos _ p) by done. cbn [mbind res_bind].
  destruct (_ || _); [rewrite euclidDiv_pos by lia|]; by eexists.
Qed.

Lemma searchTime_finds fuel header minN maxN :
  onChain header -> 0 <= minN <= maxN -> maxN <= cur -> (Z.to_nat (maxN - minN) + 2 <= fuel)%nat ->
  (forall h, GetHeaderByNumber minN = Some h -> hTime h <= target) ->
  (forall h, GetHeaderByNumber maxN = Some h -> target < hTime h) \/ hTime header = target ->
  exists h, searchTime fuel target header minN maxN period false = Ok h /\ onChain h /\ coversTime target period h.
Proof.
  revert header minN maxN. induction fuel as [|fuel IH]; intros header minN maxN Hon Hm Hmax Hf Hlo Hhi; [lia|].
  cbn [searchTime]. destruct ((hTime header <=? target) && (target <? hTime header + period)) eqn:Ein.
  { apply andb_true_iff in Ein as [?%Z.leb_le ?%Z.ltb_lt]. exists header. split_and!; [done|done|]. split; [done|by left]. }
  destruct Hhi as [Hhi|Heq].
  2: { rewrite (proj2 (Z.leb_le _ _)), (proj2 (Z.ltb_lt _ _)) in Ein by lia. done. }
  destruct (Hknown minN) as [minH HminH]; [lia|]. destruct (Hknown maxN) as [maxH HmaxH]; [lia|].
  specialize (Hlo _ HminH). pose proof (Hhi _ HmaxH) as Hhi'.
  assert (minN <> maxN) as Hne by (intros ->; simplify_eq; lia).
  destruct Hon as (k & Hk & Hhk). apply GetHeaderByNumber_number in Hhk as Hnum.
  unfold lastPeriod. rewrite (proj2 (Z.eqb_neq maxN minN)) by lia. simpl.
  destruct (Z.eqb_spec maxN (minN + 1)) as [->|Hl]; simpl.
  - rewrite !bigUint64_small, HminH, HmaxH by lia. simpl. rewrite Hnum. simpl.
    destruct (nextNumber_Ok header k minN (minN + 1) (hTime maxH - hTime minH)) as [n Hn]; [lia|].
    rewrite Hn. simpl. apply nextNumber_last in Hn as ->. rewrite bigUint64_small, HminH by lia.
    rewrite (GetHeaderByNumber_number _ _ HminH). simpl. destruct fuel as [|fuel]; [lia|].
    destruct (narrow _ _ _ _ _) as [n m].
    destruct (covers_last fuel minN period minH maxH n m) as [H1 H2]; [lia|done|done|lia|].
    exists minH. split_and!; [exact H1| |done]. exists minN. split; [lia|done].
  - rewrite Hnum. simpl. destruct (nextNumber_Ok header k minN maxN period) as [n Hn]; [done|].
    rewrite Hn. simpl. apply nextNumber_inside in Hn; [|lia].
    destruct (Hknown n) as [h Hh]; [lia|]. rewrite bigUint64_small, Hh by lia.
    rewrite (GetHeaderByNumber_number _ _ Hh). simpl.
    pose proof (narrow_shrinks target (hTime h) n minN maxN Hn) as Hs. unfold narrow in *.
    destruct (Z.leb_spec target (hTime h)).
    + rewrite (proj2 (Z.ltb_lt n maxN)) in * by lia. apply IH; [by exists n; split; [lia|]|lia|lia|lia| |].
      * intros ? ?. by simplify_eq.
      * destruct (decide (hTime h = target)); [by right|left]. intros ? ?. simplify_eq. lia.
    + rewrite (proj2 (Z.ltb_lt minN n)) in * by lia. apply IH; [by exists n; split; [lia|]|lia|lia|lia| |by left].
      intros ? ?. simplify_eq. lia.
Qed.
End Found.
End Search.

Section Answers.
Context {RT : GoRuntime} {EN : Env} {CR : ChainReader}.
Variables (now : Z) (uncleHash : Hash) (sigcache : Hash -> option Address) (minVB : Z)
  (cacheAdd : gmap Z Snapshot -> Hash -> Snapshot -> gmap Z Snapshot).
Let byTime := GetSnapshotByHeaderTime now uncleHash sigcache minVB cacheAdd.

(** What is answered once the block [h] has been found. *)
Definition answerFor (a : Alien) (h : Header) (n : Z) (scHash : Hash) : ares (Alien * Snapshot) :=
  match snapshot now uncleHash sigcache minVB cacheAdd a n (Header_Hash h) [] [] defaultLoopCntRecalculateSigners with
  | Ok (a, snap) => Ok (a, scSnapshot snap scHash)
  | Hang => Hang
  | _ => Panic
  end.

(** C28. A main chain past its first loop, whose headers up to the current one are
    known, with a period that is not zero, answers a side chain: for every time
    from that of the block with number [MaxSignerCount] on, up to one period
    after the current block, the search ends and the answer is made from the
    snapshot of a block that covers that time: one no younger than it and less
    than a period older or, where the next block came late, one however much
    older whose next block is younger than that time. The times of the blocks
    need not increase. *)
Theorem GetSnapshotByHeaderTime_finds a current cur targetTime scHash loopH :
  GetHeaderByNumber cur = Some current -> 0 <= MaxSignerCount ChainConfig <= cur -> cur < 2 ^ 64 ->
  0 < Period ChainConfig -> known cur ->
  GetHeaderByNumber (MaxSignerCount ChainConfig) = Some loopH ->
  hTime loopH <= targetTime < hTime current + Period ChainConfig ->
  exists n h, 0 <= n <= cur /\ GetHeaderByNumber n = Some h /\ coversTime targetTime (Period ChainConfig) h /\
    byTime (Some current) a targetTime scHash = answerFor a h n scHash.
Proof.
  intros Hc HM Hcur Hp Hk Hl Ht. pose proof (GetHeaderByNumber_number _ _ Hc) as Hnum.
  assert (exists h, searchTime (Z.to_nat cur + 3) targetTime current (MaxSignerCount ChainConfig) cur
      (Period ChainConfig) false = Ok h /\ onChain cur h /\ coversTime targetTime (Period ChainConfig) h)
    as (h & Hs & (n & Hn & Hh) & Hcov).
  { destruct (Z.leb_spec (hTime current) targetTime) as [Hle|Hlt].
    - exists current. rewrite Nat.add_comm. cbn [searchTime Nat.add].
      rewrite (proj2 (Z.leb_le _ _) Hle), (proj2 (Z.ltb_lt targetTime _)) by lia.
      split_and!; [done|by exists cur; split; [lia|]|]. split; [done|left; lia].
    - apply searchTime_finds; try done; try lia.
      + exists cur. split; [lia|done].
      + intros h ?. simplify_eq. lia.
      + left. intros h ?. simplify_eq. lia. }
  exists n, h. split_and!; try done; try lia.
  unfold byTime, GetSnapshotByHeaderTime. cbn [get_or_panic mbind res_bind].
  rewrite (proj2 (Z.ltb_ge (hTime current + Period ChainConfig) targetTime)) by lia. rewrite Hnum.
  cbn [get_or_panic mbind res_bind]. rewrite Hs. cbn [mbind res_bind].
  rewrite (GetHeaderByNumber_number _ _ Hh). cbn [get_or_panic mbind res_bind].
  by rewrite bigUint64_small by lia.
Qed.

(** Whatever the times of the blocks are, the search of a chain that has
    completed its first loop ends. *)
Lemma GetSnapshotByHeaderTime_search_ends target current cur :
  hNumber current = Some cur -> 0 <= MaxSignerCount ChainConfig <= cur -> cur < 2 ^ 64 ->
  searchTime (Z.to_nat cur + 3) target current (MaxSignerCount ChainConfig) cur (Period ChainConfig) false <> Hang.
Proof. intros Hn HM Hc. apply searchTime_ends; lia. Qed.

(** C36. One block before the end of the first loop a query about an earlier time
    never returns: the range is empty, its middle is the current block, and no
    bound moves, however many rounds are made. *)
Theorem GetSnapshotByHeaderTime_hangs a current cur targetTime scHash :
  GetHeaderByNumber cur = Some current -> 0 <= cur < 2 ^ 64 -> MaxSignerCount ChainConfig = cur + 1 ->
  0 < Period ChainConfig -> targetTime < hTime current ->
  (forall fuel, searchTime fuel targetTime current (MaxSignerCount ChainConfig) cur (Period ChainConfig) false = Hang) /\
  byTime (Some current) a targetTime scHash = Hang.
Proof.
  intros Hc Hcur HM Hp Ht. pose proof (GetHeaderByNumber_number _ _ Hc) as Hnum.
  assert (forall fuel, searchTime fuel targetTime current (MaxSignerCount ChainConfig) cur (Period ChainConfig) false
    = Hang) as Hloop.
  { rewrite HM. intros fuel. induction fuel as [|fuel IH]; [done|]. cbn [searchTime].
    rewrite (proj2 (Z.leb_gt (hTime current) targetTime)) by done. simpl. unfold lastPeriod.
    rewrite (proj2 (Z.eqb_neq cur (cur + 1))), (proj2 (Z.eqb_neq cur (cur + 1 + 1))) by lia. simpl.
    rewrite Hnum. simpl. unfold nextNumber. rewrite (euclidDiv_pos _ (Period ChainConfig)) by done.
    cbn [mbind res_bind].
    assert ((cur + (cur + 1)) / 2 = cur) as Hmid.
    { replace (cur + (cur + 1)) with (1 + cur * 2) by lia. by rewrite Z.div_add by lia. }
    rewrite (euclidDiv_pos _ 2), Hmid by lia.
    set (q := (targetTime - hTime current) / Period ChainConfig).
    assert ((cur <=? q + cur) || (q + cur <=? cur + 1) = true) as ->.
    { apply orb_true_iff. rewrite !Z.leb_le. lia. }
    cbn [mbind res_bind]. rewrite bigUint64_small, Hc by lia. rewrite Hnum. simpl. unfold narrow.
    rewrite (proj2 (Z.leb_le targetTime (hTime current))), Z.ltb_irrefl by lia. exact IH. }
  split; [done|]. unfold byTime, GetSnapshotByHeaderTime. cbn [get_or_panic mbind res_bind].
  rewrite (proj2 (Z.ltb_ge _ _)) by lia. rewrite Hnum. cbn [get_or_panic mbind res_bind]. by rewrite Hloop.
Qed.
End Answers.

(** ** Main chain and side chain agree on the signer *)
Section CrossChain.
Context {RT : GoRuntime} {EN : Env} {main side : ChainReader}.

(** C29. The signer a side chain accepts at a time is the one whose turn it is
    on the main chain, under the coinbase it has set for that side chain: a
    side chain that asks its main chain authorises exactly that address. *)
Theorem side_chain_signer snap genesis x t :
  SideChain (@ChainConfig EN side) = true -> @GetHeaderByNumber EN side 0 = Some genesis ->
  sPeriod snap = Period (config snap) -> 0 < sPeriod snap -> glen (Signers snap) < 2 ^ 63 -> Signers snap <> [] ->
  0 <= LoopStartTime snap <= t -> t < 2 ^ 63 ->
  let scHash := hParentHash genesis in
  let answer := Some (fun (_ : Z) (_ : Hash) => Ok (@scSnapshot EN main snap scHash)) in
  (exists r, @mcSnapshot EN side (@getMainChainSnapshotByTime EN side answer) x t = Ok r) <->
  (exists signer, inturn snap signer t = Ok true /\ x = scSigner snap scHash signer).
Proof.
  intros Hsc Hg Hper Hp Hlen Hne Ht Ht' scHash answer.
  unfold mcSnapshot. rewrite Hsc, Hg. cbn [get_or_panic mbind res_bind]. fold scHash.
  unfold getMainChainSnapshotByTime, mainChainCall. rewrite Hsc. simpl.
  rewrite (proj2 (Z.eqb_neq (sPeriod snap) 0)) by lia. simpl.
  unfold inturn, glen in *. rewrite length_map.
  assert (0 < length (Signers snap))%nat as Hpos by (destruct (Signers snap); [done|simpl; lia]).
  rewrite (proj2 (Z.eqb_neq (Z.of_nat (length (Signers snap))) 0)), (proj2 (Z.ltb_lt 0 _)) by lia.
  rewrite <- Hper. unfold udiv. rewrite decide_False by lia. cbn [mbind res_bind].
  rewrite u64_small by (unfold is_u64; lia). set (slot := (t - LoopStartTime snap) / sPeriod snap).
  assert (0 <= slot < 2 ^ 63) as Hslot.
  { split; [apply Z.div_pos; lia|]. apply Z.div_lt_upper_bound; [done|]. apply Z.lt_le_trans with (1 * 2 ^ 63); [lia|]. apply Z.mul_le_mono_nonneg_r; lia. }
  rewrite i64_small, Z.rem_mod_nonneg by lia. set (i := slot mod _).
  assert (0 <= i < Z.of_nat (length (Signers snap))) as Hi by (apply Z.mod_pos_bound; lia).
  rewrite (proj2 (Z.leb_gt _ _)) by lia.
  destruct (lookup_lt_is_Some_2 (Signers snap) (Z.to_nat i)) as [y Hy]; [lia|].
  rewrite (gindex_in (Signers snap) i y) by (done || lia).
  rewrite (gindex_in (map _ _) i (scSigner snap scHash y)) by (lia || by rewrite list_lookup_fmap, Hy).
  cbn [mbind res_bind]. rewrite (proj2 (Z.eqb_neq (sPeriod snap) 0)) by lia.
  destruct (Z.eqb_spec (scSigner snap scHash y) x) as [<-|Hx]; simpl; split.
  - intros _. exists y. by rewrite Z.eqb_refl.
  - intros _. by eexists.
  - by intros [r Hr].
  - intros (signer & [= ->%Z.eqb_eq] & ->). done.
Qed.
End CrossChain.
