(* ===== verification/AlienSeal.v ===== *)
(** * Sealing

    Models what a node that produces blocks adds to the engine of
    [consensus/alien/alien.go]: [Authorize], [Prepare], [CalcDifficulty],
    [mcConfirmBlock] and [Seal]; and proves that what an honest node finalizes
    and seals is accepted by other nodes with the same snapshot. *)
From S2P Require Import Prelude AlienTypes AlienVotes AlienProposal AlienQueue GoText Hexutil AlienSideChain AlienApply AlienReward AlienTx AlienEngine AlienAPI.

Definition scUnconfirmLoop : Z := 3.
(** The transaction a side chain sends to its main chain: its nonce, its
    recipient and its data; the value, gas limit and gas price are constants. *)
Record McTx := mkMcTx { mcNonce : Z; mcTo : Address; mcData : bytes }.

(** A node that may seal: the engine, the account that signs with the functions
    [Authorize] injected, and what it knows of its main chain. *)
Record Node {Signed : Type} := mkNode {
  engine : Alien; signer : Address; signFn : Hash -> option bytes; signTxFn : McTx -> Z -> option Signed;
  lcsc : Z; mcNetVersion : Z
}.
Arguments Node : clear implicits.
#[export] Instance Node_eta {Signed} : Settable (Node Signed) := fun n =>
  mkNode Signed (engine n) (signer n) (signFn n) (signTxFn n) (lcsc n) (mcNetVersion n).

Definition Authorize {Signed} (s : Address) (sf : Hash -> option bytes) (tf : McTx -> Z -> option Signed)
    (n : Node Signed) : Node Signed :=
  n <| signer := s |> <| signFn := sf |> <| signTxFn := tf |>.
(** [Prepare] only sets the difficulty; before the time of the genesis block it
    also waits. *)
Definition Prepare (header : Header) : Header := header <| hDifficulty := defaultDifficulty |>.
Definition CalcDifficulty : Z := defaultDifficulty.

Section Sealing.
Context {RT : GoRuntime} {EN : Env} {CR : ChainReader} {Signed : Type}.
Variables (now : Z) (uncleHash : Hash) (sigcache : Hash -> option Address) (minVB : Z)
  (cacheAdd : gmap Z Snapshot -> Hash -> Snapshot -> gmap Z Snapshot)
  (mainSnapshot : option (Z -> Hash -> ares Snapshot)) (mainNonce : option (Address -> ares Z))
  (mainVersion : option (ares bytes)) (mainSend : option (option Signed -> ares Hash)).
Implicit Types n : Node Signed.

(** [mcConfirmBlock]: the node after it, and the transaction handed to the main
    chain when one was. A failed query of the net version leaves it at zero;
    a transaction that could not be signed is sent as nil. *)
Definition mcConfirmBlock (n : Node Signed) (header : Header) (notice : CCNotice) :
    ares (Node Signed * option (option Signed)) :=
  if signer n =? 0 then Ok (n, None) else
  hn ← get_or_panic (hNumber header);
  let number := bigUint64 hn in
  if negb ((lcsc n <? number) && (MaxSignerCount (aConfig (engine n)) *u scUnconfirmLoop <? number)) then Ok (n, None)
  else
    match getTransactionCountFromMainChain mainNonce (signer n) with
    | Ok nonce =>
        match getLastLoopInfo (engine n) header with
        | Ok lastLoopInfo =>
            genesis ← get_or_panic (GetHeaderByNumber 0);
            let data := buildSCEventConfirmData (hParentHash genesis) hn (hTime header) lastLoopInfo
                          (parseNoticeInfo notice) in
            let tx := mkMcTx nonce (hCoinbase header) data in
            version ← (if mcNetVersion n =? 0
                       then match getNetVersionFromMainChain mainVersion with
                            | Ok v => Ok v | Err _ => Ok 0 | Panic => Panic | Hang => Hang end
                       else Ok (mcNetVersion n));
            let n := n <| mcNetVersion := version |> in
            let signedTx := signTxFn n tx (i64 version) in
            match sendTransactionToMainChain mainSend signedTx with
            | Ok _ => Ok (n <| lcsc := number |>, Some signedTx)
            | Err _ => Ok (n, Some signedTx)
            | Panic => Panic
            | Hang => Hang
            end
        | Err _ => Ok (n, None)
        | Panic => Panic
        | Hang => Hang
        end
    | Err _ => Ok (n, None)
    | Panic => Panic
    | Hang => Hang
    end.

(** [copy(header.Extra[len(header.Extra)-extraSeal:], sighash)]. *)
Definition writeSeal (header : Header) (sighash : bytes) : Header :=
  let e := hExtra header in
  let k := (length e - Z.to_nat extraSeal)%nat in
  header <| hExtra := take k e ++ take (Z.to_nat extraSeal) sighash
                        ++ drop (k + length (take (Z.to_nat extraSeal) sighash)) e |>.

(** The preparation of a header for its seal: on the main chain the signer must
    be in turn, on a side chain the main chain says whether it is. *)
Definition beforeSeal (n : Node Signed) (snap : Snapshot) (header : Header) : ares (Node Signed * Header) :=
  if negb (SideChain ChainConfig) then
    turn ← inturn snap (signer n) (bigUint64 (hTime header));
    if (turn : bool) then Ok (n, header) else Err errUnauthorized
  else
    '(notice, loopStartTime, period, signerLength) ←
      mcSnapshot (getMainChainSnapshotByTime mainSnapshot) (signer n) (bigUint64 (hTime header));
    let n := n <| engine ::= fun a => a <| mcLoopStartTime := loopStartTime |> <| mcPeriod := period |>
                                        <| mcSignerLength := signerLength |> |> in
    header ← chargeHeader header notice;
    '(n, _) ← mcConfirmBlock n header notice;
    Ok (n, header).

(** [Seal] of a block with [txs] transactions. A signer that is not in turn waits
    for [stop] and then fails. [stopped] tells which came first while waiting
    for the time of the block: [stop], then there is no block, or the time. *)
Definition Seal (n : Node Signed) (header : Header) (txs : Z) (stopped : bool) :
    ares (Node Signed * option Header) :=
  hn ← get_or_panic (hNumber header);
  let number := bigUint64 hn in
  if number =? 0 then Err errUnknownBlock
  else if (Period (aConfig (engine n)) =? 0) && (txs =? 0) then Err errWaitTransactions
  else
    '(a, snap) ← snapshot now uncleHash sigcache minVB cacheAdd (engine n) (number -u 1) (hParentHash header) [] []
                   defaultLoopCntRecalculateSigners;
    '(n, header) ← beforeSeal (n <| engine := a |>) snap header;
    if stopped then Ok (n, None)
    else
      hash ← sigHash header;
      match signFn n hash with
      | None => Err errSignature
      | Some sighash => Ok (n, Some (writeSeal header sighash))
      end.
End Sealing.

(** ** The seal *)
Section Signature.
Context {EN : Env} {Signed : Type}.

(** What a signing function must do: sign with 65 bytes from which the key of
    the account is recovered. *)
Definition signs (n : Node Signed) : Prop := forall hash sig, signFn n hash = Some sig ->
  glen sig = extraSeal /\ exists pub, Ecrecover hash sig = Some pub /\ 1 <= glen pub /\
    12 <= glen (Keccak256 (drop 1 pub)) /\ be (take 20 (drop 12 (Keccak256 (drop 1 pub)))) = signer n.

Lemma writeSeal_extra header sig :
  extraSeal <= glen (hExtra header) -> glen sig = extraSeal ->
  hExtra (writeSeal header sig) = take (length (hExtra header) - 65) (hExtra header) ++ sig.
Proof.
  unfold writeSeal, glen, extraSeal. intros He Hs. simpl. rewrite (take_ge sig) by (change (Z.to_nat 65) with 65%nat; lia).
  rewrite drop_ge, app_nil_r by (change (Z.to_nat 65) with 65%nat; lia). done.
Qed.

Lemma sigHash_eq header : extraSeal <= glen (hExtra header) ->
  sigHash header = Ok (fieldsHash (header <| hExtra := take (length (hExtra header) - 65) (hExtra header) |>)).
Proof.
  unfold sigHash, glen, extraSeal. intros He. rewrite gslice_in by (unfold glen; lia). cbn [mbind res_bind].
  rewrite drop_0. by replace (Z.to_nat (Z.of_nat (length (hExtra header)) - 65 - 0)) with (length (hExtra header) - 65)%nat by lia.
Qed.

Lemma sigHash_writeSeal header sig :
  extraSeal <= glen (hExtra header) -> glen sig = extraSeal -> sigHash (writeSeal header sig) = sigHash header.
Proof.
  intros He Hs. pose proof (writeSeal_extra header sig He Hs) as Hx. rewrite !sigHash_eq; [|done|].
  - rewrite Hx. unfold glen, extraSeal in *. rewrite length_app, length_take.
    replace (_ - 65)%nat with (length (take (length (hExtra header) - 65) (hExtra header))) by (rewrite length_take; lia).
    by rewrite take_app_length.
  - rewrite Hx. unfold glen, extraSeal in *. rewrite length_app. lia.
Qed.

Lemma sigHash_long header hash : sigHash header = Ok hash -> extraSeal <= glen (hExtra header).
Proof.
  unfold sigHash, gslice. intros (e & He & _)%bind_Ok_inv. case_decide; [|done]. unfold extraSeal. lia.
Qed.

Lemma ecrecover_writeSeal sigcache n header hash sig :
  signs n -> sigHash header = Ok hash -> signFn n hash = Some sig ->
  sigcache (Header_Hash (writeSeal header sig)) = None ->
  ecrecover sigcache (writeSeal header sig) = Ok (signer n).
Proof.
  intros Hsign Hh Hs Hc. apply Hsign in Hs as (Hl & pub & Hrec & Hp & Hk & Ha).
  pose proof (sigHash_long _ _ Hh) as Hlong. pose proof (writeSeal_extra header sig Hlong Hl) as Hx.
  unfold ecrecover. rewrite Hc, sigHash_writeSeal, Hh by done.
  unfold glen, extraSeal in *. rewrite Hx, length_app, length_take.
  rewrite (proj2 (Z.ltb_ge _ _)) by lia. rewrite gslice_in by (unfold glen; rewrite ?length_app, ?length_take; lia).
  cbn [mbind res_bind].
  rewrite drop_app_length' by (rewrite length_take; lia). rewrite take_ge, Hrec by lia.
  rewrite gslice_in by (unfold glen; lia). cbn [mbind res_bind].
  rewrite (take_ge (drop (Z.to_nat 1) pub)) by (rewrite length_drop; lia).
  change (Z.to_nat 1) with 1%nat. rewrite gslice_in by (unfold glen; lia). cbn [mbind res_bind].
  rewrite (take_ge (drop (Z.to_nat 12) _)) by (rewrite length_drop; lia). change (Z.to_nat 12) with 12%nat.
  by rewrite Ha.
Qed.
End Signature.

Lemma writeSeal_set header sig :
  extraSeal <= glen (hExtra header) -> glen sig = extraSeal ->
  writeSeal header sig = header <| hExtra ::= fun e => take (length e - 65) e ++ sig |>.
Proof.
  intros He Hs. pose proof (writeSeal_extra header sig He Hs) as Hx. unfold writeSeal in *. simpl in Hx.
  by rewrite Hx.
Qed.

(** The checks of a loop depend on the rules of the configuration only. *)
Lemma verifyLoop_rules {RT : GoRuntime} {EN : Env} {CR : ChainReader} a a' snap number bn signer header parents :
  rules a = rules a' ->
  verifyLoop (aConfig a) snap number bn signer header parents = verifyLoop (aConfig a') snap number bn signer header parents.
Proof. intros [= H1 H2]. unfold verifyLoop, checkQueue, expectedMissing, missingSigners, IsTrantor. by rewrite H1, H2. Qed.

Section Honest.
Context {RT : GoRuntime} {EN : Env} {CR : ChainReader} {Signed St : Type} {BS : Balances St}.
Variables (now : Z) (uncleHash : Hash) (sigcache : Hash -> option Address) (minVB : Z)
  (cacheAdd : gmap Z Snapshot -> Hash -> Snapshot -> gmap Z Snapshot)
  (mainSnapshot : option (Z -> Hash -> ares Snapshot)) (mainNonce : option (Address -> ares Z))
  (mainVersion : option (ares bytes)) (mainSend : option (option Signed -> ares Hash))
  (IntermediateRoot : St -> Hash).
Let snap_of a number hash := snapshot now uncleHash sigcache minVB cacheAdd a number hash [] []
  defaultLoopCntRecalculateSigners.
Let finalize := Finalize now uncleHash sigcache minVB cacheAdd IntermediateRoot.
Let sealOf := Seal now uncleHash sigcache minVB cacheAdd mainSnapshot mainNonce mainVersion mainSend.

(** What [Seal] does on the main chain: it signs the header it was given, for a
    signer whose turn it is. *)
Lemma Seal_main n header cnt n' sealed bn :
  SideChain ChainConfig = false -> hNumber header = Some bn -> sealOf n header cnt false = Ok (n', Some sealed) ->
  exists a snap hash sig, bigUint64 bn <> 0 /\
    snap_of (engine n) (bigUint64 bn -u 1) (hParentHash header) = Ok (a, snap) /\
    inturn snap (signer n) (bigUint64 (hTime header)) = Ok true /\
    sigHash header = Ok hash /\ signFn n hash = Some sig /\ sealed = writeSeal header sig.
Proof.
  intros Hsc Hn. unfold sealOf, Seal. rewrite Hn. cbn [get_or_panic mbind res_bind].
  destruct (Z.eqb_spec (bigUint64 bn) 0); [done|]. destruct (_ && _); [done|].
  intros ([a snap] & Hsnap & H)%bind_Ok_inv. apply bind_Ok_inv in H as ([n1 h1] & Hb & H).
  unfold beforeSeal in Hb. rewrite Hsc in Hb. cbn [negb] in Hb.
  apply bind_Ok_inv in Hb as (turn & Hturn & Hb). destruct turn; [|done]. injection Hb as <- <-.
  apply bind_Ok_inv in H as (hash & Hh & H). simpl in H. destruct (signFn n hash) as [sig|] eqn:Es; [|done].
  injection H as <- <-. by exists a, snap, hash, sig.
Qed.

(** The node that verifies: its own run time (order of maps, sort), clock,
    signature cache, cache of snapshots and connection to a main chain, over the
    same chain of headers. *)
Variables (R2 : GoRuntime) (now2 : Z) (sigcache2 : Hash -> option Address)
  (cacheAdd2 : gmap Z Snapshot -> Hash -> Snapshot -> gmap Z Snapshot)
  (mainSnapshot2 : option (Z -> Hash -> ares Snapshot)).
Let snap_of2 a number hash := snapshot (RT := R2) now2 uncleHash sigcache2 minVB cacheAdd2 a number hash [] []
  defaultLoopCntRecalculateSigners.
Let verify2 := verifySeal (RT := R2) now2 uncleHash sigcache2 minVB cacheAdd2
  (getMainChainSnapshotByTime mainSnapshot2).

(** C3. What an honest node produces is accepted: a block of the main chain past
    the first one, of which the parent carries a full queue of at least three
    signers, that [Finalize] fills in and [Seal] signs for the coinbase passes
    [verifySeal] on every node with the same chain, rules and snapshot of the
    parent, whatever its order of maps, sort, clock and caches, if that node has
    no signer cached for the new hash and, when the block starts a loop, the
    draw is outside the levels and from different block hashes; only a block
    that follows too soon on one of the same signer can still be refused. RLP
    is assumed to read back what it writes, and the signing function to sign
    for the account. *)
Theorem honest_block_accepted n header (state : St) txs receipts a1 h state' bn parent pe cnt n' sealed snap ap av av' :
  rlp_inverse -> signs n ->
  SideChain ChainConfig = false -> hNumber header = Some bn -> 1 < bigUint64 bn ->
  2 < MaxSignerCount (aConfig (engine n)) < 2 ^ 63 ->
  GetHeader (hParentHash header) (bigUint64 bn -u 1) = Some parent -> headerExtra parent = Ok pe ->
  glen (SignerQueue pe) = MaxSignerCount (aConfig (engine n)) -> hCoinbase header = signer n ->
  finalize (engine n) header state txs receipts = Ok (a1, h, state') ->
  sealOf n h cnt false = Ok (n', Some sealed) -> sigcache2 (Header_Hash sealed) = None ->
  snap_of (engine n) (bigUint64 bn -u 1) (hParentHash header) = Ok (ap, snap) ->
  snap_of2 av (bigUint64 bn -u 1) (hParentHash header) = Ok (av', snap) -> rules av = rules (engine n) ->
  MaxSignerCount (config snap) = MaxSignerCount (aConfig (engine n)) ->
  (bigUint64 bn mod MaxSignerCount (aConfig (engine n)) = 0 -> NoDup (HistoryHash snap) /\ ~ officialDraw snap) ->
  verify2 av sealed [] = Ok av' \/ verify2 av sealed [] = Err errInvalidNeighborSigner.
Proof.
  intros Hcodec Hsigns Hsc Hn Hgt HM Hp Hpe Hlen Hcb HF HS Hcache Hprod Hval Hrules HMs Hdraw.
  destruct (Finalize_extra (RT := RT) now uncleHash sigcache minVB cacheAdd IntermediateRoot (engine n) header state txs receipts
    a1 h state' bn parent pe) as (x & enc & snap1 & missing & Hsnap1 & _ & Hex & Hph & Hcb' & Hnum & _ & _ & _); [done..|lia|done|done|lia|done|].
  destruct (Seal_main n h cnt n' sealed bn) as (a2 & snap2 & hash & sig & Hnz & Hsnap2 & Hturn & Hhash & Hsig & ->);
    [done..|].
  unfold snap_of, snap_of2 in *. rewrite Hph, Hprod in Hsnap2. injection Hsnap2 as <- <-.
  pose proof (sigHash_long _ _ Hhash) as Hlong. destruct (Hsigns _ _ Hsig) as [Hsl _].
  assert (ecrecover sigcache2 (writeSeal h sig) = Ok (signer n)) as Hrec by by eapply ecrecover_writeSeal.
  destruct (Finalize_verifies (RT := RT) now uncleHash sigcache minVB cacheAdd IntermediateRoot (engine n) header state txs receipts
    a1 h state' bn parent pe sig (signer n)) as (snap3 & Hsnap3 & Hloop); [done..|].
  rewrite Hprod in Hsnap3. injection Hsnap3 as <- <-. specialize (Hloop HMs R2). simpl in Hloop.
  specialize (Hloop ltac:(intros E; apply createSignerQueue_runtime; [unfold is_u64; lia|apply Hdraw, E|apply Hdraw, E])).
  rewrite <- (writeSeal_set h sig Hlong Hsl) in Hloop.
  unfold verify2, verifySeal. change (hNumber (writeSeal h sig)) with (hNumber h).
  change (hParentHash (writeSeal h sig)) with (hParentHash h). change (hCoinbase (writeSeal h sig)) with (hCoinbase h).
  change (hTime (writeSeal h sig)) with (hTime h).
  rewrite Hnum, Hph. cbn [get_or_panic mbind res_bind]. rewrite (proj2 (Z.eqb_neq _ 0) Hnz), Hval. cbn [mbind res_bind].
  rewrite Hrec. cbn [mbind res_bind]. rewrite Hcb', Hcb, Z.eqb_refl, andb_false_r, Hsc. cbn [negb].
  rewrite Hturn. cbn [mbind res_bind].
  rewrite (verifyLoop_rules av' ap); [|transitivity (rules av); [by eapply snapshot_rules|]; rewrite Hrules; symmetry;
    by eapply (snapshot_rules (RT := RT))].
  destruct (_ <? _); [|by left]. destruct Hloop as [-> | ->]; [by left|by right].
Qed.
End Honest.
