(* ===== verification/Examples.v ===== *)
(** * Concrete instances

    Executable instances of the interfaces the development is parametrised by:
    a codec of the extra data that is the inverse of the encoding of finite
    types, a signature scheme whose signature carries the address, a chain of
    six blocks of three signers, and the account state as the ledger the
    engine pays into. They show that the hypotheses of the theorems can hold
    together, and let the definitions be evaluated. *)
From S2P Require Import Prelude AlienTypes AlienVotes AlienProposal AlienQueue GoText Hexutil AlienSideChain AlienApply AlienReward AlienTx AlienEngine AlienAPI AlienSeal.
From S2P Require StateDB.

(** ** The account state implements [Balances] *)
#[export] Instance toyDatabase : StateDB.Database := {|
  StateDB.emptyCodeHash := 1; StateDB.Keccak256Hash := fun _ => 2; StateDB.ContractCode := fun _ => [];
  StateDB.openStorage := fun _ => ∅; StateDB.storageRoot := fun _ => 0 |}.
#[export] Instance StateDB_Balances {RT : GoRuntime} {DB : StateDB.Database} : Balances StateDB.StateDB := {|
  GetBalance := StateDB.StateDB_GetBalance;
  AddBalance := StateDB.StateDB_AddBalance;
  SubBalance := StateDB.StateDB_SubBalance;
  SetBalance := StateDB.StateDB_SetBalance;
  GetBalance_Add := StateDB.StateDB_GetBalance_Add;
  GetBalance_Sub := StateDB.StateDB_GetBalance_Sub;
  GetBalance_Set := StateDB.StateDB_GetBalance_Set |}.

(** ** A codec for the extra data *)
#[export] Instance Vote_eq_dec : EqDecision Vote.
Proof. solve_decision. Defined.
#[export] Instance Vote_countable : Countable Vote.
Proof. refine (inj_countable' (fun v => (Voter v, Candidate v, Stake v)) (fun '(a, b, c) => mkVote a b c) _). by intros []. Defined.
#[export] Instance Confirmation_eq_dec : EqDecision Confirmation.
Proof. solve_decision. Defined.
#[export] Instance Confirmation_countable : Countable Confirmation.
Proof. refine (inj_countable' (fun v => (Signer v, BlockNumber v)) (fun '(a, b) => mkConfirmation a b) _). by intros []. Defined.
#[export] Instance Declare_eq_dec : EqDecision Declare_.
Proof. solve_decision. Defined.
#[export] Instance Declare_countable : Countable Declare_.
Proof. refine (inj_countable' (fun v => (ProposalHash v, Declarer v, Decision v)) (fun '(a, b, c) => mkDeclare a b c) _). by intros []. Defined.
#[export] Instance Proposal_eq_dec : EqDecision Proposal.
Proof. solve_decision. Defined.
#[export] Instance Proposal_countable : Countable Proposal.
Proof.
  refine (inj_countable' (fun p => ((pHash p, ReceivedNumber p, CurrentDeposit p, ValidationLoopCnt p, ProposalType p,
      Proposer p, TargetAddress p, MinerRewardPerThousand p, SCHash p),
      (SCBlockCountPerPeriod p, SCBlockRewardPerPeriod p, Declares p, pMinVoterBalance p, ProposalDeposit p,
       SCRentFee p, SCRentRate p, SCRentLength p)))
    (fun '((a, b, c, d, e, f, g, h, i), (j, k, l, m, n, o, p, q)) => mkProposal a b c d e f g h i j k l m n o p q) _).
  by intros [].
Defined.
#[export] Instance SCConfirmation_eq_dec : EqDecision SCConfirmation.
Proof. solve_decision. Defined.
#[export] Instance SCConfirmation_countable : Countable SCConfirmation.
Proof.
  refine (inj_countable' (fun v => (scHash v, scCoinbase v, scNumber v, LoopInfo v))
    (fun '(a, b, c, d) => mkSCConfirmation a b c d) _). by intros [].
Defined.
#[export] Instance SCSetCoinbase_eq_dec : EqDecision SCSetCoinbase.
Proof. solve_decision. Defined.
#[export] Instance SCSetCoinbase_countable : Countable SCSetCoinbase.
Proof. refine (inj_countable' (fun v => (sscHash v, sscSigner v, sscCoinbase v)) (fun '(a, b, c) => mkSCSetCoinbase a b c) _). by intros []. Defined.
#[export] Instance GasCharging_eq_dec : EqDecision GasCharging.
Proof. solve_decision. Defined.
#[export] Instance GasCharging_countable : Countable GasCharging.
Proof. refine (inj_countable' (fun v => (Target v, Volume v, gcHash v)) (fun '(a, b, c) => mkGasCharging a b c) _). by intros []. Defined.
#[export] Instance HeaderExtra_eq_dec : EqDecision HeaderExtra.
Proof. solve_decision. Defined.
#[export] Instance HeaderExtra_countable : Countable HeaderExtra.
Proof.
  refine (inj_countable' (fun e => ((CurrentBlockConfirmations e, CurrentBlockVotes e, CurrentBlockProposals e,
      CurrentBlockDeclares e, ModifyPredecessorVotes e, eLoopStartTime e),
      (SignerQueue e, SignerMissing e, ConfirmedBlockNumber e, SideChainConfirmations e, SideChainSetCoinbases e,
       SideChainNoticeConfirmed e, SideChainCharging e)))
    (fun '((a, b, c, d, e, f), (g, h, i, j, k, l, m)) => mkHeaderExtra a b c d e f g h i j k l m) _).
  by intros [].
Defined.

Definition encodeExtra (e : HeaderExtra) : bytes := [Zpos (encode e)].
Definition decodeExtra (b : bytes) : option HeaderExtra :=
  match b with [Zpos p] => decode p | _ => None end.
Lemma decode_encodeExtra e : decodeExtra (encodeExtra e) = Some e.
Proof. apply decode_encode. Qed.

(** The encoder refuses negative stakes, as RLP does. *)
Definition encodeValid (e : HeaderExtra) : option bytes :=
  if decide (valid_votes (CurrentBlockVotes e) /\ valid_votes (ModifyPredecessorVotes e))
  then Some (encodeExtra e) else None.

(** The hash of a header is its number, a signature starts with the address. *)
Definition exactEnv : Env := {|
  Header_Hash := fun h => default 0 (hNumber h);
  fieldsHash := fun _ => 7;
  Ecrecover := fun _ sig => Some (0 :: take 20 sig);
  Keccak256 := fun b => replicate 12 0 ++ b;
  rlpDecodeExtra := decodeExtra;
  rlpEncodeExtra := encodeValid |}.
(** The same, refusing negative stakes as RLP does. *)
Definition decodeUnsigned (b : bytes) : option HeaderExtra :=
  match decodeExtra b with
  | Some e => if decide (valid_votes (CurrentBlockVotes e) /\ valid_votes (ModifyPredecessorVotes e))
              then Some e else None
  | None => None
  end.
Definition unsignedEnv : Env := {|
  Header_Hash := fun h => default 0 (hNumber h);
  fieldsHash := fun _ => 7;
  Ecrecover := fun _ sig => Some (0 :: take 20 sig);
  Keccak256 := fun b => replicate 12 0 ++ b;
  rlpDecodeExtra := decodeUnsigned;
  rlpEncodeExtra := encodeValid |}.
Lemma exactEnv_inverse : rlp_inverse (EN := exactEnv).
Proof. intros x b. simpl. unfold encodeValid. case_decide; [|done]. intros [= <-]. apply decode_encodeExtra. Qed.
Lemma unsignedEnv_unsigned : rlp_unsigned unsignedEnv.
Proof. intros b e. simpl. unfold decodeUnsigned. destruct (decodeExtra b); [|done]. case_decide; [|done]. by intros [= <-]. Qed.

(** ** A chain of three signers *)
Definition exConfig : AlienConfig := mkAlienConfig 3 201600 3 (Some minVoterBalance) 0 [11; 12; 13] false None.
Definition exSide : AlienConfig := exConfig <| SideChain := true |>.
Definition exVotes : list Vote := [mkVote 11 11 1000; mkVote 12 12 900; mkVote 13 13 800].
Definition exExtra (votes : list Vote) : HeaderExtra :=
  emptyHeaderExtra <| SignerQueue := [11; 12; 13] |> <| CurrentBlockVotes := votes |>.
(** The signature of an address. *)
Definition exSig (a : Address) : bytes := beBytes 20 a ++ replicate 45 0.
Definition exSigner (n : Z) : Address := 11 + n mod 3.
Definition exHeader (n : Z) : Header :=
  mkHeader (n - 1) 99 (exSigner n) 0 0 0 0 1 (Some n) 0 0 (3 * n)
    (replicate 32 0 ++ encodeExtra (exExtra (if n =? 1 then [mkVote 21 12 500] else [])) ++ exSig (exSigner n)) 0 0.
Definition exLength : Z := 6.
Definition exByNumber (n : Z) : option Header := if (0 <=? n) && (n <=? exLength) then Some (exHeader n) else None.
Definition exGet (hash n : Z) : option Header := if hash =? n then exByNumber n else None.
Lemma exByNumber_number n h : exByNumber n = Some h -> hNumber h = Some n.
Proof. unfold exByNumber. destruct (_ && _); [|done]. by intros [= <-]. Qed.
Lemma exGet_hash hash n h : exGet hash n = Some h -> default 0 (hNumber h) = hash /\ hNumber h = Some n.
Proof.
  unfold exGet. destruct (Z.eqb_spec hash n) as [->|]; [|done]. intros H%exByNumber_number. by rewrite H.
Qed.
Definition exactChain : @ChainReader exactEnv :=
  @Build_ChainReader exactEnv exGet exByNumber exConfig exByNumber_number exGet_hash.
Definition unsignedChain : @ChainReader unsignedEnv :=
  @Build_ChainReader unsignedEnv exGet exByNumber exConfig exByNumber_number exGet_hash.
Definition sideChain : @ChainReader exactEnv :=
  @Build_ChainReader exactEnv exGet exByNumber exSide exByNumber_number exGet_hash.

(** The snapshot of the genesis block, an empty engine and a cache that keeps
    everything. *)
Definition exGenesis : Snapshot := newSnapshot exConfig 0 0 exVotes defaultLoopCntRecalculateSigners.
Definition exEngine : Alien := mkAlien exConfig {[0 := exGenesis]} ∅ 0 0 0.
Definition keepAll (m : gmap Z Snapshot) (h : Hash) (s : Snapshot) : gmap Z Snapshot := <[h := s]> m.
Lemma keepAll_forgets : cache_forgets keepAll.
Proof. intros m h s k v. unfold keepAll. rewrite lookup_insert_Some. intros [[<- <-]|[_ ?]]; auto. Qed.
Definition noCache (h : Hash) : option Address := None.
Lemma exGenesis_inv : snapshot_inv exGenesis.
Proof.
  apply newSnapshot_inv; [simpl; lia|repeat constructor; simpl; lia|].
  apply (bool_decide_unpack (NoDup [11; 12; 13])). reflexivity.
Qed.
