(* ===== verification/Witnesses.v ===== *)
(** * The hypotheses can hold

    For every theorem with hypotheses, the theorem applied at a concrete input
    (the chain, the accounts and the snapshots of [Examples]) where they hold. *)
From S2P Require Import Prelude AlienTypes AlienVotes AlienProposal AlienQueue GoText Hexutil AlienSideChain AlienApply AlienReward AlienTx AlienEngine AlienAPI AlienSeal Examples.
From S2P Require StateDB.

Definition valueOf {E A} (d : A) (r : res E A) : A := match r with Ok a => a | _ => d end.
Ltac run := vm_compute; reflexivity.

(** ** The state machine of snapshots *)
Definition exApplied : Snapshot :=
  valueOf exGenesis (apply (RT := reference_runtime) (EN := unsignedEnv) 0 noCache [exHeader 1; exHeader 2] exGenesis).
Lemma exApplied_run :
  apply (RT := reference_runtime) (EN := unsignedEnv) 0 noCache [exHeader 1; exHeader 2] exGenesis = Ok exApplied.
Proof. run. Qed.

Lemma apply_preserves_inv_witness : snapshot_inv exApplied /\ Number exApplied = 2.
Proof.
  destruct (apply_preserves_inv (RT := reference_runtime) (EN := unsignedEnv) 0 noCache [exHeader 1; exHeader 2]
    exGenesis exApplied unsignedEnv_unsigned exGenesis_inv) as (H & _ & _ & Hn & _);
    [discriminate|run|exact exApplied_run|].
  split; [exact H|exact Hn].
Defined.

Lemma apply_never_miscounts_witness :
  errs (fun e => e = errInvalidVotingChain \/ headerFault e)
    (apply (RT := reference_runtime) (EN := unsignedEnv) 0 noCache [exHeader 1] exGenesis).
Proof.
  exact (apply_never_miscounts (RT := reference_runtime) (EN := unsignedEnv) 0 noCache [exHeader 1] exGenesis
    unsignedEnv_unsigned exGenesis_inv).
Defined.

Lemma reachable_inv_witness : snapshot_inv exApplied /\ config exApplied = exConfig.
Proof.
  apply (reachable_inv (RT := reference_runtime) (EN := unsignedEnv) 0 noCache exConfig exApplied);
    [exact unsignedEnv_unsigned|simpl; lia|].
  apply (reachable_apply 0 noCache exConfig [exHeader 1; exHeader 2] exGenesis); [|run|exact exApplied_run].
  apply reachable_genesis; [repeat constructor; simpl; lia|].
  apply (bool_decide_unpack (NoDup [11; 12; 13])). reflexivity.
Defined.

Lemma apply_contiguous_witness :
  apply (RT := reference_runtime) (EN := unsignedEnv) 0 noCache [exHeader 1; exHeader 3] exGenesis =
  Err errInvalidVotingChain.
Proof.
  apply (apply_contiguous (RT := reference_runtime) (EN := unsignedEnv) 0 noCache [exHeader 1; exHeader 3] exGenesis);
    [exact unsignedEnv_unsigned|discriminate|repeat constructor; by eexists|].
  intros H. specialize (H 1%nat _ eq_refl). vm_compute in H. discriminate.
Defined.

(** ** The engine *)
Definition exVerify (n : Z) : ares Alien :=
  verifyHeader (RT := reference_runtime) (EN := exactEnv) (CR := exactChain) 1000 99 noCache 0 keepAll
    (fun _ _ => Err errNotSideChain) exEngine (exHeader n) [].
Lemma verifyHeader_sound_witness : exists bigNumber, hNumber (exHeader 5) = Some bigNumber /\ hTime (exHeader 5) <= 1000.
Proof.
  destruct (verifyHeader_sound (RT := reference_runtime) (EN := exactEnv) (CR := exactChain) 1000 99 noCache 0 keepAll
    (fun _ _ => Err errNotSideChain) exEngine (exHeader 5) [] (valueOf exEngine (exVerify 5)) eq_refl ltac:(run))
    as (bn & Hn & Ht & _).
  exists bn. split; [exact Hn|exact Ht].
Defined.

Lemma exEngine_inv : engine_inv exEngine.
Proof.
  split; [simpl; lia|intros h s; simpl; by rewrite lookup_empty|].
  intros h s. change (aDb exEngine) with ({[0 := exGenesis]} : gmap Z Snapshot).
  intros [<- <-]%lookup_singleton_Some. split; [reflexivity|]. split; [exact exGenesis_inv|reflexivity].
Qed.
Definition exSnapshot (n : Z) : ares (Alien * Snapshot) :=
  snapshot (RT := reference_runtime) (EN := unsignedEnv) (CR := unsignedChain) 1000 99 noCache 0 keepAll exEngine n n [] []
    defaultLoopCntRecalculateSigners.
Lemma snapshot_correct_witness :
  snapshot_inv (valueOf (exEngine, exGenesis) (exSnapshot 4)).2 /\
  sHash (valueOf (exEngine, exGenesis) (exSnapshot 4)).2 = 4.
Proof.
  destruct (snapshot_correct (RT := reference_runtime) (EN := unsignedEnv) (CR := unsignedChain) 1000 99 noCache 0 keepAll
    exEngine 4 4 [] [] defaultLoopCntRecalculateSigners
    (valueOf (exEngine, exGenesis) (exSnapshot 4)).1 (valueOf (exEngine, exGenesis) (exSnapshot 4)).2
    unsignedEnv_unsigned keepAll_forgets exEngine_inv) as (_ & H1 & H2);
    [split; [discriminate|reflexivity]|constructor|constructor|discriminate|run|].
  split; [exact H1|exact H2].
Defined.

(** A node of signer 12 makes block 4. *)
Definition exNode : Node unit := mkNode unit exEngine 12 (fun _ => Some (exSig 12)) (fun _ _ => None) 0 0.
Definition exDraft : Header := exHeader 4 <| hExtra := [] |>.
Definition exAccounts : StateDB.StateDB := StateDB.StateDB_New ∅.
Definition exFinalized : Alien * Header * StateDB.StateDB :=
  valueOf (exEngine, exDraft, exAccounts)
    (Finalize (RT := reference_runtime) (EN := exactEnv) (CR := exactChain) 10 99 noCache 0 keepAll
       (fun _ : StateDB.StateDB => 5) exEngine exDraft exAccounts [] []).
Definition exSealed : Node unit * option Header :=
  valueOf (exNode, None)
    (Seal (RT := reference_runtime) (EN := exactEnv) (CR := exactChain) 10 99 noCache 0 keepAll None None None None
       exNode exFinalized.1.2 0 false).
Definition exParentSnap : Alien * Snapshot :=
  valueOf (exEngine, exGenesis)
    (snapshot (RT := reference_runtime) (EN := exactEnv) (CR := exactChain) 10 99 noCache 0 keepAll exEngine 3 3 [] []
       defaultLoopCntRecalculateSigners).
Lemma exNode_signs : signs (EN := exactEnv) exNode.
Proof.
  intros hash sig [= <-]. split; [reflexivity|]. eexists. split; [reflexivity|].
  split; [vm_compute; discriminate|split; [vm_compute; discriminate|reflexivity]].
Qed.
(** The verifying node visits maps backwards and has another clock. *)
Lemma honest_block_accepted_witness : exists sealed,
  exSealed.2 = Some sealed /\
  (verifySeal (RT := reversed_runtime) (EN := exactEnv) (CR := exactChain) 1000 99 noCache 0 keepAll
     (getMainChainSnapshotByTime (CR := exactChain) None) exEngine sealed [] = Ok exParentSnap.1 \/
   verifySeal (RT := reversed_runtime) (EN := exactEnv) (CR := exactChain) 1000 99 noCache 0 keepAll
     (getMainChainSnapshotByTime (CR := exactChain) None) exEngine sealed [] = Err errInvalidNeighborSigner).
Proof.
  eexists. split; [vm_compute; reflexivity|].
  apply (honest_block_accepted (RT := reference_runtime) (EN := exactEnv) (CR := exactChain) 10 99 noCache 0 keepAll
    None None None None (fun _ : StateDB.StateDB => 5) reversed_runtime 1000 noCache keepAll None
    exNode exDraft exAccounts [] []
    exFinalized.1.1 exFinalized.1.2 exFinalized.2 4 (exHeader 3) (exExtra []) 0 exSealed.1 _
    exParentSnap.2 exParentSnap.1 exEngine exParentSnap.1);
    [exact exactEnv_inverse|exact exNode_signs|reflexivity|reflexivity|run|split; run|run..|discriminate].
Defined.

(** ** The account state *)
Definition exAccount : StateDB.Account := StateDB.mkAccount 0 50 0 0 1.
Definition exState : StateDB.StateDB := StateDB.StateDB_New {[1 := exAccount]}.
Definition exOps : list StateDB.op :=
  [StateDB.opAddBalance 1 5; StateDB.opSetState 2 3 4; StateDB.opSnapshot; StateDB.opSuicide 1; StateDB.opRevert 1;
   StateDB.opCreateAccount 1].
Definition allowed (base : Z) (o : StateDB.op) (s : StateDB.StateDB) : bool :=
  match o with
  | StateDB.opRevert id => base <? id
  | StateDB.opSuicide a => StateDB.GetContribution s a =? 0
  | _ => true
  end.
Fixpoint runOps (base : Z) (ops : list StateDB.op) (s : StateDB.StateDB) : StateDB.sres StateDB.StateDB :=
  match ops with
  | [] => Ok s
  | o :: ops => if allowed base o s then s' ← StateDB.exec o s; runOps base ops s' else Panic
  end.
Lemma runOps_steps base ops s s' : runOps base ops s = Ok s' -> rtc (StateDB.step base) s s'.
Proof.
  revert s. induction ops as [|o ops IH]; intros s; simpl; [by intros [= <-]|].
  destruct (allowed base o s) eqn:Ea; [|done]. intros (s1 & H1 & H)%bind_Ok_inv. eapply rtc_l; [|by apply IH].
  apply (StateDB.step_op base o); [done|intros id ->; simpl in Ea; lia|intros a ->; simpl in Ea; lia].
Qed.
Definition exAfter : StateDB.StateDB := valueOf exState (runOps 0 exOps (StateDB.StateDB_Snapshot exState).2).
Lemma exState_wf : StateDB.wf exState.
Proof. split; [intros a o; simpl; by rewrite lookup_empty|vm_compute; split; [discriminate|reflexivity]]. Qed.

Lemma RevertToSnapshot_restores_witness : exists s',
  StateDB.RevertToSnapshot 0 exAfter = Ok s' /\ StateDB.sequiv s' exState.
Proof.
  destruct (StateDB.RevertToSnapshot_restores exState exAfter exState_wf) as (s' & H1 & H2 & _);
    [constructor| |].
  - apply (runOps_steps 0 exOps). run.
  - exists s'. split; [exact H1|exact H2].
Defined.

Definition exGiver : StateDB.StateDB := StateDB.StateDB_New {[1 := StateDB.mkAccount 0 50 9 0 1]}.
Lemma suicide_revert_loses_contribution_witness : exists s',
  StateDB.RevertToSnapshot 0
    (StateDB.Suicide (StateDB.StateDB_Snapshot exGiver).2 1).1 = Ok s' /\
  StateDB.GetContribution exGiver 1 = 9 /\ StateDB.GetContribution s' 1 = 0 /\ StateDB.HasSuicided s' 1 = false.
Proof.
  destruct (StateDB.suicide_revert_loses_contribution exGiver 1
    (StateDB.newObject (StateDB.mkAccount 0 50 9 0 1))) as (s' & _ & H1 & H2 & H3 & _ & H4).
  - split; [intros a o; simpl; by rewrite lookup_empty|vm_compute; split; [discriminate|reflexivity]].
  - constructor.
  - reflexivity.
  - exists s'. split; [exact H1|]. split; [reflexivity|]. split; [exact H3|exact H4].
Defined.

(** ** Signer queues *)
Definition exQueue : list Address :=
  valueOf [] (createSignerQueue (RT := reference_runtime) exApplied).
Lemma exApplied_nodup : NoDup (HistoryHash exApplied).
Proof. apply (bool_decide_unpack _). vm_compute. exact I. Qed.
Lemma exApplied_not_official : ~ officialDraw exApplied.
Proof. intros (_ & H & _). vm_compute in H. discriminate. Qed.
Lemma createSignerQueue_deterministic_witness :
  @createSignerQueue reference_runtime exApplied = @createSignerQueue reversed_runtime exApplied.
Proof.
  apply (createSignerQueue_deterministic reference_runtime reversed_runtime exApplied);
    [vm_compute; split; [discriminate|reflexivity]|exact exApplied_nodup|exact exApplied_not_official].
Defined.
Lemma createSignerQueue_members_witness :
  glen exQueue = 3 /\ forall a, a ∈ exQueue -> a ∈ Signers exApplied.
Proof.
  apply (createSignerQueue_members (RT := reference_runtime) exApplied exQueue); [split; run|run].
Defined.
Lemma verifySignerQueue_iff_witness : verifySignerQueue (RT := reference_runtime) exApplied exQueue = Ok tt.
Proof. apply (verifySignerQueue_iff (RT := reference_runtime) exApplied exQueue); [split; run|run]. Defined.

(** Four candidates for three places. *)
Definition exRecalculate : Snapshot := exApplied <| Number := 29 |> <| Tally ::= <[14 := 100]> |>.
Lemma createSignerQueue_top_stake_witness : weightedStake exRecalculate 14 <= weightedStake exRecalculate 13.
Proof.
  apply (createSignerQueue_top_stake (RT := reference_runtime) exRecalculate
    (valueOf [] (createSignerQueue (RT := reference_runtime) exRecalculate)) 13 14);
    [split; run|run|intros (_ & H & _); vm_compute in H; discriminate|run| | |].
  - apply (bool_decide_unpack _). vm_compute. exact I.
  - apply (bool_decide_unpack _). vm_compute. exact I.
  - apply (bool_decide_unpack _). vm_compute. exact I.
Defined.

(** ** Votes, punishment, confirmations *)
Lemma exGenesis_tally : tally_inv exGenesis.
Proof. apply exGenesis_inv. Qed.
Lemma exVotes_lookup k v : Votes exGenesis !! k = Some v -> v = mkVote 11 11 1000 \/ v = mkVote 12 12 900 \/ v = mkVote 13 13 800.
Proof.
  change (Votes exGenesis) with ({[13 := mkVote 13 13 800; 12 := mkVote 12 12 900; 11 := mkVote 11 11 1000]} : gmap Z Vote).
  rewrite !lookup_insert_Some, lookup_singleton_Some.
  intros [[_ <-]|[_ [[_ <-]|[_ [_ <-]]]]]; auto.
Qed.
Lemma votes_progress_witness : exists s',
  (updateSnapshotByVotes [mkVote 12 11 70] 1 exGenesis ≫= updateSnapshotByMPVotes [mkVote 12 0 60]) = Ok s' /\
  tally_inv s'.
Proof.
  apply (votes_progress [mkVote 12 11 70] [mkVote 12 0 60] 1 exGenesis exGenesis_tally).
  - intros k v H. destruct (exVotes_lookup k v H) as [->|[->| ->]]; run.
  - repeat constructor; simpl; lia.
  - repeat constructor; simpl; lia.
Defined.

(** Signer 12 missed two slots. *)
Lemma updateSnapshotForPunish_spec_witness :
  default 0 (Punished (updateSnapshotForPunish (RT := reference_runtime) [12; 13; 12] 5 11 exGenesis) !! 12) = 199.
Proof.
  refine (proj1 (updateSnapshotForPunish_spec (RT := reference_runtime) [12; 13; 12] 5 11 exGenesis 12 _)).
  intros a p H. vm_compute in H. discriminate.
Defined.

Lemma getLastConfirmedBlockNumber_spec_witness :
  let r := getLastConfirmedBlockNumber
             [mkConfirmation 11 2; mkConfirmation 12 2; mkConfirmation 13 2] exApplied in
  1 <= r <= 2.
Proof.
  apply (getLastConfirmedBlockNumber_spec
    [mkConfirmation 11 2; mkConfirmation 12 2; mkConfirmation 13 2] exApplied);
    [intros n l H; vm_compute in H; discriminate|split; [vm_compute; discriminate|run]|vm_compute; discriminate|split; [vm_compute; discriminate|run]].
Defined.

(** ** Proposals *)

(** Two proposals on the miner reward: the first is received at block 1 for five
    loops, the second at block 22 for four; signer 5 declares for both at block
    30, and both are settled at block 107. *)
Definition rewardProposal (h received loops mrpt : Z) (declares : list Declare_) : Proposal :=
  mkProposal h received proposalDeposit loops proposalTypeMinerRewardDistributionModify 7 0 mrpt 0 1 0
    declares 100 10000 0 1 0.
Definition firstProposal : Proposal := rewardProposal 11 1 5 100 [mkDeclare 11 5 true].
Definition secondProposal : Proposal := rewardProposal 12 22 4 200 [mkDeclare 12 5 true].
Definition beforeProposals : Snapshot :=
  blankSnapshot sampleConfig <| Tally := {[ 5 := 1000 ]} |> <| Candidates := {[ 5 := candidateStateNormal ]} |>.
Definition twoRewardProposals : Snapshot :=
  beforeProposals <| pheap := [firstProposal; secondProposal] |> <| Proposals := {[ 11 := 0%nat; 12 := 1%nat ]} |>.
Example twoRewardProposals_received :
  updateSnapshotByDeclares [mkDeclare 11 5 true; mkDeclare 12 5 true] 30
    (updateSnapshotByProposals [rewardProposal 12 0 4 200 []] 22
      (updateSnapshotByProposals [rewardProposal 11 0 5 100 []] 1 beforeProposals)) = twoRewardProposals.
Proof. vm_compute. reflexivity. Qed.

Definition exSettled : Snapshot :=
  valueOf twoRewardProposals (calculateProposalResult (RT := reference_runtime) 107 twoRewardProposals).
Lemma two_heap : heap_wf twoRewardProposals.
Proof.
  intros h loc. change (Proposals twoRewardProposals) with ({[11 := 0%nat; 12 := 1%nat]} : gmap Z nat).
  rewrite lookup_insert_Some, lookup_singleton_Some. intros [[_ <-]|[_ [_ <-]]]; simpl; lia.
Qed.
Lemma calculateProposalResult_refunds_witness :
  dueTotal CurrentDeposit twoRewardProposals 107 7 <= refundOf exSettled 107 7.
Proof.
  apply (calculateProposalResult_refunds (RT := reference_runtime) 107 twoRewardProposals exSettled 7 11);
    [exact two_heap| |run|run].
  change (pheap twoRewardProposals) with [firstProposal; secondProposal].
  intros p [->|[->|[]%elem_of_nil]%elem_of_cons]%elem_of_cons; vm_compute; discriminate.
Defined.
Lemma calculateProposalResult_order_dependent_witness : exists (R1 R2 : GoRuntime) s1 s2,
  @calculateProposalResult R1 107 twoRewardProposals = Ok s1 /\
  @calculateProposalResult R2 107 twoRewardProposals = Ok s2 /\ MinerReward s1 = 100 /\ MinerReward s2 = 200.
Proof.
  destruct (calculateProposalResult_order_dependent 107 twoRewardProposals 11 firstProposal 12 secondProposal)
    as (R1 & R2 & s1 & s2 & H1 & H2 & H3 & H4 & _).
  - exact two_heap.
  - change (pheap twoRewardProposals) with [firstProposal; secondProposal].
    intros p [->|[->|[]%elem_of_nil]%elem_of_cons]%elem_of_cons; discriminate.
  - split; [run|]. split; [run|]. split; run.
  - split; [run|]. split; [run|]. split; run.
  - discriminate.
  - exists R1, R2, s1, s2. split; [exact H1|]. split; [exact H2|]. split; [exact H3|exact H4].
Defined.

Definition oneRewardProposal : Snapshot := twoRewardProposals <| Proposals := {[11 := 0%nat]} |>.
Lemma calculateProposalResult_deterministic_witness :
  @calculateProposalResult reference_runtime 107 oneRewardProposal = @calculateProposalResult reversed_runtime 107 oneRewardProposal.
Proof.
  apply (calculateProposalResult_deterministic reference_runtime reversed_runtime 107 oneRewardProposal).
  - intros h loc. change (Proposals oneRewardProposal) with ({[11 := 0%nat]} : gmap Z nat).
    rewrite lookup_singleton_Some. intros [_ <-]. simpl. lia.
  - intros h1 l1 h2 l2. change (Proposals oneRewardProposal) with ({[11 := 0%nat]} : gmap Z nat).
    rewrite !lookup_singleton_Some. by intros [<- _] [<- _].
Defined.

Lemma proposalPasses_supermajority_witness :
  2 * msum id (Tally twoRewardProposals) < 3 * declaredStake true twoRewardProposals firstProposal.
Proof.
  apply (proposalPasses_supermajority (RT := reference_runtime) twoRewardProposals firstProposal).
  - intros c t. change (Tally twoRewardProposals) with ({[5 := 1000]} : gmap Z Z).
    rewrite lookup_singleton_Some. intros [_ <-]. lia.
  - apply (bool_decide_unpack (NoDup [5])). exact I.
  - run.
Defined.

Lemma updateSnapshotByProposals_aliases_witness :
  getProposal (updateSnapshotByProposals [firstProposal; secondProposal] 9 exGenesis) 11 =
  Some (secondProposal <| ReceivedNumber := 9 |>).
Proof.
  apply (proj1 (updateSnapshotByProposals_aliases [firstProposal; secondProposal] 9 exGenesis
    secondProposal (good_heap _ (inv_good _ exGenesis_inv)) eq_refl) firstProposal).
  left.
Defined.

(** ** Rewards *)
Definition exLate : Snapshot := exGenesis <| Number := 9 |>.
Lemma tally_inv_number s n : tally_inv s -> tally_inv (s <| Number := n |>).
Proof. intros []. by split. Qed.
Lemma exLate_tally : tally_inv exLate.
Proof. apply tally_inv_number, exGenesis_tally. Qed.
Definition exRewards : gmap Z Z := valueOf ∅ (calculateVoteReward (RT := reference_runtime) exLate 11 77).
Lemma calculateVoteReward_shares_witness : 0 <= msum id exRewards <= 77.
Proof.
  destruct (calculateVoteReward_shares (RT := reference_runtime) exLate 11 77 exRewards exLate_tally) as (_ & _ & _ & H & _);
    [split; [discriminate|reflexivity]|split; [discriminate|reflexivity]| |discriminate|run|exact H].
  apply (bool_decide_unpack (map_Forall (fun _ n => 0 <= n <= Number exLate) (Voters exLate))). vm_compute. exact I.
Defined.
Lemma block_rewards_bounded_witness : issued (secondsPerYear / 3) 20 <= totalBlockReward.
Proof. apply (block_rewards_bounded 3 20). vm_compute. split; discriminate. Defined.

#[local] Instance exLedger : Balances StateDB.StateDB := StateDB_Balances (RT := reference_runtime).
Definition noRefund : RefundGas := ∅.
Definition exPaidBy (rt : GoRuntime) : StateDB.StateDB :=
  valueOf exAccounts (accumulateRewards (RT := rt) exConfig exAccounts (exHeader 3) exLate noRefund).
Lemma exPaidBy_run rt : rt = reference_runtime \/ rt = reversed_runtime ->
  accumulateRewards (RT := rt) exConfig exAccounts (exHeader 3) exLate noRefund = Ok (exPaidBy rt).
Proof. intros [->| ->]; run. Qed.
Lemma accumulateRewards_balances_witness : exists n, hNumber (exHeader 3) = Some n.
Proof.
  destruct (accumulateRewards_balances (RT := reference_runtime) exConfig exAccounts (exHeader 3) exLate noRefund
    (exPaidBy reference_runtime) (exPaidBy_run _ (or_introl eq_refl))) as (n & R & rewards & Hn & _).
  exists n. exact Hn.
Defined.
Lemma accumulateRewards_order_witness : exists st2,
  accumulateRewards (RT := reversed_runtime) exConfig exAccounts (exHeader 3) exLate noRefund = Ok st2 /\
  GetBalance (exPaidBy reference_runtime) 13 = GetBalance st2 13.
Proof.
  destruct (accumulateRewards_order reference_runtime reversed_runtime exConfig exAccounts (exHeader 3) exLate noRefund
    _ (exPaidBy_run _ (or_introl eq_refl))) as (st2 & H1 & H2).
  exists st2. split; [exact H1|exact (H2 13)].
Defined.

(** ** Transactions *)
Definition exRich : StateDB.StateDB := StateDB.StateDB_New {[21 := StateDB.mkAccount 0 (20000 * ether) 0 0 1]}.
Definition exTx (text : bytes) (to : option Address) : Transaction := mkTransaction 500 (Some 21) text to 0 1.
Lemma vote_event_panics_witness :
  foldM (processTx (EN := exactEnv) (CR := exactChain) minVoterBalance exConfig 1 None) [exTx (str "ufo:1:event:vote") None]
    (mkTxState emptyHeaderExtra exRich ∅) = Panic.
Proof.
  apply (vote_event_panics (EN := exactEnv) (CR := exactChain) minVoterBalance exConfig 5 exGenesis minVoterBalance
    (mkTxState emptyHeaderExtra exRich ∅) (exTx (str "ufo:1:event:vote") None) 21 []); run.
Defined.

Definition exProposalTx : Transaction := exTx (str "ufo:1:event:proposal:proposal_type:3:mrpt:500") (Some 21).
Definition exProposed : list Proposal * StateDB.StateDB :=
  valueOf ([], exRich) (processEventProposal minVoterBalance [] (Split (txData exProposalTx) colon) exRich exProposalTx 21 (Some exGenesis)).
Lemma exProposed_run :
  processEventProposal minVoterBalance [] (Split (txData exProposalTx) colon) exRich exProposalTx 21 (Some exGenesis) =
  Ok (exProposed.1, exProposed.2).
Proof. run. Qed.
Lemma processEventProposal_pays_witness :
  exists p, exProposed.1 = [p] /\ proposal_wf p /\ GetBalance exProposed.2 21 = GetBalance exRich 21 - (CurrentDeposit p + rentPaid p).
Proof.
  destruct (processEventProposal_pays minVoterBalance [] (Split (txData exProposalTx) colon) exRich exProposalTx 21
    (Some exGenesis) exProposed.1 exProposed.2 exProposed_run) as [[H _]|(p & H1 & H2 & _ & _ & H3 & _)].
  - vm_compute in H. discriminate.
  - exists p. split; [exact H1|]. split; [exact H2|exact H3].
Defined.

Definition exVoteTx : Transaction := exTx (str "ufo:1:event:vote") (Some 12).
Definition exCustom : HeaderExtra * StateDB.StateDB * gmap Z Z :=
  valueOf (emptyHeaderExtra, exRich, ∅)
    (processCustomTx (EN := exactEnv) (CR := exactChain) minVoterBalance exConfig emptyHeaderExtra 5 (Some exGenesis) exRich
       [exVoteTx] []).
Lemma exRich_solvent : solvent exRich.
Proof.
  intros b. change (0 <= StateDB.StateDB_GetBalance exRich b). unfold StateDB.StateDB_GetBalance, StateDB.lookupObject.
  change (StateDB.stateObjects exRich) with (∅ : gmap Z StateDB.stateObject). rewrite lookup_empty.
  change (StateDB.trie exRich) with ({[21 := StateDB.mkAccount 0 (20000 * ether) 0 0 1]} : gmap Z StateDB.Account).
  destruct (decide (b = 21)) as [->|Hb]; [rewrite lookup_singleton_eq; vm_compute; discriminate|].
  by rewrite lookup_singleton_ne by congruence.
Qed.
Lemma processCustomTx_votes_witness :
  Forall (fun v => minVoterBalance < Stake v) (CurrentBlockVotes exCustom.1.1) /\ length (CurrentBlockVotes exCustom.1.1) = 1%nat.
Proof.
  split; [|run].
  apply (processCustomTx_votes (EN := exactEnv) (CR := exactChain) minVoterBalance exConfig emptyHeaderExtra 5 exGenesis
    minVoterBalance exRich [exVoteTx] [] exCustom.1.1 exCustom.1.2 exCustom.2);
    [run|vm_compute; discriminate|exact exRich_solvent|run|run|run].
Defined.

Definition exConfirmData : bytes := buildSCEventConfirmData 77 12 36 (str "10#0xaa") [].
Lemma sc_confirm_roundtrip_witness : exists x,
  processData (EN := exactEnv) (CR := exactChain) minVoterBalance exConfig 5 (Some exGenesis)
    (mkTxState emptyHeaderExtra exRich ∅) (exTx exConfirmData None) 21 = Ok (x, false).
Proof.
  eexists. apply (sc_confirm_roundtrip (EN := exactEnv) (CR := exactChain) minVoterBalance exConfig 5 (Some exGenesis)
    emptyHeaderExtra exRich ∅ (exTx exConfirmData None) 21 77 12 36 (str "10#0xaa") []).
  - split; [discriminate|run].
  - apply (bool_decide_unpack _). vm_compute. exact I.
  - apply (bool_decide_unpack _). vm_compute. exact I.
  - reflexivity.
Defined.

(** ** Side chains *)
Definition exReport (coinbase : Address) : SCConfirmation :=
  mkSCConfirmation 77 coinbase 36 [str "35"; str "0xaa"; str "36"; str "0xbb"].
(** A period of three blocks: the coinbase of block 36 has sealed only this one. *)
Definition exRecord : SCRecord :=
  mkSCRecord {[36 := [exReport 11; exReport 12]]} 34 36 3 1 ∅.

Definition exNotices : Snapshot := exGenesis <| SCNoticeMap := {[77 := mkCCNotice ∅ ∅]} |>.
Lemma fresh_notices_inv s :
  SCNoticeMap s = {[77 := mkCCNotice ∅ ∅]} -> LocalNotice s = mkCCNotice ∅ ∅ -> notices_inv s.
Proof.
  unfold notices_inv. intros -> ->. split; [|split].
  - intros h n [_ <-]%lookup_singleton_Some k r. simpl. by rewrite lookup_empty.
  - intros k r. simpl. by rewrite lookup_empty.
  - intros k r. simpl. by rewrite lookup_empty.
Qed.
Lemma notices_quorum_witness : exists s1 s2,
  updateSnapshotByNoticeConfirm (RT := reference_runtime) [mkSCConfirmation 77 11 1 [str "charging"; str "0x05"]] 4 exNotices = Ok s1 /\
  updateSnapshotBySCCharging [mkGasCharging 11 5 77] 4 12 s1 = Ok s2.
Proof.
  destruct (notices_quorum (RT := reference_runtime) exNotices
    [mkSCConfirmation 77 11 1 [str "charging"; str "0x05"]] [mkGasCharging 11 5 77] 4 12) as (s1 & s2 & H1 & H2 & _).
  - apply fresh_notices_inv; reflexivity.
  - split; reflexivity.
  - exists s1, s2. split; [exact H1|exact H2].
Defined.

(** The second period in a row of one coinbase scores nothing. *)
Lemma score_full_period_witness :
  (fold_left (scoreStep 3 {[5 := 11; 6 := 11; 7 := 11]}) (seqZ 5 3) ({[11 := 100]}, 11, 3)).1.1 !! 11 = Some 100.
Proof.
  destruct (score_full_period 3 {[5 := 11; 6 := 11; 7 := 11]} {[11 := 100]} 11 3 11 4) as (score & H & _ & _ & H0);
    [discriminate|discriminate|reflexivity|split; [discriminate|reflexivity]| |].
  - intros i Hi. assert (i = 5 \/ i = 6 \/ i = 7) as [->|[->| ->]] by lia; run.
  - change (4 + 1) with 5 in H. rewrite H, H0; [run|discriminate].
Defined.

Definition exHostile : Snapshot :=
  exGenesis <| SCCoinbase := {[11 := {[77 := 21]}]} |> <| SCRecordMap := {[77 := exRecord]} |>.
Lemma updateSnapshotBySCConfirm_hang_witness :
  updateSnapshotBySCConfirm (RT := reference_runtime) [mkSCConfirmation 77 21 maxUint64 []] 2 exHostile = Hang.
Proof.
  apply (updateSnapshotBySCConfirm_hang (RT := reference_runtime) 2 exHostile (mkSCConfirmation 77 21 maxUint64 []) exRecord);
    [split; [discriminate|reflexivity]|run|run|run|vm_compute; discriminate|run|run|run].
Defined.

(** ** Missing signers and malformed queues *)
(** The cases of the repository's own test of [getSignerMissingTrantor] with a
    signer that seals again and with a queue of the grandparent, for the signers
    A, B, C as 11, 12, 13; and a queue of two signers that is written to. *)
Definition exQueues (last cur : Address) (q gp : list Address) : ares (list Address * list Address) :=
  getSignerMissingTrantor last cur (emptyHeaderExtra <| SignerQueue := q |>) (emptyHeaderExtra <| SignerQueue := gp |>).
Example trantor_cases :
  exQueues 13 13 [11; 12; 13] [] = Ok ([11; 12], [11; 12; 13]) /\
  exQueues 12 12 [11; 12; 13] [13; 11; 12] = Ok ([11], [11; 12; 13]) /\
  exQueues 11 13 [11; 12; 13] [13; 11; 12] = Ok ([], [11; 12; 13]) /\
  exQueues 13 11 [11; 12; 13] [13; 11; 12] = Ok ([12; 13], [11; 12; 13]) /\
  exQueues 12 11 [12; 11] [11; 12] = Ok ([12], [12; 12]).
Proof. split_and!; vm_compute; reflexivity. Qed.

(** Block 5 with a queue of one signer, by an outsider. *)
Definition exShort : Header :=
  exHeader 5 <| hCoinbase := 66 |>
    <| hExtra := replicate 32 0 ++ encodeExtra (emptyHeaderExtra <| SignerQueue := [11] |>) ++ exSig 66 |>.
Definition exSnap4 : Alien * Snapshot :=
  valueOf (exEngine, exGenesis) (snapshot (RT := reference_runtime) (EN := exactEnv) (CR := exactChain)
    1000 99 noCache 0 keepAll exEngine 4 4 [] [] defaultLoopCntRecalculateSigners).
Lemma short_queue_panics_witness :
  verifySeal (RT := reference_runtime) (EN := exactEnv) (CR := exactChain) 1000 99 noCache 0 keepAll
    (fun _ _ => Err errNotSideChain) exEngine exShort [] = Panic.
Proof.
  apply (short_queue_panics (RT := reference_runtime) (EN := exactEnv) (CR := exactChain) 1000 99 noCache 0 keepAll
    (fun _ _ => Err errNotSideChain) exEngine exSnap4.1 exSnap4.2 exShort [] 5 66 (exHeader 4) (exExtra [])
    (emptyHeaderExtra <| SignerQueue := [11] |>) 1);
    [run|vm_compute; discriminate|run|run|run|run|split; run|run|vm_compute; discriminate|run|run|run|run|simpl; lia|run].
Defined.

(** ** Queries by time *)
Lemma exChain_known : known (EN := exactEnv) (CR := exactChain) 6.
Proof.
  intros n Hn. simpl. unfold exByNumber, exLength. rewrite (proj2 (Z.leb_le 0 n)), (proj2 (Z.leb_le n 6)) by lia. by eexists.
Qed.
Lemma GetSnapshotByHeaderTime_finds_witness : exists n h,
  @GetHeaderByNumber exactEnv exactChain n = Some h /\ coversTime (EN := exactEnv) (CR := exactChain) 13 3 h.
Proof.
  destruct (GetSnapshotByHeaderTime_finds (RT := reference_runtime) (EN := exactEnv) (CR := exactChain) 1000 99 noCache 0
    keepAll exEngine (exHeader 6) 6 13 77 (exHeader 3)) as (n & h & _ & H1 & H2 & _);
    [run|split; vm_compute; discriminate|reflexivity|reflexivity|exact exChain_known|run
    |split; [discriminate|reflexivity]|].
  exists n, h. split; [exact H1|exact H2].
Defined.
Lemma GetSnapshotByHeaderTime_hangs_witness :
  GetSnapshotByHeaderTime (RT := reference_runtime) (EN := exactEnv) (CR := exactChain) 1000 99 noCache 0 keepAll
    (Some (exHeader 2)) exEngine 5 77 = Hang.
Proof.
  apply (GetSnapshotByHeaderTime_hangs (RT := reference_runtime) (EN := exactEnv) (CR := exactChain) 1000 99 noCache 0
    keepAll exEngine (exHeader 2) 2 5 77); [run|split; [discriminate|reflexivity]|run|run|run].
Defined.
Lemma side_chain_signer_witness : exists r,
  mcSnapshot (CR := sideChain) (getMainChainSnapshotByTime (CR := sideChain)
    (Some (fun (_ : Z) (_ : Hash) => Ok (scSnapshot (CR := exactChain) exGenesis (-1))))) 12 3 = Ok r.
Proof.
  apply (side_chain_signer (EN := exactEnv) (main := exactChain) (side := sideChain) exGenesis (exHeader 0) 12 3);
    [run|run|run|run|run|discriminate|split; discriminate|reflexivity|].
  exists 12. split; run.
Defined.
